(** * Heap snapshot analysis engine: a shallow embedding of HeapSnapshot.ts

    The flat integer arrays of the snapshot (nodes, containment edges and the
    arrays derived from them) are lists of [Z]; a typed-array read is [aget],
    a store is [aset], and the wrap-around of an unsigned 32-bit store is
    written out with [u32].  Loops of the form
    [for (i = a; i < b; i += d)] are folds over [range a b d]; worklist and
    fixed-point loops take fuel and report [OutOfFuel] when it runs out.
    Exceptions are the constructors of [error]. *)

From Stdlib Require Import ZArith List Lia Bool String Ascii DecimalString.
From Stdlib Require Import Permutation Sorted.
From stdpp Require Import base list gmap.

Local Open Scope Z_scope.

(** ** Typed arrays *)

Definition len (a : list Z) : Z := Z.of_nat (length a).

(** [a[i]]: a read outside the array is [undefined] in JavaScript.  The model
    gives 0, the value [undefined] takes when it is stored into an integer
    typed array or tested for truth. *)
Definition aget (a : list Z) (i : Z) : Z :=
  if i <? 0 then 0 else default 0 (a !! Z.to_nat i).

(** [a[i] = v]: a store outside a typed array is ignored. *)
Definition aset (a : list Z) (i v : Z) : list Z :=
  if (0 <=? i) && (i <? len a) then <[Z.to_nat i := v]> a else a.

Definition u32 (v : Z) : Z := v mod 4294967296.

(** A store into a [Uint32Array] (or [BigUint32Array.setValue]). *)
Definition aset32 (a : list Z) (i v : Z) : list Z := aset a i (u32 v).

(** [new Uint32Array(n)] and the like: [n] zeroes. *)
Definition new_array (n : Z) : list Z := replicate (Z.to_nat n) 0.

(** ** Results and loops *)

Inductive error : Type :=
| InvalidToNodeIndex (toNodeIndex : Z)
    (* 'Invalid toNodeIndex ' + toNodeIndex *)
| BFSFailed (nodesToVisitLength nodeCount : Z)
    (* 'BFS failed. Nodes to visit (..) is more than nodes count (..)' *)
| RootNotFirstOrLast
    (* 'Root node is expected to be either first or last' *)
| TooManyNodes
    (* 'Too many nodes for calculateShallowSizes' *)
| StringIndexOverflow
    (* 'String index overflow' *).

Inductive result (A : Type) : Type :=
| Ok (a : A)
| Throw (e : error)
| OutOfFuel.
Arguments Ok {A} a.
Arguments Throw {A} e.
Arguments OutOfFuel {A}.

#[global] Instance result_bind : MBind result := fun A B k m =>
  match m with
  | Ok a => k a
  | Throw e => Throw e
  | OutOfFuel => OutOfFuel
  end.

(** Number of iterations of [for (i = start; i < stop; i += step)]. *)
Definition iters (start stop step : Z) : nat :=
  Z.to_nat ((stop - start + step - 1) / step).

Definition range (start stop step : Z) : list Z :=
  map (fun k => start + Z.of_nat k * step) (seq 0 (iters start stop step)).

Definition for_range {S : Type} (start stop step : Z)
    (body : Z -> S -> S) (s : S) : S :=
  fold_left (fun s i => body i s) (range start stop step) s.

Fixpoint foldM {S : Type} (body : Z -> S -> result S) (l : list Z) (s : S)
    : result S :=
  match l with
  | [] => Ok s
  | i :: l' =>
      match body i s with
      | Ok s' => foldM body l' s'
      | Throw e => Throw e
      | OutOfFuel => OutOfFuel
      end
  end.

Definition for_rangeM {S : Type} (start stop step : Z)
    (body : Z -> S -> result S) (s : S) : result S :=
  foldM body (range start stop step) s.

(** ** The snapshot layout computed at the start of [initialize] *)

(** [Array.prototype.indexOf]: -1 when the element is absent. *)
Fixpoint indexOf (x : string) (l : list string) : Z :=
  match l with
  | [] => -1
  | y :: l' =>
      if String.eqb x y then 0
      else let r := indexOf x l' in if r <? 0 then -1 else r + 1
  end.

(** [snapshot.meta]; [node_types] and [edge_types] are the enumerations at the
    position of the [type] field. *)
Record Meta : Type := {
  node_fields : list string;
  node_types : list string;
  edge_fields : list string;
  edge_types : list string
}.

Record Profile : Type := {
  meta : Meta;
  p_nodes : list Z;
  p_edges : list Z;
  p_strings : list string;
  (** [snapshot.root_index], 0 when absent *)
  root_index : Z
}.

Record Layout : Type := {
  nodeTypeOffset : Z;
  nodeNameOffset : Z;
  nodeIdOffset : Z;
  nodeSelfSizeOffset : Z;
  nodeEdgeCountOffset : Z;
  nodeDetachednessAndClassIndexOffset : Z;
  nodeFieldCount : Z;
  nodeArrayType : Z;
  nodeHiddenType : Z;
  nodeObjectType : Z;
  nodeNativeType : Z;
  nodeCodeType : Z;
  nodeSyntheticType : Z;
  nodeClosureType : Z;
  nodeRegExpType : Z;
  edgeFieldsCount : Z;
  edgeTypeOffset : Z;
  edgeNameOffset : Z;
  edgeToNodeOffset : Z;
  edgeElementType : Z;
  edgeHiddenType : Z;
  edgeInternalType : Z;
  edgeShortcutType : Z;
  edgeWeakType : Z;
  edgeInvisibleType : Z;
  rootNodeIndexInternal : Z;
  nodeCount : Z;
  edgeCount : Z
}.

(** The first part of [initialize]: offsets and type codes from the meta
    information; [edgeTypes.push('invisible')] comes before the look-ups. *)
Definition layout_of (p : Profile) : Layout :=
  let m := meta p in
  let nodeTypes := node_types m in
  let edgeTypes := (edge_types m ++ ["invisible"%string])%list in
  let nfc := Z.of_nat (length (node_fields m)) in
  let efc := Z.of_nat (length (edge_fields m)) in
  {| nodeTypeOffset := indexOf "type" (node_fields m);
     nodeNameOffset := indexOf "name" (node_fields m);
     nodeIdOffset := indexOf "id" (node_fields m);
     nodeSelfSizeOffset := indexOf "self_size" (node_fields m);
     nodeEdgeCountOffset := indexOf "edge_count" (node_fields m);
     nodeDetachednessAndClassIndexOffset :=
       indexOf "detachedness" (node_fields m);
     nodeFieldCount := nfc;
     nodeArrayType := indexOf "array" nodeTypes;
     nodeHiddenType := indexOf "hidden" nodeTypes;
     nodeObjectType := indexOf "object" nodeTypes;
     nodeNativeType := indexOf "native" nodeTypes;
     nodeCodeType := indexOf "code" nodeTypes;
     nodeSyntheticType := indexOf "synthetic" nodeTypes;
     nodeClosureType := indexOf "closure" nodeTypes;
     nodeRegExpType := indexOf "regexp" nodeTypes;
     edgeFieldsCount := efc;
     edgeTypeOffset := indexOf "type" (edge_fields m);
     edgeNameOffset := indexOf "name_or_index" (edge_fields m);
     edgeToNodeOffset := indexOf "to_node" (edge_fields m);
     edgeElementType := indexOf "element" edgeTypes;
     edgeHiddenType := indexOf "hidden" edgeTypes;
     edgeInternalType := indexOf "internal" edgeTypes;
     edgeShortcutType := indexOf "shortcut" edgeTypes;
     edgeWeakType := indexOf "weak" edgeTypes;
     edgeInvisibleType := indexOf "invisible" edgeTypes;
     rootNodeIndexInternal := root_index p;
     nodeCount := len (p_nodes p) / nfc;
     edgeCount := len (p_edges p) / efc |}.

(** ** Bit vectors *)

(** Modelled from the spec: [Platform.TypedArrayUtilities.BitVector] is used by
    the engine but its source is not among the files at hand.  It is a vector
    of bits of fixed size with [getBit], [setBit], [clearBit], and
    [previous(index)], which returns the last bit before [index] that is set,
    or -1 if there is none (the dominator builder "scans affected bits from
    high to low" with it). *)
Abbreviation BitVector := (list bool).

Definition createBitVector (n : Z) : BitVector := replicate (Z.to_nat n) false.

Definition getBit (v : BitVector) (i : Z) : bool :=
  if i <? 0 then false else default false (v !! Z.to_nat i).

Definition putBit (v : BitVector) (i : Z) (b : bool) : BitVector :=
  if (0 <=? i) && (i <? Z.of_nat (length v)) then <[Z.to_nat i := b]> v else v.

Definition setBit (v : BitVector) (i : Z) : BitVector := putBit v i true.
Definition clearBit (v : BitVector) (i : Z) : BitVector := putBit v i false.

Fixpoint previous_from (v : BitVector) (k : nat) : Z :=
  match k with
  | O => -1
  | S k' => if getBit v (Z.of_nat k') then Z.of_nat k' else previous_from v k'
  end.

Definition previous (v : BitVector) (index : Z) : Z :=
  previous_from v (Z.to_nat index).

(** ** Strings and the WeakMap edge-name pattern *)

(** [strings[i]]; strings are sequences of 8-bit code units. *)
Definition sget (strings : list string) (i : Z) : string :=
  if i <? 0 then EmptyString else default EmptyString (strings !! Z.to_nat i).

Definition is_digit (c : ascii) : bool :=
  let n := nat_of_ascii c in (48 <=? n)%nat && (n <=? 57)%nat.

(** [.] does not match a line terminator. *)
Definition is_line_terminator (c : ascii) : bool :=
  let n := nat_of_ascii c in (n =? 10)%nat || (n =? 13)%nat.

(** The regular expression is run the way a backtracking matcher runs it:
    every piece takes the continuation that matches the rest of the pattern.
    The continuations answer with the groups of the match. *)
Section Regex.
Context {R : Type}.

(** A literal piece of the pattern. *)
Fixpoint lit (l : string) (k : string -> option R) (s : string) : option R :=
  match l with
  | EmptyString => k s
  | String c l' =>
      match s with
      | String d s' => if Ascii.eqb c d then lit l' k s' else None
      | EmptyString => None
      end
  end.

(** The rest of a greedy [\d+] after [taken]: one more digit first, the
    continuation on what was taken so far when that fails. *)
Fixpoint digits_more (k : string -> string -> option R) (taken : string)
    (s : string) : option R :=
  match s with
  | String c s' =>
      if is_digit c then
        match digits_more k (taken ++ String c EmptyString)%string s' with
        | Some r => Some r
        | None => k taken s
        end
      else k taken s
  | EmptyString => k taken s
  end.

(** [\d+]; the continuation receives the digits matched. *)
Definition digits1 (k : string -> string -> option R) (s : string)
    : option R :=
  match s with
  | String c s' =>
      if is_digit c then digits_more k (String c EmptyString) s' else None
  | EmptyString => None
  end.

(** [.*?]: the continuation first, one more character when that fails. *)
Fixpoint lazy_any (k : string -> option R) (s : string) : option R :=
  match k s with
  | Some r => Some r
  | None =>
      match s with
      | String c s' => if is_line_terminator c then None else lazy_any k s'
      | EmptyString => None
      end
  end.

(** [$] *)
Definition eos (r : R) (s : string) : option R :=
  match s with
  | EmptyString => Some r
  | String _ _ => None
  end.
End Regex.

(** [match.groups] of [ephemeronNameRegex]. *)
Record WeakMapEdgeName : Type := {
  duplicatedPart : string;
  tableId : string
}.

(** [/^\d+(?<duplicatedPart> \/ part of key \(.*? @\d+\) -> value \(.*? @\d+\)
      pair in WeakMap \(table @(?<tableId>\d+)\))$/] *)
Definition ephemeronNameRegex (edgeName : string) : option WeakMapEdgeName :=
  digits1 (fun _ dup =>
    let close := fun tid =>
      lit ")" (eos {| duplicatedPart := dup; tableId := tid |}) in
    let table := lit ") pair in WeakMap (table @" (digits1 close) in
    let value :=
      lit ") -> value (" (lazy_any (lit " @" (digits1 (fun _ => table)))) in
    lit " / part of key (" (lazy_any (lit " @" (digits1 (fun _ => value))))
      dup) edgeName.

(** [parseInt(s, 10)] on a string of decimal digits.  The value is exact; the
    double that JavaScript computes is exact below 2^53 and at least 2^53
    above, so comparing it with a 32-bit node id gives the same answer. *)
Fixpoint parse_digits (acc : Z) (s : string) : Z :=
  match s with
  | EmptyString => acc
  | String c s' => parse_digits (10 * acc + (Z.of_nat (nat_of_ascii c) - 48)) s'
  end.

Definition parseInt_digits (s : string) : Z := parse_digits 0 s.

(** [tryParseWeakMapEdgeName]; [notWeakMaps] is [#edgeNamesThatAreNotWeakMaps],
    the cache of the names that did not match.  A name index outside the
    string table does not occur in a well-formed snapshot. *)
Definition tryParseWeakMapEdgeName (strings : list string)
    (notWeakMaps : BitVector) (edgeNameIndex : Z)
    : option WeakMapEdgeName * BitVector :=
  if getBit notWeakMaps edgeNameIndex then (None, notWeakMaps)
  else
    match ephemeronNameRegex (sget strings edgeNameIndex) with
    | None => (None, setBit notWeakMaps edgeNameIndex)
    | Some groups => (Some groups, notWeakMaps)
    end.

(** [isEssentialEdge(nodeIndex, edgeIndex)]: whether the edge is considered
    when the post-order index and the dominator tree are built. *)
Definition isEssentialEdge (L : Layout) (nodes containmentEdges : list Z)
    (strings : list string) (notWeakMaps : BitVector)
    (nodeIndex edgeIndex : Z) : bool * BitVector :=
  let edgeType := aget containmentEdges (edgeIndex + edgeTypeOffset L) in
  let otherwise :=
    negb (edgeType =? edgeWeakType L)
    && (negb (edgeType =? edgeShortcutType L)
        || (nodeIndex =? rootNodeIndexInternal L)) in
  if edgeType =? edgeInternalType L then
    let edgeNameIndex := aget containmentEdges (edgeIndex + edgeNameOffset L) in
    match tryParseWeakMapEdgeName strings notWeakMaps edgeNameIndex with
    | (Some groups, cache) =>
        let nodeId := aget nodes (nodeIndex + nodeIdOffset L) in
        (negb (nodeId =? parseInt_digits (tableId groups)), cache)
    | (None, cache) => (otherwise, cache)
    end
  else (otherwise, notWeakMaps).

Definition S4_name : string :=
  "0 / part of key (K @5) -> value (V @7) pair in WeakMap (table @3)".

Example ephemeronNameRegex_S4 :
  ephemeronNameRegex S4_name
  = Some {| duplicatedPart :=
              " / part of key (K @5) -> value (V @7) pair in WeakMap (table @3)";
            tableId := "3" |}.
Proof. vm_compute. reflexivity. Qed.

Example ephemeronNameRegex_backtracks :
  option_map tableId (ephemeronNameRegex
    "12 / part of key (a @1) b @22) -> value (x) -> value (y @9) pair in WeakMap (table @0450)")
  = Some "0450"%string.
Proof. vm_compute. reflexivity. Qed.

Example ephemeronNameRegex_no_match :
  ephemeronNameRegex "7 / part of key (K @5) -> value (V @7) pair in WeakMap (table @)" = None.
Proof. vm_compute. reflexivity. Qed.

(** ** Edge indexes and retainers *)

(** [buildEdgeIndexes]: the result is [firstEdgeIndexes]. *)
Definition buildEdgeIndexes (L : Layout) (nodes containmentEdges : list Z)
    : list Z :=
  let firstEdgeIndexes :=
    aset32 (new_array (nodeCount L + 1)) (nodeCount L) (len containmentEdges) in
  snd (for_range 0 (nodeCount L) 1
         (fun nodeOrdinal '(edgeIndex, firstEdgeIndexes) =>
            (edgeIndex
             + aget nodes (nodeOrdinal * nodeFieldCount L + nodeEdgeCountOffset L)
               * edgeFieldsCount L,
             aset32 firstEdgeIndexes nodeOrdinal edgeIndex))
         (0, firstEdgeIndexes)).

Record Retainers : Type := {
  retainingNodes : list Z;
  retainingEdges : list Z;
  firstRetainerIndex : list Z
}.

(** First loop of [buildRetainers]: count the references to every node. *)
Definition countRetainers (L : Layout) (containmentEdges : list Z)
    (firstRetainerIndex : list Z) : result (list Z) :=
  for_rangeM (edgeToNodeOffset L) (len containmentEdges) (edgeFieldsCount L)
    (fun toNodeFieldIndex firstRetainerIndex =>
       let toNodeIndex := aget containmentEdges toNodeFieldIndex in
       if negb (toNodeIndex mod nodeFieldCount L =? 0) then
         Throw (InvalidToNodeIndex toNodeIndex)
       else
         let i := toNodeIndex / nodeFieldCount L in
         Ok (aset32 firstRetainerIndex i (aget firstRetainerIndex i + 1)))
    firstRetainerIndex.

(** Second loop: counts become offsets; the count of every bucket is parked
    in the first slot of the bucket in [retainingNodes]. *)
Definition layoutRetainers (L : Layout)
    (firstRetainerIndex retainingNodes : list Z) : list Z * list Z :=
  let '(_, firstRetainerIndex, retainingNodes) :=
    for_range 0 (nodeCount L) 1
      (fun i '(firstUnusedRetainerSlot, firstRetainerIndex, retainingNodes) =>
         let retainersCount := aget firstRetainerIndex i in
         let firstRetainerIndex :=
           aset32 firstRetainerIndex i firstUnusedRetainerSlot in
         let retainingNodes :=
           aset32 retainingNodes firstUnusedRetainerSlot retainersCount in
         (firstUnusedRetainerSlot + retainersCount,
          firstRetainerIndex, retainingNodes))
      (0, firstRetainerIndex, retainingNodes) in
  (aset32 firstRetainerIndex (nodeCount L) (len retainingNodes), retainingNodes).

(** Body of the innermost loop of the third pass: [--retainingNodes[slot]]
    stores the decremented counter and yields it. *)
Definition fillRetainer (L : Layout) (containmentEdges firstRetainerIndex : list Z)
    (srcNodeIndex edgeIndex : Z) (st : list Z * list Z)
    : result (list Z * list Z) :=
  let '(retainingNodes, retainingEdges) := st in
  let toNodeIndex := aget containmentEdges (edgeIndex + edgeToNodeOffset L) in
  if negb (toNodeIndex mod nodeFieldCount L =? 0) then
    Throw (InvalidToNodeIndex toNodeIndex)
  else
    let firstRetainerSlotIndex :=
      aget firstRetainerIndex (toNodeIndex / nodeFieldCount L) in
    let counter := aget retainingNodes firstRetainerSlotIndex - 1 in
    let retainingNodes := aset32 retainingNodes firstRetainerSlotIndex counter in
    let nextUnusedRetainerSlotIndex := firstRetainerSlotIndex + counter in
    Ok (aset32 retainingNodes nextUnusedRetainerSlotIndex srcNodeIndex,
        aset32 retainingEdges nextUnusedRetainerSlotIndex edgeIndex).

Definition fillRetainers (L : Layout)
    (containmentEdges firstEdgeIndexes firstRetainerIndex : list Z)
    (retainingNodes retainingEdges : list Z) : result (list Z * list Z) :=
  '(_, st) ← for_rangeM 0 (nodeCount L) 1
    (fun srcNodeOrdinal '(nextNodeFirstEdgeIndex, st) =>
       let firstEdgeIndex := nextNodeFirstEdgeIndex in
       let nextNodeFirstEdgeIndex := aget firstEdgeIndexes (srcNodeOrdinal + 1) in
       let srcNodeIndex := srcNodeOrdinal * nodeFieldCount L in
       st' ← for_rangeM firstEdgeIndex nextNodeFirstEdgeIndex (edgeFieldsCount L)
                (fillRetainer L containmentEdges firstRetainerIndex srcNodeIndex)
                st;
       Ok (nextNodeFirstEdgeIndex, st'))
    (aget firstEdgeIndexes 0, (retainingNodes, retainingEdges));
  Ok st.

(** [buildRetainers]; the three arrays are allocated in [initialize]. *)
Definition buildRetainers (L : Layout) (containmentEdges firstEdgeIndexes : list Z)
    : result Retainers :=
  let retainingNodes := new_array (edgeCount L) in
  let retainingEdges := new_array (edgeCount L) in
  let firstRetainerIndex := new_array (nodeCount L + 1) in
  firstRetainerIndex ← countRetainers L containmentEdges firstRetainerIndex;
  let '(firstRetainerIndex, retainingNodes) :=
    layoutRetainers L firstRetainerIndex retainingNodes in
  '(retainingNodes, retainingEdges) ←
    fillRetainers L containmentEdges firstEdgeIndexes firstRetainerIndex
      retainingNodes retainingEdges;
  Ok {| retainingNodes := retainingNodes;
        retainingEdges := retainingEdges;
        firstRetainerIndex := firstRetainerIndex |}.

(** ** Post-order index *)

(** [userObjectsMapAndFlag()]: [None] for [null], else the flag map and the
    bit to test.  [hasFlag] is [!flags || (flags[ordinal] & flag)]. *)
Definition hasFlag (flags : option (list Z * Z)) (ordinal : Z) : bool :=
  match flags with
  | None => true
  | Some (map, flag) => negb (Z.land (aget map ordinal) flag =? 0)
  end.

(** [hasOnlyWeakRetainers(nodeOrdinal)] *)
Definition hasOnlyWeakRetainers (L : Layout) (containmentEdges : list Z)
    (R : Retainers) (nodeOrdinal : Z) : bool :=
  let beginRetainerIndex := aget (firstRetainerIndex R) nodeOrdinal in
  let endRetainerIndex := aget (firstRetainerIndex R) (nodeOrdinal + 1) in
  forallb
    (fun retainerIndex =>
       let retainerEdgeIndex := aget (retainingEdges R) retainerIndex in
       let retainerEdgeType :=
         aget containmentEdges (retainerEdgeIndex + edgeTypeOffset L) in
       (retainerEdgeType =? edgeWeakType L)
       || (retainerEdgeType =? edgeShortcutType L))
    (range beginRetainerIndex endRetainerIndex 1).

Record PostOrder : Type := {
  stackNodes : list Z;
  stackCurrentEdge : list Z;
  postOrderIndex2NodeOrdinal : list Z;
  nodeOrdinal2PostOrderIndex : list Z;
  visited : list Z;
  postOrderIndex : Z;
  stackTop : Z;
  (** [#edgeNamesThatAreNotWeakMaps], written by [isEssentialEdge] *)
  notWeakMaps : BitVector
}.

Section PostOrderIndex.
Variable L : Layout.
Variables nodes containmentEdges : list Z.
Variable strings : list string.
Variable firstEdgeIndexes : list Z.
Variable R : Retainers.
Variable flags : option (list Z * Z).

Definition rootNodeOrdinal : Z := rootNodeIndexInternal L / nodeFieldCount L.

(** One turn of [while (stackTop >= 0)]. *)
Definition dfs_step (st : PostOrder) : PostOrder :=
  let nodeOrdinal := aget (stackNodes st) (stackTop st) in
  let edgeIndex := aget (stackCurrentEdge st) (stackTop st) in
  let edgesEnd := aget firstEdgeIndexes (nodeOrdinal + 1) in
  if edgeIndex <? edgesEnd then
    let stackCurrentEdge' :=
      aset32 (stackCurrentEdge st) (stackTop st)
        (aget (stackCurrentEdge st) (stackTop st) + edgeFieldsCount L) in
    let '(essential, cache) :=
      isEssentialEdge L nodes containmentEdges strings (notWeakMaps st)
        (nodeOrdinal * nodeFieldCount L) edgeIndex in
    let skip :=
      {| stackNodes := stackNodes st;
         stackCurrentEdge := stackCurrentEdge';
         postOrderIndex2NodeOrdinal := postOrderIndex2NodeOrdinal st;
         nodeOrdinal2PostOrderIndex := nodeOrdinal2PostOrderIndex st;
         visited := visited st;
         postOrderIndex := postOrderIndex st;
         stackTop := stackTop st;
         notWeakMaps := cache |} in
    if negb essential then skip
    else
      let childNodeIndex :=
        aget containmentEdges (edgeIndex + edgeToNodeOffset L) in
      let childNodeOrdinal := childNodeIndex / nodeFieldCount L in
      if negb (aget (visited st) childNodeOrdinal =? 0) then skip
      else
        let nodeFlag := hasFlag flags nodeOrdinal in
        let childNodeFlag := hasFlag flags childNodeOrdinal in
        if negb (nodeOrdinal =? rootNodeOrdinal) && childNodeFlag
           && negb nodeFlag
        then skip
        else
          let stackTop' := stackTop st + 1 in
          {| stackNodes := aset32 (stackNodes st) stackTop' childNodeOrdinal;
             stackCurrentEdge :=
               aset32 stackCurrentEdge' stackTop'
                 (aget firstEdgeIndexes childNodeOrdinal);
             postOrderIndex2NodeOrdinal := postOrderIndex2NodeOrdinal st;
             nodeOrdinal2PostOrderIndex := nodeOrdinal2PostOrderIndex st;
             visited := aset (visited st) childNodeOrdinal 1;
             postOrderIndex := postOrderIndex st;
             stackTop := stackTop';
             notWeakMaps := cache |}
  else
    {| stackNodes := stackNodes st;
       stackCurrentEdge := stackCurrentEdge st;
       postOrderIndex2NodeOrdinal :=
         aset32 (postOrderIndex2NodeOrdinal st) (postOrderIndex st) nodeOrdinal;
       nodeOrdinal2PostOrderIndex :=
         aset32 (nodeOrdinal2PostOrderIndex st) nodeOrdinal (postOrderIndex st);
       visited := visited st;
       postOrderIndex := postOrderIndex st + 1;
       stackTop := stackTop st - 1;
       notWeakMaps := notWeakMaps st |}.

Fixpoint dfs_loop (fuel : nat) (st : PostOrder) : result PostOrder :=
  if stackTop st <? 0 then Ok st
  else
    match fuel with
    | O => OutOfFuel
    | S fuel' => dfs_loop fuel' (dfs_step st)
    end.

(** Every turn of the loop advances an edge cursor or pops a frame. *)
Definition dfs_fuel : nat := Z.to_nat (len containmentEdges + nodeCount L + 1).

(** Start of the second round: the root goes back to the bottom of the stack
    with its edges exhausted, and every unvisited node that has only weak
    (or shortcut) retainers is pushed. *)
Definition pushOrphans (st : PostOrder) : PostOrder :=
  let st0 :=
    {| stackNodes := aset32 (stackNodes st) 0 rootNodeOrdinal;
       stackCurrentEdge :=
         aset32 (stackCurrentEdge st) 0
           (aget firstEdgeIndexes (rootNodeOrdinal + 1));
       postOrderIndex2NodeOrdinal := postOrderIndex2NodeOrdinal st;
       nodeOrdinal2PostOrderIndex := nodeOrdinal2PostOrderIndex st;
       visited := visited st;
       postOrderIndex := postOrderIndex st - 1;
       stackTop := 0;
       notWeakMaps := notWeakMaps st |} in
  for_range 0 (nodeCount L) 1
    (fun i st =>
       if negb (aget (visited st) i =? 0)
          || negb (hasOnlyWeakRetainers L containmentEdges R i)
       then st
       else
         let stackTop' := stackTop st + 1 in
         {| stackNodes := aset32 (stackNodes st) stackTop' i;
            stackCurrentEdge :=
              aset32 (stackCurrentEdge st) stackTop' (aget firstEdgeIndexes i);
            postOrderIndex2NodeOrdinal := postOrderIndex2NodeOrdinal st;
            nodeOrdinal2PostOrderIndex := nodeOrdinal2PostOrderIndex st;
            visited := aset (visited st) i 1;
            postOrderIndex := postOrderIndex st;
            stackTop := stackTop';
            notWeakMaps := notWeakMaps st |})
    st0.

(** [while (true)] with its [iteration] counter. *)
Fixpoint postOrderRounds (rounds : nat) (iteration : Z) (st : PostOrder)
    : result PostOrder :=
  match rounds with
  | O => OutOfFuel
  | S rounds' =>
      let iteration := iteration + 1 in
      st ← dfs_loop dfs_fuel st;
      if (postOrderIndex st =? nodeCount L) || (iteration >? 1) then Ok st
      else postOrderRounds rounds' iteration (pushOrphans st)
  end.

(** The nodes that are still unreached get a post-order index anyway, and
    the root comes last. *)
Definition appendUnreachable (st : PostOrder) : PostOrder :=
  if postOrderIndex st =? nodeCount L then st
  else
    let '(p2o, o2p, poi) :=
      for_range 0 (nodeCount L) 1
        (fun i '(p2o, o2p, poi) =>
           if negb (aget (visited st) i =? 0) then (p2o, o2p, poi)
           else (aset32 p2o poi i, aset32 o2p i poi, poi + 1))
        (postOrderIndex2NodeOrdinal st, nodeOrdinal2PostOrderIndex st,
         postOrderIndex st - 1) in
    {| stackNodes := stackNodes st;
       stackCurrentEdge := stackCurrentEdge st;
       postOrderIndex2NodeOrdinal := aset32 p2o poi rootNodeOrdinal;
       nodeOrdinal2PostOrderIndex := aset32 o2p rootNodeOrdinal poi;
       visited := visited st;
       postOrderIndex := poi + 1;
       stackTop := stackTop st;
       notWeakMaps := notWeakMaps st |}.

Definition buildPostOrderIndex (cache : BitVector) : result PostOrder :=
  let nodeCount := nodeCount L in
  let st :=
    {| stackNodes := aset32 (new_array nodeCount) 0 rootNodeOrdinal;
       stackCurrentEdge :=
         aset32 (new_array nodeCount) 0 (aget firstEdgeIndexes rootNodeOrdinal);
       postOrderIndex2NodeOrdinal := new_array nodeCount;
       nodeOrdinal2PostOrderIndex := new_array nodeCount;
       visited := aset (new_array nodeCount) rootNodeOrdinal 1;
       postOrderIndex := 0;
       stackTop := 0;
       notWeakMaps := cache |} in
  st ← postOrderRounds 2 0 st;
  Ok (appendUnreachable st).
End PostOrderIndex.

(** ** Dominator tree *)

Record Dominators : Type := {
  dominators : list Z;
  affected : BitVector;
  changed : bool;
  (** [#edgeNamesThatAreNotWeakMaps] *)
  domCache : BitVector
}.

Section DominatorTree.
Variable L : Layout.
Variables nodes containmentEdges : list Z.
Variable strings : list string.
Variable firstEdgeIndexes : list Z.
Variable R : Retainers.
Variable flags : option (list Z * Z).
Variables postOrderIndex2NodeOrdinal nodeOrdinal2PostOrderIndex : list Z.

Definition nodesCount : Z := len postOrderIndex2NodeOrdinal.
Definition rootPostOrderedIndex : Z := nodesCount - 1.
Definition noEntry : Z := nodesCount.

(** The two-finger walk
    [while (a !== b) { while (a < b) a = dominators[a];
                       while (b < a) b = dominators[b]; }].
    A finger that reaches [noEntry] reads [undefined], every comparison with
    it fails and the loop never ends. *)
Fixpoint intersect (fuel : nat) (doms : list Z) (a b : Z) : result Z :=
  if a =? b then Ok a
  else
    match fuel with
    | O => OutOfFuel
    | S fuel' =>
        if a <? b then
          if a <? len doms
          then intersect fuel' doms (aget doms a) b
          else OutOfFuel
        else
          if b <? len doms
          then intersect fuel' doms a (aget doms b)
          else OutOfFuel
    end.

(** State of the loop over the retainers of one node; [stop] is set by
    [break]. *)
Record RetainerScan : Type := {
  newDominatorIndex : Z;
  orphanNode : bool;
  stop : bool;
  scanCache : BitVector
}.

Definition scanRetainer (fuel : nat) (doms : list Z) (nodeFlag : bool)
    (retainerIndex : Z) (sc : RetainerScan) : result RetainerScan :=
  if stop sc then Ok sc
  else
    let retainerEdgeIndex := aget (retainingEdges R) retainerIndex in
    let retainerNodeIndex := aget (retainingNodes R) retainerIndex in
    let '(essential, cache) :=
      isEssentialEdge L nodes containmentEdges strings (scanCache sc)
        retainerNodeIndex retainerEdgeIndex in
    if negb essential then
      Ok {| newDominatorIndex := newDominatorIndex sc;
            orphanNode := orphanNode sc;
            stop := false;
            scanCache := cache |}
    else
      let retainerNodeOrdinal := retainerNodeIndex / nodeFieldCount L in
      let retainerNodeFlag := hasFlag flags retainerNodeOrdinal in
      if negb (retainerNodeIndex =? rootNodeIndexInternal L) && nodeFlag
         && negb retainerNodeFlag
      then
        Ok {| newDominatorIndex := newDominatorIndex sc;
              orphanNode := false;
              stop := false;
              scanCache := cache |}
      else
        let retainerPostOrderIndex :=
          aget nodeOrdinal2PostOrderIndex retainerNodeOrdinal in
        if negb (aget doms retainerPostOrderIndex =? noEntry) then
          newDominatorIndex' ←
            (if newDominatorIndex sc =? noEntry then Ok retainerPostOrderIndex
             else intersect fuel doms retainerPostOrderIndex
                    (newDominatorIndex sc));
          Ok {| newDominatorIndex := newDominatorIndex';
                orphanNode := false;
                stop := newDominatorIndex' =? rootPostOrderedIndex;
                scanCache := cache |}
        else
          Ok {| newDominatorIndex := newDominatorIndex sc;
                orphanNode := false;
                stop := false;
                scanCache := cache |}.

(** Body of the loop over the affected post-order indexes. *)
Definition processAffected (fuel : nat) (postOrderIndex : Z) (st : Dominators)
    : result Dominators :=
  let affected := clearBit (affected st) postOrderIndex in
  if aget (dominators st) postOrderIndex =? rootPostOrderedIndex then
    Ok {| dominators := dominators st;
          affected := affected;
          changed := changed st;
          domCache := domCache st |}
  else
    let nodeOrdinal := aget postOrderIndex2NodeOrdinal postOrderIndex in
    let nodeFlag := hasFlag flags nodeOrdinal in
    let beginRetainerIndex := aget (firstRetainerIndex R) nodeOrdinal in
    let endRetainerIndex := aget (firstRetainerIndex R) (nodeOrdinal + 1) in
    sc ← for_rangeM beginRetainerIndex endRetainerIndex 1
            (scanRetainer fuel (dominators st) nodeFlag)
            {| newDominatorIndex := noEntry;
               orphanNode := true;
               stop := false;
               scanCache := domCache st |};
    let newDominatorIndex :=
      if orphanNode sc then rootPostOrderedIndex else newDominatorIndex sc in
    if negb (newDominatorIndex =? noEntry)
       && negb (aget (dominators st) postOrderIndex =? newDominatorIndex)
    then
      let beginEdgeToNodeFieldIndex :=
        aget firstEdgeIndexes nodeOrdinal + edgeToNodeOffset L in
      let endEdgeToNodeFieldIndex := aget firstEdgeIndexes (nodeOrdinal + 1) in
      Ok {| dominators :=
              aset32 (dominators st) postOrderIndex newDominatorIndex;
            affected :=
              for_range beginEdgeToNodeFieldIndex endEdgeToNodeFieldIndex
                (edgeFieldsCount L)
                (fun toNodeFieldIndex affected =>
                   let childNodeOrdinal :=
                     aget containmentEdges toNodeFieldIndex / nodeFieldCount L in
                   setBit affected
                     (aget nodeOrdinal2PostOrderIndex childNodeOrdinal))
                affected;
            changed := true;
            domCache := scanCache sc |}
    else
      Ok {| dominators := dominators st;
            affected := affected;
            changed := changed st;
            domCache := scanCache sc |}.

(** [for (i = affected.previous(root); i >= 0; i = affected.previous(i))];
    [i] decreases, so [scan] turns are enough from [i < scan]. *)
Fixpoint scanAffected (scan : nat) (fuel : nat) (postOrderIndex : Z)
    (st : Dominators) : result Dominators :=
  if postOrderIndex <? 0 then Ok st
  else
    match scan with
    | O => OutOfFuel
    | S scan' =>
        st' ← processAffected fuel postOrderIndex st;
        scanAffected scan' fuel (previous (affected st') postOrderIndex) st'
    end.

(** [while (changed)] *)
Fixpoint dominatorLoop (fuel : nat) (walk : nat) (st : Dominators)
    : result Dominators :=
  if changed st then
    match fuel with
    | O => OutOfFuel
    | S fuel' =>
        let st0 :=
          {| dominators := dominators st;
             affected := affected st;
             changed := false;
             domCache := domCache st |} in
        st' ← scanAffected (Z.to_nat nodesCount) walk
                (previous (affected st0) rootPostOrderedIndex) st0;
        dominatorLoop fuel' walk st'
    end
  else Ok st.

(** The root's direct children are affected to start with. *)
Definition markRootChildren (cache : BitVector) : BitVector * BitVector :=
  let nodeOrdinal := rootNodeIndexInternal L / nodeFieldCount L in
  let endEdgeIndex := aget firstEdgeIndexes (nodeOrdinal + 1) in
  for_range (aget firstEdgeIndexes nodeOrdinal) endEdgeIndex (edgeFieldsCount L)
    (fun edgeIndex '(affected, cache) =>
       let '(essential, cache) :=
         isEssentialEdge L nodes containmentEdges strings cache
           (rootNodeIndexInternal L) edgeIndex in
       if negb essential then (affected, cache)
       else
         let childNodeOrdinal :=
           aget containmentEdges (edgeIndex + edgeToNodeOffset L)
           / nodeFieldCount L in
         (setBit affected (aget nodeOrdinal2PostOrderIndex childNodeOrdinal),
          cache))
    (createBitVector nodesCount, cache).

(** The last loop: from post-order indexes back to node ordinals.  An entry
    still at [noEntry] reads [postOrderIndex2NodeOrdinal] out of range, and
    the [undefined] is stored as 0. *)
Definition toDominatorsTree (doms : list Z) : list Z :=
  for_range 0 (len doms) 1
    (fun postOrderIndex dominatorsTree =>
       let nodeOrdinal := aget postOrderIndex2NodeOrdinal postOrderIndex in
       aset32 dominatorsTree nodeOrdinal
         (aget postOrderIndex2NodeOrdinal (aget doms postOrderIndex)))
    (new_array nodesCount).

(** [buildDominatorTree]; [fuel] bounds the turns of [while (changed)] and
    the steps of every two-finger walk.  The result is [dominatorsTree] and
    the cache of edge names. *)
Definition buildDominatorTree (fuel : nat) (cache : BitVector)
    : result (list Z * BitVector) :=
  let doms :=
    aset32
      (for_range 0 rootPostOrderedIndex 1
         (fun i doms => aset32 doms i noEntry)
         (new_array nodesCount))
      rootPostOrderedIndex rootPostOrderedIndex in
  let '(affected, cache) := markRootChildren cache in
  st ← dominatorLoop fuel fuel
         {| dominators := doms;
            affected := affected;
            changed := true;
            domCache := cache |};
  Ok (toDominatorsTree (dominators st), domCache st).
End DominatorTree.

(** ** Retained sizes and dominated nodes *)

(** [calculateRetainedSizes]: [retainedSizes] is a [Float64Array]; the sums of
    self sizes are integers, exact in a double below 2^53. *)
Definition calculateRetainedSizes (L : Layout) (nodes dominatorsTree : list Z)
    (postOrderIndex2NodeOrdinal : list Z) : list Z :=
  let retainedSizes :=
    for_range 0 (nodeCount L) 1
      (fun nodeOrdinal retainedSizes =>
         aset retainedSizes nodeOrdinal
           (aget nodes (nodeOrdinal * nodeFieldCount L + nodeSelfSizeOffset L)))
      (new_array (nodeCount L)) in
  for_range 0 (nodeCount L - 1) 1
    (fun postOrderIndex retainedSizes =>
       let nodeOrdinal := aget postOrderIndex2NodeOrdinal postOrderIndex in
       let dominatorOrdinal := aget dominatorsTree nodeOrdinal in
       aset retainedSizes dominatorOrdinal
         (aget retainedSizes dominatorOrdinal + aget retainedSizes nodeOrdinal))
    retainedSizes.

(** [a / b === k] for the quotient that JavaScript computes (not rounded). *)
Definition quotient_is (a b k : Z) : bool := (0 <? b) && (a =? k * b).

(** [buildDominatedNodes]: the result is [firstDominatedNodeIndex] and
    [dominatedNodes]. *)
Definition buildDominatedNodes (L : Layout) (dominatorsTree : list Z)
    : result (list Z * list Z) :=
  let indexArray := new_array (nodeCount L + 1) in
  let dominatedNodes := new_array (nodeCount L - 1) in
  '(fromNodeOrdinal, toNodeOrdinal) ←
    (if quotient_is (rootNodeIndexInternal L) (nodeFieldCount L) 0
     then Ok (1, nodeCount L)
     else if quotient_is (rootNodeIndexInternal L) (nodeFieldCount L)
               (nodeCount L - 1)
     then Ok (0, nodeCount L - 1)
     else Throw RootNotFirstOrLast);
  let indexArray :=
    for_range fromNodeOrdinal toNodeOrdinal 1
      (fun nodeOrdinal indexArray =>
         let d := aget dominatorsTree nodeOrdinal in
         aset32 indexArray d (aget indexArray d + 1))
      indexArray in
  let '(_, indexArray, dominatedNodes) :=
    for_range 0 (nodeCount L) 1
      (fun i '(firstDominatedNodeIndex, indexArray, dominatedNodes) =>
         let dominatedCount := aget indexArray i in
         let dominatedNodes :=
           aset32 dominatedNodes firstDominatedNodeIndex dominatedCount in
         let indexArray := aset32 indexArray i firstDominatedNodeIndex in
         (firstDominatedNodeIndex + dominatedCount, indexArray, dominatedNodes))
      (0, indexArray, dominatedNodes) in
  let indexArray := aset32 indexArray (nodeCount L) (len dominatedNodes) in
  let dominatedNodes :=
    for_range fromNodeOrdinal toNodeOrdinal 1
      (fun nodeOrdinal dominatedNodes =>
         let dominatorOrdinal := aget dominatorsTree nodeOrdinal in
         let dominatedRefIndex := aget indexArray dominatorOrdinal in
         let counter := aget dominatedNodes dominatedRefIndex - 1 in
         let dominatedNodes := aset32 dominatedNodes dominatedRefIndex counter in
         aset32 dominatedNodes (dominatedRefIndex + counter)
           (nodeOrdinal * nodeFieldCount L))
      dominatedNodes in
  Ok (indexArray, dominatedNodes).

(** ** Nodes and edges of a JS heap snapshot *)

Section Accessors.
Variable L : Layout.
Variables nodes containmentEdges : list Z.
Variable strings : list string.

Definition rawType (nodeIndex : Z) : Z := aget nodes (nodeIndex + nodeTypeOffset L).
Definition isHidden (nodeIndex : Z) : bool := rawType nodeIndex =? nodeHiddenType L.
Definition isArray (nodeIndex : Z) : bool := rawType nodeIndex =? nodeArrayType L.
Definition isSynthetic (nodeIndex : Z) : bool :=
  rawType nodeIndex =? nodeSyntheticType L.
Definition isRoot (nodeIndex : Z) : bool := nodeIndex =? rootNodeIndexInternal L.
Definition rawName (nodeIndex : Z) : string :=
  sget strings (aget nodes (nodeIndex + nodeNameOffset L)).

(** [JSHeapSnapshotNode.isUserRoot] *)
Definition node_isUserRoot (nodeIndex : Z) : bool := negb (isSynthetic nodeIndex).

(** [isDocumentDOMTreesRoot]: a synthetic node is not a concatenated string,
    so its [name()] is its [rawName()]. *)
Definition isDocumentDOMTreesRoot (nodeIndex : Z) : bool :=
  isSynthetic nodeIndex && String.eqb (rawName nodeIndex) "(Document DOM trees)".

(** [JSHeapSnapshot.isUserRoot] *)
Definition JS_isUserRoot (nodeIndex : Z) : bool :=
  node_isUserRoot nodeIndex || isDocumentDOMTreesRoot nodeIndex.

Definition edge_rawType (edgeIndex : Z) : Z :=
  aget containmentEdges (edgeIndex + edgeTypeOffset L).
Definition edge_nodeIndex (edgeIndex : Z) : Z :=
  aget containmentEdges (edgeIndex + edgeToNodeOffset L).
Definition nameOrIndex (edgeIndex : Z) : Z :=
  aget containmentEdges (edgeIndex + edgeNameOffset L).
Definition edge_isWeak (edgeIndex : Z) : bool :=
  edge_rawType edgeIndex =? edgeWeakType L.
Definition edge_isInternal (edgeIndex : Z) : bool :=
  edge_rawType edgeIndex =? edgeInternalType L.
Definition edge_isShortcut (edgeIndex : Z) : bool :=
  edge_rawType edgeIndex =? edgeShortcutType L.
Definition hasStringNameInternal (edgeIndex : Z) : bool :=
  negb (edge_rawType edgeIndex =? edgeElementType L)
  && negb (edge_rawType edgeIndex =? edgeHiddenType L).

(** [String(n)] for an integer. *)
Definition string_of_Z (n : Z) : string := NilZero.string_of_int (Z.to_int n).

Definition is_space (c : ascii) : bool :=
  let n := nat_of_ascii c in
  (n =? 32)%nat || ((9 <=? n)%nat && (n <=? 13)%nat) || (n =? 160)%nat.

Fixpoint skip_spaces (s : string) : string :=
  match s with
  | String c s' => if is_space c then skip_spaces s' else s
  | EmptyString => s
  end.

Fixpoint leading_digits (s : string) : string :=
  match s with
  | String c s' => if is_digit c then String c (leading_digits s') else EmptyString
  | EmptyString => EmptyString
  end.

(** [parseInt(s, 10)]; [None] is [NaN]. *)
Definition parseInt (s : string) : option Z :=
  let s := skip_spaces s in
  let '(sign, s) :=
    match s with
    | String "-"%char s' => (-1, s')
    | String "+"%char s' => (1, s')
    | _ => (1, s)
    end in
  match leading_digits s with
  | EmptyString => None
  | ds => Some (sign * parseInt_digits ds)
  end.

(** [JSHeapSnapshotEdge.name()] *)
Definition edge_name (edgeIndex : Z) : string :=
  if hasStringNameInternal edgeIndex then
    let name := sget strings (nameOrIndex edgeIndex) in
    if negb (edge_isShortcut edgeIndex) then name
    else
      match parseInt name with
      | Some numName => string_of_Z numName
      | None => name
      end
  else string_of_Z (nameOrIndex edgeIndex).

(** The edges of a node, as [node.edges()] iterates them. *)
Definition edgesOf (firstEdgeIndexes : list Z) (nodeOrdinal : Z) : list Z :=
  range (aget firstEdgeIndexes nodeOrdinal)
    (aget firstEdgeIndexes (nodeOrdinal + 1)) (edgeFieldsCount L).
End Accessors.

(** ** Distances *)

Definition noDistance : Z := -5.

(** Modelled from the spec: [HeapSnapshotModel.baseSystemDistance], declared
    outside the sources at hand; the spec gives
    [BASE_SYSTEM_DISTANCE = 100_000_000]. *)
Definition baseSystemDistance : Z := 100000000.

Record Bfs (FS : Type) : Type := {
  nodesToVisit : list Z;
  nodesToVisitLength : Z;
  distances : list Z;
  (** what the filter closure has captured *)
  filterState : FS
}.
Arguments nodesToVisit {FS} _.
Arguments nodesToVisitLength {FS} _.
Arguments distances {FS} _.
Arguments filterState {FS} _.

Section Distances.
Variable L : Layout.
Variables nodes containmentEdges : list Z.
Variable firstEdgeIndexes : list Z.
Variable isUserRoot : Z -> bool.
Context {FS : Type}.
(** [filter(node, edge)]; [None] when no filter is supplied.  The filter of
    [JSHeapSnapshot] keeps state between calls. *)
Variable filter : option (FS -> Z -> Z -> bool * FS).

(** Body of the loop over the edges of the node taken from the queue.
    [distances] is an [Int32Array]; a distance is at most
    [baseSystemDistance] plus the number of nodes, which is below 2^31 for the
    snapshots the format can hold, and it is stored as it is. *)
Definition bfs_edge (nodeIndex distance edgeIndex : Z) (st : Bfs FS) : Bfs FS :=
  let edgeType := aget containmentEdges (edgeIndex + edgeTypeOffset L) in
  if edgeType =? edgeWeakType L then st
  else
    let childNodeIndex := aget containmentEdges (edgeIndex + edgeToNodeOffset L) in
    let childNodeOrdinal := childNodeIndex / nodeFieldCount L in
    if negb (aget (distances st) childNodeOrdinal =? noDistance) then st
    else
      let '(accepted, fs) :=
        match filter with
        | None => (true, filterState st)
        | Some f => f (filterState st) nodeIndex edgeIndex
        end in
      if negb accepted then
        {| nodesToVisit := nodesToVisit st;
           nodesToVisitLength := nodesToVisitLength st;
           distances := distances st;
           filterState := fs |}
      else
        {| nodesToVisit :=
             aset32 (nodesToVisit st) (nodesToVisitLength st) childNodeIndex;
           nodesToVisitLength := nodesToVisitLength st + 1;
           distances := aset (distances st) childNodeOrdinal distance;
           filterState := fs |}.

Definition bfs_visit (index : Z) (st : Bfs FS) : Bfs FS :=
  let nodeIndex := aget (nodesToVisit st) index in
  let nodeOrdinal := nodeIndex / nodeFieldCount L in
  let distance := aget (distances st) nodeOrdinal + 1 in
  let firstEdgeIndex := aget firstEdgeIndexes nodeOrdinal in
  let edgesEnd := aget firstEdgeIndexes (nodeOrdinal + 1) in
  for_range firstEdgeIndex edgesEnd (edgeFieldsCount L)
    (bfs_edge nodeIndex distance) st.

(** [while (index < nodesToVisitLength)].  Once the queue has been written
    past its end the code reads [undefined] from it and the model reads 0;
    [bfs] throws in that case, in the code and in the model. *)
Fixpoint bfs_loop (fuel : nat) (index : Z) (st : Bfs FS) : result (Bfs FS) :=
  if index <? nodesToVisitLength st then
    match fuel with
    | O => OutOfFuel
    | S fuel' => bfs_loop fuel' (index + 1) (bfs_visit index st)
    end
  else Ok st.

(** A node enters the queue when its distance is set, so the queue never
    holds more than the seeds and one entry per node. *)
Definition bfs_fuel : nat := Z.to_nat (len containmentEdges + nodeCount L + 1).

Definition bfs (st : Bfs FS) : result (Bfs FS) :=
  st' ← bfs_loop bfs_fuel 0 st;
  if nodesToVisitLength st' >? nodeCount L
  then Throw (BFSFailed (nodesToVisitLength st') (nodeCount L))
  else Ok st'.

(** [calculateDistances(false, filter)]: the result is [nodeDistances] and
    the state the filter is left in. *)
Definition calculateDistances (fs : FS) : result (list Z * FS) :=
  let nodeCount := nodeCount L in
  let noDistances :=
    for_range 0 nodeCount 1 (fun i a => aset a i noDistance)
      (new_array nodeCount) in
  let rootOrdinal := rootNodeIndexInternal L / nodeFieldCount L in
  let st :=
    for_range (aget firstEdgeIndexes rootOrdinal)
      (aget firstEdgeIndexes (rootOrdinal + 1)) (edgeFieldsCount L)
      (fun edgeIndex st =>
         let nodeIndex := aget containmentEdges (edgeIndex + edgeToNodeOffset L) in
         if isUserRoot nodeIndex then
           {| nodesToVisit :=
                aset32 (nodesToVisit st) (nodesToVisitLength st) nodeIndex;
              nodesToVisitLength := nodesToVisitLength st + 1;
              distances :=
                aset (distances st) (nodeIndex / nodeFieldCount L) 1;
              filterState := filterState st |}
         else st)
      {| nodesToVisit := new_array nodeCount;
         nodesToVisitLength := 0;
         distances := noDistances;
         filterState := fs |} in
  st1 ← bfs st;
  let st2 :=
    {| nodesToVisit := aset32 (nodesToVisit st1) 0 (rootNodeIndexInternal L);
       nodesToVisitLength := 1;
       distances :=
         aset (distances st1) rootOrdinal
           (if nodesToVisitLength st >? 0 then baseSystemDistance else 0);
       filterState := filterState st1 |} in
  st3 ← bfs st2;
  Ok (distances st3, filterState st3).
End Distances.

(** The filter of [JSHeapSnapshot.calculateDistances]; its state is the set
    [pendingEphemeronEdges] and the cache of edge names. *)
Definition JS_distanceFilter (L : Layout) (nodes containmentEdges : list Z)
    (strings : list string) (fs : list string * BitVector)
    (nodeIndex edgeIndex : Z) : bool * (list string * BitVector) :=
  let '(pendingEphemeronEdges, cache) := fs in
  let name := edge_name L containmentEdges strings edgeIndex in
  if isHidden L nodes nodeIndex
     && String.eqb name "sloppy_function_map"
     && String.eqb (rawName L nodes strings nodeIndex) "system / NativeContext"
  then (false, fs)
  else if isArray L nodes nodeIndex
          && String.eqb (rawName L nodes strings nodeIndex) "(map descriptors)"
  then
    match parseInt name with
    | Some index => ((index <? 2) || negb (index mod 3 =? 1), fs)
    | None => (true, fs)
    end
  else if edge_isInternal L containmentEdges edgeIndex then
    match tryParseWeakMapEdgeName strings cache
            (nameOrIndex L containmentEdges edgeIndex) with
    | (Some groups, cache) =>
        let dup := duplicatedPart groups in
        if existsb (String.eqb dup) pendingEphemeronEdges then
          (true,
           (List.filter (fun s => negb (String.eqb dup s)) pendingEphemeronEdges,
            cache))
        else (false, (dup :: pendingEphemeronEdges, cache))
    | (None, cache) => (true, (pendingEphemeronEdges, cache))
    end
  else (true, fs).

(** ** Page-owned nodes *)

Definition pageObjectFlag : Z := 4.

Section PageOwnedNodes.
Variable L : Layout.
Variables nodes containmentEdges : list Z.
Variable strings : list string.
Variable firstEdgeIndexes : list Z.

(** State of the worklist of [markPageOwnedNodes]:
    [(nodesToVisit, nodesToVisitLength, flags)]. *)
Definition markPage (nodeOrdinal : Z) (st : list Z * Z * list Z)
    : list Z * Z * list Z :=
  let '(toVisit, n, flags) := st in
  (aset32 toVisit n nodeOrdinal, n + 1,
   aset32 flags nodeOrdinal (Z.lor (aget flags nodeOrdinal) pageObjectFlag)).

Definition pageEntryPoints (flags : list Z) : list Z * Z * list Z :=
  let rootNodeOrdinal := rootNodeIndexInternal L / nodeFieldCount L in
  for_range (aget firstEdgeIndexes rootNodeOrdinal)
    (aget firstEdgeIndexes (rootNodeOrdinal + 1)) (edgeFieldsCount L)
    (fun edgeIndex st =>
       let edgeType := aget containmentEdges (edgeIndex + edgeTypeOffset L) in
       let nodeIndex := aget containmentEdges (edgeIndex + edgeToNodeOffset L) in
       if (if edgeType =? edgeElementType L
           then negb (isDocumentDOMTreesRoot L nodes strings nodeIndex)
           else negb (edgeType =? edgeShortcutType L))
       then st
       else markPage (nodeIndex / nodeFieldCount L) st)
    (new_array (nodeCount L), 0, flags).

Fixpoint markReachable (fuel : nat) (st : list Z * Z * list Z)
    : result (list Z) :=
  let '(toVisit, n, flags) := st in
  if n =? 0 then Ok flags
  else
    match fuel with
    | O => OutOfFuel
    | S fuel' =>
        let n := n - 1 in
        let nodeOrdinal := aget toVisit n in
        markReachable fuel'
          (for_range (aget firstEdgeIndexes nodeOrdinal)
             (aget firstEdgeIndexes (nodeOrdinal + 1)) (edgeFieldsCount L)
             (fun edgeIndex st =>
                let childNodeIndex :=
                  aget containmentEdges (edgeIndex + edgeToNodeOffset L) in
                let childNodeOrdinal := childNodeIndex / nodeFieldCount L in
                if negb (Z.land (aget (snd st) childNodeOrdinal) pageObjectFlag
                         =? 0)
                then st
                else if aget containmentEdges (edgeIndex + edgeTypeOffset L)
                        =? edgeWeakType L
                then st
                else markPage childNodeOrdinal st)
             (toVisit, n, flags))
    end.

(** [markPageOwnedNodes] on a fresh [flags] array.  [calculateFlags] also
    runs [markDetachedDOMTreeNodes] and [markQueriableHeapObjects]; they set
    the bits 2 and 1 of the same array and leave [pageObject] alone. *)
Definition markPageOwnedNodes : result (list Z) :=
  markReachable (Z.to_nat (len containmentEdges + nodeCount L + 1))
    (pageEntryPoints (new_array (nodeCount L))).
End PageOwnedNodes.

(** ** DOM state *)

Definition Unknown : Z := 0.
Definition Attached : Z := 1.
Definition Detached : Z := 2.
Definition BITMASK_FOR_DOM_LINK_STATE : Z := 3.

Record DomState : Type := {
  dom_nodes : list Z;
  dom_strings : list string;
  dom_visited : list Z;
  attached : list Z;
  detached : list Z;
  stringIndexCache : gmap Z Z
}.

Section DOMState.
Variable L : Layout.
Variable containmentEdges : list Z.
Variable firstEdgeIndexes : list Z.

(** [node.detachedness()], for a snapshot with a detachedness field *)
Definition detachedness (nodes : list Z) (nodeIndex : Z) : Z :=
  Z.land (aget nodes (nodeIndex + nodeDetachednessAndClassIndexOffset L))
    BITMASK_FOR_DOM_LINK_STATE.

(** [node.setDetachedness(state)] *)
Definition setDetachedness (nodes : list Z) (nodeIndex state : Z) : list Z :=
  let value := aget nodes (nodeIndex + nodeDetachednessAndClassIndexOffset L) in
  let value := Z.land value (Z.lnot BITMASK_FOR_DOM_LINK_STATE) in
  let value := Z.lor value state in
  aset32 nodes (nodeIndex + nodeDetachednessAndClassIndexOffset L) value.

(** [addDetachedPrefixToNodeName] *)
Definition addDetachedPrefixToNodeName (nodeIndex : Z) (st : DomState)
    : DomState :=
  let oldStringIndex := aget (dom_nodes st) (nodeIndex + nodeNameOffset L) in
  let '(newStringIndex, strings, cache) :=
    match stringIndexCache st !! oldStringIndex with
    | Some i => (i, dom_strings st, stringIndexCache st)
    | None =>
        let i := Z.of_nat (length (dom_strings st)) in
        (i,
         (dom_strings st
            ++ [("Detached " ++ sget (dom_strings st) oldStringIndex)%string])%list,
         <[oldStringIndex := i]> (stringIndexCache st))
    end in
  {| dom_nodes :=
       aset32 (dom_nodes st) (nodeIndex + nodeNameOffset L) newStringIndex;
     dom_strings := strings;
     dom_visited := dom_visited st;
     attached := attached st;
     detached := detached st;
     stringIndexCache := cache |}.

Definition markVisited (nodeOrdinal : Z) (st : DomState) : DomState :=
  {| dom_nodes := dom_nodes st;
     dom_strings := dom_strings st;
     dom_visited := aset (dom_visited st) nodeOrdinal 1;
     attached := attached st;
     detached := detached st;
     stringIndexCache := stringIndexCache st |}.

(** [processNode(snapshot, nodeOrdinal, newState)] *)
Definition processNode (nodeOrdinal newState : Z) (st : DomState) : DomState :=
  if negb (aget (dom_visited st) nodeOrdinal =? 0) then st
  else
    let nodeIndex := nodeOrdinal * nodeFieldCount L in
    if negb (aget (dom_nodes st) (nodeIndex + nodeTypeOffset L)
             =? nodeNativeType L)
    then markVisited nodeOrdinal st
    else
      let st1 :=
        {| dom_nodes := setDetachedness (dom_nodes st) nodeIndex newState;
           dom_strings := dom_strings st;
           dom_visited := dom_visited st;
           attached := attached st;
           detached := detached st;
           stringIndexCache := stringIndexCache st |} in
      let st2 :=
        if newState =? Attached then
          {| dom_nodes := dom_nodes st1;
             dom_strings := dom_strings st1;
             dom_visited := dom_visited st1;
             attached := nodeOrdinal :: attached st1;
             detached := detached st1;
             stringIndexCache := stringIndexCache st1 |}
        else if newState =? Detached then
          let st' := addDetachedPrefixToNodeName nodeIndex st1 in
          {| dom_nodes := dom_nodes st';
             dom_strings := dom_strings st';
             dom_visited := dom_visited st';
             attached := attached st';
             detached := nodeOrdinal :: detached st';
             stringIndexCache := stringIndexCache st' |}
        else st1 in
      markVisited nodeOrdinal st2.

(** [propagateState], through [iterateFilteredChildren] *)
Definition propagateState (parentNodeOrdinal newState : Z) (st : DomState)
    : DomState :=
  for_range (aget firstEdgeIndexes parentNodeOrdinal)
    (aget firstEdgeIndexes (parentNodeOrdinal + 1)) (edgeFieldsCount L)
    (fun edgeIndex st =>
       let childNodeIndex :=
         aget containmentEdges (edgeIndex + edgeToNodeOffset L) in
       let childNodeOrdinal := childNodeIndex / nodeFieldCount L in
       let type := aget containmentEdges (edgeIndex + edgeTypeOffset L) in
       if (type =? edgeHiddenType L) || (type =? edgeInvisibleType L)
          || (type =? edgeWeakType L)
       then st
       else processNode childNodeOrdinal newState st)
    st.

(** [while (attached.length !== 0)] *)
Fixpoint propagateAttached (fuel : nat) (st : DomState) : result DomState :=
  match attached st with
  | [] => Ok st
  | nodeOrdinal :: rest =>
      match fuel with
      | O => OutOfFuel
      | S fuel' =>
          propagateAttached fuel'
            (propagateState nodeOrdinal Attached
               {| dom_nodes := dom_nodes st;
                  dom_strings := dom_strings st;
                  dom_visited := dom_visited st;
                  attached := rest;
                  detached := detached st;
                  stringIndexCache := stringIndexCache st |})
      end
  end.

(** [while (detached.length !== 0)] *)
Fixpoint propagateDetached (fuel : nat) (st : DomState) : result DomState :=
  match detached st with
  | [] => Ok st
  | nodeOrdinal :: rest =>
      match fuel with
      | O => OutOfFuel
      | S fuel' =>
          let st' :=
            {| dom_nodes := dom_nodes st;
               dom_strings := dom_strings st;
               dom_visited := dom_visited st;
               attached := attached st;
               detached := rest;
               stringIndexCache := stringIndexCache st |} in
          if detachedness (dom_nodes st') (nodeOrdinal * nodeFieldCount L)
             =? Attached
          then propagateDetached fuel' st'
          else propagateDetached fuel' (propagateState nodeOrdinal Detached st')
      end
  end.

(** Every node enters a queue at most once. *)
Definition dom_fuel : nat := Z.to_nat (nodeCount L + 1).

Definition seedDOMState (nodes : list Z) (strings : list string) : DomState :=
  for_range 0 (nodeCount L) 1
    (fun nodeOrdinal st =>
       let state := detachedness (dom_nodes st) (nodeOrdinal * nodeFieldCount L) in
       if state =? Unknown then st else processNode nodeOrdinal state st)
    {| dom_nodes := nodes;
       dom_strings := strings;
       dom_visited := new_array (nodeCount L);
       attached := [];
       detached := [];
       stringIndexCache := ∅ |}.

(** [propagateDOMState]: the result is the node array and the string table. *)
Definition propagateDOMState (nodes : list Z) (strings : list string)
    : result (list Z * list string) :=
  if nodeDetachednessAndClassIndexOffset L =? -1 then Ok (nodes, strings)
  else
    st ← propagateAttached dom_fuel (seedDOMState nodes strings);
    st ← propagateDetached dom_fuel st;
    Ok (dom_nodes st, dom_strings st).
End DOMState.

(** ** The class index, kept in the same field as the DOM state *)

Definition SHIFT_FOR_CLASS_INDEX : Z := 2.

(** [node.classIndex()]: [>>>] reads its operand as an unsigned 32-bit
    integer. *)
Definition classIndex (L : Layout) (nodes : list Z) (nodeIndex : Z) : Z :=
  Z.shiftr (u32 (aget nodes (nodeIndex + nodeDetachednessAndClassIndexOffset L)))
    SHIFT_FOR_CLASS_INDEX.

(** [node.setClassIndex(index)], for a snapshot with a detachedness field;
    [<<] and [|=] work on the low 32 bits, which is what the store keeps. *)
Definition setClassIndex (L : Layout) (nodes : list Z) (nodeIndex index : Z)
    : result (list Z) :=
  let value := aget nodes (nodeIndex + nodeDetachednessAndClassIndexOffset L) in
  let value := Z.land value BITMASK_FOR_DOM_LINK_STATE in
  let value := Z.lor value (Z.shiftl index SHIFT_FOR_CLASS_INDEX) in
  let nodes := aset32 nodes (nodeIndex + nodeDetachednessAndClassIndexOffset L) value in
  if classIndex L nodes nodeIndex =? index then Ok nodes
  else Throw StringIndexOverflow.

(** [maxJsNodeId]: the greatest odd id, 0 when there is none. *)
Definition maxJsNodeId (L : Layout) (nodes : list Z) : Z :=
  for_range (nodeIdOffset L) (len nodes) (nodeFieldCount L)
    (fun nodeIndex id =>
       let nextId := aget nodes nodeIndex in
       if nextId mod 2 =? 0 then id
       else if id <? nextId then nextId else id)
    0.

(** ** Problem reports *)

(** [new HeapSnapshotProblemReport(title)]: the state is [#errors]. *)
Definition newProblemReport (title : string) : list string := [title].

(** [addError(error)] *)
Definition addError (error : string) (errors : list string) : list string :=
  if 100 <? Z.of_nat (length errors) then errors else errors ++ [error].

(** [toString()]: [errors.join('\n  ')] *)
Definition problemReport_toString (errors : list string) : string :=
  String.concat (String (ascii_of_nat 10) "  ") errors.

(** ** Shallow sizes *)

Definition kUnvisited : Z := 4294967295.
Definition kHasMultipleOwners : Z := 4294967294.

Section ShallowSizes.
Variable L : Layout.
Variable containmentEdges : list Z.
Variable strings : list string.
Variable firstEdgeIndexes : list Z.

(** [#hasUserRoots] *)
Definition hasUserRoots (nodes : list Z) : bool :=
  existsb
    (fun edgeIndex =>
       JS_isUserRoot L nodes strings (edge_nodeIndex L containmentEdges edgeIndex))
    (edgesOf L firstEdgeIndexes (rootNodeIndexInternal L / nodeFieldCount L)).

(** First loop: hidden and array nodes start unvisited, every other node
    owns itself and enters the worklist. *)
Definition initialOwners (nodes : list Z) : list Z * list Z :=
  for_range 0 (nodeCount L) 1
    (fun i '(owners, worklist) =>
       let nodeIndex := i * nodeFieldCount L in
       if isHidden L nodes nodeIndex || isArray L nodes nodeIndex
       then (aset32 owners i kUnvisited, worklist)
       else (aset32 owners i i, i :: worklist))
    (new_array (nodeCount L), []).

(** The [switch] on [owners[targetId]] for one outgoing edge. *)
Definition updateOwner (owner edgeIndex : Z) (st : list Z * list Z)
    : list Z * list Z :=
  let '(owners, worklist) := st in
  if edge_isWeak L containmentEdges edgeIndex then st
  else
    let targetId := edge_nodeIndex L containmentEdges edgeIndex / nodeFieldCount L in
    let current := aget owners targetId in
    if current =? kUnvisited then (aset32 owners targetId owner, targetId :: worklist)
    else if (current =? targetId) || (current =? owner)
            || (current =? kHasMultipleOwners)
    then st
    else (aset32 owners targetId kHasMultipleOwners, targetId :: worklist).

(** [while (worklist.length !== 0)] *)
Fixpoint propagateOwners (fuel : nat) (st : list Z * list Z) : result (list Z) :=
  let '(owners, worklist) := st in
  match worklist with
  | [] => Ok owners
  | id :: rest =>
      match fuel with
      | O => OutOfFuel
      | S fuel' =>
          let owner := aget owners id in
          propagateOwners fuel'
            (fold_left (fun st edgeIndex => updateOwner owner edgeIndex st)
               (edgesOf L firstEdgeIndexes id) (owners, rest))
      end
  end.

(** Last loop: the self size of an owned node moves to its owner. *)
Definition transferSizes (owners nodes : list Z) : list Z :=
  for_range 0 (nodeCount L) 1
    (fun i nodes =>
       let ownerId := aget owners i in
       if (ownerId =? kUnvisited) || (ownerId =? kHasMultipleOwners)
          || (ownerId =? i)
       then nodes
       else
         let ownedNodeIndex := i * nodeFieldCount L in
         let ownerNodeIndex := ownerId * nodeFieldCount L in
         if isSynthetic L nodes ownerNodeIndex || isRoot L ownerNodeIndex
         then nodes
         else
           let sizeToTransfer :=
             aget nodes (ownedNodeIndex + nodeSelfSizeOffset L) in
           let nodes :=
             aset32 nodes (ownedNodeIndex + nodeSelfSizeOffset L) 0 in
           aset32 nodes (ownerNodeIndex + nodeSelfSizeOffset L)
             (aget nodes (ownerNodeIndex + nodeSelfSizeOffset L) + sizeToTransfer))
    nodes.

(** [JSHeapSnapshot.calculateShallowSizes]: the result is the node array.
    A node enters the worklist at most three times. *)
Definition calculateShallowSizes (nodes : list Z) : result (list Z) :=
  if negb (hasUserRoots nodes) then Ok nodes
  else if nodeCount L >=? kHasMultipleOwners then Throw TooManyNodes
  else
    owners ← propagateOwners (Z.to_nat (3 * nodeCount L + 1)) (initialOwners nodes);
    Ok (transferSizes owners nodes).
End ShallowSizes.

(** ** Snapshot diff *)

Record AggregateForDiff : Type := {
  ids : list Z;
  indexes : list Z;
  selfSizes : list Z
}.

(** Modelled from the spec: [HeapSnapshotModel.Diff] is declared outside the
    sources at hand; the spec lists its fields
    [Diff{ addedIndexes, deletedIndexes, addedCount, removedCount, addedSize,
    removedSize, countDelta, sizeDelta }], and a fresh one has zero counts and
    sizes and no indexes. *)
Record Diff : Type := {
  addedCount : Z;
  removedCount : Z;
  addedSize : Z;
  removedSize : Z;
  deletedIndexes : list Z;
  addedIndexes : list Z;
  countDelta : Z;
  sizeDelta : Z
}.

Definition newDiff : Diff :=
  {| addedCount := 0; removedCount := 0; addedSize := 0; removedSize := 0;
     deletedIndexes := []; addedIndexes := []; countDelta := 0; sizeDelta := 0 |}.

Section DiffForClass.
Variable L : Layout.
Variable nodes : list Z.
Variable baseAggregate : AggregateForDiff.
(** [aggregate ? aggregate.idxs : []] *)
Variable idxs : list Z.

Definition node_id (nodeIndex : Z) : Z := aget nodes (nodeIndex + nodeIdOffset L).
Definition node_selfSize (nodeIndex : Z) : Z :=
  aget nodes (nodeIndex + nodeSelfSizeOffset L).

Definition pushRemoved (i : Z) (diff : Diff) : Diff :=
  {| addedCount := addedCount diff;
     removedCount := removedCount diff + 1;
     addedSize := addedSize diff;
     removedSize := removedSize diff + aget (selfSizes baseAggregate) i;
     deletedIndexes := deletedIndexes diff ++ [aget (indexes baseAggregate) i];
     addedIndexes := addedIndexes diff;
     countDelta := countDelta diff;
     sizeDelta := sizeDelta diff |}.

(** [nodeB] is the node at [indexes[j]] throughout. *)
Definition pushAdded (j : Z) (diff : Diff) : Diff :=
  {| addedCount := addedCount diff + 1;
     removedCount := removedCount diff;
     addedSize := addedSize diff + node_selfSize (aget idxs j);
     removedSize := removedSize diff;
     deletedIndexes := deletedIndexes diff;
     addedIndexes := addedIndexes diff ++ [aget idxs j];
     countDelta := countDelta diff;
     sizeDelta := sizeDelta diff |}.

(** [while (i < l && j < m)]: every turn advances [i] or [j]. *)
Fixpoint mergeLoop (fuel : nat) (i j : Z) (diff : Diff) : Z * Z * Diff :=
  match fuel with
  | O => (i, j, diff)
  | S fuel' =>
      if (i <? len (ids baseAggregate)) && (j <? len idxs) then
        let nodeAId := aget (ids baseAggregate) i in
        let nodeBId := node_id (aget idxs j) in
        if nodeAId <? nodeBId then mergeLoop fuel' (i + 1) j (pushRemoved i diff)
        else if nodeAId >? nodeBId then mergeLoop fuel' i (j + 1) (pushAdded j diff)
        else mergeLoop fuel' (i + 1) (j + 1) diff
      else (i, j, diff)
  end.

(** The [Diff] object as it stands before the [null] test. *)
Definition diffForClass : Diff :=
  let '(i, j, diff) :=
    mergeLoop (length (ids baseAggregate) + length idxs) 0 0 newDiff in
  (* while (i < l) *)
  let diff := for_range i (len (ids baseAggregate)) 1 pushRemoved diff in
  (* while (j < m) *)
  let diff := for_range j (len idxs) 1 pushAdded diff in
  {| addedCount := addedCount diff;
     removedCount := removedCount diff;
     addedSize := addedSize diff;
     removedSize := removedSize diff;
     deletedIndexes := deletedIndexes diff;
     addedIndexes := addedIndexes diff;
     countDelta := addedCount diff - removedCount diff;
     sizeDelta := addedSize diff - removedSize diff |}.

(** [calculateDiffForClass]; [None] is [null]. *)
Definition calculateDiffForClass : option Diff :=
  let diff := diffForClass in
  if (addedCount diff =? 0) && (removedCount diff =? 0) then None
  else Some diff.
End DiffForClass.

(** The loop of [aggregatesForDiff] over one class: the ids and self sizes of
    the nodes at [indexes]. *)
Definition aggregateForDiff (L : Layout) (nodes idxs : list Z) : AggregateForDiff :=
  let '(ids, selfSizes) :=
    for_range 0 (len idxs) 1
      (fun i '(ids, selfSizes) =>
         (aset ids i (node_id L nodes (aget idxs i)),
          aset selfSizes i (node_selfSize L nodes (aget idxs i))))
      (new_array (len idxs), new_array (len idxs)) in
  {| ids := ids; indexes := idxs; selfSizes := selfSizes |}.

(** ** [initialize] *)

Record HeapSnapshot : Type := {
  layout : Layout;
  nodes : list Z;
  containmentEdges : list Z;
  strings : list string;
  firstEdgeIndexes : list Z;
  retainers : Retainers;
  flags : list Z;
  nodeDistances : list Z;
  postOrder : PostOrder;
  dominatorsTree : list Z;
  retainedSizes : list Z;
  firstDominatedNodeIndex : list Z;
  dominatedNodes : list Z
}.

(** [JSHeapSnapshot.initialize], up to and including [buildDominatedNodes].
    The passes that follow (object names, statistics, samples, locations)
    read the arrays built here; they write the class index, the statistics
    and the sample and location tables.  [fuel] is handed to
    [buildDominatorTree]. *)
Definition initialize (fuel : nat) (p : Profile) : result HeapSnapshot :=
  let L := layout_of p in
  let nodes := p_nodes p in
  let containmentEdges := p_edges p in
  let strings := p_strings p in
  let cache := createBitVector (Z.of_nat (length strings)) in
  let firstEdgeIndexes := buildEdgeIndexes L nodes containmentEdges in
  R ← buildRetainers L containmentEdges firstEdgeIndexes;
  '(nodes, strings) ← propagateDOMState L containmentEdges firstEdgeIndexes nodes strings;
  flags ← markPageOwnedNodes L nodes containmentEdges strings firstEdgeIndexes;
  '(nodeDistances, (_, cache)) ←
    calculateDistances L containmentEdges firstEdgeIndexes
      (JS_isUserRoot L nodes strings)
      (Some (JS_distanceFilter L nodes containmentEdges strings))
      ([], cache);
  po ← buildPostOrderIndex L nodes containmentEdges strings firstEdgeIndexes R
         (Some (flags, pageObjectFlag)) cache;
  '(dominatorsTree, cache) ←
    buildDominatorTree L nodes containmentEdges strings firstEdgeIndexes R
      (Some (flags, pageObjectFlag))
      (postOrderIndex2NodeOrdinal po) (nodeOrdinal2PostOrderIndex po)
      fuel (notWeakMaps po);
  nodes ← calculateShallowSizes L containmentEdges strings firstEdgeIndexes nodes;
  let retainedSizes :=
    calculateRetainedSizes L nodes dominatorsTree (postOrderIndex2NodeOrdinal po) in
  '(firstDominatedNodeIndex, dominatedNodes) ← buildDominatedNodes L dominatorsTree;
  Ok {| layout := L;
        nodes := nodes;
        containmentEdges := containmentEdges;
        strings := strings;
        firstEdgeIndexes := firstEdgeIndexes;
        retainers := R;
        flags := flags;
        nodeDistances := nodeDistances;
        postOrder := po;
        dominatorsTree := dominatorsTree;
        retainedSizes := retainedSizes;
        firstDominatedNodeIndex := firstDominatedNodeIndex;
        dominatedNodes := dominatedNodes |}.

(** * Properties *)

(** ** Arrays *)

Lemma len_nonneg a : 0 <= len a.
Proof. unfold len. lia. Qed.

Lemma len_aset a i v : len (aset a i v) = len a.
Proof.
  unfold aset, len. destruct (_ && _); [|reflexivity].
  by rewrite length_insert.
Qed.

Lemma len_aset32 a i v : len (aset32 a i v) = len a.
Proof. apply len_aset. Qed.

Lemma len_new_array n : 0 <= n -> len (new_array n) = n.
Proof. intros. unfold len, new_array. rewrite length_replicate. lia. Qed.

Lemma aget_aset_eq a i v : 0 <= i < len a -> aget (aset a i v) i = v.
Proof.
  intros H. unfold aget, aset, len in *.
  destruct (Z.ltb_spec i 0); [lia|].
  destruct (Z.leb_spec 0 i); [|lia].
  destruct (Z.ltb_spec i (Z.of_nat (length a))); [|lia]. simpl.
  rewrite list_lookup_insert_eq; [done|lia].
Qed.

Lemma aget_aset_ne a i j v : i <> j -> aget (aset a i v) j = aget a j.
Proof.
  intros H. unfold aget, aset.
  destruct (_ && _) eqn:E; [|reflexivity].
  destruct (Z.ltb_spec j 0); [reflexivity|].
  apply andb_true_iff in E as [E1 E2].
  apply Z.leb_le in E1.
  rewrite list_lookup_insert_ne; [done|lia].
Qed.

Lemma aget_aset a i j v :
  aget (aset a i v) j = if (i =? j) && (0 <=? i) && (i <? len a) then v else aget a j.
Proof.
  destruct (Z.eqb_spec i j) as [->|Hne]; simpl.
  - destruct (Z.leb_spec 0 j); simpl.
    + destruct (Z.ltb_spec j (len a)).
      * apply aget_aset_eq. lia.
      * unfold aset. destruct (Z.leb_spec 0 j); [|lia].
        destruct (Z.ltb_spec j (len a)); [lia|]. reflexivity.
    + unfold aset. destruct (Z.leb_spec 0 j); [lia|]. reflexivity.
  - by apply aget_aset_ne.
Qed.

Lemma aget_aset32_eq a i v : 0 <= i < len a -> aget (aset32 a i v) i = u32 v.
Proof. apply aget_aset_eq. Qed.

Lemma aget_aset32_ne a i j v : i <> j -> aget (aset32 a i v) j = aget a j.
Proof. apply aget_aset_ne. Qed.

Lemma aset_out a i v : ¬ (0 <= i < len a) -> aset a i v = a.
Proof.
  intros H. unfold aset.
  destruct (Z.leb_spec 0 i); [|reflexivity].
  destruct (Z.ltb_spec i (len a)); [lia|reflexivity].
Qed.

Lemma aget_out a i : ¬ (0 <= i < len a) -> aget a i = 0.
Proof.
  intros H. unfold aget, len in *.
  destruct (Z.ltb_spec i 0); [reflexivity|].
  rewrite lookup_ge_None_2; [reflexivity|lia].
Qed.

Lemma aget_new_array n i : aget (new_array n) i = 0.
Proof.
  unfold aget, new_array.
  destruct (Z.ltb_spec i 0); [reflexivity|].
  destruct (replicate _ _ !! _) eqn:E; [|reflexivity].
  apply lookup_replicate in E as [-> _]. reflexivity.
Qed.

Lemma u32_small v : 0 <= v < 4294967296 -> u32 v = v.
Proof. intros. unfold u32. by apply Z.mod_small. Qed.

Lemma u32_range v : 0 <= u32 v < 4294967296.
Proof. unfold u32. apply Z.mod_pos_bound. lia. Qed.

(** Two arrays with the same length and the same cells are equal. *)
Lemma array_ext (a b : list Z) :
  len a = len b -> (forall i, 0 <= i < len a -> aget a i = aget b i) -> a = b.
Proof.
  intros Hl H. unfold len in *.
  apply list_eq_same_length with (n := length a); [lia|lia|].
  intros i x y Hi Hx Hy.
  specialize (H (Z.of_nat i)). unfold aget in H.
  destruct (Z.ltb_spec (Z.of_nat i) 0); [lia|].
  rewrite Nat2Z.id, Hx, Hy in H. simpl in H. apply H. lia.
Qed.

(** ** Counted loops *)

Lemma iters_stop start stop step : 0 < step -> stop <= start -> iters start stop step = O.
Proof.
  intros Hs H. unfold iters.
  assert ((stop - start + step - 1) / step <= 0); [|lia].
  assert ((stop - start + step - 1) / step < 1); [|lia].
  apply Z.div_lt_upper_bound; lia.
Qed.

Lemma iters_step start stop step :
  0 < step -> start < stop ->
  iters start stop step = S (iters (start + step) stop step).
Proof.
  intros Hs H. unfold iters.
  replace (stop - start + step - 1) with ((stop - (start + step) + step - 1) + 1 * step) by lia.
  rewrite Z.div_add by lia.
  rewrite Z2Nat.inj_add; [simpl; lia| |lia].
  apply Z.div_pos; lia.
Qed.

Lemma range_stop start stop step : 0 < step -> stop <= start -> range start stop step = [].
Proof. intros. unfold range. by rewrite iters_stop. Qed.

Lemma range_step start stop step :
  0 < step -> start < stop ->
  range start stop step = start :: range (start + step) stop step.
Proof.
  intros Hs H. unfold range. rewrite iters_step by done.
  simpl. f_equal; [lia|].
  rewrite <- seq_shift, map_map. apply map_ext. intros k. lia.
Qed.

Lemma for_range_stop {S} start stop step (body : Z -> S -> S) s :
  0 < step -> stop <= start -> for_range start stop step body s = s.
Proof. intros. unfold for_range. by rewrite range_stop. Qed.

Lemma for_range_step {S} start stop step (body : Z -> S -> S) s :
  0 < step -> start < stop ->
  for_range start stop step body s
  = for_range (start + step) stop step body (body start s).
Proof. intros. unfold for_range. by rewrite range_step. Qed.

Lemma for_rangeM_stop {S} start stop step (body : Z -> S -> result S) s :
  0 < step -> stop <= start -> for_rangeM start stop step body s = Ok s.
Proof. intros. unfold for_rangeM. by rewrite range_stop. Qed.

Lemma for_rangeM_step {S} start stop step (body : Z -> S -> result S) s :
  0 < step -> start < stop ->
  for_rangeM start stop step body s
  = (s' ← body start s; for_rangeM (start + step) stop step body s').
Proof.
  intros. unfold for_rangeM. rewrite range_step by done. simpl.
  destruct (body start s); reflexivity.
Qed.

(** Induction over the turns of a loop with step [step]; the loop ends at the
    first index of the form [start + k * step] that reaches [stop]. *)
Lemma for_range_ind {S} (P : Z -> S -> Prop) start stop step
    (body : Z -> S -> S) s :
  0 < step ->
  P start s ->
  (forall i s, start <= i < stop -> P i s -> P (i + step) (body i s)) ->
  exists e, stop <= e /\ (start < stop -> e < stop + step)
            /\ (stop <= start -> e = start)
            /\ P e (for_range start stop step body s).
Proof.
  intros Hs H0 Hstep.
  remember (iters start stop step) as n eqn:Hn.
  revert start s H0 Hstep Hn. induction n as [|n IH]; intros start s H0 Hstep Hn.
  - destruct (Z_lt_le_dec start stop) as [Hlt|Hge].
    + rewrite iters_step in Hn by done. discriminate.
    + exists start. rewrite for_range_stop by done. repeat split; auto; lia.
  - destruct (Z_lt_le_dec start stop) as [Hlt|Hge].
    + rewrite iters_step in Hn by done. injection Hn as Hn.
      rewrite for_range_step by done.
      destruct (IH (start + step) (body start s)) as (e & He1 & He2 & He3 & He4).
      * apply Hstep; [lia|done].
      * intros i s' Hi. apply Hstep. lia.
      * done.
      * exists e. split; [lia|]. split; [|split; [lia|done]].
        intros _.
        destruct (Z_lt_le_dec (start + step) stop) as [Hl|Hl];
          [specialize (He2 Hl)|specialize (He3 Hl)]; lia.
    + rewrite iters_stop in Hn by done. discriminate.
Qed.

(** The same for a loop with step 1. *)
Lemma for_range_ind1 {S} (P : Z -> S -> Prop) start stop (body : Z -> S -> S) s :
  start <= stop ->
  P start s ->
  (forall i s, start <= i < stop -> P i s -> P (i + 1) (body i s)) ->
  P stop (for_range start stop 1 body s).
Proof.
  intros Hle H0 Hstep.
  destruct (for_range_ind P start stop 1 body s) as (e & He1 & He2 & He3 & He4);
    [lia|done|done|].
  assert (e = stop) as -> by (destruct (Z.eq_dec start stop); [subst; apply He3; lia | lia]).
  done.
Qed.

Lemma In_range1 start stop x : In x (range start stop 1) <-> start <= x < stop.
Proof.
  remember (iters start stop 1) as n eqn:Hn.
  revert start Hn. induction n as [|n IH]; intros start Hn.
  - destruct (Z_lt_le_dec start stop).
    + rewrite iters_step in Hn by lia. discriminate.
    + rewrite range_stop by lia. simpl. lia.
  - destruct (Z_lt_le_dec start stop).
    + rewrite iters_step in Hn by lia. injection Hn as Hn.
      rewrite range_step by lia. simpl. rewrite IH by done. lia.
    + rewrite iters_stop in Hn by lia. discriminate.
Qed.

Lemma range1_snoc start stop :
  start <= stop -> range start (stop + 1) 1 = range start stop 1 ++ [stop].
Proof.
  intros H. remember (iters start stop 1) as n eqn:Hn.
  revert start H Hn. induction n as [|n IH]; intros start H Hn.
  - destruct (Z_lt_le_dec start stop).
    + rewrite iters_step in Hn by lia. discriminate.
    + assert (start = stop) as -> by lia.
      rewrite (range_stop stop stop), (range_step stop), range_stop by lia. done.
  - destruct (Z_lt_le_dec start stop).
    + rewrite iters_step in Hn by lia. injection Hn as Hn.
      rewrite (range_step start (stop + 1)), (range_step start stop) by lia.
      simpl. f_equal. apply IH; [lia|done].
    + rewrite iters_stop in Hn by lia. discriminate.
Qed.

Lemma map_aget_range a : map (aget a) (range 0 (len a) 1) = a.
Proof.
  induction a as [|x a IH] using rev_ind.
  - reflexivity.
  - unfold len in *. rewrite length_app. simpl length.
    replace (Z.of_nat (length a + 1)) with (Z.of_nat (length a) + 1) by lia.
    rewrite range1_snoc by lia. rewrite map_app. simpl. f_equal.
    + etransitivity; [|exact IH]. apply map_ext_in. intros i Hi.
      apply In_range1 in Hi. unfold aget.
      destruct (Z.ltb_spec i 0); [reflexivity|].
      rewrite lookup_app_l by lia. reflexivity.
    + unfold aget. destruct (Z.ltb_spec (Z.of_nat (length a)) 0); [lia|].
      rewrite Nat2Z.id. rewrite list_lookup_middle by done. reflexivity.
Qed.

(** ** The diff of two aggregates (claim C8) *)

Fixpoint strictly_increasing (l : list Z) : bool :=
  match l with
  | a :: (b :: _) as t => (a <? b) && strictly_increasing t
  | _ => true
  end.

Lemma strictly_increasing_aget l i j :
  strictly_increasing l = true -> 0 <= i < j -> j < len l -> aget l i < aget l j.
Proof.
  revert i j. induction l as [|a l IH]; intros i j Hs Hij Hj.
  - unfold len in Hj. simpl in Hj. lia.
  - assert (Hs' : strictly_increasing l = true).
    { destruct l; [reflexivity|]. simpl in Hs. apply andb_true_iff in Hs. apply Hs. }
    assert (Hshift : forall k, 0 < k -> aget (a :: l) k = aget l (k - 1)).
    { intros k Hk. unfold aget.
      destruct (Z.ltb_spec k 0); [lia|]. destruct (Z.ltb_spec (k - 1) 0); [lia|].
      replace (Z.to_nat k) with (S (Z.to_nat (k - 1))) by lia. reflexivity. }
    assert (Hlen : len (a :: l) = len l + 1) by (unfold len; simpl; lia).
    assert (Hhead : forall k, 0 <= k < len l -> a < aget l k).
    { clear i j Hij Hj. intros k Hk.
      assert (Hn : exists n, k = Z.of_nat n) by (exists (Z.to_nat k); lia).
      destruct Hn as [n ->]. clear Hshift.
      induction n as [|n IHn].
      - destruct l as [|b l]; [unfold len in Hk; simpl in Hk; lia|].
        simpl in Hs. apply andb_true_iff in Hs as [Hs _]. apply Z.ltb_lt in Hs.
        exact Hs.
      - assert (aget l (Z.of_nat n) < aget l (Z.of_nat (S n))) by (apply IH; [done|lia|lia]).
        assert (a < aget l (Z.of_nat n)) by (apply IHn; lia). lia. }
    rewrite (Hshift j) by lia.
    destruct (Z.eq_dec i 0) as [->|Hi].
    + replace (aget (a :: l) 0) with a by reflexivity. apply Hhead. lia.
    + rewrite (Hshift i) by lia. apply IH; [done|lia|lia].
Qed.

Section TwoPointer.
Variables (f g : Z -> Z) (l m : Z).
Hypothesis Hf : forall i j, 0 <= i < j -> j < l -> f i < f j.
Hypothesis Hg : forall i j, 0 <= i < j -> j < m -> g i < g j.

(** [x] is among [h from], ..., [h (to - 1)]. *)
Definition occurs (h : Z -> Z) (from to : Z) (x : Z) : bool :=
  existsb (fun k => x =? h k) (range from to 1).

(** The positions from [i] on whose [f] does not occur in [g] from [j] on. *)
Definition only_left (i j : Z) : list Z :=
  List.filter (fun k => negb (occurs g j m (f k))) (range i l 1).

Definition only_right (i j : Z) : list Z :=
  List.filter (fun k => negb (occurs f i l (g k))) (range j m 1).

Lemma occurs_false h from to x :
  (forall k, from <= k < to -> x <> h k) -> occurs h from to x = false.
Proof.
  intros H. unfold occurs. apply not_true_is_false. intros E.
  apply existsb_exists in E as (k & Hk & E). apply In_range1 in Hk.
  apply Z.eqb_eq in E. by apply (H k).
Qed.

Lemma occurs_step h from to x :
  from < to -> occurs h from to x = (x =? h from) || occurs h (from + 1) to x.
Proof. intros. unfold occurs. rewrite range_step by lia. reflexivity. Qed.

Lemma filter_ext_in' (p q : Z -> bool) (xs : list Z) :
  (forall x, In x xs -> p x = q x) -> List.filter p xs = List.filter q xs.
Proof.
  induction xs as [|x xs IH]; intros H; [reflexivity|]. simpl.
  rewrite (H x) by (left; reflexivity).
  rewrite IH; [reflexivity|]. intros y Hy. apply H. by right.
Qed.
End TwoPointer.

Lemma only_left_smaller f g l m i j :
  0 <= i < l -> (forall k, j <= k < m -> f i <> g k) ->
  only_left f g l m i j = i :: only_left f g l m (i + 1) j.
Proof.
  intros Hi H. unfold only_left. rewrite range_step by lia. simpl.
  by rewrite occurs_false.
Qed.

Lemma only_left_drop f g l m i j :
  0 <= j < m -> (forall k, i <= k < l -> f k <> g j) ->
  only_left f g l m i j = only_left f g l m i (j + 1).
Proof.
  intros Hj H. unfold only_left. apply filter_ext_in'. intros k Hk.
  apply In_range1 in Hk. rewrite occurs_step by lia.
  destruct (Z.eqb_spec (f k) (g j)) as [E|E]; [|reflexivity].
  exfalso. by apply (H k).
Qed.

Lemma only_left_equal f g l m i j :
  0 <= i < l -> 0 <= j < m -> f i = g j ->
  (forall k, i + 1 <= k < l -> f k <> g j) ->
  only_left f g l m i j = only_left f g l m (i + 1) (j + 1).
Proof.
  intros Hi Hj E H. unfold only_left at 1. rewrite range_step by lia. simpl.
  rewrite occurs_step by lia. rewrite E, Z.eqb_refl. simpl.
  fold (only_left f g l m (i + 1) j). by apply only_left_drop.
Qed.

Lemma only_left_all f g l m i j : m <= j -> only_left f g l m i j = range i l 1.
Proof.
  intros H. unfold only_left, occurs. rewrite (range_stop j) by lia. simpl.
  induction (range i l 1) as [|x xs IH]; [reflexivity|]. simpl. by rewrite IH.
Qed.

Lemma only_left_none f g l m i j : l <= i -> only_left f g l m i j = [].
Proof. intros H. unfold only_left. by rewrite range_stop by lia. Qed.

Definition sumZ (xs : list Z) : Z := fold_right Z.add 0 xs.

Lemma sumZ_app xs ys : sumZ (xs ++ ys) = sumZ xs + sumZ ys.
Proof. induction xs as [|x xs IH]; simpl; [reflexivity|]. rewrite IH. lia. Qed.

Section DiffProof.
Variable L : Layout.
Variable nodes : list Z.
Variable base : AggregateForDiff.
Variable idxs : list Z.

Let idA (k : Z) : Z := aget (ids base) k.
Let idB (k : Z) : Z := node_id L nodes (aget idxs k).
Let l : Z := len (ids base).
Let m : Z := len idxs.

(** The diff holds exactly the base positions [RP] as removed and the
    positions [AP] of the new aggregate as added. *)
Definition diff_is (d : Diff) (RP AP : list Z) : Prop :=
  deletedIndexes d = map (aget (indexes base)) RP
  /\ removedCount d = len RP
  /\ removedSize d = sumZ (map (aget (selfSizes base)) RP)
  /\ addedIndexes d = map (aget idxs) AP
  /\ addedCount d = len AP
  /\ addedSize d = sumZ (map (fun k => node_selfSize L nodes (aget idxs k)) AP).

Lemma diff_is_new : diff_is newDiff [] [].
Proof. repeat split. Qed.

Lemma diff_is_pushRemoved d RP AP i :
  diff_is d RP AP -> diff_is (pushRemoved base i d) (RP ++ [i]) AP.
Proof.
  intros (H1 & H2 & H3 & H4 & H5 & H6). unfold diff_is, pushRemoved; simpl.
  rewrite !map_app, sumZ_app, H1, H2, H3. simpl.
  repeat split; auto. unfold len. rewrite length_app. simpl. lia. lia.
Qed.

Lemma diff_is_pushAdded d RP AP j :
  diff_is d RP AP -> diff_is (pushAdded L nodes idxs j d) RP (AP ++ [j]).
Proof.
  intros (H1 & H2 & H3 & H4 & H5 & H6). unfold diff_is, pushAdded; simpl.
  rewrite !map_app, sumZ_app, H4, H5, H6. simpl.
  repeat split; auto. unfold len. rewrite length_app. simpl. lia. lia.
Qed.

Lemma diff_is_removeRest d RP AP i :
  i <= l -> diff_is d RP AP ->
  diff_is (for_range i l 1 (pushRemoved base) d) (RP ++ range i l 1) AP.
Proof.
  intros Hi H.
  apply (for_range_ind1 (fun k s => diff_is s (RP ++ range i k 1) AP)); [done| |].
  - by rewrite range_stop, app_nil_r by lia.
  - intros k s Hk Hs. rewrite range1_snoc by lia. rewrite app_assoc.
    by apply diff_is_pushRemoved.
Qed.

Lemma diff_is_addRest d RP AP j :
  j <= m -> diff_is d RP AP ->
  diff_is (for_range j m 1 (pushAdded L nodes idxs) d) RP (AP ++ range j m 1).
Proof.
  intros Hj H.
  apply (for_range_ind1 (fun k s => diff_is s RP (AP ++ range j k 1))); [done| |].
  - by rewrite range_stop, app_nil_r by lia.
  - intros k s Hk Hs. rewrite range1_snoc by lia. rewrite app_assoc.
    by apply diff_is_pushAdded.
Qed.

Hypothesis HsortA : strictly_increasing (ids base) = true.
Hypothesis HsortB : strictly_increasing (map (node_id L nodes) idxs) = true.

Lemma idA_mono i j : 0 <= i < j -> j < l -> idA i < idA j.
Proof. intros. by apply strictly_increasing_aget. Qed.

Lemma aget_map_node_id k :
  0 <= k < m -> aget (map (node_id L nodes) idxs) k = idB k.
Proof.
  intros Hk. unfold idB, aget. destruct (Z.ltb_spec k 0); [lia|].
  rewrite list_lookup_fmap.
  destruct (idxs !! Z.to_nat k) eqn:E; [reflexivity|].
  apply lookup_ge_None in E. unfold m, len in Hk. lia.
Qed.

Lemma idB_mono i j : 0 <= i < j -> j < m -> idB i < idB j.
Proof.
  intros Hij Hj. rewrite <- !aget_map_node_id by lia.
  apply strictly_increasing_aget; [done|lia|].
  unfold len. rewrite length_map. exact Hj.
Qed.

Lemma mergeLoop_correct fuel : forall i j d RP AP,
  0 <= i <= l -> 0 <= j <= m -> (l - i) + (m - j) <= Z.of_nat fuel ->
  diff_is d RP AP ->
  let '(i', j', d') := mergeLoop L nodes base idxs fuel i j d in
  diff_is
    (for_range j' m 1 (pushAdded L nodes idxs)
       (for_range i' l 1 (pushRemoved base) d'))
    (RP ++ only_left idA idB l m i j) (AP ++ only_left idB idA m l j i).
Proof.
  assert (Hdone : forall i j d RP AP,
    0 <= i <= l -> 0 <= j <= m -> (l <= i \/ m <= j) -> diff_is d RP AP ->
    diff_is
      (for_range j m 1 (pushAdded L nodes idxs)
         (for_range i l 1 (pushRemoved base) d))
      (RP ++ only_left idA idB l m i j) (AP ++ only_left idB idA m l j i)).
  { intros i j d RP AP Hi Hj Hor Hd.
    assert (only_left idA idB l m i j = range i l 1) as ->.
    { destruct Hor; [|by apply only_left_all].
      by rewrite only_left_none, range_stop by lia. }
    assert (only_left idB idA m l j i = range j m 1) as ->.
    { destruct Hor; [by apply only_left_all|].
      by rewrite only_left_none, range_stop by lia. }
    apply diff_is_addRest; [lia|]. apply diff_is_removeRest; [lia|done]. }
  induction fuel as [|fuel IH]; intros i j d RP AP Hi Hj Hfuel Hd.
  - simpl. apply Hdone; auto. lia.
  - simpl. fold l m.
    destruct (Z.ltb_spec i l) as [Hil|Hil]; simpl; [|apply Hdone; auto].
    destruct (Z.ltb_spec j m) as [Hjm|Hjm]; simpl; [|apply Hdone; auto].
    fold (idA i) (idB j).
    destruct (Z.ltb_spec (idA i) (idB j)) as [Hlt|Hge].
    + specialize (IH (i + 1) j (pushRemoved base i d) (RP ++ [i]) AP).
      destruct (mergeLoop L nodes base idxs fuel (i + 1) j _) as [[i' j'] d'].
      rewrite (only_left_smaller idA idB l m i j); [|lia|].
      * rewrite (only_left_drop idB idA m l j i); [|lia|].
        -- replace (RP ++ i :: only_left idA idB l m (i + 1) j)
             with ((RP ++ [i]) ++ only_left idA idB l m (i + 1) j)
             by (by rewrite <- app_assoc).
           apply IH; try lia. by apply diff_is_pushRemoved.
        -- intros k Hk. destruct (Z.eq_dec k j) as [->|Hne]; [lia|].
           assert (idB j < idB k) by (apply idB_mono; lia). lia.
      * intros k Hk. destruct (Z.eq_dec k j) as [->|Hne]; [lia|].
        assert (idB j < idB k) by (apply idB_mono; lia). lia.
    + destruct (Z.gtb_spec (idA i) (idB j)) as [Hgt|Hle].
      * specialize (IH i (j + 1) (pushAdded L nodes idxs j d) RP (AP ++ [j])).
        destruct (mergeLoop L nodes base idxs fuel i (j + 1) _) as [[i' j'] d'].
        rewrite (only_left_smaller idB idA m l j i); [|lia|].
        -- rewrite (only_left_drop idA idB l m i j); [|lia|].
           ++ replace (AP ++ j :: only_left idB idA m l (j + 1) i)
                with ((AP ++ [j]) ++ only_left idB idA m l (j + 1) i)
                by (by rewrite <- app_assoc).
              apply IH; try lia. by apply diff_is_pushAdded.
           ++ intros k Hk. destruct (Z.eq_dec k i) as [->|Hne]; [lia|].
              assert (idA i < idA k) by (apply idA_mono; lia). lia.
        -- intros k Hk. destruct (Z.eq_dec k i) as [->|Hne]; [lia|].
           assert (idA i < idA k) by (apply idA_mono; lia). lia.
      * assert (E : idA i = idB j) by lia.
        specialize (IH (i + 1) (j + 1) d RP AP).
        destruct (mergeLoop L nodes base idxs fuel (i + 1) (j + 1) _)
          as [[i' j'] d'].
        rewrite (only_left_equal idA idB l m i j); [|lia|lia|done|].
        -- rewrite (only_left_equal idB idA m l j i); [|lia|lia|done|].
           ++ apply IH; try lia. done.
           ++ intros k Hk. assert (idB j < idB k) by (apply idB_mono; lia). lia.
        -- intros k Hk. assert (idA i < idA k) by (apply idA_mono; lia). lia.
Qed.
End DiffProof.

Lemma existsb_map {A B} (p : B -> bool) (h : A -> B) xs :
  existsb p (map h xs) = existsb (fun x => p (h x)) xs.
Proof. induction xs as [|x xs IH]; simpl; [reflexivity|]. by rewrite IH. Qed.

Lemma filter_map_comm {A B} (p : B -> bool) (h : A -> B) xs :
  map h (List.filter (fun x => p (h x)) xs) = List.filter p (map h xs).
Proof.
  induction xs as [|x xs IH]; simpl; [reflexivity|].
  destruct (p (h x)); simpl; by rewrite IH.
Qed.

(** The snapshot of scenario S6: the base aggregate has the ids 3, 5, 7, 9,
    the new one the ids 5, 7, 9, 11, 13. *)
Definition S6_layout : Layout :=
  {| nodeTypeOffset := 0; nodeNameOffset := 1; nodeIdOffset := 2;
     nodeSelfSizeOffset := 3; nodeEdgeCountOffset := 4;
     nodeDetachednessAndClassIndexOffset := -1; nodeFieldCount := 5;
     nodeArrayType := 1; nodeHiddenType := 0; nodeObjectType := 3;
     nodeNativeType := 8; nodeCodeType := 4; nodeSyntheticType := 9;
     nodeClosureType := 5; nodeRegExpType := 6;
     edgeFieldsCount := 3; edgeTypeOffset := 0; edgeNameOffset := 1;
     edgeToNodeOffset := 2; edgeElementType := 1; edgeHiddenType := 4;
     edgeInternalType := 3; edgeShortcutType := 5; edgeWeakType := 6;
     edgeInvisibleType := 7; rootNodeIndexInternal := 0;
     nodeCount := 5; edgeCount := 0 |}.

Definition S6_nodes : list Z :=
  [3; 0; 5; 10; 0;   3; 0; 7; 20; 0;   3; 0; 9; 30; 0;
   3; 0; 11; 40; 0;  3; 0; 13; 50; 0].

Definition S6_base : AggregateForDiff :=
  {| ids := [3; 5; 7; 9]; indexes := [0; 5; 10; 15]; selfSizes := [1; 2; 3; 4] |}.

Definition S6_idxs : list Z := [0; 5; 10; 15; 20].

Example calculateDiffForClass_S6 :
  calculateDiffForClass S6_layout S6_nodes S6_base S6_idxs
  = Some {| addedCount := 2; removedCount := 1; addedSize := 90; removedSize := 1;
            deletedIndexes := [0]; addedIndexes := [15; 20];
            countDelta := 1; sizeDelta := 89 |}.
Proof. vm_compute. reflexivity. Qed.

(** C8. For aggregates whose ids increase strictly, [calculateDiffForClass]
    records as removed exactly the base entries whose id is not among the ids
    of the new aggregate (their indexes in order, their number, the sum of
    their base self sizes), as added exactly the nodes of the new aggregate
    whose id is not among the base ids (their indexes, their number, the sum of
    their self sizes), sets [countDelta] and [sizeDelta] to the differences,
    and returns [null] exactly when both counts are zero. *)
Theorem calculateDiffForClass_two_pointer_merge
    (L : Layout) (nodes : list Z) (base : AggregateForDiff) (idxs : list Z) :
  strictly_increasing (ids base) = true ->
  strictly_increasing (map (node_id L nodes) idxs) = true ->
  let removed :=
    List.filter
      (fun i => negb (existsb (Z.eqb (aget (ids base) i)) (map (node_id L nodes) idxs)))
      (range 0 (len (ids base)) 1) in
  let added :=
    List.filter (fun idx => negb (existsb (Z.eqb (node_id L nodes idx)) (ids base)))
      idxs in
  let d := diffForClass L nodes base idxs in
  deletedIndexes d = map (aget (indexes base)) removed
  /\ removedCount d = len removed
  /\ removedSize d = sumZ (map (aget (selfSizes base)) removed)
  /\ addedIndexes d = added
  /\ addedCount d = len added
  /\ addedSize d = sumZ (map (node_selfSize L nodes) added)
  /\ countDelta d = addedCount d - removedCount d
  /\ sizeDelta d = addedSize d - removedSize d
  /\ (calculateDiffForClass L nodes base idxs = None
      <-> addedCount d = 0 /\ removedCount d = 0)
  /\ (calculateDiffForClass L nodes base idxs <> None
      -> calculateDiffForClass L nodes base idxs = Some d).
Proof.
  intros HA HB removed added d.
  pose (idA := fun k => aget (ids base) k).
  pose (idB := fun k => node_id L nodes (aget idxs k)).
  assert (Hrem : only_left idA idB (len (ids base)) (len idxs) 0 0 = removed).
  { unfold only_left, removed. apply filter_ext_in'. intros k _. f_equal.
    unfold occurs, idA.
    rewrite <- (map_aget_range idxs) at 2. rewrite map_map, existsb_map.
    reflexivity. }
  assert (Hadd : map (aget idxs) (only_left idB idA (len idxs) (len (ids base)) 0 0)
                 = added).
  { unfold only_left, added.
    rewrite (filter_map_comm
               (fun idx => negb (occurs idA 0 (len (ids base)) (node_id L nodes idx)))
               (aget idxs)).
    rewrite map_aget_range. apply filter_ext_in'. intros idx _. f_equal.
    unfold occurs, idA.
    rewrite <- (map_aget_range (ids base)) at 2. rewrite existsb_map. reflexivity. }
  pose proof (mergeLoop_correct L nodes base idxs HA HB
                (length (ids base) + length idxs) 0 0 newDiff [] []) as Hm.
  simpl in Hm.
  assert (Hd : diff_is L nodes base idxs d removed
                 (only_left idB idA (len idxs) (len (ids base)) 0 0)).
  { unfold d, diffForClass.
    destruct (mergeLoop L nodes base idxs _ 0 0 newDiff) as [[i' j'] d'].
    fold idA idB in Hm. rewrite Hrem in Hm.
    destruct Hm as (H1 & H2 & H3 & H4 & H5 & H6).
    - pose proof (len_nonneg (ids base)). lia.
    - pose proof (len_nonneg idxs). lia.
    - unfold len. lia.
    - apply diff_is_new.
    - repeat split; assumption. }
  destruct Hd as (H1 & H2 & H3 & H4 & H5 & H6).
  assert (Hcd : countDelta d = addedCount d - removedCount d).
  { unfold d, diffForClass.
    destruct (mergeLoop L nodes base idxs _ 0 0 newDiff) as [[i' j'] d']. reflexivity. }
  assert (Hsd : sizeDelta d = addedSize d - removedSize d).
  { unfold d, diffForClass.
    destruct (mergeLoop L nodes base idxs _ 0 0 newDiff) as [[i' j'] d']. reflexivity. }
  split; [exact H1|]. split; [exact H2|]. split; [exact H3|].
  split; [by rewrite H4|].
  split; [rewrite H5, <- Hadd; unfold len; by rewrite length_map|].
  split; [rewrite H6, <- Hadd; by rewrite map_map|].
  split; [exact Hcd|]. split; [exact Hsd|].
  unfold calculateDiffForClass. fold d.
  destruct (Z.eqb_spec (addedCount d) 0) as [Ea|Ea];
    destruct (Z.eqb_spec (removedCount d) 0) as [Er|Er]; simpl;
    split; try tauto; try (split; [intros; discriminate|intros [? ?]; contradiction]).
Qed.

Lemma calculateDiffForClass_two_pointer_merge_witness :
  strictly_increasing (ids S6_base) = true
  /\ strictly_increasing (map (node_id S6_layout S6_nodes) S6_idxs) = true
  /\ deletedIndexes (diffForClass S6_layout S6_nodes S6_base S6_idxs) = [0]
  /\ addedIndexes (diffForClass S6_layout S6_nodes S6_base S6_idxs) = [15; 20].
Proof.
  assert (HA : strictly_increasing (ids S6_base) = true) by reflexivity.
  assert (HB : strictly_increasing (map (node_id S6_layout S6_nodes) S6_idxs) = true)
    by reflexivity.
  destruct (calculateDiffForClass_two_pointer_merge S6_layout S6_nodes S6_base
              S6_idxs HA HB) as (H1 & _ & _ & H4 & _).
  split; [exact HA|]. split; [exact HB|].
  split; [rewrite H1|rewrite H4]; reflexivity.
Defined.

(** ** The essential-edge predicate (claim C4) *)

Lemma indexOf_range x l : -1 <= indexOf x l.
Proof.
  induction l as [|y l IH]; simpl; [lia|].
  destruct (String.eqb x y); [lia|].
  destruct (Z.ltb_spec (indexOf x l) 0); lia.
Qed.

(** Two different names are found at different positions. *)
Lemma indexOf_inj x y l : indexOf x l = indexOf y l -> 0 <= indexOf x l -> x = y.
Proof.
  induction l as [|z l IH]; simpl; [lia|].
  destruct (String.eqb_spec x z) as [->|Hx]; destruct (String.eqb_spec y z) as [->|Hy];
    try done.
  - destruct (Z.ltb_spec (indexOf y l) 0); pose proof (indexOf_range y l); lia.
  - destruct (Z.ltb_spec (indexOf x l) 0); pose proof (indexOf_range x l); lia.
  - destruct (Z.ltb_spec (indexOf x l) 0); destruct (Z.ltb_spec (indexOf y l) 0);
      intros; try lia. apply IH; lia.
Qed.

(** The cache only holds names that do not match the pattern. *)
Definition cache_ok (strings : list string) (cache : BitVector) : Prop :=
  forall i, getBit cache i = true -> ephemeronNameRegex (sget strings i) = None.

Lemma cache_ok_create strings n : cache_ok strings (createBitVector n).
Proof.
  intros i. unfold getBit, createBitVector.
  destruct (Z.ltb_spec i 0); [discriminate|].
  destruct (replicate (Z.to_nat n) false !! Z.to_nat i) eqn:E; simpl;
    [|intros H'; discriminate H'].
  apply lookup_replicate in E as [-> _]. intros H'; discriminate H'.
Qed.

Lemma getBit_putBit v i j b :
  getBit (putBit v i b) j = true -> getBit v j = true \/ (i = j /\ b = true).
Proof.
  unfold getBit, putBit. destruct (_ && _) eqn:E; [|auto].
  destruct (Z.ltb_spec j 0); [discriminate|].
  apply andb_true_iff in E as [E1 E2]. apply Z.leb_le in E1.
  destruct (Z.eq_dec i j) as [->|Hne].
  - destruct (v !! Z.to_nat j) eqn:Ev.
    + rewrite list_lookup_insert_eq by (apply lookup_lt_Some in Ev; lia). simpl. auto.
    + apply lookup_ge_None in Ev. apply Z.ltb_lt in E2. lia.
  - rewrite list_lookup_insert_ne by lia. auto.
Qed.

(** The answer of [tryParseWeakMapEdgeName] does not depend on the cache. *)
Lemma tryParseWeakMapEdgeName_spec strings cache i :
  cache_ok strings cache ->
  fst (tryParseWeakMapEdgeName strings cache i) = ephemeronNameRegex (sget strings i)
  /\ cache_ok strings (snd (tryParseWeakMapEdgeName strings cache i)).
Proof.
  intros Hc. unfold tryParseWeakMapEdgeName.
  destruct (getBit cache i) eqn:Eb; simpl.
  - split; [symmetry; by apply Hc|done].
  - destruct (ephemeronNameRegex (sget strings i)) eqn:Er; simpl; [done|].
    split; [done|]. intros j Hj.
    apply getBit_putBit in Hj as [Hj|[-> _]]; [by apply Hc|done].
Qed.

(** [isEssentialEdge] without the cache. *)
Definition essential (L : Layout) (nodes containmentEdges : list Z)
    (strings : list string) (nodeIndex edgeIndex : Z) : bool :=
  let edgeType := aget containmentEdges (edgeIndex + edgeTypeOffset L) in
  let otherwise :=
    negb (edgeType =? edgeWeakType L)
    && (negb (edgeType =? edgeShortcutType L)
        || (nodeIndex =? rootNodeIndexInternal L)) in
  if edgeType =? edgeInternalType L then
    match ephemeronNameRegex
            (sget strings (aget containmentEdges (edgeIndex + edgeNameOffset L))) with
    | Some groups =>
        negb (aget nodes (nodeIndex + nodeIdOffset L) =? parseInt_digits (tableId groups))
    | None => otherwise
    end
  else otherwise.

Lemma isEssentialEdge_spec L nodes edges strings cache nodeIndex edgeIndex :
  cache_ok strings cache ->
  fst (isEssentialEdge L nodes edges strings cache nodeIndex edgeIndex)
  = essential L nodes edges strings nodeIndex edgeIndex
  /\ cache_ok strings
       (snd (isEssentialEdge L nodes edges strings cache nodeIndex edgeIndex)).
Proof.
  intros Hc. unfold isEssentialEdge, essential.
  destruct (_ =? edgeInternalType L); [|done].
  destruct (tryParseWeakMapEdgeName_spec strings cache
              (aget edges (edgeIndex + edgeNameOffset L)) Hc) as [H1 H2].
  destruct (tryParseWeakMapEdgeName _ _ _) as [[g|] cache']; simpl in *;
    rewrite <- H1; done.
Qed.

(** The snapshot of scenario S4: the WeakMap table (id 3) and the key (id 5)
    both point to the value (id 7) through an internal edge with the name of
    the pair. *)
Definition v8_meta : Meta :=
  {| node_fields :=
       ["type"; "name"; "id"; "self_size"; "edge_count"; "trace_node_id";
        "detachedness"]%string;
     node_types :=
       ["hidden"; "array"; "string"; "object"; "code"; "closure"; "regexp";
        "number"; "native"; "synthetic"; "concatenated string"; "sliced string";
        "symbol"; "bigint"]%string;
     edge_fields := ["type"; "name_or_index"; "to_node"]%string;
     edge_types :=
       ["context"; "element"; "property"; "internal"; "hidden"; "shortcut";
        "weak"]%string |}.

Definition S4 : Profile :=
  {| meta := v8_meta;
     p_nodes :=
       [9; 0; 1; 0; 2; 0; 0;    (* root *)
        3; 1; 3; 8; 1; 0; 0;    (* the WeakMap table, id 3 *)
        3; 2; 5; 8; 1; 0; 0;    (* the key, id 5 *)
        3; 3; 7; 8; 0; 0; 0];   (* the value, id 7 *)
     p_edges :=
       [2; 4; 7;   2; 5; 14;    (* root -> table, root -> key *)
        3; 6; 21;               (* table -> value *)
        3; 6; 21];              (* key -> value *)
     p_strings := [""; "Map"; "K"; "V"; "map"; "key"; S4_name]%string;
     root_index := 0 |}.

Example isEssentialEdge_S4 :
  let cache := createBitVector 7 in
  let ess := isEssentialEdge (layout_of S4) (p_nodes S4) (p_edges S4) (p_strings S4) in
  fst (ess cache 7 6) = false /\ fst (ess cache 14 9) = true.
Proof. vm_compute. split; reflexivity. Qed.

(** C4. With [t] the type of the edge and [u] its source node:
    [isEssentialEdge] answers false when [t] is weak; when [t] is shortcut it
    answers true exactly when [u] is the root; when [t] is internal and the
    name of the edge matches the WeakMap pattern it answers false exactly when
    the id of [u] is the table id captured from the name; it answers true in
    every other case.  The cache of names that do not match stays sound. *)
Theorem isEssentialEdge_cases (p : Profile) (nodes : list Z)
    (strings : list string) (cache : BitVector) (nodeIndex edgeIndex : Z) :
  let L := layout_of p in
  let edgeType := aget (p_edges p) (edgeIndex + edgeTypeOffset L) in
  let name := sget strings (aget (p_edges p) (edgeIndex + edgeNameOffset L)) in
  let nodeId := aget nodes (nodeIndex + nodeIdOffset L) in
  let answer := isEssentialEdge L nodes (p_edges p) strings cache nodeIndex edgeIndex in
  0 <= edgeType ->
  cache_ok strings cache ->
  (edgeType = edgeWeakType L -> fst answer = false)
  /\ (edgeType = edgeShortcutType L ->
      (fst answer = true <-> nodeIndex = rootNodeIndexInternal L))
  /\ (edgeType = edgeInternalType L ->
      forall groups, ephemeronNameRegex name = Some groups ->
      (fst answer = false <-> nodeId = parseInt_digits (tableId groups)))
  /\ (edgeType <> edgeWeakType L -> edgeType <> edgeShortcutType L ->
      (edgeType = edgeInternalType L -> ephemeronNameRegex name = None) ->
      fst answer = true)
  /\ cache_ok strings (snd answer).
Proof.
  intros L edgeType name nodeId answer Ht Hc.
  destruct (isEssentialEdge_spec L nodes (p_edges p) strings cache nodeIndex
              edgeIndex Hc) as [Hfst Hsnd].
  fold answer in Hfst, Hsnd. rewrite Hfst. unfold essential.
  fold edgeType name nodeId.
  assert (Hiw : edgeType = edgeInternalType L -> edgeType <> edgeWeakType L).
  { intros E1 E2. rewrite E1 in E2, Ht. apply indexOf_inj in E2; [discriminate|done]. }
  assert (His : edgeType = edgeInternalType L -> edgeType <> edgeShortcutType L).
  { intros E1 E2. rewrite E1 in E2, Ht. apply indexOf_inj in E2; [discriminate|done]. }
  split; [|split; [|split; [|split]]].
  - intros E. destruct (Z.eqb_spec edgeType (edgeInternalType L)) as [Ei|_].
    + by apply Hiw in Ei.
    + rewrite <- E, Z.eqb_refl. reflexivity.
  - intros E. destruct (Z.eqb_spec edgeType (edgeInternalType L)) as [Ei|_].
    + by apply His in Ei.
    + rewrite <- E, Z.eqb_refl.
      destruct (Z.eqb_spec edgeType (edgeWeakType L)) as [Ew|_].
      * rewrite E in Ew, Ht. apply indexOf_inj in Ew; [discriminate|done].
      * cbn [negb andb orb]. apply Z.eqb_eq.
  - intros E groups Hg. rewrite E, Z.eqb_refl. rewrite <- E. rewrite Hg.
    rewrite negb_false_iff. apply Z.eqb_eq.
  - intros Hw Hs Hi.
    destruct (Z.eqb_spec edgeType (edgeWeakType L)); [done|].
    destruct (Z.eqb_spec edgeType (edgeShortcutType L)); [done|].
    cbn [negb andb orb].
    destruct (Z.eqb_spec edgeType (edgeInternalType L)) as [Ei|_]; [|reflexivity].
    by rewrite (Hi Ei).
  - exact Hsnd.
Qed.

Lemma isEssentialEdge_cases_witness :
  let answer :=
    isEssentialEdge (layout_of S4) (p_nodes S4) (p_edges S4) (p_strings S4)
      (createBitVector 7) 7 6 in
  0 <= aget (p_edges S4) (6 + edgeTypeOffset (layout_of S4))
  /\ cache_ok (p_strings S4) (createBitVector 7)
  /\ (fst answer = false <-> aget (p_nodes S4) (7 + nodeIdOffset (layout_of S4)) = 3).
Proof.
  intros answer.
  assert (Ht : 0 <= aget (p_edges S4) (6 + edgeTypeOffset (layout_of S4)))
    by (vm_compute; discriminate).
  pose proof (cache_ok_create (p_strings S4) 7) as Hc.
  destruct (isEssentialEdge_cases S4 (p_nodes S4) (p_strings S4) (createBitVector 7)
              7 6 Ht Hc) as (_ & _ & Hi & _).
  split; [exact Ht|]. split; [exact Hc|].
  apply (Hi eq_refl
           {| duplicatedPart :=
                " / part of key (K @5) -> value (V @7) pair in WeakMap (table @3)";
              tableId := "3" |}).
  reflexivity.
Defined.

(** ** Shallow sizes: the two early exits (claim C9) *)

(** A snapshot of 4294967294 nodes without any edge: no node is a user root. *)
Definition huge_layout : Layout :=
  {| nodeTypeOffset := 0; nodeNameOffset := 1; nodeIdOffset := 2;
     nodeSelfSizeOffset := 3; nodeEdgeCountOffset := 4;
     nodeDetachednessAndClassIndexOffset := 6; nodeFieldCount := 7;
     nodeArrayType := 1; nodeHiddenType := 0; nodeObjectType := 3;
     nodeNativeType := 8; nodeCodeType := 4; nodeSyntheticType := 9;
     nodeClosureType := 5; nodeRegExpType := 6;
     edgeFieldsCount := 3; edgeTypeOffset := 0; edgeNameOffset := 1;
     edgeToNodeOffset := 2; edgeElementType := 1; edgeHiddenType := 4;
     edgeInternalType := 3; edgeShortcutType := 5; edgeWeakType := 6;
     edgeInvisibleType := 7; rootNodeIndexInternal := 0;
     nodeCount := 4294967294; edgeCount := 0 |}.

Definition huge_nodes : list Z := new_array (4294967294 * 7).
Definition huge_firstEdgeIndexes : list Z := new_array (4294967294 + 1).

Lemma hasUserRoots_huge :
  hasUserRoots huge_layout [] [] huge_firstEdgeIndexes huge_nodes = false.
Proof.
  unfold hasUserRoots, edgesOf, huge_firstEdgeIndexes.
  rewrite !aget_new_array. reflexivity.
Qed.

(** The claim as it stands fails on a snapshot without user roots that has
    at least 0xFFFFFFFE nodes: the test for user roots comes first and the
    function returns instead of throwing. *)
Lemma calculateShallowSizes_huge_without_user_roots :
  hasUserRoots huge_layout [] [] huge_firstEdgeIndexes huge_nodes = false
  /\ nodeCount huge_layout >= 4294967294
  /\ calculateShallowSizes huge_layout [] [] huge_firstEdgeIndexes huge_nodes
     <> Throw TooManyNodes.
Proof.
  split; [exact hasUserRoots_huge|]. split; [simpl; lia|].
  unfold calculateShallowSizes. rewrite hasUserRoots_huge. simpl. discriminate.
Qed.

(** C9 (amended). [calculateShallowSizes] returns the node array as it is
    whenever the snapshot has no user roots; when it has user roots and
    [nodeCount >= 0xFFFFFFFE] it throws before any array is written. *)
Theorem calculateShallowSizes_early_exits (L : Layout) (containmentEdges : list Z)
    (strings : list string) (firstEdgeIndexes nodes : list Z) :
  (hasUserRoots L containmentEdges strings firstEdgeIndexes nodes = false ->
   calculateShallowSizes L containmentEdges strings firstEdgeIndexes nodes = Ok nodes)
  /\ (hasUserRoots L containmentEdges strings firstEdgeIndexes nodes = true ->
      nodeCount L >= 4294967294 ->
      calculateShallowSizes L containmentEdges strings firstEdgeIndexes nodes
      = Throw TooManyNodes).
Proof.
  unfold calculateShallowSizes. split.
  - intros ->. reflexivity.
  - intros -> Hn. cbn [negb]. unfold kHasMultipleOwners.
    destruct (Z.geb_spec (nodeCount L) 4294967294); [reflexivity|lia].
Qed.

(** A snapshot with one user root: the root has an edge to an object. *)
Definition user_root_layout (n : Z) : Layout :=
  {| nodeTypeOffset := 0; nodeNameOffset := 1; nodeIdOffset := 2;
     nodeSelfSizeOffset := 3; nodeEdgeCountOffset := 4;
     nodeDetachednessAndClassIndexOffset := 6; nodeFieldCount := 7;
     nodeArrayType := 1; nodeHiddenType := 0; nodeObjectType := 3;
     nodeNativeType := 8; nodeCodeType := 4; nodeSyntheticType := 9;
     nodeClosureType := 5; nodeRegExpType := 6;
     edgeFieldsCount := 3; edgeTypeOffset := 0; edgeNameOffset := 1;
     edgeToNodeOffset := 2; edgeElementType := 1; edgeHiddenType := 4;
     edgeInternalType := 3; edgeShortcutType := 5; edgeWeakType := 6;
     edgeInvisibleType := 7; rootNodeIndexInternal := 0;
     nodeCount := n; edgeCount := 1 |}.

Lemma calculateShallowSizes_early_exits_witness :
  let nodes := [9; 0; 1; 0; 1; 0; 0;  3; 1; 3; 8; 0; 0; 0] in
  calculateShallowSizes (user_root_layout 2) [5; 2; 7] [""; "w"; "window"]%string
    [0; 3; 3] [9; 0; 1; 0; 0; 0; 0;  3; 1; 3; 8; 0; 0; 0]
  = Ok [9; 0; 1; 0; 0; 0; 0;  3; 1; 3; 8; 0; 0; 0]
  /\ calculateShallowSizes (user_root_layout 4294967294) [5; 2; 7]
       [""; "w"; "window"]%string [0; 3; 3] nodes
     = Throw TooManyNodes.
Proof.
  intros nodes. split.
  - vm_compute. reflexivity.
  - apply (calculateShallowSizes_early_exits (user_root_layout 4294967294) [5; 2; 7]
             [""; "w"; "window"]%string [0; 3; 3] nodes).
    + reflexivity.
    + simpl. lia.
Defined.

(** ** The dominated-children index needs the root first or last (claim C10) *)

Lemma bind_not_ok {A B} (m : result A) (k : A -> result B) :
  (forall a, m = Ok a -> forall b, k a <> Ok b) -> forall b, m ≫= k <> Ok b.
Proof.
  intros H b. destruct m as [a| |]; simpl; try discriminate.
  unfold mbind, result_bind. by apply H.
Qed.

Lemma buildDominatedNodes_throws L dominatorsTree :
  rootNodeIndexInternal L <> 0 ->
  rootNodeIndexInternal L <> (nodeCount L - 1) * nodeFieldCount L ->
  buildDominatedNodes L dominatorsTree = Throw RootNotFirstOrLast.
Proof.
  intros H0 H1. unfold buildDominatedNodes, quotient_is.
  destruct (Z.eqb_spec (rootNodeIndexInternal L) (0 * nodeFieldCount L)); [lia|].
  destruct (Z.eqb_spec (rootNodeIndexInternal L)
              ((nodeCount L - 1) * nodeFieldCount L)); [lia|].
  rewrite !andb_false_r. reflexivity.
Qed.

(** C10. When the root is neither the first nor the last node,
    [buildDominatedNodes] throws "Root node is expected to be either first or
    last" for every dominator tree, so [initialize] never completes; the
    dominated-children index is built only when the root is first or last. *)
Theorem initialize_needs_root_first_or_last (p : Profile) :
  let L := layout_of p in
  (rootNodeIndexInternal L <> 0 ->
   rootNodeIndexInternal L <> (nodeCount L - 1) * nodeFieldCount L ->
   (forall dominatorsTree,
      buildDominatedNodes L dominatorsTree = Throw RootNotFirstOrLast)
   /\ (forall fuel h, initialize fuel p <> Ok h))
  /\ (forall dominatorsTree index,
        buildDominatedNodes L dominatorsTree = Ok index ->
        rootNodeIndexInternal L = 0
        \/ rootNodeIndexInternal L = (nodeCount L - 1) * nodeFieldCount L).
Proof.
  intros L. split.
  - intros H0 H1. split; [intros; by apply buildDominatedNodes_throws|].
    intros fuel h. unfold initialize. fold L.
    apply bind_not_ok. intros R _.
    apply bind_not_ok. intros [nodes strings] _.
    apply bind_not_ok. intros flags _.
    apply bind_not_ok. intros [nodeDistances [pending cache]] _.
    apply bind_not_ok. intros po _.
    apply bind_not_ok. intros [dominatorsTree cache'] _.
    apply bind_not_ok. intros nodes' _.
    apply bind_not_ok. intros index.
    rewrite buildDominatedNodes_throws by done. discriminate.
  - intros dominatorsTree index H.
    destruct (Z.eq_dec (rootNodeIndexInternal L) 0) as [|H0]; [by left|].
    destruct (Z.eq_dec (rootNodeIndexInternal L)
                ((nodeCount L - 1) * nodeFieldCount L)) as [|H1]; [by right|].
    rewrite buildDominatedNodes_throws in H by done. discriminate.
Qed.

(** Three nodes, the root in the middle. *)
Definition root_in_the_middle : Profile :=
  {| meta := v8_meta;
     p_nodes :=
       [3; 1; 3; 8; 0; 0; 0;   9; 0; 1; 0; 1; 0; 0;   3; 2; 5; 8; 0; 0; 0];
     p_edges := [2; 1; 0];
     p_strings := [""; "A"; "B"]%string;
     root_index := 7 |}.

Lemma initialize_needs_root_first_or_last_witness :
  initialize 10 root_in_the_middle = Throw RootNotFirstOrLast
  /\ forall h, initialize 10 root_in_the_middle <> Ok h.
Proof.
  split; [vm_compute; reflexivity|].
  refine (proj2 (proj1 (initialize_needs_root_first_or_last root_in_the_middle) _ _) 10%nat).
  - vm_compute. discriminate.
  - vm_compute. discriminate.
Defined.

(** ** More on loops *)


Lemma fold_left_map {S} (body : Z -> S -> S) (h : Z -> Z) xs s :
  fold_left (fun s i => body i s) (map h xs) s
  = fold_left (fun s k => body (h k) s) xs s.
Proof. revert s. induction xs as [|x xs IH]; intros s; simpl; auto. Qed.

(** The indexes of a loop with step [d] are the multiples of [d], shifted. *)
Lemma range_scale d o a b :
  0 < d -> 0 <= o < d ->
  range (a * d + o) (b * d) d = map (fun k => k * d + o) (range a b 1).
Proof.
  intros Hd Ho. remember (Z.to_nat (b - a)) as n eqn:Hn.
  revert a Hn. induction n as [|n IH]; intros a Hn.
  - rewrite !range_stop by nia. reflexivity.
  - rewrite (range_step a b 1) by lia. rewrite range_step by nia. simpl.
    f_equal. replace (a * d + o + d) with ((a + 1) * d + o) by lia.
    apply IH. lia.
Qed.


Lemma for_range_scale {S} d o a b (body : Z -> S -> S) s :
  0 < d -> 0 <= o < d ->
  for_range (a * d + o) (b * d) d body s
  = for_range a b 1 (fun k => body (k * d + o)) s.
Proof.
  intros. unfold for_range. rewrite range_scale by done. apply fold_left_map.
Qed.


(** The loop over the records from [a] to [b]. *)
Lemma range_records d a b :
  0 < d -> range (a * d) (b * d) d = map (fun k => k * d) (range a b 1).
Proof.
  intros Hd. rewrite <- (Z.add_0_r (a * d)). rewrite range_scale by lia.
  apply map_ext. intros k. lia.
Qed.


Lemma for_range_records {S} d a b (body : Z -> S -> S) s :
  0 < d ->
  for_range (a * d) (b * d) d body s = for_range a b 1 (fun k => body (k * d)) s.
Proof.
  intros Hd. unfold for_range. rewrite range_records by done. apply fold_left_map.
Qed.

Lemma for_rangeM_ind1 {S} (P : Z -> S -> Prop) start stop
    (body : Z -> S -> result S) s :
  start <= stop ->
  P start s ->
  (forall i s, start <= i < stop -> P i s ->
     exists s', body i s = Ok s' /\ P (i + 1) s') ->
  exists s', for_rangeM start stop 1 body s = Ok s' /\ P stop s'.
Proof.
  intros Hle H0 Hstep. remember (Z.to_nat (stop - start)) as n eqn:Hn.
  revert start s Hle H0 Hstep Hn.
  induction n as [|n IH]; intros start s Hle H0 Hstep Hn.
  - assert (start = stop) as -> by lia.
    rewrite for_rangeM_stop by lia. eauto.
  - rewrite for_rangeM_step by lia.
    destruct (Hstep start s) as (s' & Hb & Hs'); [lia|done|].
    rewrite Hb. simpl. unfold mbind, result_bind.
    apply IH; [lia|done| |lia].
    intros i s0 Hi. apply Hstep. lia.
Qed.

(** A monadic loop stops at the first turn that throws. *)
Lemma for_rangeM_throws {S} start stop (body : Z -> S -> result S) s k e :
  start <= k < stop ->
  (forall i s, start <= i < k -> exists s', body i s = Ok s') ->
  (forall s, body k s = Throw e) ->
  for_rangeM start stop 1 body s = Throw e.
Proof.
  intros Hk Hok Hthrow. remember (Z.to_nat (k - start)) as n eqn:Hn.
  revert start s Hk Hok Hn. induction n as [|n IH]; intros start s Hk Hok Hn.
  - assert (start = k) as -> by lia.
    rewrite for_rangeM_step by lia. by rewrite Hthrow.
  - rewrite for_rangeM_step by lia.
    destruct (Hok start s) as (s' & Hb); [lia|]. rewrite Hb.
    unfold mbind, result_bind. apply IH; [lia| |lia].
    intros i s0 Hi. apply Hok. lia.
Qed.

(** ** Counting *)

(** The number of [k] in [[0, K)] that satisfy [p]. *)
Definition countP (p : Z -> bool) (K : Z) : Z := len (List.filter p (range 0 K 1)).

Lemma countP_0 p K : K <= 0 -> countP p K = 0.
Proof. intros. unfold countP. by rewrite range_stop by lia. Qed.

Lemma countP_step p K :
  0 <= K -> countP p (K + 1) = countP p K + (if p K then 1 else 0).
Proof.
  intros H. unfold countP, len. rewrite range1_snoc by done.
  rewrite List.filter_app, length_app. simpl. destruct (p K); simpl; lia.
Qed.

Lemma countP_ind (Q : Z -> Prop) :
  Q 0 -> (forall K, 0 <= K -> Q K -> Q (K + 1)) -> forall K, 0 <= K -> Q K.
Proof. intros H0 Hs K HK. by apply natlike_ind. Qed.

Lemma countP_bounds p K : 0 <= K -> 0 <= countP p K <= K.
Proof.
  revert K. apply countP_ind.
  - rewrite countP_0 by lia. lia.
  - intros K HK IH. rewrite countP_step by done. destruct (p K); lia.
Qed.

Lemma countP_mono p K K' : 0 <= K <= K' -> countP p K <= countP p K'.
Proof.
  intros [H0 H]. replace K' with (K + (K' - K)) by lia.
  assert (Hd : 0 <= K' - K) by lia. revert Hd. generalize (K' - K).
  apply countP_ind.
  - by rewrite Z.add_0_r.
  - intros d Hd IH. rewrite Z.add_assoc, countP_step by lia. destruct (p (K + d)); lia.
Qed.

Lemma countP_split (f : Z -> Z) v K :
  0 <= K ->
  countP (fun k => f k <? v + 1) K
  = countP (fun k => f k <? v) K + countP (fun k => f k =? v) K.
Proof.
  revert K. apply countP_ind.
  - by rewrite !countP_0 by lia.
  - intros K HK IH. rewrite !countP_step by done. rewrite IH.
    destruct (Z.ltb_spec (f K) (v + 1)); destruct (Z.ltb_spec (f K) v);
      destruct (Z.eqb_spec (f K) v); lia.
Qed.

Lemma countP_all p K : 0 <= K -> (forall k, 0 <= k < K -> p k = true) -> countP p K = K.
Proof.
  revert K. apply (countP_ind (fun K => (forall k, 0 <= k < K -> p k = true) -> countP p K = K)).
  - intros _. by rewrite countP_0.
  - intros K HK IH H. rewrite countP_step by done.
    rewrite H by lia. rewrite IH; [lia|]. intros k Hk. apply H. lia.
Qed.

Lemma countP_none p K : (forall k, 0 <= k < K -> p k = false) -> countP p K = 0.
Proof.
  destruct (Z_lt_le_dec K 0) as [|HK]; [intros; by rewrite countP_0 by lia|].
  revert K HK.
  apply (countP_ind (fun K => (forall k, 0 <= k < K -> p k = false) -> countP p K = 0)).
  - intros _. by rewrite countP_0.
  - intros K HK IH H. rewrite countP_step by done.
    rewrite H by lia. rewrite IH; [lia|]. intros k Hk. apply H. lia.
Qed.

Lemma countP_le p q K :
  0 <= K -> (forall k, 0 <= k < K -> p k = true -> q k = true) ->
  countP p K <= countP q K.
Proof.
  revert K.
  apply (countP_ind (fun K => (forall k, 0 <= k < K -> p k = true -> q k = true) ->
                              countP p K <= countP q K)).
  - intros _. rewrite !countP_0 by lia. lia.
  - intros K HK IH H. rewrite !countP_step by done.
    assert (countP p K <= countP q K) by (apply IH; intros k Hk; apply H; lia).
    destruct (p K) eqn:Ep; [rewrite (H K) by (lia || done); lia|].
    destruct (q K); lia.
Qed.


(** ** Retainers (claim C5) *)

Section RetainersProof.
Variable L : Layout.
Variables edges fei : list Z.

Local Abbreviation NF := (nodeFieldCount L).
Local Abbreviation EF := (edgeFieldsCount L).
Local Abbreviation n := (nodeCount L).
Local Abbreviation E := (edgeCount L).

(** The [to_node] field of the [k]-th edge, and the ordinal it names. *)
Definition toNode (k : Z) : Z := aget edges (k * EF + edgeToNodeOffset L).
Definition target (k : Z) : Z := toNode k / NF.



Hypothesis HNF : 0 < NF.
Hypothesis HEF : 0 < EF.
Hypothesis Hoff : 0 <= edgeToNodeOffset L < EF.
Hypothesis Hn : 0 <= n.
Hypothesis Hlen : len edges = E * EF.
Hypothesis Hsmall : len edges < 4294967296.
Hypothesis Hfei0 : aget fei 0 = 0.
Hypothesis HfeiN : aget fei n = len edges.
Hypothesis Hfei : forall v, 0 <= v < n ->
  aget fei v <= aget fei (v + 1) /\ aget fei v mod EF = 0.
Hypothesis Htarget : forall k, 0 <= k < E -> 0 <= toNode k /\ target k < n.

(* Every lemma of the section takes all of its hypotheses. *)
Local Set Default Proof Using "All".



Lemma target_nonneg k : 0 <= k < E -> 0 <= target k.
Proof. intros Hk. unfold target. apply Z.div_pos; [by apply Htarget|done]. Qed.




















Lemma fei_mono u v : 0 <= u <= v -> v <= n -> aget fei u <= aget fei v.
Proof.
  intros Hu Hv. replace v with (u + (v - u)) in * by lia.
  assert (Hd : 0 <= v - u) by lia. revert Hd Hv. generalize (v - u).
  apply (countP_ind (fun d => u + d <= n -> aget fei u <= aget fei (u + d))).
  - rewrite Z.add_0_r. lia.
  - intros d Hd IH Hle. rewrite Z.add_assoc.
    destruct (Hfei (u + d)); lia.
Qed.


End RetainersProof.

Lemma aget_In a i : 0 <= i < len a -> In (aget a i) a.
Proof.
  intros Hi. unfold aget, len in *. destruct (Z.ltb_spec i 0); [lia|].
  destruct (a !! Z.to_nat i) eqn:E.
  - simpl. apply list_elem_of_In. by eapply list_elem_of_lookup_2.
  - apply lookup_ge_None in E. lia.
Qed.

Lemma In_aget a x : In x a -> exists i, 0 <= i < len a /\ aget a i = x.
Proof.
  intros H. apply list_elem_of_In, list_elem_of_lookup_1 in H as [i Hi].
  exists (Z.of_nat i). pose proof (lookup_lt_Some _ _ _ Hi).
  split; [unfold len; lia|]. unfold aget.
  destruct (Z.ltb_spec (Z.of_nat i) 0); [lia|]. by rewrite Nat2Z.id, Hi.
Qed.

Lemma NoDup_map_injective {A B} (f : A -> B) xs :
  (forall x y, f x = f y -> x = y) -> List.NoDup xs -> List.NoDup (map f xs).
Proof.
  intros Hf. induction 1 as [|x xs Hx Hxs IH]; simpl; constructor; [|done].
  intros Hin. apply in_map_iff in Hin as (y & Hy & Hin).
  apply Hf in Hy. by subst.
Qed.

Lemma NoDup_range start stop step : 0 < step -> List.NoDup (range start stop step).
Proof.
  intros Hs. unfold range. apply NoDup_map_injective; [|apply List.seq_NoDup].
  intros x y Hxy. nia.
Qed.

Lemma length_range1 a b : a <= b -> len (range a b 1) = b - a.
Proof.
  intros H. unfold len, range. rewrite length_map, length_seq. unfold iters.
  rewrite Z.div_1_r. lia.
Qed.

(** The snapshot is laid out as [buildRetainers] expects: positive field
    counts, an edge array of whole records that fits 32-bit indexes, first
    edge indexes that rise from 0 to the length of the edge array in steps of
    whole records, and edge targets inside the node array. *)
Definition wf_edges (L : Layout) (edges fei : list Z) : bool :=
  (0 <? nodeFieldCount L) && (0 <? edgeFieldsCount L)
  && (0 <=? edgeToNodeOffset L) && (edgeToNodeOffset L <? edgeFieldsCount L)
  && (0 <=? nodeCount L)
  && (len edges =? edgeCount L * edgeFieldsCount L)
  && (len edges <? 4294967296)
  && (aget fei 0 =? 0) && (aget fei (nodeCount L) =? len edges)
  && forallb
       (fun v => (aget fei v <=? aget fei (v + 1))
                 && (aget fei v mod edgeFieldsCount L =? 0))
       (range 0 (nodeCount L) 1)
  && forallb
       (fun k => (0 <=? toNode L edges k)
                 && (toNode L edges k / nodeFieldCount L <? nodeCount L))
       (range 0 (edgeCount L) 1).

Lemma wf_edges_spec L edges fei :
  wf_edges L edges fei = true ->
  0 < nodeFieldCount L /\ 0 < edgeFieldsCount L
  /\ 0 <= edgeToNodeOffset L < edgeFieldsCount L
  /\ 0 <= nodeCount L
  /\ len edges = edgeCount L * edgeFieldsCount L
  /\ len edges < 4294967296
  /\ aget fei 0 = 0 /\ aget fei (nodeCount L) = len edges
  /\ (forall v, 0 <= v < nodeCount L ->
        aget fei v <= aget fei (v + 1) /\ aget fei v mod edgeFieldsCount L = 0)
  /\ (forall k, 0 <= k < edgeCount L ->
        0 <= toNode L edges k /\ target L edges k < nodeCount L).
Proof.
  unfold wf_edges. rewrite !andb_true_iff, !forallb_forall.
  intros [[[[[[[[[[H1 H2] H3] H4] H5] H6] H7] H8] H9] H10] H11].
  repeat split; try lia.
  - specialize (H10 v ltac:(by apply In_range1)).
    apply andb_true_iff in H10 as [? ?]. lia.
  - specialize (H10 v ltac:(by apply In_range1)).
    apply andb_true_iff in H10 as [? ?]. lia.
  - specialize (H11 k ltac:(by apply In_range1)).
    apply andb_true_iff in H11 as [? ?]. lia.
  - specialize (H11 k ltac:(by apply In_range1)).
    apply andb_true_iff in H11 as [? ?]. unfold target. lia.
Qed.





(** ** Sums over lists of ordinals *)

Lemma sumZ_filter_remove (w : Z -> Z) (p q : Z -> bool) c xs :
  List.NoDup xs -> In c xs -> p c = true -> q c = false ->
  (forall x, x <> c -> q x = p x) ->
  sumZ (map w (List.filter q xs)) = sumZ (map w (List.filter p xs)) - w c.
Proof.
  intros Hnd Hin Hp Hq Hpq. induction Hnd as [|x xs Hx Hnd IH]; [destruct Hin|].
  simpl. destruct (Z.eq_dec x c) as [->|Hne].
  - rewrite Hp, Hq. simpl.
    assert (List.filter q xs = List.filter p xs) as ->; [|lia].
    apply filter_ext_in'. intros y Hy. apply Hpq. intros ->. contradiction.
  - rewrite (Hpq x Hne). destruct Hin as [->|Hin]; [contradiction|].
    destruct (p x); simpl; rewrite (IH Hin); lia.
Qed.

Lemma sumZ_filter_le (w : Z -> Z) (p q : Z -> bool) xs :
  (forall x, In x xs -> 0 <= w x) ->
  (forall x, In x xs -> p x = true -> q x = true) ->
  sumZ (map w (List.filter p xs)) <= sumZ (map w (List.filter q xs)).
Proof.
  induction xs as [|x xs IH]; intros Hw Hpq; simpl; [lia|].
  assert (IH' : sumZ (map w (List.filter p xs)) <= sumZ (map w (List.filter q xs))).
  { apply IH; intros; [apply Hw|apply Hpq]; simpl; auto. }
  pose proof (Hw x ltac:(by left)).
  destruct (p x) eqn:Ep.
  - rewrite (Hpq x ltac:(by left) Ep). simpl. lia.
  - destruct (q x); simpl; lia.
Qed.

Lemma sumZ_nonneg {A} (w : A -> Z) (xs : list A) :
  (forall x, In x xs -> 0 <= w x) -> 0 <= sumZ (map w xs).
Proof.
  induction xs as [|x xs IH]; intros Hw; simpl; [lia|].
  pose proof (Hw x ltac:(by left)).
  assert (0 <= sumZ (map w xs)) by (apply IH; intros; apply Hw; by right). lia.
Qed.

Lemma filter_true_id (xs : list Z) : List.filter (fun _ => true) xs = xs.
Proof. induction xs as [|x xs IH]; simpl; [done|by rewrite IH]. Qed.

(** A telescoping sum. *)
Lemma sumZ_telescope (g : Z -> Z) m :
  0 <= m -> sumZ (map (fun v => g (v + 1) - g v + 1) (range 0 m 1)) = g m - g 0 + m.
Proof.
  revert m. apply countP_ind.
  - rewrite range_stop by lia. simpl. lia.
  - intros m Hm IH. rewrite range1_snoc by lia. rewrite map_app, sumZ_app, IH.
    simpl. lia.
Qed.

(** A list of distinct ordinals below [m] has at most [m] entries. *)
Lemma NoDup_ordinals_length xs m :
  0 <= m -> List.NoDup xs -> (forall x, In x xs -> 0 <= x < m) -> len xs <= m.
Proof.
  intros Hm Hnd Hin.
  assert (length xs <= length (range 0 m 1))%nat.
  { apply NoDup_incl_length; [done|]. intros x Hx. apply In_range1. by apply Hin. }
  pose proof (length_range1 0 m Hm). unfold len in *. lia.
Qed.

(** A list of [m] distinct ordinals below [m] is a permutation of them all. *)
Lemma NoDup_ordinals_Permutation xs m :
  0 <= m -> List.NoDup xs -> (forall x, In x xs -> 0 <= x < m) -> len xs = m ->
  Permutation xs (range 0 m 1).
Proof.
  intros Hm Hnd Hin Hlen. apply NoDup_Permutation_bis; [done| |].
  - pose proof (length_range1 0 m Hm). unfold len in *. lia.
  - intros x Hx. apply In_range1. by apply Hin.
Qed.

(** ** Views of arrays used as stacks *)

(** The first [k] cells of an array. *)
Definition view (a : list Z) (k : Z) : list Z := map (aget a) (range 0 k 1).

Lemma view_0 a k : k <= 0 -> view a k = [].
Proof. intros. unfold view. by rewrite range_stop by lia. Qed.

Lemma view_snoc a k : 0 <= k -> view a (k + 1) = view a k ++ [aget a k].
Proof. intros. unfold view. rewrite range1_snoc by lia. by rewrite map_app. Qed.

Lemma view_ext a b k :
  (forall i, 0 <= i < k -> aget a i = aget b i) -> view a k = view b k.
Proof. intros H. unfold view. apply map_ext_in. intros i Hi. apply H, In_range1, Hi. Qed.

Lemma view_aset_ge a k i v : k <= i -> view (aset a i v) k = view a k.
Proof. intros H. apply view_ext. intros j Hj. apply aget_aset_ne. lia. Qed.

Lemma view_aset_snoc a k v : 0 <= k < len a -> view (aset a k v) (k + 1) = view a k ++ [v].
Proof.
  intros H. rewrite view_snoc by lia. rewrite view_aset_ge by lia.
  by rewrite aget_aset_eq.
Qed.

Lemma In_view a k x : In x (view a k) <-> exists i, 0 <= i < k /\ aget a i = x.
Proof.
  unfold view. rewrite in_map_iff. split.
  - intros (i & Hi & Hin). apply In_range1 in Hin. eauto.
  - intros (i & Hi & Ha). exists i. split; [done|]. by apply In_range1.
Qed.

Lemma len_view a k : 0 <= k -> len (view a k) = k.
Proof.
  intros. unfold view, len. rewrite length_map.
  pose proof (length_range1 0 k ltac:(lia)). unfold len in *. lia.
Qed.

Lemma view_full a : view a (len a) = a.
Proof. apply map_aget_range. Qed.

(** The frames of a stack kept in two arrays. *)
Definition frames (sn cur : list Z) (k : Z) : list (Z * Z) :=
  map (fun i => (aget sn i, aget cur i)) (range 0 k 1).

Lemma frames_snoc sn cur k :
  0 <= k -> frames sn cur (k + 1) = frames sn cur k ++ [(aget sn k, aget cur k)].
Proof. intros. unfold frames. rewrite range1_snoc by lia. by rewrite map_app. Qed.

Lemma frames_ext sn cur sn' cur' k :
  (forall i, 0 <= i < k -> aget sn i = aget sn' i /\ aget cur i = aget cur' i) ->
  frames sn cur k = frames sn' cur' k.
Proof.
  intros H. unfold frames. apply map_ext_in. intros i Hi.
  apply In_range1 in Hi. destruct (H i Hi) as [-> ->]. done.
Qed.

Lemma frames_0 sn cur k : k <= 0 -> frames sn cur k = [].
Proof. intros. unfold frames. by rewrite range_stop by lia. Qed.

Lemma aligned_next a b d :
  0 < d -> a mod d = 0 -> b mod d = 0 -> a < b -> a + d <= b.
Proof.
  intros Hd Ha Hb Hab.
  pose proof (Z.div_mod a d ltac:(lia)). pose proof (Z.div_mod b d ltac:(lia)).
  assert (a / d < b / d) by nia. nia.
Qed.

Lemma aligned_add a d : 0 < d -> a mod d = 0 -> (a + d) mod d = 0.
Proof.
  intros Hd Ha. rewrite <- Z.add_mod_idemp_l by lia. rewrite Ha. simpl.
  by apply Z.mod_same, Z.neq_sym, Z.lt_neq.
Qed.

Lemma view_aset32_snoc a k v :
  0 <= k < len a -> 0 <= v < 4294967296 -> view (aset32 a k v) (k + 1) = view a k ++ [v].
Proof. intros Hk Hv. unfold aset32. rewrite u32_small by done. by apply view_aset_snoc. Qed.

Lemma view_aset32_ge a k i v : k <= i -> view (aset32 a i v) k = view a k.
Proof. apply view_aset_ge. Qed.

Lemma NoDup_app_intro (xs ys : list Z) :
  List.NoDup xs -> List.NoDup ys -> (forall x, In x xs -> ¬ In x ys) ->
  List.NoDup (xs ++ ys).
Proof.
  intros Hx Hy Hd. induction Hx as [|x xs Hnin Hx IH]; [done|].
  simpl. constructor.
  - intros Hin. apply in_app_or in Hin as [Hin|Hin]; [done|].
    apply (Hd x); [by left|done].
  - apply IH. intros z Hz. apply Hd. by right.
Qed.

(** ** The post-order index (claim C3) *)

Section PostOrderProof.
Variable L : Layout.
Variables nodes edges : list Z.
Variable strings : list string.
Variable fei : list Z.
Variable R : Retainers.
Variable flags : option (list Z * Z).

Local Abbreviation NF := (nodeFieldCount L).
Local Abbreviation EF := (edgeFieldsCount L).
Local Abbreviation n := (nodeCount L).
Local Abbreviation E := (edgeCount L).
Local Abbreviation root := (rootNodeOrdinal L).

Hypothesis Hwf : wf_edges L edges fei = true.
Hypothesis Hn0 : 0 < n.
Hypothesis Hn32 : n < 4294967296.
Hypothesis Hroot : 0 <= root < n.

Local Set Default Proof Using "All".

Definition stack_view (st : PostOrder) : list Z :=
  view (stackNodes st) (stackTop st + 1).

Definition emitted_view (st : PostOrder) : list Z :=
  view (postOrderIndex2NodeOrdinal st) (postOrderIndex st).

(** What the loop keeps true: the stack and the emitted prefix hold distinct
    ordinals, which are exactly the visited ones; the inverse map is right on
    the emitted prefix; every cursor is inside the edges of its node; the root
    is at the bottom of the stack, or the last one emitted when the stack is
    empty. *)
Record dfs_inv (st : PostOrder) : Prop := {
  inv_len_sn : len (stackNodes st) = n;
  inv_len_cur : len (stackCurrentEdge st) = n;
  inv_len_p2o : len (postOrderIndex2NodeOrdinal st) = n;
  inv_len_o2p : len (nodeOrdinal2PostOrderIndex st) = n;
  inv_len_vis : len (visited st) = n;
  inv_top : -1 <= stackTop st;
  inv_poi : 0 <= postOrderIndex st;
  inv_nodup : List.NoDup (stack_view st ++ emitted_view st);
  inv_range : forall x, In x (stack_view st ++ emitted_view st) -> 0 <= x < n;
  inv_visited : forall v, 0 <= v < n ->
    (aget (visited st) v <> 0 <-> In v (stack_view st ++ emitted_view st));
  inv_inverse : forall i, 0 <= i < postOrderIndex st ->
    aget (nodeOrdinal2PostOrderIndex st) (aget (postOrderIndex2NodeOrdinal st) i) = i;
  inv_cursor : forall i, 0 <= i <= stackTop st ->
    aget fei (aget (stackNodes st) i) <= aget (stackCurrentEdge st) i
      <= aget fei (aget (stackNodes st) i + 1)
    /\ aget (stackCurrentEdge st) i mod EF = 0;
  inv_root :
    (0 <= stackTop st -> aget (stackNodes st) 0 = root)
    /\ (stackTop st < 0 ->
        0 < postOrderIndex st
        /\ aget (postOrderIndex2NodeOrdinal st) (postOrderIndex st - 1) = root)
}.

Definition frame_weight (f : Z * Z) : Z := aget fei (fst f + 1) - snd f + 1.
Definition node_weight (v : Z) : Z := aget fei (v + 1) - aget fei v + 1.

(** The number of loop turns still to come is at most this. *)
Definition potential (st : PostOrder) : Z :=
  sumZ (map frame_weight
          (frames (stackNodes st) (stackCurrentEdge st) (stackTop st + 1)))
  + sumZ (map node_weight
            (List.filter (fun v => aget (visited st) v =? 0) (range 0 n 1))).

Lemma po_facts :
  0 < NF /\ 0 < EF /\ 0 <= edgeToNodeOffset L < EF
  /\ len edges = E * EF /\ len edges < 4294967296
  /\ aget fei 0 = 0 /\ aget fei n = len edges
  /\ (forall v, 0 <= v < n -> aget fei v <= aget fei (v + 1))
  /\ (forall v, 0 <= v <= n -> aget fei v mod EF = 0)
  /\ (forall u v, 0 <= u <= v -> v <= n -> aget fei u <= aget fei v)
  /\ (forall k, 0 <= k < E -> 0 <= target L edges k < n).
Proof.
  destruct (wf_edges_spec L edges fei Hwf)
    as (HNF & HEF & Hoff & Hn & Hlen & Hsmall & Hfei0 & HfeiN & Hfei & Htarget).
  repeat split; try lia; try done.
  - intros v Hv. by apply Hfei.
  - intros v Hv. destruct (Z.eq_dec v n) as [->|].
    + rewrite HfeiN, Hlen. by apply Z.mod_mul, Z.neq_sym, Z.lt_neq.
    + apply Hfei. lia.
  - intros u v Hu Hv.
    by apply (fei_mono L edges fei HNF HEF Hoff Hn Hlen Hsmall Hfei0 HfeiN Hfei Htarget).
  - by apply (target_nonneg L edges fei HNF HEF Hoff Hn Hlen Hsmall Hfei0 HfeiN Hfei
                Htarget).
  - by apply Htarget.
Qed.

Lemma node_weight_pos v : 0 <= v < n -> 1 <= node_weight v.
Proof.
  intros Hv. destruct po_facts as (_ & _ & _ & _ & _ & _ & _ & Hfei & _).
  unfold node_weight. specialize (Hfei v Hv). lia.
Qed.

Lemma fei_range v : 0 <= v <= n -> 0 <= aget fei v <= len edges.
Proof.
  intros Hv.
  destruct po_facts as (_ & _ & _ & _ & _ & Hfei0 & HfeiN & _ & _ & Hmono & _).
  pose proof (Hmono 0 v ltac:(lia) ltac:(lia)).
  pose proof (Hmono v n ltac:(lia) ltac:(lia)). lia.
Qed.

Lemma inv_count st : dfs_inv st -> stackTop st + 1 + postOrderIndex st <= n.
Proof.
  intros I.
  pose proof (NoDup_ordinals_length _ n ltac:(lia) (inv_nodup st I) (inv_range st I)) as H.
  unfold len in H. rewrite length_app in H.
  pose proof (len_view (stackNodes st) (stackTop st + 1)) as H1.
  pose proof (len_view (postOrderIndex2NodeOrdinal st) (postOrderIndex st)) as H2.
  pose proof (inv_top st I). pose proof (inv_poi st I).
  unfold len, stack_view, emitted_view in *. lia.
Qed.

Lemma inv_top_node st :
  dfs_inv st -> 0 <= stackTop st ->
  0 <= aget (stackNodes st) (stackTop st) < n
  /\ In (aget (stackNodes st) (stackTop st)) (stack_view st).
Proof.
  intros I Htop.
  assert (Hin : In (aget (stackNodes st) (stackTop st)) (stack_view st)).
  { apply In_view. exists (stackTop st). split; [lia|done]. }
  split; [|done]. apply (inv_range st I), in_or_app. by left.
Qed.

Lemma frames_weight_pos st :
  dfs_inv st ->
  forall f, In f (frames (stackNodes st) (stackCurrentEdge st) (stackTop st + 1)) ->
            1 <= frame_weight f.
Proof.
  intros I f Hf. unfold frames in Hf. apply in_map_iff in Hf as (i & <- & Hi).
  apply In_range1 in Hi. unfold frame_weight. simpl.
  destruct (inv_cursor st I i ltac:(lia)) as [Hc _]. lia.
Qed.

Lemma potential_pos st : dfs_inv st -> 0 <= stackTop st -> 1 <= potential st.
Proof.
  intros I Htop. unfold potential.
  replace (stackTop st + 1) with (stackTop st + 1 - 1 + 1) by lia.
  pose proof (frames_weight_pos st I) as Hw.
  replace (stackTop st + 1) with (stackTop st + 1 - 1 + 1) in Hw by lia.
  rewrite frames_snoc in * by lia. rewrite map_app, sumZ_app. simpl.
  assert (0 <= sumZ (map frame_weight
                       (frames (stackNodes st) (stackCurrentEdge st)
                          (stackTop st + 1 - 1)))).
  { apply sumZ_nonneg. intros f Hf.
    assert (1 <= frame_weight f) by (apply Hw, in_or_app; by left). lia. }
  assert (1 <= frame_weight (aget (stackNodes st) (stackTop st + 1 - 1),
                             aget (stackCurrentEdge st) (stackTop st + 1 - 1))).
  { apply Hw, in_or_app. right. by left. }
  assert (0 <= sumZ (map node_weight
                       (List.filter (fun v => aget (visited st) v =? 0)
                          (range 0 n 1)))).
  { apply sumZ_nonneg. intros v Hv. apply filter_In in Hv as [Hv _].
    apply In_range1 in Hv. pose proof (node_weight_pos v Hv). lia. }
  lia.
Qed.

(** The three outcomes of one turn of the loop. *)
Definition skip_state (st : PostOrder) (cache : BitVector) : PostOrder :=
  {| stackNodes := stackNodes st;
     stackCurrentEdge :=
       aset32 (stackCurrentEdge st) (stackTop st)
         (aget (stackCurrentEdge st) (stackTop st) + EF);
     postOrderIndex2NodeOrdinal := postOrderIndex2NodeOrdinal st;
     nodeOrdinal2PostOrderIndex := nodeOrdinal2PostOrderIndex st;
     visited := visited st;
     postOrderIndex := postOrderIndex st;
     stackTop := stackTop st;
     notWeakMaps := cache |}.

Definition push_state (st : PostOrder) (c : Z) (cache : BitVector) : PostOrder :=
  {| stackNodes := aset32 (stackNodes st) (stackTop st + 1) c;
     stackCurrentEdge :=
       aset32 (aset32 (stackCurrentEdge st) (stackTop st)
                 (aget (stackCurrentEdge st) (stackTop st) + EF))
         (stackTop st + 1) (aget fei c);
     postOrderIndex2NodeOrdinal := postOrderIndex2NodeOrdinal st;
     nodeOrdinal2PostOrderIndex := nodeOrdinal2PostOrderIndex st;
     visited := aset (visited st) c 1;
     postOrderIndex := postOrderIndex st;
     stackTop := stackTop st + 1;
     notWeakMaps := cache |}.

Definition pop_state (st : PostOrder) : PostOrder :=
  {| stackNodes := stackNodes st;
     stackCurrentEdge := stackCurrentEdge st;
     postOrderIndex2NodeOrdinal :=
       aset32 (postOrderIndex2NodeOrdinal st) (postOrderIndex st)
         (aget (stackNodes st) (stackTop st));
     nodeOrdinal2PostOrderIndex :=
       aset32 (nodeOrdinal2PostOrderIndex st)
         (aget (stackNodes st) (stackTop st)) (postOrderIndex st);
     visited := visited st;
     postOrderIndex := postOrderIndex st + 1;
     stackTop := stackTop st - 1;
     notWeakMaps := notWeakMaps st |}.

Lemma dfs_step_cases st :
  let v := aget (stackNodes st) (stackTop st) in
  let e := aget (stackCurrentEdge st) (stackTop st) in
  (e < aget fei (v + 1) /\ exists cache, dfs_step L nodes edges strings fei flags st = skip_state st cache)
  \/ (e < aget fei (v + 1)
      /\ aget (visited st) (aget edges (e + edgeToNodeOffset L) / NF) = 0
      /\ exists cache,
           dfs_step L nodes edges strings fei flags st
           = push_state st (aget edges (e + edgeToNodeOffset L) / NF) cache)
  \/ (aget fei (v + 1) <= e
      /\ dfs_step L nodes edges strings fei flags st = pop_state st).
Proof.
  intros v e. unfold dfs_step. fold v e.
  destruct (Z.ltb_spec e (aget fei (v + 1))) as [Hlt|Hge].
  - destruct (isEssentialEdge L nodes edges strings (notWeakMaps st) (v * NF) e)
      as [ess cache].
    destruct ess; simpl; [|left; split; [done|by exists cache]].
    destruct (Z.eqb_spec (aget (visited st) (aget edges (e + edgeToNodeOffset L) / NF)) 0)
      as [Hv|Hv]; simpl; [|left; split; [done|by exists cache]].
    match goal with
    | |- context [if ?b then _ else _] => destruct b
    end.
    + left. split; [done|by exists cache].
    + right. left. split; [done|]. split; [done|]. by exists cache.
  - right. right. split; [lia|done].
Qed.

Lemma top_facts st :
  dfs_inv st -> 0 <= stackTop st ->
  let v := aget (stackNodes st) (stackTop st) in
  let e := aget (stackCurrentEdge st) (stackTop st) in
  0 <= v < n /\ stackTop st < n /\ postOrderIndex st < n
  /\ 0 <= e /\ e <= aget fei (v + 1) /\ e mod EF = 0
  /\ aget fei (v + 1) <= len edges /\ aget fei (v + 1) mod EF = 0
  /\ len edges < 4294967296 /\ 0 < EF.
Proof.
  intros I Htop v e.
  destruct po_facts as (_ & HEF & _ & _ & Hsmall & _ & _ & _ & Hal & _ & _).
  destruct (inv_top_node st I Htop) as [Hv _]. fold v in Hv.
  pose proof (inv_count st I). pose proof (inv_poi st I).
  destruct (inv_cursor st I (stackTop st) ltac:(lia)) as [Hc Hm]. fold v e in Hc, Hm.
  pose proof (fei_range v ltac:(lia)). pose proof (fei_range (v + 1) ltac:(lia)).
  pose proof (Hal (v + 1) ltac:(lia)).
  repeat split; try lia; done.
Qed.

Lemma skip_inv st cache :
  dfs_inv st -> 0 <= stackTop st ->
  aget (stackCurrentEdge st) (stackTop st)
    < aget fei (aget (stackNodes st) (stackTop st) + 1) ->
  dfs_inv (skip_state st cache)
  /\ potential (skip_state st cache) + 1 <= potential st.
Proof.
  intros I Htop Hlt.
  destruct (top_facts st I Htop)
    as (Hv & Htn & Hpn & He0 & Hee & Hem & Hend & Hendm & Hsmall & HEF).
  pose proof (aligned_next _ _ _ HEF Hem Hendm Hlt) as Hnext.
  assert (Hu : u32 (aget (stackCurrentEdge st) (stackTop st) + EF)
               = aget (stackCurrentEdge st) (stackTop st) + EF)
    by (apply u32_small; lia).
  assert (Hcur : forall i, i <> stackTop st ->
            aget (stackCurrentEdge (skip_state st cache)) i
            = aget (stackCurrentEdge st) i).
  { intros i Hi. simpl. apply aget_aset32_ne. lia. }
  assert (Hcur' : aget (stackCurrentEdge (skip_state st cache)) (stackTop st)
                  = aget (stackCurrentEdge st) (stackTop st) + EF).
  { simpl. rewrite aget_aset32_eq by (rewrite (inv_len_cur st I); lia). done. }
  split.
  - constructor; simpl; try apply I.
    + rewrite len_aset32. apply I.
    + intros i Hi. destruct (Z.eq_dec i (stackTop st)) as [->|Hne].
      * simpl in Hcur'. rewrite Hcur'.
        destruct (inv_cursor st I (stackTop st) ltac:(lia)) as [Hc _].
        split; [lia|]. by apply aligned_add.
      * specialize (Hcur i Hne). simpl in Hcur. rewrite Hcur.
        by apply (inv_cursor st I).
  - unfold potential. simpl visited. simpl stackTop. simpl stackNodes.
    rewrite !frames_snoc by lia. rewrite !map_app, !sumZ_app.
    rewrite (frames_ext (stackNodes st) (stackCurrentEdge (skip_state st cache))
               (stackNodes st) (stackCurrentEdge st) (stackTop st)).
    2:{ intros i Hi. split; [done|]. apply Hcur. lia. }
    rewrite Hcur'. unfold frame_weight. simpl. lia.
Qed.

Lemma stack_view_top st :
  0 <= stackTop st ->
  stack_view st
  = view (stackNodes st) (stackTop st) ++ [aget (stackNodes st) (stackTop st)].
Proof. intros. unfold stack_view. by rewrite view_snoc. Qed.

Lemma pop_inv st :
  dfs_inv st -> 0 <= stackTop st ->
  aget fei (aget (stackNodes st) (stackTop st) + 1)
    <= aget (stackCurrentEdge st) (stackTop st) ->
  dfs_inv (pop_state st) /\ potential (pop_state st) + 1 <= potential st.
Proof.
  intros I Htop Hge.
  destruct (top_facts st I Htop)
    as (Hv & Htn & Hpn & He0 & Hee & Hem & Hend & Hendm & Hsmall & HEF).
  pose proof (inv_poi st I) as Hpoi.
  set (v := aget (stackNodes st) (stackTop st)) in *.
  assert (Hsv' : stack_view (pop_state st) = view (stackNodes st) (stackTop st)).
  { unfold stack_view. simpl. f_equal. lia. }
  assert (Hev' : emitted_view (pop_state st) = emitted_view st ++ [v]).
  { unfold emitted_view. simpl. fold v.
    by rewrite view_aset32_snoc by (rewrite ?(inv_len_p2o st I); lia). }
  assert (Hperm : Permutation (stack_view st ++ emitted_view st)
                    (stack_view (pop_state st) ++ emitted_view (pop_state st))).
  { rewrite Hsv', Hev', stack_view_top by done. fold v.
    rewrite <- !app_assoc. apply Permutation_app_head. simpl.
    apply Permutation_cons_append. }
  assert (Hother : forall i, 0 <= i < postOrderIndex st ->
            aget (postOrderIndex2NodeOrdinal st) i <> v).
  { intros i Hi Heq. pose proof (inv_nodup st I) as Hnd.
    rewrite stack_view_top in Hnd by done. fold v in Hnd.
    rewrite <- app_assoc in Hnd. apply NoDup_remove_2 in Hnd. apply Hnd.
    apply in_or_app. right. apply In_view. by exists i. }
  split.
  - constructor.
    + apply I.
    + apply I.
    + simpl. rewrite len_aset32. apply I.
    + simpl. rewrite len_aset32. apply I.
    + apply I.
    + simpl. lia.
    + simpl. lia.
    + eapply Permutation_NoDup; [exact Hperm|apply I].
    + intros x Hx. apply (inv_range st I).
      eapply Permutation_in; [symmetry; exact Hperm|exact Hx].
    + intros x Hx. rewrite (inv_visited st I x Hx). split; intros Hin.
      * eapply Permutation_in; [exact Hperm|exact Hin].
      * eapply Permutation_in; [symmetry; exact Hperm|exact Hin].
    + simpl. intros i Hi. fold v.
      destruct (Z.eq_dec i (postOrderIndex st)) as [->|Hne].
      * rewrite aget_aset32_eq by (rewrite (inv_len_p2o st I); lia).
        rewrite (u32_small v) by lia.
        rewrite aget_aset32_eq by (rewrite (inv_len_o2p st I); lia).
        apply u32_small. lia.
      * rewrite (aget_aset32_ne _ (postOrderIndex st) i) by lia.
        rewrite aget_aset32_ne by (intros Heq; apply (Hother i); [lia|done]).
        apply (inv_inverse st I). lia.
    + simpl. intros i Hi. apply (inv_cursor st I). lia.
    + simpl. split.
      * intros H. apply (inv_root st I). lia.
      * intros H. split; [lia|].
        replace (postOrderIndex st + 1 - 1) with (postOrderIndex st) by lia.
        fold v. rewrite aget_aset32_eq by (rewrite (inv_len_p2o st I); lia).
        rewrite u32_small by lia.
        assert (stackTop st = 0) as H0 by lia.
        unfold v. rewrite H0. apply (inv_root st I). lia.
  - unfold potential. simpl visited. simpl stackTop. simpl stackNodes.
    simpl stackCurrentEdge.
    replace (stackTop st - 1 + 1) with (stackTop st) by lia.
    rewrite frames_snoc by lia. rewrite map_app, sumZ_app.
    unfold frame_weight at 3. simpl. fold v. lia.
Qed.

Lemma push_inv st c cache :
  dfs_inv st -> 0 <= stackTop st ->
  aget (stackCurrentEdge st) (stackTop st)
    < aget fei (aget (stackNodes st) (stackTop st) + 1) ->
  0 <= c < n -> aget (visited st) c = 0 ->
  dfs_inv (push_state st c cache)
  /\ potential (push_state st c cache) + 1 <= potential st.
Proof.
  intros I Htop Hlt Hc Hvis.
  destruct (top_facts st I Htop)
    as (Hv & Htn & Hpn & He0 & Hee & Hem & Hend & Hendm & Hsmall & HEF).
  pose proof (aligned_next _ _ _ HEF Hem Hendm Hlt) as Hnext.
  pose proof (inv_poi st I) as Hpoi.
  set (v := aget (stackNodes st) (stackTop st)) in *.
  set (e := aget (stackCurrentEdge st) (stackTop st)) in *.
  assert (Hnotin : ¬ In c (stack_view st ++ emitted_view st)).
  { intros Hin. apply (inv_visited st I c Hc) in Hin. done. }
  assert (Hroom : stackTop st + 1 < n).
  { assert (Hnd : List.NoDup (c :: stack_view st ++ emitted_view st)).
    { constructor; [done|apply I]. }
    apply (NoDup_ordinals_length _ n ltac:(lia)) in Hnd.
    - unfold len in Hnd. simpl length in Hnd. rewrite length_app in Hnd.
      pose proof (len_view (stackNodes st) (stackTop st + 1) ltac:(lia)).
      pose proof (len_view (postOrderIndex2NodeOrdinal st) (postOrderIndex st) Hpoi).
      unfold len, stack_view, emitted_view in *. lia.
    - intros x [<-|Hx]; [done|by apply (inv_range st I)]. }
  pose proof (fei_range c ltac:(lia)) as Hfc.
  pose proof (fei_range (c + 1) ltac:(lia)) as Hfc1.
  destruct po_facts as (_ & _ & _ & _ & _ & _ & _ & Hfei & Hal & _ & _).
  assert (Hsv' : stack_view (push_state st c cache) = stack_view st ++ [c]).
  { unfold stack_view. simpl.
    by rewrite view_aset32_snoc by (rewrite ?(inv_len_sn st I); lia). }
  assert (Hperm : Permutation (c :: stack_view st ++ emitted_view st)
                    (stack_view (push_state st c cache)
                     ++ emitted_view (push_state st c cache))).
  { rewrite Hsv'. unfold emitted_view. simpl.
    rewrite <- app_assoc. simpl. apply Permutation_middle. }
  assert (Hsn : forall i, i <> stackTop st + 1 ->
            aget (stackNodes (push_state st c cache)) i = aget (stackNodes st) i).
  { intros i Hi. simpl. apply aget_aset32_ne. lia. }
  assert (Hsn' : aget (stackNodes (push_state st c cache)) (stackTop st + 1) = c).
  { simpl. rewrite aget_aset32_eq by (rewrite (inv_len_sn st I); lia).
    apply u32_small. lia. }
  assert (Hcur : forall i, i <> stackTop st -> i <> stackTop st + 1 ->
            aget (stackCurrentEdge (push_state st c cache)) i
            = aget (stackCurrentEdge st) i).
  { intros i Hi Hi'. simpl. rewrite !aget_aset32_ne by lia. done. }
  assert (Hcur1 : aget (stackCurrentEdge (push_state st c cache)) (stackTop st)
                  = e + EF).
  { simpl. rewrite aget_aset32_ne by lia.
    rewrite aget_aset32_eq by (rewrite (inv_len_cur st I); lia).
    apply u32_small. lia. }
  assert (Hcur2 : aget (stackCurrentEdge (push_state st c cache)) (stackTop st + 1)
                  = aget fei c).
  { simpl. rewrite aget_aset32_eq by (rewrite !len_aset32, (inv_len_cur st I); lia).
    apply u32_small. lia. }
  split.
  - constructor.
    + simpl. rewrite len_aset32. apply I.
    + simpl. rewrite !len_aset32. apply I.
    + apply I.
    + apply I.
    + simpl. rewrite len_aset. apply I.
    + simpl. lia.
    + simpl. lia.
    + eapply Permutation_NoDup; [exact Hperm|]. constructor; [done|apply I].
    + intros x Hx.
      eapply Permutation_in in Hx; [|symmetry; exact Hperm].
      destruct Hx as [<-|Hx]; [done|by apply (inv_range st I)].
    + intros x Hx. simpl visited. destruct (Z.eq_dec x c) as [->|Hne].
      * rewrite aget_aset_eq by (rewrite (inv_len_vis st I); lia).
        split; [intros _|done].
        eapply Permutation_in; [exact Hperm|by left].
      * rewrite aget_aset_ne by lia. rewrite (inv_visited st I x Hx).
        split; intros Hin.
        -- eapply Permutation_in; [exact Hperm|by right].
        -- eapply Permutation_in in Hin; [|symmetry; exact Hperm].
           destruct Hin as [Heq|Hin]; [lia|done].
    + apply (inv_inverse st I).
    + intros i Hi. simpl stackTop in Hi.
      destruct (Z.eq_dec i (stackTop st + 1)) as [->|Hne1].
      * rewrite Hsn', Hcur2. split; [|apply Hal; lia].
        specialize (Hfei c Hc). lia.
      * rewrite Hsn by done. destruct (Z.eq_dec i (stackTop st)) as [->|Hne2].
        -- rewrite Hcur1. fold v.
           destruct (inv_cursor st I (stackTop st) ltac:(lia)) as [Hcc _].
           fold v e in Hcc. split; [lia|]. by apply aligned_add.
        -- rewrite Hcur by done. apply (inv_cursor st I). lia.
    + split.
      * intros _. rewrite Hsn by lia. apply (inv_root st I). done.
      * simpl. lia.
  - unfold potential. simpl stackTop.
    rewrite (frames_snoc _ _ (stackTop st + 1)) by lia.
    rewrite (frames_snoc _ _ (stackTop st)) by lia.
    rewrite (frames_snoc (stackNodes st)) by lia.
    rewrite !map_app, !sumZ_app.
    rewrite (frames_ext (stackNodes (push_state st c cache))
               (stackCurrentEdge (push_state st c cache))
               (stackNodes st) (stackCurrentEdge st) (stackTop st)).
    2:{ intros i Hi. split; [apply Hsn; lia|apply Hcur; lia]. }
    rewrite Hsn', Hcur2, Hcur1, (Hsn (stackTop st)) by lia.
    rewrite (sumZ_filter_remove node_weight
               (fun x => aget (visited st) x =? 0)
               (fun x => aget (visited (push_state st c cache)) x =? 0) c).
    + unfold frame_weight, node_weight. simpl. fold v e. lia.
    + by apply NoDup_range.
    + by apply In_range1.
    + simpl. by rewrite Hvis.
    + simpl. by rewrite aget_aset_eq by (rewrite (inv_len_vis st I); lia).
    + intros x Hx. simpl. by rewrite aget_aset_ne by lia.
Qed.

Lemma child_in_range e :
  0 <= e < len edges -> e mod EF = 0 ->
  0 <= aget edges (e + edgeToNodeOffset L) / NF < n.
Proof.
  intros He Hm.
  destruct po_facts as (HNF & HEF & _ & Hlen & _ & _ & _ & _ & _ & _ & Ht).
  assert (Hk : e = e / EF * EF).
  { pose proof (Z.div_mod e EF ltac:(lia)). lia. }
  assert (0 <= e / EF < E).
  { split; [apply Z.div_pos; lia|]. apply Z.div_lt_upper_bound; lia. }
  specialize (Ht (e / EF) ltac:(lia)). unfold target, toNode in Ht.
  by rewrite <- Hk in Ht.
Qed.

Lemma dfs_step_inv st :
  dfs_inv st -> 0 <= stackTop st ->
  dfs_inv (dfs_step L nodes edges strings fei flags st)
  /\ potential (dfs_step L nodes edges strings fei flags st) + 1 <= potential st.
Proof.
  intros I Htop.
  destruct (top_facts st I Htop)
    as (Hv & Htn & Hpn & He0 & Hee & Hem & Hend & Hendm & Hsmall & HEF).
  destruct (dfs_step_cases st)
    as [(Hlt & cache & ->)|[(Hlt & Hvis & cache & ->)|(Hge & ->)]].
  - by apply skip_inv.
  - apply push_inv; try done. apply child_in_range; [lia|done].
  - by apply pop_inv.
Qed.

(** The loop ends once the fuel covers the potential. *)
Lemma dfs_loop_terminates fuel :
  forall st, dfs_inv st -> potential st <= Z.of_nat fuel ->
  exists st', dfs_loop L nodes edges strings fei flags fuel st = Ok st'
    /\ dfs_inv st' /\ stackTop st' < 0.
Proof.
  induction fuel as [|fuel IH]; intros st I Hp; simpl;
    destruct (Z.ltb_spec (stackTop st) 0) as [Hneg|Hpos]; try (by exists st).
  - pose proof (potential_pos st I Hpos). lia.
  - destruct (dfs_step_inv st I Hpos) as [I' Hdec]. apply IH; [done|lia].
Qed.

Local Ltac po_simpl :=
  cbn [stackNodes stackCurrentEdge postOrderIndex2NodeOrdinal
       nodeOrdinal2PostOrderIndex visited postOrderIndex stackTop notWeakMaps].

Local Ltac po_simpl_in H :=
  cbn [stackNodes stackCurrentEdge postOrderIndex2NodeOrdinal
       nodeOrdinal2PostOrderIndex visited postOrderIndex stackTop notWeakMaps] in H.

Definition initial_state (cache : BitVector) : PostOrder :=
  {| stackNodes := aset32 (new_array n) 0 root;
     stackCurrentEdge := aset32 (new_array n) 0 (aget fei root);
     postOrderIndex2NodeOrdinal := new_array n;
     nodeOrdinal2PostOrderIndex := new_array n;
     visited := aset (new_array n) root 1;
     postOrderIndex := 0;
     stackTop := 0;
     notWeakMaps := cache |}.

Lemma total_weight : sumZ (map node_weight (range 0 n 1)) = len edges + n.
Proof.
  destruct po_facts as (_ & _ & _ & _ & _ & Hfei0 & HfeiN & _).
  unfold node_weight. rewrite (sumZ_telescope (aget fei)) by lia. lia.
Qed.

Lemma weight_without_root (vis : list Z) :
  aget vis root <> 0 ->
  sumZ (map node_weight (List.filter (fun v => aget vis v =? 0) (range 0 n 1)))
    <= len edges + n - node_weight root.
Proof.
  intros Hr. rewrite <- total_weight.
  rewrite <- (filter_true_id (range 0 n 1)) at 2.
  rewrite <- (sumZ_filter_remove node_weight (fun _ => true)
                (fun v => negb (v =? root)) root).
  - apply sumZ_filter_le.
    + intros x Hx. apply In_range1 in Hx. pose proof (node_weight_pos x Hx). lia.
    + intros x Hx Hv. destruct (Z.eqb_spec x root) as [->|]; [|done].
      apply Z.eqb_eq in Hv. done.
  - by apply NoDup_range.
  - by apply In_range1.
  - done.
  - by rewrite Z.eqb_refl.
  - intros x Hx. by destruct (Z.eqb_spec x root).
Qed.

Lemma initial_inv cache :
  dfs_inv (initial_state cache) /\ potential (initial_state cache) <= len edges + n.
Proof.
  destruct po_facts as (_ & _ & _ & _ & Hsmall & _ & _ & Hfei & Hal & _ & _).
  pose proof (fei_range root ltac:(lia)) as Hfr.
  assert (Hsn0 : aget (aset32 (new_array n) 0 root) 0 = root).
  { rewrite aget_aset32_eq by (rewrite len_new_array; lia). apply u32_small. lia. }
  assert (Hcur0 : aget (aset32 (new_array n) 0 (aget fei root)) 0 = aget fei root).
  { rewrite aget_aset32_eq by (rewrite len_new_array; lia). apply u32_small. lia. }
  assert (Hsv : stack_view (initial_state cache) = [root]).
  { unfold stack_view. simpl stackTop. simpl stackNodes.
    rewrite view_aset32_snoc by (rewrite ?len_new_array; lia).
    by rewrite view_0. }
  assert (Hev : emitted_view (initial_state cache) = []).
  { unfold emitted_view. simpl. by rewrite view_0. }
  split.
  - constructor; rewrite ?Hsv, ?Hev; unfold initial_state; po_simpl.
    + rewrite len_aset32. apply len_new_array. lia.
    + rewrite len_aset32. apply len_new_array. lia.
    + apply len_new_array. lia.
    + apply len_new_array. lia.
    + rewrite len_aset. apply len_new_array. lia.
    + lia.
    + lia.
    + repeat constructor. intros [].
    + intros x [<-|[]]. done.
    + intros v Hv. rewrite aget_aset, len_new_array, aget_new_array by lia.
      destruct (Z.eqb_spec root v) as [->|Hne]; simpl.
      * destruct (Z.leb_spec 0 v); [|lia]. destruct (Z.ltb_spec v n); [|lia].
        simpl. split; [by left|done].
      * split; [done|]. intros [Heq|[]]. done.
    + intros i Hi. lia.
    + intros i Hi. assert (i = 0) as -> by lia. rewrite Hsn0, Hcur0.
      specialize (Hfei root Hroot). split; [lia|]. apply Hal. lia.
    + split; [done|lia].
  - unfold potential. simpl stackTop. simpl stackNodes. simpl stackCurrentEdge.
    simpl visited. rewrite frames_snoc, frames_0 by lia. simpl map at 1.
    rewrite Hsn0, Hcur0.
    pose proof (weight_without_root (aset (new_array n) root 1)) as Hw.
    rewrite aget_aset_eq in Hw by (rewrite len_new_array; lia).
    specialize (Hw ltac:(lia)). unfold frame_weight. simpl.
    unfold node_weight in Hw at 2. lia.
Qed.

(** Start of the second round. *)
Definition restart_state (st : PostOrder) : PostOrder :=
  {| stackNodes := aset32 (stackNodes st) 0 root;
     stackCurrentEdge := aset32 (stackCurrentEdge st) 0 (aget fei (root + 1));
     postOrderIndex2NodeOrdinal := postOrderIndex2NodeOrdinal st;
     nodeOrdinal2PostOrderIndex := nodeOrdinal2PostOrderIndex st;
     visited := visited st;
     postOrderIndex := postOrderIndex st - 1;
     stackTop := 0;
     notWeakMaps := notWeakMaps st |}.

Definition orphan_state (st : PostOrder) (i : Z) : PostOrder :=
  {| stackNodes := aset32 (stackNodes st) (stackTop st + 1) i;
     stackCurrentEdge := aset32 (stackCurrentEdge st) (stackTop st + 1) (aget fei i);
     postOrderIndex2NodeOrdinal := postOrderIndex2NodeOrdinal st;
     nodeOrdinal2PostOrderIndex := nodeOrdinal2PostOrderIndex st;
     visited := aset (visited st) i 1;
     postOrderIndex := postOrderIndex st;
     stackTop := stackTop st + 1;
     notWeakMaps := notWeakMaps st |}.

Lemma finished_views st :
  dfs_inv st -> stackTop st < 0 ->
  stack_view st = []
  /\ emitted_view st
     = view (postOrderIndex2NodeOrdinal st) (postOrderIndex st - 1) ++ [root]
  /\ 0 < postOrderIndex st.
Proof.
  intros I Htop. destruct (inv_root st I) as [_ Hr].
  destruct (Hr Htop) as [Hpos Hlast]. split; [|split; [|done]].
  - unfold stack_view. apply view_0. lia.
  - unfold emitted_view.
    replace (postOrderIndex st) with (postOrderIndex st - 1 + 1) at 1 by lia.
    rewrite view_snoc by lia. by rewrite Hlast.
Qed.

Lemma restart_inv st :
  dfs_inv st -> stackTop st < 0 ->
  dfs_inv (restart_state st) /\ potential (restart_state st) <= len edges + n
  /\ visited (restart_state st) = visited st.
Proof.
  intros I Htop.
  destruct (finished_views st I Htop) as (Hsv & Hev & Hpos).
  destruct po_facts as (_ & _ & _ & _ & Hsmall & _ & _ & Hfei & Hal & _ & _).
  pose proof (fei_range (root + 1) ltac:(lia)) as Hfr.
  assert (Hsn0 : aget (stackNodes (restart_state st)) 0 = root).
  { unfold restart_state; po_simpl.
    rewrite aget_aset32_eq by (rewrite (inv_len_sn st I); lia). apply u32_small. lia. }
  assert (Hcur0 : aget (stackCurrentEdge (restart_state st)) 0 = aget fei (root + 1)).
  { unfold restart_state; po_simpl.
    rewrite aget_aset32_eq by (rewrite (inv_len_cur st I); lia). apply u32_small. lia. }
  assert (Hsv' : stack_view (restart_state st) = [root]).
  { unfold stack_view, restart_state; po_simpl.
    rewrite view_aset32_snoc by (rewrite ?(inv_len_sn st I); lia).
    by rewrite view_0. }
  assert (Hev' : emitted_view (restart_state st)
                 = view (postOrderIndex2NodeOrdinal st) (postOrderIndex st - 1)).
  { done. }
  assert (Hperm : Permutation (stack_view st ++ emitted_view st)
                    (stack_view (restart_state st) ++ emitted_view (restart_state st))).
  { rewrite Hsv, Hev, Hsv', Hev'. simpl. symmetry. apply Permutation_cons_append. }
  assert (Hrvis : aget (visited st) root <> 0).
  { apply (inv_visited st I root Hroot). rewrite Hsv, Hev. simpl.
    apply in_or_app. right. by left. }
  split; [|split; [|done]].
  - constructor.
    + unfold restart_state; po_simpl. rewrite len_aset32. apply I.
    + unfold restart_state; po_simpl. rewrite len_aset32. apply I.
    + apply I.
    + apply I.
    + apply I.
    + unfold restart_state; po_simpl. lia.
    + unfold restart_state; po_simpl. lia.
    + eapply Permutation_NoDup; [exact Hperm|apply I].
    + intros x Hx. apply (inv_range st I).
      eapply Permutation_in; [symmetry; exact Hperm|exact Hx].
    + intros x Hx. change (visited (restart_state st)) with (visited st).
      rewrite (inv_visited st I x Hx). split; intros Hin.
      * eapply Permutation_in; [exact Hperm|exact Hin].
      * eapply Permutation_in; [symmetry; exact Hperm|exact Hin].
    + intros i Hi. unfold restart_state in *; po_simpl. po_simpl_in Hi.
      apply (inv_inverse st I). lia.
    + intros i Hi. unfold restart_state in Hi. po_simpl_in Hi.
      assert (i = 0) as -> by lia.
      rewrite Hsn0, Hcur0. specialize (Hfei root Hroot). split; [lia|].
      apply Hal. lia.
    + split; [done|]. unfold restart_state; po_simpl. lia.
  - unfold potential.
    change (stackTop (restart_state st) + 1) with (0 + 1).
    rewrite frames_snoc, frames_0 by lia. cbn [map app].
    rewrite Hsn0, Hcur0.
    pose proof (weight_without_root (visited st) Hrvis) as Hw.
    pose proof (node_weight_pos root Hroot).
    change (visited (restart_state st)) with (visited st).
    unfold frame_weight. simpl. lia.
Qed.

Lemma orphan_inv st c :
  dfs_inv st -> 0 <= stackTop st -> 0 <= c < n -> aget (visited st) c = 0 ->
  dfs_inv (orphan_state st c) /\ potential (orphan_state st c) = potential st.
Proof.
  intros I Htop Hc Hvis.
  pose proof (inv_poi st I) as Hpoi.
  assert (Hnotin : ¬ In c (stack_view st ++ emitted_view st)).
  { intros Hin. apply (inv_visited st I c Hc) in Hin. done. }
  assert (Hroom : stackTop st + 1 < n).
  { assert (Hnd : List.NoDup (c :: stack_view st ++ emitted_view st)).
    { constructor; [done|apply I]. }
    apply (NoDup_ordinals_length _ n ltac:(lia)) in Hnd.
    - unfold len in Hnd. simpl length in Hnd. rewrite length_app in Hnd.
      pose proof (len_view (stackNodes st) (stackTop st + 1) ltac:(lia)).
      pose proof (len_view (postOrderIndex2NodeOrdinal st) (postOrderIndex st) Hpoi).
      unfold len, stack_view, emitted_view in *. lia.
    - intros x [<-|Hx]; [done|by apply (inv_range st I)]. }
  pose proof (fei_range c ltac:(lia)) as Hfc.
  destruct po_facts as (_ & _ & _ & _ & Hsmall & _ & _ & Hfei & Hal & _ & _).
  assert (Hsv' : stack_view (orphan_state st c) = stack_view st ++ [c]).
  { unfold stack_view, orphan_state; po_simpl.
    by rewrite view_aset32_snoc by (rewrite ?(inv_len_sn st I); lia). }
  assert (Hperm : Permutation (c :: stack_view st ++ emitted_view st)
                    (stack_view (orphan_state st c)
                     ++ emitted_view (orphan_state st c))).
  { rewrite Hsv'. unfold emitted_view, orphan_state; po_simpl.
    rewrite <- app_assoc. simpl. apply Permutation_middle. }
  assert (Hsn : forall i, i <> stackTop st + 1 ->
            aget (stackNodes (orphan_state st c)) i = aget (stackNodes st) i).
  { intros i Hi. unfold orphan_state; po_simpl. apply aget_aset32_ne. lia. }
  assert (Hsn' : aget (stackNodes (orphan_state st c)) (stackTop st + 1) = c).
  { unfold orphan_state; po_simpl.
    rewrite aget_aset32_eq by (rewrite (inv_len_sn st I); lia).
    apply u32_small. lia. }
  assert (Hcur : forall i, i <> stackTop st + 1 ->
            aget (stackCurrentEdge (orphan_state st c)) i
            = aget (stackCurrentEdge st) i).
  { intros i Hi. unfold orphan_state; po_simpl. by rewrite aget_aset32_ne by lia. }
  assert (Hcur2 : aget (stackCurrentEdge (orphan_state st c)) (stackTop st + 1)
                  = aget fei c).
  { unfold orphan_state; po_simpl.
    rewrite aget_aset32_eq by (rewrite (inv_len_cur st I); lia).
    apply u32_small. lia. }
  split.
  - constructor.
    + unfold orphan_state; po_simpl. rewrite len_aset32. apply I.
    + unfold orphan_state; po_simpl. rewrite len_aset32. apply I.
    + apply I.
    + apply I.
    + unfold orphan_state; po_simpl. rewrite len_aset. apply I.
    + unfold orphan_state; po_simpl. lia.
    + unfold orphan_state; po_simpl. lia.
    + eapply Permutation_NoDup; [exact Hperm|]. constructor; [done|apply I].
    + intros x Hx.
      eapply Permutation_in in Hx; [|symmetry; exact Hperm].
      destruct Hx as [<-|Hx]; [done|by apply (inv_range st I)].
    + intros x Hx. change (visited (orphan_state st c)) with (aset (visited st) c 1).
      destruct (Z.eq_dec x c) as [->|Hne].
      * rewrite aget_aset_eq by (rewrite (inv_len_vis st I); lia).
        split; [intros _|done].
        eapply Permutation_in; [exact Hperm|by left].
      * rewrite aget_aset_ne by lia. rewrite (inv_visited st I x Hx).
        split; intros Hin.
        -- eapply Permutation_in; [exact Hperm|by right].
        -- eapply Permutation_in in Hin; [|symmetry; exact Hperm].
           destruct Hin as [Heq|Hin]; [lia|done].
    + apply (inv_inverse st I).
    + intros i Hi. change (stackTop (orphan_state st c)) with (stackTop st + 1) in Hi.
      destruct (Z.eq_dec i (stackTop st + 1)) as [->|Hne1].
      * rewrite Hsn', Hcur2. split; [|apply Hal; lia].
        specialize (Hfei c Hc). lia.
      * rewrite Hsn, Hcur by done. apply (inv_cursor st I). lia.
    + split.
      * intros _. rewrite Hsn by lia. apply (inv_root st I). done.
      * unfold orphan_state; po_simpl. lia.
  - unfold potential.
    change (stackTop (orphan_state st c)) with (stackTop st + 1).
    rewrite (frames_snoc _ _ (stackTop st + 1)) by lia.
    rewrite !map_app, !sumZ_app.
    rewrite (frames_ext (stackNodes (orphan_state st c))
               (stackCurrentEdge (orphan_state st c))
               (stackNodes st) (stackCurrentEdge st) (stackTop st + 1)).
    2:{ intros i Hi. split; [apply Hsn; lia|apply Hcur; lia]. }
    rewrite Hsn', Hcur2.
    rewrite (sumZ_filter_remove node_weight
               (fun x => aget (visited st) x =? 0)
               (fun x => aget (visited (orphan_state st c)) x =? 0) c).
    + unfold frame_weight, node_weight. simpl. lia.
    + by apply NoDup_range.
    + by apply In_range1.
    + simpl. by rewrite Hvis.
    + simpl. by rewrite aget_aset_eq by (rewrite (inv_len_vis st I); lia).
    + intros x Hx. simpl. by rewrite aget_aset_ne by lia.
Qed.

Definition ready (s : PostOrder) : Prop :=
  dfs_inv s /\ 0 <= stackTop s /\ potential s <= len edges + n.

Lemma pushOrphans_inv st :
  dfs_inv st -> stackTop st < 0 ->
  dfs_inv (pushOrphans L edges fei R st)
  /\ potential (pushOrphans L edges fei R st) <= len edges + n.
Proof.
  intros I Htop. destruct (restart_inv st I Htop) as (I0 & Hp0 & _).
  assert (Hend : ready (pushOrphans L edges fei R st)).
  { unfold pushOrphans.
    apply (for_range_ind1 (fun _ => ready)); [lia| |].
    - split; [exact I0|split; [simpl; lia|exact Hp0]].
    - intros i s Hi (Is & Htops & Hps). cbv beta.
      destruct (Z.eqb_spec (aget (visited s) i) 0) as [Hv|Hv]; simpl; [|done].
      destruct (hasOnlyWeakRetainers L edges R i); simpl; [|done].
      fold (orphan_state s i).
      destruct (orphan_inv s i Is Htops Hi Hv) as [Io Hpo].
      split; [done|]. split; [simpl; lia|lia]. }
  by destruct Hend as (? & _ & ?).
Qed.

Lemma dfs_fuel_enough : len edges + n <= Z.of_nat (dfs_fuel L edges).
Proof. unfold dfs_fuel. pose proof (len_nonneg edges). lia. Qed.

(** The two rounds of the walk complete, with an empty stack. *)
Lemma postOrderRounds_ok cache :
  exists st,
    postOrderRounds L nodes edges strings fei R flags 2 0 (initial_state cache) = Ok st
    /\ dfs_inv st /\ stackTop st < 0.
Proof.
  destruct (initial_inv cache) as [I0 Hp0].
  pose proof dfs_fuel_enough as Hfuel.
  destruct (dfs_loop_terminates (dfs_fuel L edges) (initial_state cache) I0 ltac:(lia))
    as (st1 & H1 & I1 & T1).
  cbn [postOrderRounds]. rewrite H1. cbn [mbind result_bind].
  destruct ((postOrderIndex st1 =? n) || (0 + 1 >? 1)); [by exists st1|].
  destruct (pushOrphans_inv st1 I1 T1) as [I1' Hp1].
  destruct (dfs_loop_terminates (dfs_fuel L edges) (pushOrphans L edges fei R st1) I1'
              ltac:(lia)) as (st2 & H2 & I2 & T2).
  rewrite H2. cbn [mbind result_bind].
  replace (0 + 1 + 1 >? 1) with true by done. rewrite orb_true_r. by exists st2.
Qed.

(** What a post-order index is: the two arrays are inverse permutations of
    the ordinals and the root comes last. *)
Definition post_order (p2o o2p : list Z) : Prop :=
  len p2o = n /\ len o2p = n
  /\ Permutation p2o (range 0 n 1)
  /\ (forall i, 0 <= i < n -> aget o2p (aget p2o i) = i)
  /\ aget p2o (n - 1) = root.

Lemma complete_post_order st :
  dfs_inv st -> stackTop st < 0 -> postOrderIndex st = n ->
  post_order (postOrderIndex2NodeOrdinal st) (nodeOrdinal2PostOrderIndex st).
Proof.
  intros I Htop Hn.
  destruct (finished_views st I Htop) as (Hsv & _ & _).
  assert (Hev : emitted_view st = postOrderIndex2NodeOrdinal st).
  { unfold emitted_view. rewrite Hn, <- (inv_len_p2o st I). apply view_full. }
  pose proof (inv_nodup st I) as Hnd. pose proof (inv_range st I) as Hrg.
  rewrite Hsv, Hev in Hnd, Hrg. simpl in Hnd, Hrg.
  split; [apply I|]. split; [apply I|]. split; [|split].
  - apply NoDup_ordinals_Permutation; [lia|done|done|apply I].
  - intros i Hi. apply (inv_inverse st I). lia.
  - rewrite <- Hn. apply (inv_root st I). done.
Qed.

Section Append.
Variable st : PostOrder.
Hypothesis I : dfs_inv st.
Hypothesis Htop : stackTop st < 0.

Definition emitted_before_root : list Z :=
  view (postOrderIndex2NodeOrdinal st) (postOrderIndex st - 1).

Definition unreached (i : Z) : list Z :=
  List.filter (fun v => aget (visited st) v =? 0) (range 0 i 1).

Lemma unreached_snoc i :
  0 <= i ->
  unreached (i + 1)
  = unreached i ++ (if aget (visited st) i =? 0 then [i] else []).
Proof.
  intros Hi. unfold unreached. rewrite range1_snoc by lia.
  rewrite List.filter_app. done.
Qed.

Lemma In_unreached i x :
  In x (unreached i) <-> 0 <= x < i /\ aget (visited st) x = 0.
Proof.
  unfold unreached. rewrite filter_In, In_range1, Z.eqb_eq. done.
Qed.

Lemma In_emitted_before_root x :
  In x emitted_before_root -> 0 <= x < n /\ aget (visited st) x <> 0 /\ x <> root.
Proof.
  intros Hx. destruct (finished_views st I Htop) as (Hsv & Hev & _).
  pose proof (inv_nodup st I) as Hnd. rewrite Hsv, Hev in Hnd. simpl in Hnd.
  fold emitted_before_root in Hnd.
  assert (Hin : In x (stack_view st ++ emitted_view st)).
  { rewrite Hsv, Hev. simpl. apply in_or_app. by left. }
  pose proof (inv_range st I x Hin) as Hr.
  split; [done|]. split; [by apply (inv_visited st I x Hr)|].
  intros ->. apply NoDup_remove_2 in Hnd. apply Hnd. by rewrite app_nil_r.
Qed.

Lemma root_visited : aget (visited st) root <> 0.
Proof.
  destruct (finished_views st I Htop) as (Hsv & Hev & _).
  apply (inv_visited st I root Hroot). rewrite Hsv, Hev. simpl.
  apply in_or_app. right. by left.
Qed.

Lemma visited_emitted x :
  0 <= x < n -> aget (visited st) x <> 0 -> x = root \/ In x emitted_before_root.
Proof.
  intros Hx Hv. destruct (finished_views st I Htop) as (Hsv & Hev & _).
  apply (inv_visited st I x Hx) in Hv. rewrite Hsv, Hev in Hv. simpl in Hv.
  apply in_app_or in Hv as [Hv|[Hv|[]]]; [by right|by left].
Qed.

Lemma appended_nodup i :
  0 <= i <= n ->
  List.NoDup (root :: emitted_before_root ++ unreached i)
  /\ forall x, In x (root :: emitted_before_root ++ unreached i) -> 0 <= x < n.
Proof.
  intros Hi. split.
  - constructor.
    + intros Hin. apply in_app_or in Hin as [Hin|Hin].
      * apply In_emitted_before_root in Hin. lia.
      * apply In_unreached in Hin. pose proof root_visited. lia.
    + apply NoDup_app_intro.
      * destruct (finished_views st I Htop) as (Hsv & Hev & _).
        pose proof (inv_nodup st I) as Hnd. rewrite Hsv, Hev in Hnd. simpl in Hnd.
        apply NoDup_remove_1 in Hnd. by rewrite app_nil_r in Hnd.
      * unfold unreached. apply List.NoDup_filter, NoDup_range. lia.
      * intros x Hx Hx'. apply In_emitted_before_root in Hx.
        apply In_unreached in Hx'. lia.
  - intros x [<-|Hx]; [done|]. apply in_app_or in Hx as [Hx|Hx].
    + apply In_emitted_before_root in Hx. lia.
    + apply In_unreached in Hx. lia.
Qed.

Lemma appended_length i :
  0 <= i <= n -> len (emitted_before_root ++ unreached i) < n.
Proof.
  intros Hi. destruct (appended_nodup i Hi) as [Hnd Hrg].
  pose proof (NoDup_ordinals_length _ n ltac:(lia) Hnd Hrg) as Hl.
  unfold len in *. simpl length in Hl. lia.
Qed.

Definition appended (i : Z) (s : list Z * list Z * Z) : Prop :=
  let '(p2o, o2p, poi) := s in
  len p2o = n /\ len o2p = n /\ 0 <= poi
  /\ view p2o poi = emitted_before_root ++ unreached i
  /\ forall j, 0 <= j < poi -> aget o2p (aget p2o j) = j.

Lemma appended_room i p2o o2p poi :
  0 <= i <= n -> appended i (p2o, o2p, poi) -> poi < n.
Proof.
  intros Hi (_ & _ & Hpoi & Hview & _).
  pose proof (appended_length i Hi) as Hl. rewrite <- Hview in Hl.
  by rewrite len_view in Hl.
Qed.

Lemma appended_step i s :
  0 <= i < n -> appended i s ->
  appended (i + 1)
    (let '(p2o, o2p, poi) := s in
     if negb (aget (visited st) i =? 0) then (p2o, o2p, poi)
     else (aset32 p2o poi i, aset32 o2p i poi, poi + 1)).
Proof.
  intros Hi. destruct s as [[p2o o2p] poi]. intros Ha.
  pose proof (appended_room i p2o o2p poi ltac:(lia) Ha) as Hroom.
  destruct Ha as (Hl1 & Hl2 & Hpoi & Hview & Hinv).
  unfold appended. rewrite unreached_snoc by lia.
  destruct (Z.eqb_spec (aget (visited st) i) 0) as [Hv|Hv]; simpl negb; cbv iota.
  - split; [by rewrite len_aset32|]. split; [by rewrite len_aset32|].
    split; [lia|]. split.
    + rewrite view_aset32_snoc by lia. by rewrite Hview, app_assoc.
    + assert (Hfresh : forall j, 0 <= j < poi -> aget p2o j <> i).
      { intros j Hj Heq.
        assert (Hin : In i (view p2o poi)) by (apply In_view; by exists j).
        rewrite Hview in Hin. apply in_app_or in Hin as [Hin|Hin].
        - apply In_emitted_before_root in Hin. lia.
        - apply In_unreached in Hin. lia. }
      intros j Hj. destruct (Z.eq_dec j poi) as [->|Hne].
      * rewrite aget_aset32_eq by lia. rewrite (u32_small i) by lia.
        rewrite aget_aset32_eq by lia. apply u32_small. lia.
      * rewrite (aget_aset32_ne _ poi j) by lia.
        rewrite aget_aset32_ne by (intros Heq; apply (Hfresh j); [lia|done]).
        apply Hinv. lia.
  - rewrite app_nil_r. done.
Qed.

Lemma append_loop :
  appended n
    (for_range 0 n 1
       (fun i '(p2o, o2p, poi) =>
          if negb (aget (visited st) i =? 0) then (p2o, o2p, poi)
          else (aset32 p2o poi i, aset32 o2p i poi, poi + 1))
       (postOrderIndex2NodeOrdinal st, nodeOrdinal2PostOrderIndex st,
        postOrderIndex st - 1)).
Proof.
  apply (for_range_ind1 appended); [lia| |].
  - destruct (finished_views st I Htop) as (_ & _ & Hpos).
    split; [apply I|]. split; [apply I|]. split; [lia|]. split.
    + unfold unreached. rewrite range_stop by lia. simpl. by rewrite app_nil_r.
    + intros j Hj. apply (inv_inverse st I). lia.
  - intros i s Hi Ha. by apply appended_step.
Qed.

Lemma appended_post_order :
  postOrderIndex st <> n ->
  post_order
    (postOrderIndex2NodeOrdinal (appendUnreachable L st))
    (nodeOrdinal2PostOrderIndex (appendUnreachable L st)).
Proof.
  intros Hne. unfold appendUnreachable.
  destruct (Z.eqb_spec (postOrderIndex st) n) as [|_]; [done|].
  pose proof append_loop as Ha.
  destruct (for_range 0 n 1 _ _) as [[p2o o2p] poi].
  pose proof (appended_room n p2o o2p poi ltac:(lia) Ha) as Hroom.
  destruct Ha as (Hl1 & Hl2 & Hpoi & Hview & Hinv). po_simpl.
  destruct (appended_nodup n ltac:(lia)) as [Hnd Hrg].
  assert (Hview' : view (aset32 p2o poi root) (poi + 1)
                   = (emitted_before_root ++ unreached n) ++ [root]).
  { rewrite view_aset32_snoc by lia. by rewrite Hview. }
  assert (Hperm : Permutation (view (aset32 p2o poi root) (poi + 1)) (range 0 n 1)).
  { rewrite Hview'. apply Permutation.NoDup_Permutation.
    - eapply Permutation_NoDup; [apply Permutation_cons_append|exact Hnd].
    - apply NoDup_range. lia.
    - intros x. rewrite In_range1. split.
      + intros Hx. apply Hrg.
        eapply Permutation_in; [symmetry; apply Permutation_cons_append|exact Hx].
      + intros Hx. apply in_or_app.
        destruct (Z.eq_dec (aget (visited st) x) 0) as [Hv|Hv].
        * left. apply in_or_app. right. by apply In_unreached.
        * destruct (visited_emitted x Hx Hv) as [->|Hin]; [right; by left|].
          left. apply in_or_app. by left. }
  assert (Hfull : poi + 1 = n).
  { pose proof (Permutation_length Hperm) as Hlen.
    pose proof (len_view (aset32 p2o poi root) (poi + 1) ltac:(lia)).
    pose proof (length_range1 0 n ltac:(lia)). unfold len in *. lia. }
  assert (Hfresh : forall j, 0 <= j < poi -> aget p2o j <> root).
  { intros j Hj Heq.
    assert (Hin : In root (view p2o poi)) by (apply In_view; by exists j).
    rewrite Hview in Hin. by apply NoDup_cons_iff in Hnd as [Hnd _]. }
  split; [by rewrite len_aset32|]. split; [by rewrite len_aset32|].
  split; [|split].
  - rewrite <- (view_full (aset32 p2o poi root)).
    rewrite len_aset32, Hl1. rewrite <- Hfull at 1. exact Hperm.
  - intros j Hj. destruct (Z.eq_dec j poi) as [->|Hnej].
    + rewrite aget_aset32_eq by lia. rewrite (u32_small root) by lia.
      rewrite aget_aset32_eq by lia. apply u32_small. lia.
    + rewrite (aget_aset32_ne _ poi j) by lia.
      rewrite aget_aset32_ne by (intros Heq; apply (Hfresh j); [lia|done]).
      apply Hinv. lia.
  - replace (n - 1) with poi by lia. rewrite aget_aset32_eq by lia.
    apply u32_small. lia.
Qed.
End Append.

Lemma buildPostOrderIndex_post_order cache :
  exists po,
    buildPostOrderIndex L nodes edges strings fei R flags cache = Ok po
    /\ post_order (postOrderIndex2NodeOrdinal po) (nodeOrdinal2PostOrderIndex po).
Proof.
  destruct (postOrderRounds_ok cache) as (st & Hst & I & Htop).
  unfold buildPostOrderIndex. unfold initial_state in Hst. rewrite Hst.
  cbn [mbind result_bind]. eexists. split; [reflexivity|].
  destruct (Z.eq_dec (postOrderIndex st) n) as [Heq|Hne].
  - unfold appendUnreachable. rewrite (proj2 (Z.eqb_eq _ _) Heq).
    by apply complete_post_order.
  - by apply appended_post_order.
Qed.
End PostOrderProof.

(** A snapshot with an unreachable cycle: the root (ordinal 0) holds [T];
    [A] and [B] hold each other and nothing else holds them. *)
Definition unreachable_cycle : Profile :=
  {| meta := v8_meta;
     p_nodes :=
       [9; 0; 1; 0; 1; 0; 0;     (* root *)
        3; 1; 3; 8; 0; 0; 0;     (* T *)
        3; 2; 5; 16; 1; 0; 0;    (* A *)
        3; 3; 7; 32; 1; 0; 0];   (* B *)
     p_edges :=
       [2; 4; 7;                 (* root -> T *)
        2; 4; 21;                (* A -> B *)
        2; 4; 14];               (* B -> A *)
     p_strings := [""; "T"; "A"; "B"; "p"]%string;
     root_index := 0 |}.

Definition unreachable_cycle_retainers : Retainers :=
  {| retainingNodes := [0; 21; 14];
     retainingEdges := [0; 6; 3];
     firstRetainerIndex := [0; 0; 1; 2; 3] |}.

Example buildRetainers_unreachable_cycle :
  let p := unreachable_cycle in
  let L := layout_of p in
  buildRetainers L (p_edges p) (buildEdgeIndexes L (p_nodes p) (p_edges p))
  = Ok unreachable_cycle_retainers.
Proof. vm_compute. reflexivity. Qed.

(** C3. On a well-formed snapshot (edges in whole records whose targets are
    nodes, first-edge indexes rising from 0 to the length of the edges, at
    least one node, the root among the nodes) [buildPostOrderIndex] returns,
    whatever the page-owned flags and whatever is reachable:
    [postOrderIndex2NodeOrdinal] is a permutation of the node ordinals,
    [nodeOrdinal2PostOrderIndex] is its inverse, and the root has post-order
    index [nodeCount - 1].  Ordinals are quotients of node indexes by the node
    field count, as in the code. *)
Theorem buildPostOrderIndex_is_permutation
    (L : Layout) (nodes edges : list Z) (strings : list string) (fei : list Z)
    (R : Retainers) (flags : option (list Z * Z)) (cache : BitVector) :
  wf_edges L edges fei = true ->
  0 < nodeCount L < 4294967296 ->
  0 <= rootNodeOrdinal L < nodeCount L ->
  exists po,
    buildPostOrderIndex L nodes edges strings fei R flags cache = Ok po
    /\ Permutation (postOrderIndex2NodeOrdinal po) (range 0 (nodeCount L) 1)
    /\ (forall i, 0 <= i < nodeCount L ->
          aget (nodeOrdinal2PostOrderIndex po) (aget (postOrderIndex2NodeOrdinal po) i)
          = i)
    /\ (forall v, 0 <= v < nodeCount L ->
          aget (postOrderIndex2NodeOrdinal po) (aget (nodeOrdinal2PostOrderIndex po) v)
          = v)
    /\ aget (postOrderIndex2NodeOrdinal po) (nodeCount L - 1) = rootNodeOrdinal L.
Proof.
  intros Hwf [Hn0 Hn32] Hroot.
  destruct (buildPostOrderIndex_post_order L nodes edges strings fei R flags
              Hwf Hn0 Hn32 Hroot cache) as (po & Hpo & Hl1 & Hl2 & Hperm & Hinv & Hlast).
  exists po. split; [done|]. split; [done|]. split; [done|]. split; [|done].
  intros v Hv.
  assert (Hin : In v (postOrderIndex2NodeOrdinal po)).
  { eapply Permutation_in; [symmetry; exact Hperm|]. by apply In_range1. }
  apply In_aget in Hin as (i & Hi & <-). rewrite Hinv by lia. done.
Qed.

Lemma buildPostOrderIndex_is_permutation_witness :
  let p := unreachable_cycle in
  let L := layout_of p in
  let fei := buildEdgeIndexes L (p_nodes p) (p_edges p) in
  wf_edges L (p_edges p) fei = true
  /\ exists po,
       buildPostOrderIndex L (p_nodes p) (p_edges p) (p_strings p) fei
         unreachable_cycle_retainers None (createBitVector 5) = Ok po
       /\ Permutation (postOrderIndex2NodeOrdinal po) [0; 1; 2; 3]
       /\ aget (postOrderIndex2NodeOrdinal po) 3 = 0.
Proof.
  intros p L fei.
  assert (Hwf : wf_edges L (p_edges p) fei = true) by (vm_compute; reflexivity).
  split; [exact Hwf|].
  destruct (buildPostOrderIndex_is_permutation L (p_nodes p) (p_edges p) (p_strings p)
              fei unreachable_cycle_retainers None (createBitVector 5) Hwf)
    as (po & Hpo & Hperm & _ & _ & Hlast).
  - vm_compute. split; reflexivity.
  - vm_compute. split; [discriminate|reflexivity].
  - exists po. split; [exact Hpo|]. split; [exact Hperm|exact Hlast].
Defined.

(** ** Retained sizes (claim C1) *)

(** Two nodes and no edge: [X] (ordinal 0, self size 8) and then the root
    (ordinal 1). *)
Definition orphan_before_root : Profile :=
  {| meta := v8_meta;
     p_nodes :=
       [3; 1; 3; 8; 0; 0; 0;     (* X *)
        9; 0; 1; 0; 0; 0; 0];    (* root *)
     p_edges := [];
     p_strings := [""; "X"]%string;
     root_index := 7 |}.

(** The snapshot of the WeakMap table [T] whose value [A] is held by the
    table alone, and holds [B]. *)
Definition weakmap_orphans : Profile :=
  {| meta := v8_meta;
     p_nodes :=
       [9; 0; 1; 0; 1; 0; 0;     (* root *)
        3; 1; 3; 8; 1; 0; 0;     (* T, id 3 *)
        3; 2; 5; 16; 1; 0; 0;    (* A, id 5 *)
        3; 3; 7; 32; 0; 0; 0];   (* B, id 7 *)
     p_edges :=
       [2; 4; 7;                 (* root -> T *)
        3; 5; 14;                (* T -> A, the pair's edge *)
        2; 4; 21];               (* A -> B *)
     p_strings :=
       [""; "T"; "A"; "B"; "p";
        "1 / part of key (K @9) -> value (V @5) pair in WeakMap (table @3)"]%string;
     root_index := 0 |}.

Definition nodeSelfSizes (h : HeapSnapshot) : list Z :=
  map (fun v => aget (nodes h) (v * nodeFieldCount (layout h) + nodeSelfSizeOffset (layout h)))
      (range 0 (nodeCount (layout h)) 1).

(** C1. The retained size of the root is not the sum of the self sizes when a
    node the walk from the root does not reach keeps [noEntry] as dominator:
    [initialize] completes on [orphan_before_root], the dominator recorded for
    [X] is [X] itself, its retained size is twice its self size, and the
    retained size of the root is 0 where the self sizes add up to 8.  On
    [weakmap_orphans] the nodes appended after the walk are not in post-order
    and the root gets 24 of 56. *)
Theorem retained_size_of_root_misses_unreached_nodes :
  (exists h, initialize 10 orphan_before_root = Ok h
     /\ rootNodeOrdinal (layout h) = 1
     /\ postOrderIndex2NodeOrdinal (postOrder h) = [0; 1]
     /\ dominatorsTree h = [0; 1]
     /\ nodeSelfSizes h = [8; 0]
     /\ retainedSizes h = [16; 0])
  /\ (exists h, initialize 10 weakmap_orphans = Ok h
     /\ rootNodeOrdinal (layout h) = 0
     /\ postOrderIndex2NodeOrdinal (postOrder h) = [1; 2; 3; 0]
     /\ dominatorsTree h = [0; 0; 0; 2]
     /\ nodeSelfSizes h = [0; 8; 16; 32]
     /\ retainedSizes h = [24; 8; 48; 32]).
Proof.
  split.
  - eexists. split; [vm_compute; reflexivity|]. cbn [layout postOrder dominatorsTree retainedSizes].
    repeat split; vm_compute; reflexivity.
  - eexists. split; [vm_compute; reflexivity|]. cbn [layout postOrder dominatorsTree retainedSizes].
    repeat split; vm_compute; reflexivity.
Qed.

(** ** The dominator tree (claim C2) *)



Lemma bind_ok_inv {A B} (m : result A) (k : A -> result B) y :
  (x ← m; k x) = Ok y -> exists x, m = Ok x /\ k x = Ok y.
Proof. destruct m as [x| |]; simpl; [by exists x|discriminate|discriminate]. Qed.

Lemma for_range_snoc {S} start stop (body : Z -> S -> S) s :
  start <= stop ->
  for_range start (stop + 1) 1 body s = body stop (for_range start stop 1 body s).
Proof.
  intros H. unfold for_range. rewrite range1_snoc by done.
  by rewrite fold_left_app.
Qed.

Section DominatorProof.
Variable L : Layout.
Variables nodes edges : list Z.
Variable strings : list string.
Variable fei : list Z.
Variable R : Retainers.
Variable flags : option (list Z * Z).
Variables p2o o2p : list Z.

Local Abbreviation n := (nodesCount p2o).

Hypothesis Hn0 : 0 < n.
Hypothesis Hn32 : n < 4294967296.

Local Set Default Proof Using "All".





Hypothesis Hvals : forall x, In x p2o -> 0 <= x < n.






End DominatorProof.

(** Reachability from the root through essential edges. *)
Definition edge_of (L : Layout) (fei : list Z) (u e : Z) : Prop :=
  aget fei u <= e < aget fei (u + 1)
  /\ (e - aget fei u) mod edgeFieldsCount L = 0.








(** ** DOM state propagation (claim C7) *)

Lemma land_state x s :
  Z.land (u32 (Z.lor (Z.land x (Z.lnot BITMASK_FOR_DOM_LINK_STATE)) s))
    BITMASK_FOR_DOM_LINK_STATE
  = Z.land s BITMASK_FOR_DOM_LINK_STATE.
Proof.
  unfold u32, BITMASK_FOR_DOM_LINK_STATE.
  change 4294967296 with (2 ^ 32). rewrite <- Z.land_ones by lia.
  rewrite <- Z.land_assoc. change (Z.land (Z.ones 32) 3) with 3.
  rewrite Z.land_lor_distr_l, <- Z.land_assoc.
  change (Z.land (Z.lnot 3) 3) with 0. by rewrite Z.land_0_r, Z.lor_0_l.
Qed.

Lemma land_land_state x :
  Z.land (Z.land x BITMASK_FOR_DOM_LINK_STATE) BITMASK_FOR_DOM_LINK_STATE
  = Z.land x BITMASK_FOR_DOM_LINK_STATE.
Proof. by rewrite <- Z.land_assoc, Z.land_diag. Qed.

(** An edge along which the DOM state is handed on. *)
Definition dom_step (L : Layout) (edges fei : list Z) (u v : Z) : Prop :=
  exists e, edge_of L fei u e
    /\ aget edges (e + edgeTypeOffset L) <> edgeHiddenType L
    /\ aget edges (e + edgeTypeOffset L) <> edgeInvisibleType L
    /\ aget edges (e + edgeTypeOffset L) <> edgeWeakType L
    /\ aget edges (e + edgeToNodeOffset L) / nodeFieldCount L = v.

Section DOMStateProof.
Variable L : Layout.
Variables edges fei : list Z.
Variable nodes0 : list Z.

Local Abbreviation NF := (nodeFieldCount L).
Local Abbreviation EF := (edgeFieldsCount L).
Local Abbreviation stateOff := (nodeDetachednessAndClassIndexOffset L).

Hypothesis HNF : 0 < NF.
Hypothesis HEF : 0 < EF.
Hypothesis Hstate : 0 <= stateOff < NF.
Hypothesis Hname : 0 <= nodeNameOffset L < NF.
Hypothesis Hdistinct : nodeNameOffset L <> stateOff.

Local Set Default Proof Using "All".

(** The state of [v] in a node array. *)
Definition state_of (nodes : list Z) (v : Z) : Z := detachedness L nodes (v * NF).

(** [v] can be reached from a node that the snapshot gives the state
    [Attached]. *)
Definition from_attached (v : Z) : Prop :=
  exists s, state_of nodes0 s = Attached /\ rtc (dom_step L edges fei) s v.

Lemma state_of_setDetachedness nodes c s v :
  state_of (setDetachedness L nodes (c * NF) s) v
  = if (v =? c) && (0 <=? c * NF + stateOff) && (c * NF + stateOff <? len nodes)
    then Z.land s BITMASK_FOR_DOM_LINK_STATE
    else state_of nodes v.
Proof.
  unfold state_of, detachedness, setDetachedness, aset32. rewrite aget_aset.
  destruct (Z.eqb_spec v c) as [->|Hne].
  - rewrite Z.eqb_refl. cbn [andb].
    destruct ((0 <=? c * NF + stateOff) && (c * NF + stateOff <? len nodes));
      [apply land_state|done].
  - destruct (Z.eqb_spec (c * NF + stateOff) (v * NF + stateOff)) as [Heq|_]; [|done].
    assert (c = v) by nia. lia.
Qed.

Lemma state_of_name nodes c i v :
  state_of (aset32 nodes (c * NF + nodeNameOffset L) i) v = state_of nodes v.
Proof.
  unfold state_of, detachedness. rewrite aget_aset32_ne; [done|].
  intros Heq. assert (c = v) by nia. subst c. lia.
Qed.

Lemma state_of_addDetachedPrefix c st v :
  state_of (dom_nodes (addDetachedPrefixToNodeName L (c * NF) st)) v
  = state_of (dom_nodes st) v.
Proof.
  unfold addDetachedPrefixToNodeName.
  destruct (stringIndexCache st !! _); cbn [dom_nodes]; apply state_of_name.
Qed.

Lemma attached_addDetachedPrefix c st :
  attached (addDetachedPrefixToNodeName L (c * NF) st) = attached st.
Proof.
  unfold addDetachedPrefixToNodeName. by destruct (stringIndexCache st !! _).
Qed.

(** What the loops keep true. *)
Definition dom_inv (st : DomState) : Prop :=
  (forall v, state_of (dom_nodes st) v = Attached -> from_attached v)
  /\ (forall u, In u (attached st) -> from_attached u).

Lemma processNode_inv c newState st :
  dom_inv st ->
  (Z.land newState BITMASK_FOR_DOM_LINK_STATE = Attached -> from_attached c) ->
  (newState = Attached -> from_attached c) ->
  dom_inv (processNode L c newState st).
Proof.
  intros [Hst Hq] Hc Hc'. unfold processNode.
  destruct (negb (aget (dom_visited st) c =? 0)); [by split|].
  destruct (negb (_ =? nodeNativeType L)); [by split|].
  assert (Hset : forall v,
            state_of (setDetachedness L (dom_nodes st) (c * NF) newState) v = Attached ->
            from_attached v).
  { intros v. rewrite state_of_setDetachedness.
    destruct (Z.eqb_spec v c) as [->|_]; cbn [andb]; [|apply Hst].
    destruct (_ && _); [apply Hc|apply Hst]. }
  destruct (Z.eqb_spec newState Attached) as [Ha|Ha].
  - split; cbn [markVisited dom_nodes attached]; [done|].
    intros u [<-|Hu]; [by apply Hc'|by apply Hq].
  - destruct (newState =? Detached).
    + split; cbn [markVisited dom_nodes attached].
      * intros v. rewrite state_of_addDetachedPrefix. apply Hset.
      * intros u. rewrite attached_addDetachedPrefix. apply Hq.
    + split; cbn [markVisited dom_nodes attached]; done.
Qed.

Lemma propagateState_inv parent newState st :
  dom_inv st ->
  (newState = Attached -> from_attached parent) ->
  newState = Attached \/ newState = Detached ->
  dom_inv (propagateState L edges fei parent newState st).
Proof.
  intros Hinv Hparent Hnew. unfold propagateState.
  match goal with
  | |- dom_inv (for_range ?a ?b ?c ?body ?s0) =>
      destruct (for_range_ind
                  (fun i s => (i - aget fei parent) mod EF = 0 /\ dom_inv s)
                  a b c body s0) as (e & _ & _ & _ & _ & Hend)
  end; try done.
  - split; [|done]. rewrite Z.sub_diag. by apply Z.mod_0_l, Z.neq_sym, Z.lt_neq.
  - intros i s Hi [Hal Hs]. split.
    + replace (i + EF - aget fei parent) with (i - aget fei parent + EF) by lia.
      by apply aligned_add.
    + destruct (Z.eqb_spec (aget edges (i + edgeTypeOffset L)) (edgeHiddenType L))
        as [|Hh]; [done|].
      destruct (Z.eqb_spec (aget edges (i + edgeTypeOffset L)) (edgeInvisibleType L))
        as [|Hi']; [done|].
      destruct (Z.eqb_spec (aget edges (i + edgeTypeOffset L)) (edgeWeakType L))
        as [|Hw]; [done|].
      cbn [orb].
      assert (Hchild : newState = Attached ->
                from_attached (aget edges (i + edgeToNodeOffset L) / NF)).
      { intros Ha. destruct (Hparent Ha) as (s0 & Hs0 & Hpath).
        exists s0. split; [done|]. eapply rtc_r; [exact Hpath|].
        exists i. split; [split; [lia|exact Hal]|]. by repeat split. }
      apply processNode_inv; [done| |done].
      destruct Hnew as [->| ->]; [done|]. intros Hbad. discriminate Hbad.
Qed.

Lemma propagateAttached_inv fuel :
  forall st st',
    dom_inv st -> propagateAttached L edges fei fuel st = Ok st' -> dom_inv st'.
Proof.
  induction fuel as [|fuel IH]; intros st st' Hinv Hrun; simpl in Hrun.
  - destruct (attached st); [by injection Hrun as <-|discriminate].
  - destruct (attached st) as [|u rest] eqn:Hq; [by injection Hrun as <-|].
    apply IH in Hrun; [done|].
    destruct Hinv as [Hst Hin]. apply propagateState_inv; [|intros _|by left].
    + split; [done|]. cbn [attached]. intros w Hw. apply Hin. rewrite Hq. by right.
    + apply Hin. rewrite Hq. by left.
Qed.

Lemma propagateDetached_inv fuel :
  forall st st',
    dom_inv st -> propagateDetached L edges fei fuel st = Ok st' -> dom_inv st'.
Proof.
  induction fuel as [|fuel IH]; intros st st' Hinv Hrun; simpl in Hrun.
  - destruct (detached st); [by injection Hrun as <-|discriminate].
  - destruct (detached st) as [|u rest] eqn:Hq; [by injection Hrun as <-|].
    destruct Hinv as [Hst Hin].
    destruct (_ =? Attached); apply IH in Hrun; try done.
    apply propagateState_inv; [by split|intros Hbad; discriminate Hbad|by right].
Qed.

Lemma seedDOMState_inv strings : dom_inv (seedDOMState L nodes0 strings).
Proof.
  unfold seedDOMState.
  destruct (Z_lt_le_dec (nodeCount L) 0) as [Hneg|Hpos].
  { rewrite for_range_stop by lia. split.
    - intros v Hv. exists v. by split.
    - intros u []. }
  apply (for_range_ind1 (fun _ => dom_inv)); [done| |].
  - split.
    + intros v Hv. exists v. by split.
    + intros u [].
  - intros i s _ Hs. cbv beta.
    destruct (_ =? Unknown); [done|].
    assert (Hself : detachedness L (dom_nodes s) (i * NF) = Attached -> from_attached i)
      by apply Hs.
    apply processNode_inv; [done| |done].
    unfold detachedness at 1. by rewrite land_land_state.
Qed.

Lemma propagateDOMState_attached strings nodes' strings' :
  propagateDOMState L edges fei nodes0 strings = Ok (nodes', strings') ->
  forall v, state_of nodes' v = Attached -> from_attached v.
Proof.
  unfold propagateDOMState. destruct (stateOff =? -1).
  { intros Hrun v Hv. injection Hrun as <- <-. exists v. by split. }
  intros Hrun. apply bind_ok_inv in Hrun as (st1 & H1 & Hrun).
  apply bind_ok_inv in Hrun as (st2 & H2 & Hrun). injection Hrun as <- <-.
  apply propagateAttached_inv in H1; [|apply seedDOMState_inv].
  apply propagateDetached_inv in H2; [|done]. apply H2.
Qed.
End DOMStateProof.

(** The root holds two native nodes, [A] (attached) and [D] (detached); both
    hold the native node [C], whose state is unknown. *)
Definition attached_wins : Profile :=
  {| meta := v8_meta;
     p_nodes :=
       [9; 0; 1; 0; 2; 0; 0;     (* root *)
        8; 1; 3; 8; 1; 0; 1;     (* A, attached *)
        8; 2; 5; 8; 1; 0; 2;     (* D, detached *)
        8; 3; 7; 8; 0; 0; 0];    (* C, unknown *)
     p_edges :=
       [2; 4; 7;                 (* root -> A *)
        2; 4; 14;                (* root -> D *)
        2; 4; 21;                (* A -> C *)
        2; 4; 21];               (* D -> C *)
     p_strings := [""; "A"; "D"; "C"; "p"]%string;
     root_index := 0 |}.

(** C7, as stated, fails: [C] can be reached from the detached [D] through a
    property edge and ends up attached, because the attached states are handed
    on first and [C] is then already visited. *)
Lemma attached_wins_over_detached :
  let p := attached_wins in
  let L := layout_of p in
  let fei := buildEdgeIndexes L (p_nodes p) (p_edges p) in
  exists nodes' strings',
    propagateDOMState L (p_edges p) fei (p_nodes p) (p_strings p) = Ok (nodes', strings')
    /\ detachedness L (p_nodes p) (2 * nodeFieldCount L) = Detached
    /\ rtc (dom_step L (p_edges p) fei) 2 3
    /\ detachedness L nodes' (3 * nodeFieldCount L) = Attached.
Proof.
  intros p L fei. eexists. eexists.
  split; [vm_compute; reflexivity|].
  split; [vm_compute; reflexivity|].
  split; [|vm_compute; reflexivity].
  apply rtc_once. exists 9. split; [|by vm_compute].
  split; [vm_compute; split; [discriminate|reflexivity]|vm_compute; reflexivity].
Qed.

(** C7, amended.  When [propagateDOMState] completes, a node has the state
    [Attached] only if the snapshot gave it that state or it can be reached,
    through edges that are not hidden, invisible or weak, from a node the
    snapshot gave that state.  This holds for every node, and so for the nodes
    that can be reached from a detached one. *)
Theorem attached_only_from_attached_seed (L : Layout) (edges fei nodes : list Z)
    (strings : list string) (nodes' : list Z) (strings' : list string) :
  0 < nodeFieldCount L -> 0 < edgeFieldsCount L ->
  0 <= nodeDetachednessAndClassIndexOffset L < nodeFieldCount L ->
  0 <= nodeNameOffset L < nodeFieldCount L ->
  nodeNameOffset L <> nodeDetachednessAndClassIndexOffset L ->
  propagateDOMState L edges fei nodes strings = Ok (nodes', strings') ->
  forall v,
    detachedness L nodes' (v * nodeFieldCount L) = Attached ->
    exists s, detachedness L nodes (s * nodeFieldCount L) = Attached
              /\ rtc (dom_step L edges fei) s v.
Proof.
  intros HNF HEF Hstate Hname Hdistinct Hrun v Hv.
  by apply (propagateDOMState_attached L edges fei nodes HNF HEF Hstate Hname
              Hdistinct strings nodes' strings' Hrun v).
Qed.

Lemma attached_only_from_attached_seed_witness :
  let p := attached_wins in
  let L := layout_of p in
  let fei := buildEdgeIndexes L (p_nodes p) (p_edges p) in
  exists s, detachedness L (p_nodes p) (s * nodeFieldCount L) = Attached
            /\ rtc (dom_step L (p_edges p) fei) s 3.
Proof.
  intros p L fei.
  refine (attached_only_from_attached_seed L (p_edges p) fei (p_nodes p) (p_strings p)
            _ _ _ _ _ _ _ _ 3 _).
  - vm_compute. reflexivity.
  - vm_compute. reflexivity.
  - vm_compute. split; [discriminate|reflexivity].
  - vm_compute. split; [discriminate|reflexivity].
  - vm_compute. discriminate.
  - vm_compute. reflexivity.
  - vm_compute. reflexivity.
Defined.

(** ** Distances (claim C6) *)

Lemma wf_edge_target L edges fei u e :
  wf_edges L edges fei = true ->
  0 <= u < nodeCount L -> edge_of L fei u e ->
  0 <= aget edges (e + edgeToNodeOffset L) < nodeCount L * nodeFieldCount L
  /\ 0 <= aget edges (e + edgeToNodeOffset L) / nodeFieldCount L < nodeCount L.
Proof.
  intros Hwf Hu [He Hal].
  destruct (wf_edges_spec L edges fei Hwf)
    as (HNF & HEF & Hoff & Hn & Hlen & Hsmall & Hfei0 & HfeiN & Hfei & Htarget).
  pose proof (fei_mono L edges fei HNF HEF Hoff Hn Hlen Hsmall Hfei0 HfeiN Hfei Htarget)
    as Hmono.
  pose proof (Hmono 0 u ltac:(lia) ltac:(lia)) as H0.
  pose proof (Hmono (u + 1) (nodeCount L) ltac:(lia) ltac:(lia)) as H1.
  destruct (Hfei u Hu) as [_ Hmod].
  assert (Hem : e mod edgeFieldsCount L = 0).
  { replace e with (e - aget fei u + aget fei u) by lia.
    rewrite Z.add_mod, Hal, Hmod by lia. simpl. by apply Z.mod_0_l, Z.neq_sym, Z.lt_neq. }
  assert (Hk : e = e / edgeFieldsCount L * edgeFieldsCount L).
  { pose proof (Z.div_mod e (edgeFieldsCount L) ltac:(lia)). lia. }
  assert (Hkr : 0 <= e / edgeFieldsCount L < edgeCount L).
  { split; [apply Z.div_pos; lia|]. apply Z.div_lt_upper_bound; lia. }
  destruct (Htarget _ Hkr) as [Ht0 Ht1]. unfold target, toNode in Ht0, Ht1.
  rewrite <- Hk in Ht0, Ht1.
  assert (0 <= aget edges (e + edgeToNodeOffset L) / nodeFieldCount L)
    by (apply Z.div_pos; lia).
  split; [|lia]. split; [done|].
  pose proof (Z.div_mod (aget edges (e + edgeToNodeOffset L)) (nodeFieldCount L)
                ltac:(lia)).
  pose proof (Z.mod_pos_bound (aget edges (e + edgeToNodeOffset L)) (nodeFieldCount L)
                HNF).
  nia.
Qed.

Lemma aligned_le a b c d :
  0 < d -> (a - c) mod d = 0 -> (b - c) mod d = 0 -> a < b + d -> a <= b.
Proof.
  intros Hd Ha Hb Hlt.
  destruct (Z_le_gt_dec a b) as [|Hgt]; [done|].
  pose proof (aligned_next (b - c) (a - c) d Hd Hb Ha ltac:(lia)). lia.
Qed.

(** An edge that is not weak. *)
Definition nonweak_step (L : Layout) (edges fei : list Z) (u v : Z) : Prop :=
  exists e, edge_of L fei u e
    /\ aget edges (e + edgeTypeOffset L) <> edgeWeakType L
    /\ aget edges (e + edgeToNodeOffset L) / nodeFieldCount L = v.

(** Where the two searches start: the root, and the user roots that an edge of
    the root leads to. *)
Definition bfs_start (L : Layout) (edges fei : list Z) (isUserRoot : Z -> bool)
    (v : Z) : Prop :=
  v = rootNodeIndexInternal L / nodeFieldCount L
  \/ exists e, edge_of L fei (rootNodeIndexInternal L / nodeFieldCount L) e
       /\ isUserRoot (aget edges (e + edgeToNodeOffset L)) = true
       /\ aget edges (e + edgeToNodeOffset L) / nodeFieldCount L = v.

Definition bfs_reach (L : Layout) (edges fei : list Z) (isUserRoot : Z -> bool)
    (v : Z) : Prop :=
  exists s, bfs_start L edges fei isUserRoot s /\ rtc (nonweak_step L edges fei) s v.

Section DistancesProof.
Variable L : Layout.
Variables edges fei : list Z.
Variable isUserRoot : Z -> bool.
Context {FS : Type}.
Variable filter : option (FS -> Z -> Z -> bool * FS).

Local Abbreviation NF := (nodeFieldCount L).
Local Abbreviation EF := (edgeFieldsCount L).
Local Abbreviation n := (nodeCount L).
Local Abbreviation rootOrd := (rootNodeIndexInternal L / nodeFieldCount L).
Local Abbreviation step := (nonweak_step L edges fei).
Local Abbreviation reach := (bfs_reach L edges fei isUserRoot).

Hypothesis Hwf : wf_edges L edges fei = true.
Hypothesis Hsize : n * NF <= 4294967296.
Hypothesis Hroot0 : 0 <= rootNodeIndexInternal L.
Hypothesis Hroot : 0 <= rootOrd < n.

Local Set Default Proof Using "All".

(** The ordinal of the [i]th node of the queue. *)
Definition queued (st : Bfs FS) (i : Z) : Z := aget (nodesToVisit st) i / NF.

Definition has_distance (st : Bfs FS) (v : Z) : Prop :=
  aget (distances st) v <> noDistance.

(** The queue has been written past its end; [bfs] throws then. *)
Definition overflow (st : Bfs FS) : Prop := n < nodesToVisitLength st.

(** What the search keeps true while the queue is within bounds; [index] is
    the position of the next node to take from the queue. *)
Record bfs_inv (index : Z) (st : Bfs FS) : Prop := {
  bi_len_d : len (distances st) = n;
  bi_len_q : len (nodesToVisit st) = n;
  bi_index : 0 <= index <= nodesToVisitLength st;
  bi_length : nodesToVisitLength st <= n;
  bi_vals : forall v, aget (distances st) v = noDistance \/ 0 <= aget (distances st) v;
  bi_sound : forall v, 0 <= v < n -> has_distance st v -> reach v;
  bi_queue : forall i, 0 <= i < nodesToVisitLength st ->
    0 <= queued st i < n /\ has_distance st (queued st i);
  bi_closed : filter = None ->
    forall u, 0 <= u < n -> has_distance st u ->
      (exists i, index <= i < nodesToVisitLength st /\ queued st i = u)
      \/ (forall c, step u c -> has_distance st c)
}.

(** The edges of [u] before [e] have been looked at. *)
Definition looked_at (u e : Z) (st : Bfs FS) : Prop :=
  filter = None ->
  forall e', edge_of L fei u e' -> e' < e ->
    aget edges (e' + edgeTypeOffset L) <> edgeWeakType L ->
    has_distance st (aget edges (e' + edgeToNodeOffset L) / NF).

Lemma dist_facts : 0 < NF /\ 0 < EF /\ 0 <= n.
Proof.
  destruct (wf_edges_spec L edges fei Hwf) as (HNF & HEF & _ & Hn & _). done.
Qed.

Lemma has_distance_in_range (st : Bfs FS) v :
  len (distances st) = n -> aget (distances st) v = noDistance -> 0 <= v < n.
Proof.
  intros Hlen Hv. destruct (Z_lt_le_dec v 0) as [Hneg|Hpos].
  { rewrite aget_out in Hv by lia. discriminate. }
  destruct (Z_lt_le_dec v n) as [|Hge]; [lia|].
  rewrite aget_out in Hv by lia. discriminate.
Qed.

Lemma reach_step u c : reach u -> step u c -> reach c.
Proof.
  intros (s & Hs & Hpath) Hstep. exists s. split; [done|]. by eapply rtc_r.
Qed.

Lemma bfs_inv_ext index (st st' : Bfs FS) :
  nodesToVisit st' = nodesToVisit st ->
  nodesToVisitLength st' = nodesToVisitLength st ->
  distances st' = distances st ->
  bfs_inv index st -> bfs_inv index st'.
Proof.
  intros Hq Hl Hd I.
  constructor; unfold has_distance, queued; rewrite ?Hq, ?Hl, ?Hd; apply I.
Qed.

(** A node gets its distance and enters the queue. *)
Definition enqueue (nodeIndex v d : Z) (fs : FS) (st : Bfs FS) : Bfs FS :=
  {| nodesToVisit := aset32 (nodesToVisit st) (nodesToVisitLength st) nodeIndex;
     nodesToVisitLength := nodesToVisitLength st + 1;
     distances := aset (distances st) v d;
     filterState := fs |}.

Lemma has_distance_enqueue nodeIndex v d fs st x :
  0 <= d -> has_distance st x -> has_distance (enqueue nodeIndex v d fs st) x.
Proof.
  intros Hd Hx. unfold has_distance, enqueue. cbn [distances].
  rewrite aget_aset. destruct (_ && _); [unfold noDistance; lia|done].
Qed.

Lemma enqueue_inv index st nodeIndex d fs :
  bfs_inv index st ->
  0 <= nodeIndex < n * NF -> 0 <= d -> reach (nodeIndex / NF) ->
  overflow (enqueue nodeIndex (nodeIndex / NF) d fs st)
  \/ (bfs_inv index (enqueue nodeIndex (nodeIndex / NF) d fs st)
      /\ has_distance (enqueue nodeIndex (nodeIndex / NF) d fs st) (nodeIndex / NF)).
Proof.
  intros I Hidx Hd Hreach. destruct dist_facts as (HNF & HEF & Hn).
  set (v := nodeIndex / NF) in *.
  assert (Hv : 0 <= v < n).
  { unfold v. split; [apply Z.div_pos; lia|]. apply Z.div_lt_upper_bound; lia. }
  destruct (Z_lt_le_dec (nodesToVisitLength st) n) as [Hroom|Hfull];
    [right|left; unfold overflow, enqueue; cbn [nodesToVisitLength]; lia].
  pose proof (bi_index index st I) as Hindex.
  set (st' := enqueue nodeIndex v d fs st).
  assert (Hnew : has_distance st' v).
  { unfold has_distance, st', enqueue. cbn [distances].
    rewrite aget_aset_eq by (rewrite (bi_len_d index st I); lia).
    unfold noDistance. lia. }
  assert (Hold : forall i, 0 <= i < nodesToVisitLength st -> queued st' i = queued st i).
  { intros i Hi. unfold queued, st', enqueue. cbn [nodesToVisit].
    by rewrite aget_aset32_ne by lia. }
  assert (Hlast : queued st' (nodesToVisitLength st) = v).
  { unfold queued, st', enqueue. cbn [nodesToVisit].
    rewrite aget_aset32_eq by (rewrite (bi_len_q index st I); lia).
    rewrite u32_small by lia. done. }
  split; [|done]. constructor.
  - unfold st', enqueue. cbn [distances]. rewrite len_aset. apply I.
  - unfold st', enqueue. cbn [nodesToVisit]. rewrite len_aset32. apply I.
  - unfold st', enqueue. cbn [nodesToVisitLength]. lia.
  - unfold st', enqueue. cbn [nodesToVisitLength]. lia.
  - intros x. unfold st', enqueue. cbn [distances]. rewrite aget_aset.
    destruct (_ && _); [by right|apply I].
  - intros x Hx Hdx. destruct (Z.eq_dec x v) as [->|Hne]; [done|].
    apply (bi_sound index st I x Hx). unfold has_distance in *.
    unfold st', enqueue in Hdx. cbn [distances] in Hdx.
    by rewrite aget_aset_ne in Hdx by lia.
  - intros i Hi. unfold st', enqueue in Hi. cbn [nodesToVisitLength] in Hi.
    destruct (Z.eq_dec i (nodesToVisitLength st)) as [->|Hne].
    + rewrite Hlast. done.
    + rewrite Hold by lia. destruct (bi_queue index st I i ltac:(lia)) as [Hr Hd'].
      split; [done|]. by apply has_distance_enqueue.
  - intros Hnone u Hu Hdu. destruct (Z.eq_dec u v) as [->|Hne].
    + left. exists (nodesToVisitLength st). split; [|done].
      unfold st', enqueue. cbn [nodesToVisitLength]. lia.
    + assert (Hdu' : has_distance st u).
      { unfold has_distance in *. unfold st', enqueue in Hdu. cbn [distances] in Hdu.
        by rewrite aget_aset_ne in Hdu by lia. }
      destruct (bi_closed index st I Hnone u Hu Hdu') as [(i & Hi & Hq)|Hcl].
      * left. exists i. split; [|by rewrite Hold by lia].
        unfold st', enqueue. cbn [nodesToVisitLength]. lia.
      * right. intros c Hc. apply has_distance_enqueue; [done|by apply Hcl].
Qed.

Lemma looked_at_next u e (st st' : Bfs FS) :
  edge_of L fei u e ->
  looked_at u e st ->
  (forall x, has_distance st x -> has_distance st' x) ->
  (filter = None ->
   aget edges (e + edgeTypeOffset L) <> edgeWeakType L ->
   has_distance st' (aget edges (e + edgeToNodeOffset L) / NF)) ->
  looked_at u (e + EF) st'.
Proof.
  intros [He Hal] Hold Hmono Hnew Hnone e' [He' Hal'] Hlt Hnw.
  destruct dist_facts as (_ & HEF & _).
  pose proof (aligned_le e' e (aget fei u) EF HEF Hal' Hal Hlt) as Hle.
  destruct (Z.eq_dec e' e) as [->|Hne]; [by apply Hnew|].
  apply Hmono, (Hold Hnone e'); [done|lia|done].
Qed.

(** Distances that are set stay set. *)
Definition keeps (st s : Bfs FS) : Prop :=
  forall x, has_distance st x -> has_distance s x.

Lemma bfs_edge_inv index u nodeIndex d e st :
  bfs_inv index st -> index < nodesToVisitLength st -> queued st index = u ->
  0 <= d -> edge_of L fei u e -> looked_at u e st ->
  overflow (bfs_edge L edges filter nodeIndex d e st)
  \/ (bfs_inv index (bfs_edge L edges filter nodeIndex d e st)
      /\ queued (bfs_edge L edges filter nodeIndex d e st) index = u
      /\ looked_at u (e + EF) (bfs_edge L edges filter nodeIndex d e st)
      /\ keeps st (bfs_edge L edges filter nodeIndex d e st)).
Proof.
  intros I Hindex Hu Hd He Hlooked. destruct dist_facts as (HNF & HEF & Hn).
  pose proof (bi_index index st I) as Hindex0.
  destruct (bi_queue index st I index ltac:(lia)) as [Hur Hud]. rewrite Hu in Hur, Hud.
  pose proof (bi_sound index st I u Hur Hud) as Hreach.
  destruct (wf_edge_target L edges fei u e Hwf Hur He) as [Hto Hc].
  assert (Hsame : keeps st st) by (by intros x Hx).
  unfold bfs_edge.
  destruct (Z.eqb_spec (aget edges (e + edgeTypeOffset L)) (edgeWeakType L)) as [Hw|Hw].
  { right. split; [done|]. split; [done|]. split; [|done].
    apply (looked_at_next u e st st He Hlooked); [done|]. intros _ Hnw. done. }
  destruct (Z.eqb_spec (aget (distances st) (aget edges (e + edgeToNodeOffset L) / NF))
              noDistance) as [Hno|Hhas]; cbn [negb].
  2:{ right. split; [done|]. split; [done|]. split; [|done].
      apply (looked_at_next u e st st He Hlooked); [done|]. intros _ _. done. }
  destruct (match filter with
            | Some f => f (filterState st) nodeIndex e
            | None => (true, filterState st)
            end) as [accepted fs] eqn:Hf.
  destruct accepted; cbn [negb].
  - fold (enqueue (aget edges (e + edgeToNodeOffset L))
            (aget edges (e + edgeToNodeOffset L) / NF) d fs st).
    assert (Hkeeps : keeps st (enqueue (aget edges (e + edgeToNodeOffset L))
                                 (aget edges (e + edgeToNodeOffset L) / NF) d fs st))
      by (intros x; by apply has_distance_enqueue).
    destruct (enqueue_inv index st (aget edges (e + edgeToNodeOffset L)) d fs I Hto Hd)
      as [Hov|[I' Hnew]].
    + apply (reach_step u); [done|]. exists e.
      split; [exact He|]. split; [exact Hw|reflexivity].
    + by left.
    + right. split; [done|]. split; [|split; [|done]].
      * unfold queued, enqueue. cbn [nodesToVisit].
        rewrite aget_aset32_ne by lia. exact Hu.
      * by apply (looked_at_next u e st _ He Hlooked).
  - right.
    assert (I' : bfs_inv index
                   {| nodesToVisit := nodesToVisit st;
                      nodesToVisitLength := nodesToVisitLength st;
                      distances := distances st;
                      filterState := fs |}) by (by apply (bfs_inv_ext index st)).
    split; [done|]. split; [done|]. split; [|done].
    intros Hnone. rewrite Hnone in Hf. discriminate Hf.
Qed.

Lemma bfs_edge_length nodeIndex d e (st : Bfs FS) :
  nodesToVisitLength st
  <= nodesToVisitLength (bfs_edge L edges filter nodeIndex d e st).
Proof.
  unfold bfs_edge. destruct (_ =? edgeWeakType L); [lia|].
  destruct (negb _); [lia|].
  destruct (match filter with Some _ => _ | None => _ end) as [[] fs];
    cbn [negb nodesToVisitLength]; lia.
Qed.

Lemma bfs_visit_length index (st : Bfs FS) :
  nodesToVisitLength st <= nodesToVisitLength (bfs_visit L edges fei filter index st).
Proof.
  destruct dist_facts as (_ & HEF & _). unfold bfs_visit.
  match goal with
  | |- _ <= nodesToVisitLength (for_range ?a ?b ?c ?body ?s0) =>
      destruct (for_range_ind
                  (fun _ s => nodesToVisitLength st <= nodesToVisitLength s)
                  a b c body s0) as (e & _ & _ & _ & Hend)
  end; try done.
  intros i s _ Hs. etransitivity; [exact Hs|apply bfs_edge_length].
Qed.

Lemma bfs_loop_length fuel :
  forall index (st st' : Bfs FS),
    bfs_loop L edges fei filter fuel index st = Ok st' ->
    nodesToVisitLength st <= nodesToVisitLength st'.
Proof.
  induction fuel as [|fuel IH]; intros index st st' Hrun; simpl in Hrun.
  - destruct (index <? nodesToVisitLength st); [discriminate|].
    injection Hrun as <-. lia.
  - destruct (index <? nodesToVisitLength st); [|injection Hrun as <-; lia].
    apply IH in Hrun. pose proof (bfs_visit_length index st). lia.
Qed.

(** While the edges of the node at [index] are looked at. *)
Definition visiting (index u : Z) (st : Bfs FS) (e : Z) (s : Bfs FS) : Prop :=
  (e - aget fei u) mod EF = 0
  /\ nodesToVisitLength st <= nodesToVisitLength s
  /\ (overflow s
      \/ (bfs_inv index s /\ queued s index = u /\ looked_at u e s /\ keeps st s)).

Lemma visiting_step index u nodeIndex d st e s :
  index < nodesToVisitLength st -> 0 <= d ->
  aget fei u <= e < aget fei (u + 1) ->
  visiting index u st e s ->
  visiting index u st (e + EF) (bfs_edge L edges filter nodeIndex d e s).
Proof.
  intros Hindex Hd He (Hal & Hlen & Hs). destruct dist_facts as (HNF & HEF & Hn).
  pose proof (bfs_edge_length nodeIndex d e s) as Hgrow.
  split; [|split; [lia|]].
  - replace (e + EF - aget fei u) with (e - aget fei u + EF) by lia.
    by apply aligned_add.
  - destruct Hs as [Hov|(Is & Hq & Hlooked & Hkeeps)];
      [left; unfold overflow in *; lia|].
    destruct (bfs_edge_inv index u nodeIndex d e s Is ltac:(lia) Hq Hd
                ltac:(by split) Hlooked) as [Hov|(I' & Hq' & Hl' & Hk')];
      [by left|right].
    split; [done|]. split; [done|]. split; [done|].
    intros x Hx. by apply Hk', Hkeeps.
Qed.

Lemma bfs_visit_inv index st :
  bfs_inv index st -> index < nodesToVisitLength st ->
  overflow (bfs_visit L edges fei filter index st)
  \/ (bfs_inv (index + 1) (bfs_visit L edges fei filter index st)
      /\ keeps st (bfs_visit L edges fei filter index st)).
Proof.
  intros I Hindex. destruct dist_facts as (HNF & HEF & Hn).
  pose proof (bi_index index st I) as Hindex0.
  assert (Hd : 0 <= aget (distances st) (queued st index) + 1).
  { destruct (bi_queue index st I index ltac:(lia)) as [_ Hud].
    destruct (bi_vals index st I (queued st index)) as [Hno|Hpos]; [done|lia]. }
  unfold bfs_visit. fold (queued st index).
  set (u := queued st index) in *.
  destruct (for_range_ind (visiting index u st)
              (aget fei u) (aget fei (u + 1)) EF
              (bfs_edge L edges filter (aget (nodesToVisit st) index)
                 (aget (distances st) u + 1)) st)
    as (e & He & _ & _ & Hal & Hlen & Hend); [done| | |].
  - split; [rewrite Z.sub_diag; by apply Z.mod_0_l, Z.neq_sym, Z.lt_neq|].
    split; [lia|]. right. split; [done|]. split; [done|]. split; [|by intros x Hx].
    intros _ e' [He' _] Hlt. lia.
  - intros e s He Hs. by apply visiting_step.
  - destruct Hend as [Hov|(Is & Hq & Hlooked & Hkeeps)]; [by left|right].
    split; [|done]. constructor; try apply Is.
    + pose proof (bi_index index _ Is). lia.
    + intros Hnone w Hw Hdw.
      destruct (bi_closed index _ Is Hnone w Hw Hdw) as [(i & Hi & Hqi)|Hcl];
        [|by right].
      destruct (Z.eq_dec i index) as [->|Hne]; [|left; exists i; split; [lia|done]].
      right. intros c (e' & He' & Hnw & <-).
      rewrite Hq in Hqi. subst w.
      apply (Hlooked Hnone e' He'); [|done]. destruct He' as [He' _]. lia.
Qed.

Lemma bfs_loop_inv fuel :
  forall index st st',
    overflow st \/ bfs_inv index st ->
    bfs_loop L edges fei filter fuel index st = Ok st' ->
    overflow st' \/ (bfs_inv (nodesToVisitLength st') st' /\ keeps st st').
Proof.
  induction fuel as [|fuel IH]; intros index st st' Hst Hrun.
  - simpl in Hrun.
    destruct (Z.ltb_spec index (nodesToVisitLength st)) as [|Hge]; [discriminate|].
    injection Hrun as <-. destruct Hst as [|I]; [by left|right].
    pose proof (bi_index index st I). split; [|by intros x Hx].
    by replace (nodesToVisitLength st) with index by lia.
  - pose proof (bfs_loop_length _ _ _ _ Hrun) as Hgrow. simpl in Hrun.
    destruct (Z.ltb_spec index (nodesToVisitLength st)) as [Hlt|Hge].
    + destruct Hst as [Hov|I]; [left; unfold overflow in *; lia|].
      destruct (bfs_visit_inv index st I Hlt) as [Hov|[I1 Hk1]].
      * left. pose proof (bfs_loop_length _ _ _ _ Hrun). unfold overflow in *. lia.
      * destruct (IH _ _ _ (or_intror I1) Hrun) as [Hov|[I' Hk']]; [by left|right].
        split; [done|]. intros x Hx. by apply Hk', Hk1.
    + injection Hrun as <-. destruct Hst as [|I]; [by left|right].
      pose proof (bi_index index st I). split; [|by intros x Hx].
      by replace (nodesToVisitLength st) with index by lia.
Qed.

(** When [bfs] returns, every node with a distance has been taken from the
    queue. *)
Lemma bfs_inv_end st st' :
  overflow st \/ bfs_inv 0 st ->
  bfs L edges fei filter st = Ok st' ->
  bfs_inv (nodesToVisitLength st') st' /\ keeps st st'.
Proof.
  intros Hst Hrun. unfold bfs in Hrun.
  apply bind_ok_inv in Hrun as (s & Hloop & Hrun).
  destruct (Z.gtb_spec (nodesToVisitLength s) n) as [|Hle]; [discriminate|].
  injection Hrun as <-.
  destruct (bfs_loop_inv _ _ _ _ Hst Hloop) as [Hov|I]; [|done].
  unfold overflow in Hov. lia.
Qed.

Lemma bfs_not_overflow (st st' : Bfs FS) :
  bfs L edges fei filter st = Ok st' -> ¬ overflow st.
Proof.
  intros Hrun Hov. unfold bfs in Hrun.
  apply bind_ok_inv in Hrun as (s & Hloop & Hrun).
  apply bfs_loop_length in Hloop.
  destruct (Z.gtb_spec (nodesToVisitLength s) n) as [|Hle]; [discriminate|].
  unfold overflow in Hov. lia.
Qed.

Lemma noDistances_spec :
  let a := for_range 0 n 1 (fun i a => aset a i noDistance) (new_array n) in
  len a = n
  /\ (forall v, 0 <= v < n -> aget a v = noDistance)
  /\ (forall v, aget a v = noDistance \/ 0 <= aget a v).
Proof.
  destruct dist_facts as (_ & _ & Hn). cbv zeta.
  apply (for_range_ind1
           (fun i a => len a = n
                       /\ (forall v, 0 <= v < i -> aget a v = noDistance)
                       /\ (forall v, aget a v = noDistance \/ 0 <= aget a v)));
    [done| |].
  - split; [by apply len_new_array|]. split; [intros v Hv; lia|].
    intros v. right. by rewrite aget_new_array.
  - intros i a Hi (Hlen & Hset & Hvals). split; [by rewrite len_aset|]. split.
    + intros v Hv. destruct (Z.eq_dec v i) as [->|Hne].
      * by rewrite aget_aset_eq by lia.
      * rewrite aget_aset_ne by lia. apply Hset. lia.
    + intros v. rewrite aget_aset. destruct (_ && _); [by left|apply Hvals].
Qed.

Definition unseeded (fs : FS) : Bfs FS :=
  {| nodesToVisit := new_array n;
     nodesToVisitLength := 0;
     distances := for_range 0 n 1 (fun i a => aset a i noDistance) (new_array n);
     filterState := fs |}.

Lemma unseeded_inv fs : bfs_inv 0 (unseeded fs).
Proof.
  destruct dist_facts as (_ & _ & Hn).
  destruct noDistances_spec as (Hlen & Hset & Hvals).
  constructor; unfold has_distance, unseeded;
    cbn [nodesToVisit nodesToVisitLength distances].
  - done.
  - by apply len_new_array.
  - lia.
  - lia.
  - done.
  - intros v Hv Hd. by rewrite Hset in Hd.
  - intros i Hi. lia.
  - intros _ u Hu Hd. by rewrite Hset in Hd.
Qed.

(** The user roots among the targets of the root's edges before [e] have
    their distance. *)
Definition seeded (e : Z) (s : Bfs FS) : Prop :=
  forall e', edge_of L fei rootOrd e' -> e' < e ->
    isUserRoot (aget edges (e' + edgeToNodeOffset L)) = true ->
    has_distance s (aget edges (e' + edgeToNodeOffset L) / NF).

Definition seeding (e : Z) (s : Bfs FS) : Prop :=
  (e - aget fei rootOrd) mod EF = 0
  /\ (overflow s \/ (bfs_inv 0 s /\ seeded e s)).

Lemma seeding_step e s :
  aget fei rootOrd <= e < aget fei (rootOrd + 1) ->
  seeding e s ->
  seeding (e + EF)
    (let nodeIndex := aget edges (e + edgeToNodeOffset L) in
     if isUserRoot nodeIndex then
       {| nodesToVisit := aset32 (nodesToVisit s) (nodesToVisitLength s) nodeIndex;
          nodesToVisitLength := nodesToVisitLength s + 1;
          distances := aset (distances s) (nodeIndex / NF) 1;
          filterState := filterState s |}
     else s).
Proof.
  intros He [Hal Hs]. destruct dist_facts as (HNF & HEF & Hn). cbv zeta.
  assert (Hedge : edge_of L fei rootOrd e) by (by split).
  destruct (wf_edge_target L edges fei rootOrd e Hwf Hroot Hedge) as [Hto Hc].
  split.
  { replace (e + EF - aget fei rootOrd) with (e - aget fei rootOrd + EF) by lia.
    by apply aligned_add. }
  assert (Hnext : forall s' : Bfs FS,
            seeded e s -> keeps s s' ->
            (isUserRoot (aget edges (e + edgeToNodeOffset L)) = true ->
             has_distance s' (aget edges (e + edgeToNodeOffset L) / NF)) ->
            seeded (e + EF) s').
  { intros s' Hold Hkeeps Hnew e' He' Hlt Hur.
    pose proof (aligned_le e' e (aget fei rootOrd) EF HEF (proj2 He') Hal Hlt) as Hle.
    destruct (Z.eq_dec e' e) as [->|Hne]; [by apply Hnew|].
    apply Hkeeps, Hold; [done|lia|done]. }
  destruct (isUserRoot (aget edges (e + edgeToNodeOffset L))) eqn:Hur.
  - fold (enqueue (aget edges (e + edgeToNodeOffset L))
            (aget edges (e + edgeToNodeOffset L) / NF) 1 (filterState s) s).
    destruct Hs as [Hov|[Is Hseeded]].
    { left. unfold overflow, enqueue in *. cbn [nodesToVisitLength]. lia. }
    destruct (enqueue_inv 0 s (aget edges (e + edgeToNodeOffset L)) 1 (filterState s)
                Is Hto ltac:(lia)) as [Hov|[I' Hnew]]; [|by left|right].
    + exists (aget edges (e + edgeToNodeOffset L) / NF). split; [|done].
      right. exists e. split; [exact Hedge|]. split; [exact Hur|reflexivity].
    + split; [done|]. apply Hnext; [done| |done].
      intros x. apply has_distance_enqueue. lia.
  - destruct Hs as [Hov|[Is Hseeded]]; [by left|right]. split; [done|].
    apply Hnext; [done|by intros x Hx|intros Hbad; discriminate Hbad].
Qed.

(** Start of the second search: the root gets its distance and is alone in
    the queue. *)
Definition rooted (seeds : Z) (st1 : Bfs FS) : Bfs FS :=
  {| nodesToVisit := aset32 (nodesToVisit st1) 0 (rootNodeIndexInternal L);
     nodesToVisitLength := 1;
     distances :=
       aset (distances st1) rootOrd (if seeds >? 0 then baseSystemDistance else 0);
     filterState := filterState st1 |}.

Lemma rooted_inv seeds st1 :
  bfs_inv (nodesToVisitLength st1) st1 ->
  bfs_inv 0 (rooted seeds st1)
  /\ keeps st1 (rooted seeds st1)
  /\ has_distance (rooted seeds st1) rootOrd.
Proof.
  intros I. destruct dist_facts as (HNF & HEF & Hn).
  set (d := if seeds >? 0 then baseSystemDistance else 0).
  assert (Hd : 0 <= d) by (unfold d, baseSystemDistance; destruct (seeds >? 0); lia).
  assert (Hkeeps : keeps st1 (rooted seeds st1)).
  { intros x Hx. unfold has_distance, rooted in *. cbn [distances]. fold d.
    rewrite aget_aset. destruct (_ && _); [unfold noDistance; lia|done]. }
  assert (Hnew : has_distance (rooted seeds st1) rootOrd).
  { unfold has_distance, rooted. cbn [distances]. fold d.
    rewrite aget_aset_eq by (rewrite (bi_len_d _ st1 I); lia).
    unfold noDistance. lia. }
  assert (Hidx : rootNodeIndexInternal L < n * NF).
  { pose proof (Z.div_mod (rootNodeIndexInternal L) NF ltac:(lia)).
    pose proof (Z.mod_pos_bound (rootNodeIndexInternal L) NF HNF). nia. }
  assert (Hq0 : queued (rooted seeds st1) 0 = rootOrd).
  { unfold queued, rooted. cbn [nodesToVisit].
    rewrite aget_aset32_eq by (rewrite (bi_len_q _ st1 I); lia).
    by rewrite u32_small by lia. }
  split; [|done]. constructor.
  - unfold rooted. cbn [distances]. rewrite len_aset. apply I.
  - unfold rooted. cbn [nodesToVisit]. rewrite len_aset32. apply I.
  - unfold rooted. cbn [nodesToVisitLength]. lia.
  - unfold rooted. cbn [nodesToVisitLength]. lia.
  - intros v. unfold rooted. cbn [distances]. fold d. rewrite aget_aset.
    destruct (_ && _); [by right|apply I].
  - intros v Hv Hdv. destruct (Z.eq_dec v rootOrd) as [->|Hne].
    + exists rootOrd. split; [by left|done].
    + apply (bi_sound _ st1 I v Hv). unfold has_distance, rooted in *.
      cbn [distances] in Hdv. by rewrite aget_aset_ne in Hdv by lia.
  - intros i Hi. unfold rooted in Hi. cbn [nodesToVisitLength] in Hi.
    assert (i = 0) as -> by lia. by rewrite Hq0.
  - intros Hnone u Hu Hdu. destruct (Z.eq_dec u rootOrd) as [->|Hne].
    + left. exists 0. split; [|done]. unfold rooted. cbn [nodesToVisitLength]. lia.
    + right. intros c Hc. apply Hkeeps.
      assert (Hdu' : has_distance st1 u).
      { unfold has_distance, rooted in *. cbn [distances] in Hdu.
        by rewrite aget_aset_ne in Hdu by lia. }
      destruct (bi_closed _ st1 I Hnone u Hu Hdu') as [(i & Hi & _)|Hcl]; [lia|].
      by apply Hcl.
Qed.

Lemma closed_reach (st : Bfs FS) s v :
  bfs_inv (nodesToVisitLength st) st -> filter = None ->
  rtc step s v -> 0 <= s < n -> has_distance st s ->
  0 <= v < n /\ has_distance st v.
Proof.
  intros I Hnone Hpath. induction Hpath as [|x y z Hxy _ IH]; [done|].
  intros Hx Hdx. apply IH.
  - destruct Hxy as (e & He & _ & <-).
    by apply (wf_edge_target L edges fei x e Hwf Hx He).
  - destruct (bi_closed _ st I Hnone x Hx Hdx) as [(i & Hi & _)|Hcl]; [lia|].
    by apply Hcl.
Qed.

Lemma start_in_range s : bfs_start L edges fei isUserRoot s -> 0 <= s < n.
Proof.
  intros [->|(e & He & _ & <-)]; [done|].
  by apply (wf_edge_target L edges fei rootOrd e Hwf Hroot He).
Qed.

Lemma calculateDistances_reach fs d fs' :
  calculateDistances L edges fei isUserRoot filter fs = Ok (d, fs') ->
  forall v, 0 <= v < n ->
    (aget d v <> noDistance -> reach v)
    /\ (filter = None -> reach v -> aget d v <> noDistance).
Proof.
  intros Hrun. destruct dist_facts as (HNF & HEF & Hn).
  unfold calculateDistances in Hrun. fold (unseeded fs) in Hrun.
  match type of Hrun with
  | context [bfs _ _ _ _ (for_range ?a ?b ?c ?body ?s0)] =>
      destruct (for_range_ind seeding a b c body s0)
        as (e & He & _ & _ & Hal & Hseed); [done| | |];
      [ | |set (st := for_range a b c body s0) in *]
  end.
  - split; [rewrite Z.sub_diag; by apply Z.mod_0_l, Z.neq_sym, Z.lt_neq|].
    right. split; [apply unseeded_inv|]. intros e' [He' _] Hlt. lia.
  - intros e s He Hs. by apply seeding_step.
  - apply bind_ok_inv in Hrun as (st1 & H1 & Hrun).
    apply bind_ok_inv in Hrun as (st3 & H3 & Hrun). injection Hrun as <- <-.
    destruct Hseed as [Hov|[I0 Hseeded]]; [by apply bfs_not_overflow in H1|].
    destruct (bfs_inv_end st st1 (or_intror I0) H1) as [I1 Hk1].
    fold (rooted (nodesToVisitLength st) st1) in H3.
    destruct (rooted_inv (nodesToVisitLength st) st1 I1) as (I2 & Hk2 & Hroot2).
    destruct (bfs_inv_end _ st3 (or_intror I2) H3) as [I3 Hk3].
    intros v Hv. split; [by apply (bi_sound _ st3 I3)|].
    intros Hnone (s & Hs & Hpath).
    apply (closed_reach st3 s v I3 Hnone Hpath); [by apply start_in_range|].
    destruct Hs as [->|(e' & He' & Hur & <-)]; [by apply Hk3|].
    apply Hk3, Hk2, Hk1, Hseeded; [done| |done]. destruct He' as [He' _]. lia.
Qed.
End DistancesProof.

(** C6, as stated, fails: on [weakmap_orphans] the root leads to [A]
    (ordinal 2) through a property edge and an internal edge, neither weak,
    and [A] keeps [noDistance], because the filter of [JSHeapSnapshot] turns
    down the first edge of a WeakMap pair and the second never comes. *)
Lemma filtered_node_keeps_noDistance :
  exists h, initialize 10 weakmap_orphans = Ok h
    /\ aget (nodeDistances h) 2 = noDistance
    /\ rtc (nonweak_step (layout h) (containmentEdges h) (firstEdgeIndexes h))
         (rootNodeOrdinal (layout h)) 2.
Proof.
  eexists. split; [vm_compute; reflexivity|].
  split; [vm_compute; reflexivity|].
  cbn [layout containmentEdges firstEdgeIndexes].
  apply (rtc_l _ _ 1).
  { exists 0. split; [|split; [vm_compute; discriminate|vm_compute; reflexivity]].
    split; [vm_compute; split; [discriminate|reflexivity]|vm_compute; reflexivity]. }
  apply rtc_once.
  exists 3. split; [|split; [vm_compute; discriminate|vm_compute; reflexivity]].
  split; [vm_compute; split; [discriminate|reflexivity]|vm_compute; reflexivity].
Qed.

(** C6, amended.  When [calculateDistances] completes on a well-formed
    snapshot, a node has a distance other than [noDistance] only if a path of
    edges that are not weak leads to it from the root or from a user root that
    an edge of the root points to; when no filter is supplied, every such node
    has a distance.  (A filter is not ignored: what it turns down is not
    followed.) *)
Theorem distances_follow_nonweak_paths (L : Layout) (edges fei : list Z)
    (isUserRoot : Z -> bool) {FS : Type}
    (filter : option (FS -> Z -> Z -> bool * FS)) (fs : FS)
    (d : list Z) (fs' : FS) :
  wf_edges L edges fei = true ->
  nodeCount L * nodeFieldCount L <= 4294967296 ->
  0 <= rootNodeIndexInternal L ->
  0 <= rootNodeIndexInternal L / nodeFieldCount L < nodeCount L ->
  calculateDistances L edges fei isUserRoot filter fs = Ok (d, fs') ->
  forall v, 0 <= v < nodeCount L ->
    (aget d v <> noDistance -> bfs_reach L edges fei isUserRoot v)
    /\ (filter = None -> bfs_reach L edges fei isUserRoot v -> aget d v <> noDistance).
Proof.
  intros Hwf Hsize Hroot0 Hroot Hrun v Hv.
  by apply (calculateDistances_reach L edges fei isUserRoot filter Hwf Hsize Hroot0
              Hroot fs d fs' Hrun v Hv).
Qed.

Lemma distances_follow_nonweak_paths_witness :
  let p := weakmap_orphans in
  let L := layout_of p in
  let fei := buildEdgeIndexes L (p_nodes p) (p_edges p) in
  let isUserRoot := JS_isUserRoot L (p_nodes p) (p_strings p) in
  exists d,
    calculateDistances L (p_edges p) fei isUserRoot (None (A := unit -> Z -> Z -> bool * unit)) tt
    = Ok (d, tt)
    /\ forall v, 0 <= v < 4 ->
         (aget d v <> noDistance -> bfs_reach L (p_edges p) fei isUserRoot v)
         /\ (bfs_reach L (p_edges p) fei isUserRoot v -> aget d v <> noDistance).
Proof.
  intros p L fei isUserRoot. eexists. split; [vm_compute; reflexivity|].
  intros v Hv.
  destruct (distances_follow_nonweak_paths L (p_edges p) fei isUserRoot
              (None (A := unit -> Z -> Z -> bool * unit)) tt
              [100000000; 1; 2; 3] tt) with (v := v) as [Hsound Hcomplete].
  - vm_compute. reflexivity.
  - vm_compute. discriminate.
  - vm_compute. discriminate.
  - vm_compute. split; [discriminate|reflexivity].
  - vm_compute. reflexivity.
  - exact Hv.
  - split; [exact Hsound|]. apply Hcomplete. reflexivity.
Defined.

(** * Further properties of the engine *)

(** ** Retained sizes *)

Lemma sumZ_map_add {A} (f g : A -> Z) (xs : list A) :
  sumZ (map (fun x => f x + g x) xs) = sumZ (map f xs) + sumZ (map g xs).
Proof. induction xs as [|x xs IH]; simpl; lia. Qed.

Lemma sumZ_map_ext {A} (f g : A -> Z) (xs : list A) :
  (forall x, In x xs -> f x = g x) -> sumZ (map f xs) = sumZ (map g xs).
Proof. intros H. f_equal. by apply map_ext_in. Qed.

Lemma sumZ_point (k c : Z) (xs : list Z) :
  List.NoDup xs -> In k xs -> sumZ (map (fun j => if j =? k then c else 0) xs) = c.
Proof.
  intros Hnd Hin. induction Hnd as [|x xs Hx Hnd IH]; [destruct Hin|].
  simpl. destruct (Z.eqb_spec x k) as [->|Hne].
  - rewrite (sumZ_map_ext _ (fun _ => 0)).
    + clear. induction xs as [|y ys IH]; simpl; lia.
    + intros y Hy. destruct (Z.eqb_spec y k) as [->|]; [done|done].
  - destruct Hin as [|Hin]; [done|]. rewrite IH by done. lia.
Qed.

Lemma sumZ_Permutation (xs ys : list Z) : Permutation xs ys -> sumZ xs = sumZ ys.
Proof. intros H. induction H; simpl; lia. Qed.

Section RetainedSizes.
Variable L : Layout.
Variables nodes dominatorsTree p2o : list Z.

Local Abbreviation n := (nodeCount L).

Definition selfSize (v : Z) : Z :=
  aget nodes (v * nodeFieldCount L + nodeSelfSizeOffset L).

Definition retained_step (postOrderIndex : Z) (retainedSizes : list Z) : list Z :=
  let nodeOrdinal := aget p2o postOrderIndex in
  let dominatorOrdinal := aget dominatorsTree nodeOrdinal in
  aset retainedSizes dominatorOrdinal
    (aget retainedSizes dominatorOrdinal + aget retainedSizes nodeOrdinal).

Lemma selfSizes_copied :
  0 <= n ->
  let a := for_range 0 n 1 (fun v a => aset a v (selfSize v)) (new_array n) in
  len a = n /\ forall v, 0 <= v < n -> aget a v = selfSize v.
Proof.
  intros Hn. cbv zeta.
  apply (for_range_ind1
           (fun i a => len a = n /\ forall v, 0 <= v < i -> aget a v = selfSize v));
    [done| |].
  - split; [by apply len_new_array|]. intros v Hv. lia.
  - intros i a Hi [Hlen Ha]. split; [by rewrite len_aset|].
    intros v Hv. destruct (Z.eq_dec v i) as [->|Hne].
    + by rewrite aget_aset_eq by lia.
    + rewrite aget_aset_ne by lia. apply Ha. lia.
Qed.

Lemma calculateRetainedSizes_unfold :
  calculateRetainedSizes L nodes dominatorsTree p2o
  = for_range 0 (n - 1) 1 retained_step
      (for_range 0 n 1 (fun v a => aset a v (selfSize v)) (new_array n)).
Proof. reflexivity. Qed.

Lemma retained_at_least_self :
  0 <= n -> (forall v, 0 <= v < n -> 0 <= selfSize v) ->
  forall v, 0 <= v < n ->
    selfSize v <= aget (calculateRetainedSizes L nodes dominatorsTree p2o) v.
Proof.
  intros Hn Hself. rewrite calculateRetainedSizes_unfold.
  destruct (selfSizes_copied Hn) as [Hlen Hcopy]. cbv zeta in Hlen, Hcopy.
  destruct (for_range_ind
              (fun _ a => len a = n /\ forall v, 0 <= v < n -> selfSize v <= aget a v)
              0 (n - 1) 1 retained_step
              (for_range 0 n 1 (fun v a => aset a v (selfSize v)) (new_array n)))
    as (e & _ & _ & _ & _ & Hend); [lia| | |done].
  - split; [done|]. intros v Hv. rewrite Hcopy by done. lia.
  - intros i a _ [Hl Ha]. unfold retained_step. split; [by rewrite len_aset|].
    intros v Hv. rewrite aget_aset. destruct (_ && _) eqn:Hc; [|by apply Ha].
    apply andb_true_iff in Hc as [Hc _]. apply andb_true_iff in Hc as [Hc _].
    apply Z.eqb_eq in Hc. rewrite Hc.
    assert (0 <= aget a (aget p2o i)).
    { destruct (Z_lt_le_dec (aget p2o i) 0); [rewrite aget_out by lia; lia|].
      destruct (Z_lt_le_dec (aget p2o i) n); [|rewrite aget_out by lia; lia].
      pose proof (Ha (aget p2o i) ltac:(lia)). pose proof (Hself (aget p2o i) ltac:(lia)).
      lia. }
    pose proof (Ha v Hv). lia.
Qed.

(** The retained sizes of the nodes from post-order index [i] on. *)
Definition pending_total (i : Z) (a : list Z) : Z :=
  sumZ (map (fun j => aget a (aget p2o j)) (range i n 1)).

Lemma retained_step_total i a :
  Permutation p2o (range 0 n 1) -> len a = n -> 0 <= i < n - 1 ->
  (exists k, i < k < n /\ aget dominatorsTree (aget p2o i) = aget p2o k) ->
  pending_total (i + 1) (retained_step i a) = pending_total i a.
Proof.
  intros Hperm Hlen Hi (k & Hk & Hdom).
  assert (Hlp : len p2o = n).
  { pose proof (Permutation_length Hperm). pose proof (length_range1 0 n ltac:(lia)).
    unfold len in *. lia. }
  assert (Hnd : List.NoDup p2o).
  { eapply Permutation_NoDup; [symmetry; exact Hperm|]. by apply NoDup_range. }
  assert (Hrange : forall j, 0 <= j < n -> 0 <= aget p2o j < n).
  { intros j Hj. apply In_range1. eapply Permutation_in; [exact Hperm|].
    apply aget_In. lia. }
  assert (Hinj : forall j, 0 <= j < n -> aget p2o j = aget p2o k -> j = k).
  { intros j Hj Heq. rewrite <- (view_full p2o) in Hnd. rewrite Hlp in Hnd.
    unfold view in Hnd.
    destruct (Z.eq_dec j k) as [|Hne]; [done|exfalso].
    assert (Hrn : List.NoDup (range 0 n 1)) by (by apply NoDup_range).
    revert Hnd Heq. generalize (aget p2o). intros f Hnd Heq.
    assert (Hin1 : In j (range 0 n 1)) by (by apply In_range1).
    assert (Hin2 : In k (range 0 n 1)) by (apply In_range1; lia).
    clear -Hnd Heq Hne Hin1 Hin2. induction (range 0 n 1) as [|x xs IH]; [done|].
    simpl in Hnd. apply NoDup_cons_iff in Hnd as [Hx Hnd].
    destruct Hin1 as [->|Hin1], Hin2 as [->|Hin2]; try done.
    - apply Hx. rewrite Heq. by apply in_map.
    - apply Hx. rewrite <- Heq. by apply in_map.
    - by apply IH. }
  unfold pending_total. rewrite (range_step i n 1) by lia.
  cbn [map]. unfold sumZ at 2. cbn [fold_right]. fold (sumZ (map (fun j => aget a (aget p2o j)) (range (i + 1) n 1))).
  unfold retained_step. rewrite Hdom.
  rewrite (sumZ_map_ext _ (fun j => aget a (aget p2o j)
                                     + (if j =? k then aget a (aget p2o i) else 0))).
  - rewrite sumZ_map_add, sumZ_point; [lia|by apply NoDup_range|apply In_range1; lia].
  - intros j Hj. apply In_range1 in Hj. rewrite aget_aset.
    destruct (Z.eqb_spec j k) as [->|Hne].
    + rewrite Z.eqb_refl. pose proof (Hrange k ltac:(lia)).
      destruct (Z.leb_spec 0 (aget p2o k)); [|lia].
      destruct (Z.ltb_spec (aget p2o k) (len a)); [|lia]. done.
    + destruct (Z.eqb_spec (aget p2o k) (aget p2o j)) as [Heq|_]; cbn [andb]; [|lia].
      exfalso. apply Hne. apply Hinj; [lia|done].
Qed.

Lemma retained_root_total :
  0 < n -> Permutation p2o (range 0 n 1) ->
  (forall i, 0 <= i < n - 1 ->
     exists k, i < k < n /\ aget dominatorsTree (aget p2o i) = aget p2o k) ->
  aget (calculateRetainedSizes L nodes dominatorsTree p2o) (aget p2o (n - 1))
  = sumZ (map selfSize (range 0 n 1)).
Proof.
  intros Hn Hperm Hdom. rewrite calculateRetainedSizes_unfold.
  destruct (selfSizes_copied ltac:(lia)) as [Hlen Hcopy]. cbv zeta in Hlen, Hcopy.
  assert (Hlp : len p2o = n).
  { pose proof (Permutation_length Hperm). pose proof (length_range1 0 n ltac:(lia)).
    unfold len in *. lia. }
  assert (Hend :
    (fun i a => len a = n /\ pending_total i a = sumZ (map selfSize (range 0 n 1)))
      (n - 1)
      (for_range 0 (n - 1) 1 retained_step
         (for_range 0 n 1 (fun v a => aset a v (selfSize v)) (new_array n)))).
  { apply (for_range_ind1
             (fun i a => len a = n
                         /\ pending_total i a = sumZ (map selfSize (range 0 n 1))));
      [lia| |].
    - split; [done|]. unfold pending_total.
      rewrite (sumZ_map_ext _ (fun j => selfSize (aget p2o j))).
      + rewrite <- (map_map (aget p2o) selfSize). fold (view p2o n).
        rewrite <- Hlp, view_full, Hlp. apply sumZ_Permutation.
        by apply Permutation_map.
      + intros j Hj. apply In_range1 in Hj. apply Hcopy.
        apply In_range1. eapply Permutation_in; [exact Hperm|]. apply aget_In. lia.
    - intros i a Hi [Hl Ht]. split; [unfold retained_step; by rewrite len_aset|].
      rewrite retained_step_total; [done|done|done|lia|by apply Hdom]. }
  cbv beta in Hend. destruct Hend as [_ Hend]. rewrite <- Hend.
  unfold pending_total. rewrite (range_step (n - 1) n 1) by lia.
  rewrite range_stop by lia. unfold sumZ. cbn [map fold_right]. lia.
Qed.
End RetainedSizes.

(** X1. [calculateRetainedSizes] never gives a node less than its self size:
    with self sizes that are not negative, [retainedSizes[v] >= selfSize(v)]
    for every node, whatever the dominator tree and the post-order are. *)
Theorem calculateRetainedSizes_at_least_self_size
    (L : Layout) (nodes dominatorsTree p2o : list Z) :
  0 <= nodeCount L ->
  (forall v, 0 <= v < nodeCount L ->
     0 <= aget nodes (v * nodeFieldCount L + nodeSelfSizeOffset L)) ->
  forall v, 0 <= v < nodeCount L ->
    aget nodes (v * nodeFieldCount L + nodeSelfSizeOffset L)
    <= aget (calculateRetainedSizes L nodes dominatorsTree p2o) v.
Proof. intros Hn Hself v Hv. by apply retained_at_least_self. Qed.

Lemma calculateRetainedSizes_at_least_self_size_witness :
  let p := weakmap_orphans in
  let L := layout_of p in
  aget (p_nodes p) (3 * 7 + 3)
  <= aget (calculateRetainedSizes L (p_nodes p) [0; 0; 0; 2] [1; 2; 3; 0]) 3.
Proof.
  intros p L.
  apply (calculateRetainedSizes_at_least_self_size L (p_nodes p) [0; 0; 0; 2]
           [1; 2; 3; 0]).
  - vm_compute. discriminate.
  - intros u Hu. change (nodeCount L) with 4 in Hu.
    assert (Hcases : u = 0 \/ u = 1 \/ u = 2 \/ u = 3) by lia.
    destruct Hcases as [->|[->|[->| ->]]]; vm_compute; discriminate.
  - change (nodeCount L) with 4. lia.
Defined.

(** X2. When the post-order holds every node once with the root last, and
    the dominator of every other node comes later in the post-order than the
    node itself, the retained size of the root is the sum of all self sizes. *)
Theorem calculateRetainedSizes_root_is_total
    (L : Layout) (nodes dominatorsTree p2o : list Z) :
  0 < nodeCount L ->
  Permutation p2o (range 0 (nodeCount L) 1) ->
  (forall i, 0 <= i < nodeCount L - 1 ->
     exists k, i < k < nodeCount L
               /\ aget dominatorsTree (aget p2o i) = aget p2o k) ->
  aget (calculateRetainedSizes L nodes dominatorsTree p2o)
    (aget p2o (nodeCount L - 1))
  = sumZ (map (fun v => aget nodes (v * nodeFieldCount L + nodeSelfSizeOffset L))
            (range 0 (nodeCount L) 1)).
Proof. intros Hn Hperm Hdom. by apply retained_root_total. Qed.

Lemma calculateRetainedSizes_root_is_total_witness :
  let p := unreachable_cycle in
  let L := layout_of p in
  aget (calculateRetainedSizes L (p_nodes p) [0; 0; 0; 0] [1; 2; 3; 0]) 0 = 56.
Proof.
  intros p L.
  apply (calculateRetainedSizes_root_is_total L (p_nodes p) [0; 0; 0; 0] [1; 2; 3; 0]).
  - vm_compute. reflexivity.
  - change (range 0 (nodeCount L) 1) with [0; 1; 2; 3].
    symmetry. apply (Permutation_cons_append [1; 2; 3] 0).
  - intros i Hi. change (nodeCount L) with 4 in *. exists 3.
    assert (Hcases : i = 0 \/ i = 1 \/ i = 2) by lia.
    destruct Hcases as [->|[->| ->]]; (split; [lia|reflexivity]).
Defined.

(** ** First-edge indexes *)

Section EdgeIndexes.
Variable L : Layout.
Variables nodes edges : list Z.

Local Abbreviation n := (nodeCount L).
Local Abbreviation EF := (edgeFieldsCount L).

Definition edgeCountOf (v : Z) : Z :=
  aget nodes (v * nodeFieldCount L + nodeEdgeCountOffset L).

(** The number of edges of the nodes before [v]. *)
Definition edgesBefore (v : Z) : Z := sumZ (map edgeCountOf (range 0 v 1)).

Lemma edgesBefore_succ v : 0 <= v -> edgesBefore (v + 1) = edgesBefore v + edgeCountOf v.
Proof.
  intros Hv. unfold edgesBefore. rewrite range1_snoc by done.
  rewrite map_app, sumZ_app. unfold sumZ at 2. simpl. lia.
Qed.

Lemma edgesBefore_mono u v :
  (forall w, 0 <= w < v -> 0 <= edgeCountOf w) ->
  0 <= u <= v -> 0 <= edgesBefore u <= edgesBefore v.
Proof.
  intros Hcount [Hu Huv].
  assert (H0 : forall w, 0 <= w -> w <= v -> 0 <= edgesBefore w).
  { apply (countP_ind (fun w => w <= v -> 0 <= edgesBefore w)).
    - intros _. unfold edgesBefore. rewrite range_stop by lia. unfold sumZ. simpl. lia.
    - intros w Hw IH Hle. rewrite edgesBefore_succ by done.
      pose proof (Hcount w ltac:(lia)). specialize (IH ltac:(lia)). lia. }
  split; [by apply H0|].
  replace v with (u + (v - u)) in * by lia.
  assert (Hd : 0 <= v - u) by lia. revert Hd Huv Hcount H0. generalize (v - u).
  apply (countP_ind (fun d => u <= u + d ->
           (forall w, 0 <= w < u + d -> 0 <= edgeCountOf w) ->
           (forall w, 0 <= w -> w <= u + d -> 0 <= edgesBefore w) ->
           edgesBefore u <= edgesBefore (u + d))).
  - intros _ _ _. rewrite Z.add_0_r. lia.
  - intros d Hd IH _ Hc H0'. rewrite Z.add_assoc, edgesBefore_succ by lia.
    pose proof (Hc (u + d) ltac:(lia)).
    assert (edgesBefore u <= edgesBefore (u + d)); [|lia].
    apply IH; [lia| |]; intros w Hw; [apply Hc|intros Hw'; apply H0']; lia.
Qed.

Lemma buildEdgeIndexes_spec :
  0 <= n -> 0 <= EF ->
  (forall v, 0 <= v < n -> 0 <= edgeCountOf v) ->
  EF * edgesBefore n = len edges -> len edges < 4294967296 ->
  len (buildEdgeIndexes L nodes edges) = n + 1
  /\ forall v, 0 <= v <= n ->
       aget (buildEdgeIndexes L nodes edges) v = EF * edgesBefore v.
Proof.
  intros Hn HEF Hcount Htotal Hsmall. unfold buildEdgeIndexes.
  assert (Hend :
    (fun i (s : Z * list Z) =>
       fst s = EF * edgesBefore i /\ len (snd s) = n + 1
       /\ aget (snd s) n = len edges
       /\ forall v, 0 <= v < i -> aget (snd s) v = EF * edgesBefore v)
      n
      (for_range 0 n 1
         (fun nodeOrdinal '(edgeIndex, firstEdgeIndexes) =>
            (edgeIndex
             + aget nodes (nodeOrdinal * nodeFieldCount L + nodeEdgeCountOffset L) * EF,
             aset32 firstEdgeIndexes nodeOrdinal edgeIndex))
         (0, aset32 (new_array (n + 1)) n (len edges)))).
  { apply (for_range_ind1
             (fun i (s : Z * list Z) =>
                fst s = EF * edgesBefore i /\ len (snd s) = n + 1
                /\ aget (snd s) n = len edges
                /\ forall v, 0 <= v < i -> aget (snd s) v = EF * edgesBefore v));
      [done| |].
    - cbn [fst snd]. split.
      { unfold edgesBefore. rewrite range_stop by lia. unfold sumZ. simpl. lia. }
      split; [rewrite len_aset32; apply len_new_array; lia|].
      split; [|intros v Hv; lia].
      rewrite aget_aset32_eq by (rewrite len_new_array; lia).
      apply u32_small. pose proof (len_nonneg edges). lia.
    - intros i [e a] Hi (He & Hlen & Hlast & Hprev). cbn [fst snd] in *.
      fold (edgeCountOf i).
      pose proof (edgesBefore_mono i n Hcount ltac:(lia)) as Hm.
      split; [rewrite edgesBefore_succ by lia; lia|].
      split; [by rewrite len_aset32|].
      split; [by rewrite aget_aset32_ne by lia|].
      intros v Hv. destruct (Z.eq_dec v i) as [->|Hne].
      + rewrite aget_aset32_eq by lia. rewrite u32_small; [done|]. nia.
      + rewrite aget_aset32_ne by lia. apply Hprev. lia. }
  cbv beta in Hend. destruct (for_range 0 n 1 _ _) as [e a]. cbn [fst snd] in *.
  destruct Hend as (He & Hlen & Hlast & Hprev). split; [done|].
  intros v Hv. destruct (Z.eq_dec v n) as [->|Hne]; [lia|]. apply Hprev. lia.
Qed.
End EdgeIndexes.

(** X3. [buildEdgeIndexes] lays the edges of the nodes end to end: when the
    edge counts of the nodes are not negative and add up to the edges at hand,
    [firstEdgeIndexes] has [nodeCount + 1] entries and [firstEdgeIndexes[v]]
    is the edge field count times the number of edges of the nodes before
    [v]; so the edges of [v] end where those of [v + 1] begin. *)
Theorem buildEdgeIndexes_prefix_sums (L : Layout) (nodes edges : list Z) :
  0 <= nodeCount L -> 0 <= edgeFieldsCount L ->
  (forall v, 0 <= v < nodeCount L -> 0 <= edgeCountOf L nodes v) ->
  edgeFieldsCount L * edgesBefore L nodes (nodeCount L) = len edges ->
  len edges < 4294967296 ->
  let fei := buildEdgeIndexes L nodes edges in
  len fei = nodeCount L + 1
  /\ aget fei 0 = 0
  /\ aget fei (nodeCount L) = len edges
  /\ (forall v, 0 <= v <= nodeCount L ->
        aget fei v = edgeFieldsCount L * edgesBefore L nodes v)
  /\ (forall v, 0 <= v < nodeCount L ->
        aget fei (v + 1) = aget fei v + edgeCountOf L nodes v * edgeFieldsCount L).
Proof.
  intros Hn HEF Hcount Htotal Hsmall fei.
  destruct (buildEdgeIndexes_spec L nodes edges Hn HEF Hcount Htotal Hsmall)
    as [Hlen Hfei]. fold fei in Hlen, Hfei.
  split; [done|]. split; [|split; [|split; [done|]]].
  - rewrite Hfei by lia. unfold edgesBefore. rewrite range_stop by lia.
    unfold sumZ. simpl. lia.
  - rewrite Hfei by lia. done.
  - intros v Hv. rewrite !Hfei by lia. rewrite edgesBefore_succ by lia. lia.
Qed.

Lemma buildEdgeIndexes_prefix_sums_witness :
  let p := attached_wins in
  let L := layout_of p in
  let fei := buildEdgeIndexes L (p_nodes p) (p_edges p) in
  len fei = 5 /\ aget fei 0 = 0 /\ aget fei 4 = 12
  /\ aget fei 2 = aget fei 1 + 1 * 3.
Proof.
  intros p L fei.
  destruct (buildEdgeIndexes_prefix_sums L (p_nodes p) (p_edges p))
    as (H1 & H2 & H3 & _ & H5).
  - vm_compute. discriminate.
  - vm_compute. discriminate.
  - intros u Hu. change (nodeCount L) with 4 in Hu.
    assert (Hcases : u = 0 \/ u = 1 \/ u = 2 \/ u = 3) by lia.
    destruct Hcases as [->|[->|[->| ->]]]; vm_compute; discriminate.
  - vm_compute. reflexivity.
  - vm_compute. reflexivity.
  - split; [exact H1|]. split; [exact H2|]. split; [exact H3|].
    apply (H5 1). vm_compute. split; [discriminate|reflexivity].
Defined.

(** ** A class compared with itself *)

Lemma aggregateForDiff_spec L nodes idxs :
  ids (aggregateForDiff L nodes idxs) = map (node_id L nodes) idxs
  /\ indexes (aggregateForDiff L nodes idxs) = idxs
  /\ selfSizes (aggregateForDiff L nodes idxs) = map (node_selfSize L nodes) idxs.
Proof.
  unfold aggregateForDiff.
  assert (Hend :
    (fun i (s : list Z * list Z) =>
       len (fst s) = len idxs /\ len (snd s) = len idxs
       /\ forall k, 0 <= k < i ->
            aget (fst s) k = node_id L nodes (aget idxs k)
            /\ aget (snd s) k = node_selfSize L nodes (aget idxs k))
      (len idxs)
      (for_range 0 (len idxs) 1
         (fun i '(ids, selfSizes) =>
            (aset ids i (node_id L nodes (aget idxs i)),
             aset selfSizes i (node_selfSize L nodes (aget idxs i))))
         (new_array (len idxs), new_array (len idxs)))).
  { apply (for_range_ind1
             (fun i (s : list Z * list Z) =>
                len (fst s) = len idxs /\ len (snd s) = len idxs
                /\ forall k, 0 <= k < i ->
                     aget (fst s) k = node_id L nodes (aget idxs k)
                     /\ aget (snd s) k = node_selfSize L nodes (aget idxs k)));
      [apply len_nonneg| |].
    - cbn [fst snd]. rewrite len_new_array by apply len_nonneg.
      split; [done|]. split; [done|]. intros k Hk. lia.
    - intros i [a b] Hi (Ha & Hb & Hprev). cbn [fst snd] in *.
      rewrite !len_aset. split; [done|]. split; [done|].
      intros k Hk. destruct (Z.eq_dec k i) as [->|Hne].
      + by rewrite !aget_aset_eq by lia.
      + rewrite !aget_aset_ne by lia. apply Hprev. lia. }
  cbv beta in Hend. destruct (for_range 0 (len idxs) 1 _ _) as [a b].
  cbn [fst snd ids indexes selfSizes] in *. destruct Hend as (Ha & Hb & Hprev).
  assert (Hmap : forall (h : Z -> Z) k, 0 <= k < len idxs ->
            aget (map h idxs) k = h (aget idxs k)).
  { intros h k Hk. unfold aget. destruct (Z.ltb_spec k 0); [lia|].
    rewrite list_lookup_fmap. destruct (idxs !! Z.to_nat k) eqn:E; [done|].
    apply lookup_ge_None in E. unfold len in Hk. lia. }
  split; [|split; [done|]].
  - apply array_ext; [unfold len in *; by rewrite length_map|].
    intros k Hk. rewrite Hmap by lia. apply Hprev. lia.
  - apply array_ext; [unfold len in *; by rewrite length_map|].
    intros k Hk. rewrite Hmap by lia. apply Hprev. lia.
Qed.

Lemma only_left_same (f g : Z -> Z) l :
  (forall k, 0 <= k < l -> f k = g k) -> only_left f g l l 0 0 = [].
Proof.
  intros Hfg. unfold only_left.
  induction (range 0 l 1) as [|x xs IH] eqn:Hr using rev_ind; [done|].
  assert (Hall : forall k, In k (xs ++ [x]) -> occurs g 0 l (f k) = true).
  { intros k Hk. rewrite <- Hr in Hk. apply In_range1 in Hk.
    unfold occurs. apply existsb_exists. exists k.
    split; [by apply In_range1|]. apply Z.eqb_eq. by apply Hfg. }
  clear -Hall. induction (xs ++ [x]) as [|y ys IH]; [done|].
  simpl. rewrite Hall by (by left). simpl. apply IH. intros k Hk. apply Hall. by right.
Qed.

(** X4. A class compared with itself shows no change: for indexes whose ids
    increase strictly, [calculateDiffForClass], given the aggregate that
    [aggregatesForDiff] builds from those indexes and the indexes themselves,
    returns [null]. *)
Theorem calculateDiffForClass_same_class_is_null
    (L : Layout) (nodes idxs : list Z) :
  strictly_increasing (map (node_id L nodes) idxs) = true ->
  calculateDiffForClass L nodes (aggregateForDiff L nodes idxs) idxs = None.
Proof.
  intros Hsorted.
  destruct (aggregateForDiff_spec L nodes idxs) as (Hids & Hidx & Hsizes).
  set (base := aggregateForDiff L nodes idxs) in *.
  assert (HA : strictly_increasing (ids base) = true) by (by rewrite Hids).
  assert (Hl : len (ids base) = len idxs).
  { rewrite Hids. unfold len. by rewrite length_map. }
  assert (Hsame : forall k, 0 <= k < len idxs ->
            aget (ids base) k = node_id L nodes (aget idxs k)).
  { intros k Hk. rewrite Hids. unfold aget. destruct (Z.ltb_spec k 0); [lia|].
    rewrite list_lookup_fmap. destruct (idxs !! Z.to_nat k) eqn:E; [done|].
    apply lookup_ge_None in E. unfold len in Hk. lia. }
  pose proof (mergeLoop_correct L nodes base idxs HA Hsorted
                (length (ids base) + length idxs) 0 0 newDiff [] []) as Hm.
  unfold calculateDiffForClass, diffForClass.
  destruct (mergeLoop L nodes base idxs _ 0 0 newDiff) as [[i' j'] d'].
  destruct Hm as (_ & H2 & _ & _ & H5 & _).
  - pose proof (len_nonneg (ids base)). lia.
  - pose proof (len_nonneg idxs). lia.
  - unfold len. lia.
  - apply diff_is_new.
  - cbn [addedCount removedCount]. rewrite H2, H5. rewrite Hl.
    rewrite !(only_left_same _ _ (len idxs))
      by (intros k Hk; first [by apply Hsame|symmetry; by apply Hsame]).
    reflexivity.
Qed.

Lemma calculateDiffForClass_same_class_is_null_witness :
  calculateDiffForClass S6_layout S6_nodes
    (aggregateForDiff S6_layout S6_nodes S6_idxs) S6_idxs = None.
Proof.
  apply calculateDiffForClass_same_class_is_null. vm_compute. reflexivity.
Defined.

(** ** The greatest id of a JS object *)

Section MaxJsNodeId.
Variable L : Layout.
Variable nodes : list Z.

Local Abbreviation NF := (nodeFieldCount L).
Local Abbreviation idOff := (nodeIdOffset L).

Definition id_cell (j : Z) : Prop := idOff <= j /\ (j - idOff) mod NF = 0.

Definition max_so_far (i r : Z) : Prop :=
  (i - idOff) mod NF = 0
  /\ 0 <= r
  /\ (r = 0 \/ exists j, id_cell j /\ j < i /\ j < len nodes
                         /\ aget nodes j = r /\ r mod 2 <> 0)
  /\ (forall j, id_cell j -> j < i -> aget nodes j mod 2 <> 0 -> aget nodes j <= r).

Lemma maxJsNodeId_loop :
  0 < NF -> exists e, len nodes <= e /\ max_so_far e (maxJsNodeId L nodes).
Proof.
  intros HNF. unfold maxJsNodeId.
  destruct (for_range_ind max_so_far idOff (len nodes) NF
              (fun nodeIndex id =>
                 let nextId := aget nodes nodeIndex in
                 if nextId mod 2 =? 0 then id
                 else if id <? nextId then nextId else id) 0)
    as (e & He & _ & _ & Hend); [done| | |by exists e].
  - split; [rewrite Z.sub_diag; by apply Z.mod_0_l, Z.neq_sym, Z.lt_neq|].
    split; [lia|]. split; [by left|]. intros j [Hj _] Hlt. lia.
  - intros i r Hi (Hal & Hr & Hex & Hmax). cbv zeta.
    assert (Hal' : (i + NF - idOff) mod NF = 0).
    { replace (i + NF - idOff) with (i - idOff + NF) by lia. by apply aligned_add. }
    assert (Hcell : id_cell i) by (split; [lia|done]).
    assert (Hle : forall j, id_cell j -> j < i + NF -> j <= i).
    { intros j [_ Hj] Hlt. by apply (aligned_le j i idOff NF). }
    destruct (Z.eqb_spec (aget nodes i mod 2) 0) as [Heven|Hodd].
    { split; [done|]. split; [done|]. split.
      - destruct Hex as [->|(j & Hc & Hj & Hjl & Hv & Ho)]; [by left|right].
        exists j. repeat split; try done; try apply Hc. lia.
      - intros j Hc Hlt Ho. destruct (Z.eq_dec j i) as [->|Hne]; [done|].
        apply Hmax; [done| |done]. specialize (Hle j Hc Hlt). lia. }
    destruct (Z.ltb_spec r (aget nodes i)) as [Hlt|Hge].
    + split; [done|]. split; [lia|]. split.
      * right. exists i. repeat split; try done; try apply Hcell; lia.
      * intros j Hc Hj Ho. destruct (Z.eq_dec j i) as [->|Hne]; [lia|].
        assert (aget nodes j <= r); [|lia].
        apply Hmax; [done| |done]. specialize (Hle j Hc Hj). lia.
    + split; [done|]. split; [done|]. split.
      * destruct Hex as [->|(j & Hc & Hj & Hjl & Hv & Ho)]; [by left|right].
        exists j. repeat split; try done; try apply Hc. lia.
      * intros j Hc Hj Ho. destruct (Z.eq_dec j i) as [->|Hne]; [done|].
        apply Hmax; [done| |done]. specialize (Hle j Hc Hj). lia.
Qed.
End MaxJsNodeId.

(** X5. [maxJsNodeId] returns the greatest odd id among the nodes: the result
    is 0 or the odd id of some node, and no node has an odd id above it. *)
Theorem maxJsNodeId_is_greatest_odd_id (L : Layout) (nodes : list Z) :
  0 < nodeFieldCount L ->
  let idOf := fun k => aget nodes (nodeIdOffset L + k * nodeFieldCount L) in
  let held := fun k => 0 <= k /\ nodeIdOffset L + k * nodeFieldCount L < len nodes in
  (maxJsNodeId L nodes = 0
   \/ exists k, held k /\ idOf k = maxJsNodeId L nodes /\ idOf k mod 2 <> 0)
  /\ (forall k, held k -> idOf k mod 2 <> 0 -> idOf k <= maxJsNodeId L nodes).
Proof.
  intros HNF idOf held.
  destruct (maxJsNodeId_loop L nodes HNF) as (e & He & _ & _ & Hex & Hmax).
  split.
  - destruct Hex as [->|(j & [Hj Hal] & _ & Hjl & Hv & Ho)]; [by left|right].
    exists ((j - nodeIdOffset L) / nodeFieldCount L).
    assert (Hk : nodeIdOffset L + (j - nodeIdOffset L) / nodeFieldCount L
                                  * nodeFieldCount L = j).
    { pose proof (Z.div_mod (j - nodeIdOffset L) (nodeFieldCount L) ltac:(lia)). lia. }
    unfold held, idOf. rewrite Hk. split; [|by rewrite Hv].
    split; [apply Z.div_pos; lia|lia].
  - intros k [Hk Hlt] Ho. apply Hmax; [|lia|done].
    split; [nia|].
    replace (nodeIdOffset L + k * nodeFieldCount L - nodeIdOffset L)
      with (k * nodeFieldCount L) by lia.
    by apply Z.mod_mul, Z.neq_sym, Z.lt_neq.
Qed.

Lemma maxJsNodeId_is_greatest_odd_id_witness :
  maxJsNodeId (layout_of weakmap_orphans) (p_nodes weakmap_orphans) = 7
  /\ forall k, 0 <= k /\ 2 + k * 7 < 28 ->
       aget (p_nodes weakmap_orphans) (2 + k * 7) mod 2 <> 0 ->
       aget (p_nodes weakmap_orphans) (2 + k * 7) <= 7.
Proof.
  split; [vm_compute; reflexivity|].
  refine (proj2 (maxJsNodeId_is_greatest_odd_id (layout_of weakmap_orphans)
                   (p_nodes weakmap_orphans) _)).
  vm_compute. reflexivity.
Defined.

(** ** Problem reports *)

Lemma addErrors_firstn title errors : forall pre,
  (length pre <= 100)%nat ->
  fold_left (fun report error => addError error report) errors (title :: pre)
  = title :: firstn 100 (pre ++ errors).
Proof.
  induction errors as [|e es IH]; intros pre Hpre; cbn [fold_left].
  - rewrite app_nil_r. by rewrite firstn_all2 by lia.
  - destruct (Nat.eq_dec (length pre) 100%nat) as [Hfull|Hroom].
    + assert (Hsame : addError e (title :: pre) = title :: pre).
      { unfold addError. cbn [length].
        destruct (Z.ltb_spec 100 (Z.of_nat (S (length pre)))); [done|lia]. }
      rewrite Hsame, IH by done. f_equal.
      rewrite !firstn_app. replace (100 - length pre)%nat with 0%nat by lia.
      reflexivity.
    + assert (Hmore : addError e (title :: pre) = title :: (pre ++ [e])).
      { unfold addError. cbn [length].
        destruct (Z.ltb_spec 100 (Z.of_nat (S (length pre)))); [lia|done]. }
      rewrite Hmore, IH by (rewrite length_app; simpl; lia).
      by rewrite <- app_assoc.
Qed.

(** X6. A problem report keeps its title and the first hundred errors added to
    it, in the order they came; what is added after that is dropped. *)
Theorem problemReport_keeps_first_hundred (title : string) (errors : list string) :
  fold_left (fun report error => addError error report) errors
    (newProblemReport title)
  = title :: firstn 100 errors.
Proof.
  unfold newProblemReport.
  rewrite (addErrors_firstn title errors []) by (simpl; lia). reflexivity.
Qed.

(** ** The field shared by the DOM state and the class index *)

Lemma land_shiftl_state i : Z.land (Z.shiftl i 2) 3 = 0.
Proof.
  change 3 with (Z.ones 2). rewrite Z.land_ones by lia.
  rewrite Z.shiftl_mul_pow2 by lia. by apply Z.mod_mul.
Qed.

Lemma lor_state_shiftl s i :
  0 <= s < 4 -> Z.lor s (Z.shiftl i 2) = s + 4 * i.
Proof.
  intros Hs.
  assert (Hs3 : Z.land s 3 = s).
  { change 3 with (Z.ones 2). rewrite Z.land_ones by lia. apply Z.mod_small. lia. }
  assert (Hdisjoint : Z.land s (Z.shiftl i 2) = 0).
  { rewrite <- Hs3, <- Z.land_assoc, (Z.land_comm 3), land_shiftl_state.
    apply Z.land_0_r. }
  rewrite <- Z.lxor_lor by done. rewrite <- Z.add_nocarry_lxor by done.
  rewrite Z.shiftl_mul_pow2 by lia. lia.
Qed.

Lemma u32_state_index s i :
  0 <= s < 4 -> u32 (s + 4 * i) = s + 4 * (i mod 1073741824).
Proof.
  intros Hs. unfold u32. symmetry.
  pose proof (Z.mod_pos_bound i 1073741824 ltac:(lia)).
  apply (Z.mod_unique _ _ (i / 1073741824)); [lia|].
  pose proof (Z.div_mod i 1073741824 ltac:(lia)). lia.
Qed.

Lemma shiftr_state_index s r : 0 <= s < 4 -> Z.shiftr (s + 4 * r) 2 = r.
Proof.
  intros Hs. rewrite Z.shiftr_div_pow2 by lia. change (2 ^ 2) with 4.
  symmetry. apply (Z.div_unique _ _ _ s); lia.
Qed.

Lemma land_state_index s r : 0 <= s < 4 -> Z.land (s + 4 * r) 3 = s.
Proof.
  intros Hs. change 3 with (Z.ones 2). rewrite Z.land_ones by lia.
  change (2 ^ 2) with 4. symmetry. apply (Z.mod_unique _ _ r); lia.
Qed.

Lemma state_bits v : 0 <= Z.land v 3 < 4.
Proof.
  change 3 with (Z.ones 2). rewrite Z.land_ones by lia. apply Z.mod_pos_bound. lia.
Qed.

Lemma u32_u32 x : u32 (u32 x) = u32 x.
Proof. unfold u32. apply Z.mod_mod. lia. Qed.

Lemma setClassIndex_stored L nodes nodeIndex index :
  0 <= nodeIndex + nodeDetachednessAndClassIndexOffset L < len nodes ->
  let nodes' :=
    aset32 nodes (nodeIndex + nodeDetachednessAndClassIndexOffset L)
      (Z.lor (Z.land (aget nodes (nodeIndex + nodeDetachednessAndClassIndexOffset L))
                BITMASK_FOR_DOM_LINK_STATE)
         (Z.shiftl index SHIFT_FOR_CLASS_INDEX)) in
  classIndex L nodes' nodeIndex = index mod 1073741824
  /\ detachedness L nodes' nodeIndex = detachedness L nodes nodeIndex.
Proof.
  intros Hin nodes'. unfold classIndex, detachedness, nodes'.
  unfold BITMASK_FOR_DOM_LINK_STATE, SHIFT_FOR_CLASS_INDEX.
  rewrite aget_aset32_eq by done.
  pose proof (state_bits (aget nodes (nodeIndex + nodeDetachednessAndClassIndexOffset L)))
    as Hs.
  rewrite u32_u32, lor_state_shiftl, u32_state_index by done.
  split; [by apply shiftr_state_index|by apply land_state_index].
Qed.

(** X7. Writing a class index and reading it back: for a node whose field is
    in the array, [setClassIndex(index)] succeeds exactly when
    [0 <= index < 2^30]; then [classIndex()] returns [index] and the DOM state
    kept in the low bits of the same field is unchanged.  For any other
    [index] it throws "String index overflow". *)
Theorem setClassIndex_round_trip (L : Layout) (nodes : list Z) (nodeIndex index : Z) :
  0 <= nodeIndex + nodeDetachednessAndClassIndexOffset L < len nodes ->
  (0 <= index < 1073741824 ->
   exists nodes',
     setClassIndex L nodes nodeIndex index = Ok nodes'
     /\ classIndex L nodes' nodeIndex = index
     /\ detachedness L nodes' nodeIndex = detachedness L nodes nodeIndex
     /\ len nodes' = len nodes)
  /\ (¬ (0 <= index < 1073741824) ->
      setClassIndex L nodes nodeIndex index = Throw StringIndexOverflow).
Proof.
  intros Hin.
  destruct (setClassIndex_stored L nodes nodeIndex index Hin) as [Hclass Hstate].
  cbv zeta in Hclass, Hstate. unfold setClassIndex. rewrite Hclass. split.
  - intros Hidx. rewrite Z.mod_small by done. rewrite Z.eqb_refl.
    eexists. split; [reflexivity|]. split; [|split; [done|apply len_aset32]].
    rewrite Hclass. by apply Z.mod_small.
  - intros Hidx. destruct (Z.eqb_spec (index mod 1073741824) index) as [Heq|]; [|done].
    pose proof (Z.mod_pos_bound index 1073741824 ltac:(lia)). lia.
Qed.

Lemma setClassIndex_round_trip_witness :
  let p := attached_wins in
  let L := layout_of p in
  (exists nodes',
     setClassIndex L (p_nodes p) 14 5 = Ok nodes'
     /\ classIndex L nodes' 14 = 5
     /\ detachedness L nodes' 14 = detachedness L (p_nodes p) 14
     /\ len nodes' = len (p_nodes p))
  /\ setClassIndex L (p_nodes p) 14 1073741824 = Throw StringIndexOverflow.
Proof.
  intros p L.
  destruct (setClassIndex_round_trip L (p_nodes p) 14 5) as [Hok _];
    [vm_compute; split; [discriminate|reflexivity]|].
  destruct (setClassIndex_round_trip L (p_nodes p) 14 1073741824) as [_ Hthrow];
    [vm_compute; split; [discriminate|reflexivity]|].
  split; [apply Hok; lia|apply Hthrow; lia].
Defined.

Lemma clear_state_bits v : Z.land v (Z.lnot 3) = 4 * (v / 4).
Proof.
  rewrite <- Z.ldiff_land. change 3 with (Z.ones 2).
  rewrite Z.ldiff_ones_r by lia.
  rewrite Z.shiftl_mul_pow2, Z.shiftr_div_pow2 by lia. change (2 ^ 2) with 4. lia.
Qed.

Lemma classIndex_of_value v : Z.shiftr (u32 v) 2 = (v / 4) mod 1073741824.
Proof.
  unfold u32. rewrite Z.shiftr_div_pow2 by lia. change (2 ^ 2) with 4.
  change 4294967296 with (4 * 1073741824). rewrite Z.rem_mul_r by lia.
  pose proof (Z.mod_pos_bound v 4 ltac:(lia)).
  symmetry. apply (Z.div_unique _ _ _ (v mod 4)); lia.
Qed.

(** X8. Writing a DOM state and reading it back: for a node whose field is in
    the array and a state from 0 to 3, [setDetachedness(state)] makes
    [detachedness()] return [state] and leaves [classIndex()] as it was. *)
Theorem setDetachedness_round_trip (L : Layout) (nodes : list Z) (nodeIndex state : Z) :
  0 <= nodeIndex + nodeDetachednessAndClassIndexOffset L < len nodes ->
  0 <= state <= 3 ->
  detachedness L (setDetachedness L nodes nodeIndex state) nodeIndex = state
  /\ classIndex L (setDetachedness L nodes nodeIndex state) nodeIndex
     = classIndex L nodes nodeIndex
  /\ len (setDetachedness L nodes nodeIndex state) = len nodes.
Proof.
  intros Hin Hs. unfold detachedness, classIndex, setDetachedness.
  unfold BITMASK_FOR_DOM_LINK_STATE, SHIFT_FOR_CLASS_INDEX.
  rewrite aget_aset32_eq by done. rewrite len_aset32.
  set (v := aget nodes (nodeIndex + nodeDetachednessAndClassIndexOffset L)).
  rewrite clear_state_bits.
  assert (Hlor : Z.lor (4 * (v / 4)) state = state + 4 * (v / 4)).
  { rewrite Z.lor_comm. rewrite <- (lor_state_shiftl state (v / 4)) by lia.
    by rewrite Z.shiftl_mul_pow2, Z.mul_comm by lia. }
  rewrite Hlor, u32_u32, u32_state_index by lia.
  split; [apply land_state_index; lia|]. split; [|done].
  rewrite shiftr_state_index by lia. by rewrite classIndex_of_value.
Qed.

Lemma setDetachedness_round_trip_witness :
  let p := attached_wins in
  let L := layout_of p in
  detachedness L (setDetachedness L (p_nodes p) 21 Detached) 21 = Detached
  /\ classIndex L (setDetachedness L (p_nodes p) 21 Detached) 21
     = classIndex L (p_nodes p) 21
  /\ len (setDetachedness L (p_nodes p) 21 Detached) = len (p_nodes p).
Proof.
  intros p L. apply setDetachedness_round_trip.
  - vm_compute. split; [discriminate|reflexivity].
  - vm_compute. split; discriminate.
Defined.

(** ** DOM state propagation: the run ends, and what it leaves alone *)

Lemma countP_drop p q K c :
  0 <= c < K -> p c = true -> q c = false ->
  (forall k, k <> c -> q k = p k) -> countP q K + 1 = countP p K.
Proof.
  intros Hc Hp Hq Hsame.
  assert (H : forall K, 0 <= K ->
            (K <= c -> countP q K = countP p K)
            /\ (c < K -> countP q K + 1 = countP p K)).
  { apply countP_ind.
    - split; [intros _; by rewrite !countP_0 by lia|lia].
    - intros k Hk [IH1 IH2]. rewrite !countP_step by done. split.
      + intros Hle. rewrite IH1 by lia. rewrite Hsame by lia. done.
      + intros Hlt. destruct (Z.eq_dec k c) as [->|Hne].
        * rewrite IH1 by lia. rewrite Hp, Hq. lia.
        * rewrite Hsame by done. rewrite <- IH2 by lia. lia. }
  apply H; lia.
Qed.

Section DOMStateRun.
Variable L : Layout.
Variables edges fei : list Z.

Local Abbreviation NF := (nodeFieldCount L).
Local Abbreviation EF := (edgeFieldsCount L).
Local Abbreviation n := (nodeCount L).

Hypothesis Hwf : wf_edges L edges fei = true.

Local Set Default Proof Using "All".

(** The nodes that [processNode] has not seen yet. *)
Definition unvisited (visited : list Z) : Z :=
  countP (fun v => aget visited v =? 0) n.

(** The work that is left: the nodes in the two queues and the nodes not
    seen yet. *)
Definition work (st : DomState) : Z :=
  Z.of_nat (length (attached st)) + Z.of_nat (length (detached st))
  + unvisited (dom_visited st).

Definition room (st : DomState) : Prop :=
  len (dom_visited st) = n
  /\ (forall u, In u (attached st) -> 0 <= u < n)
  /\ (forall u, In u (detached st) -> 0 <= u < n).

(** Two states that differ in the queues only. *)
Definition same_store (st st' : DomState) : Prop :=
  dom_nodes st' = dom_nodes st /\ dom_strings st' = dom_strings st
  /\ dom_visited st' = dom_visited st
  /\ stringIndexCache st' = stringIndexCache st.

Lemma unvisited_bounds visited : 0 <= n -> 0 <= unvisited visited <= n.
Proof. intros Hn. by apply countP_bounds. Qed.

Lemma unvisited_mark visited c :
  0 <= c < n -> len visited = n -> aget visited c = 0 ->
  unvisited (aset visited c 1) + 1 = unvisited visited.
Proof.
  intros Hc Hlen H0. unfold unvisited. apply (countP_drop _ _ n c); [done| | |].
  - by rewrite H0.
  - by rewrite aget_aset_eq by lia.
  - intros k Hk. by rewrite aget_aset_ne by lia.
Qed.

Lemma processNode_visited c s st :
  dom_visited (processNode L c s st)
  = if aget (dom_visited st) c =? 0 then aset (dom_visited st) c 1
    else dom_visited st.
Proof.
  unfold processNode, addDetachedPrefixToNodeName.
  destruct (aget (dom_visited st) c =? 0); cbn [negb]; [|done].
  destruct (negb _); [done|].
  destruct (s =? Attached); [done|]. destruct (s =? Detached); [|done].
  cbn [dom_nodes dom_strings stringIndexCache]. by destruct (_ !! _).
Qed.

Lemma processNode_queues c s st :
  (attached (processNode L c s st) = attached st
   /\ detached (processNode L c s st) = detached st)
  \/ (aget (dom_visited st) c = 0
      /\ ((attached (processNode L c s st) = c :: attached st
           /\ detached (processNode L c s st) = detached st)
          \/ (attached (processNode L c s st) = attached st
              /\ detached (processNode L c s st) = c :: detached st))).
Proof.
  unfold processNode, addDetachedPrefixToNodeName.
  destruct (Z.eqb_spec (aget (dom_visited st) c) 0) as [H0|_]; cbn [negb];
    [|by left].
  destruct (negb _); [by left|].
  destruct (s =? Attached); [right; split; [done|by left]|].
  destruct (s =? Detached); [|by left].
  right. split; [done|]. right.
  cbn [dom_nodes dom_strings stringIndexCache]. by destruct (_ !! _).
Qed.

Lemma processNode_room c s st :
  0 <= c < n -> room st ->
  room (processNode L c s st) /\ work (processNode L c s st) <= work st.
Proof.
  intros Hc (Hlen & Ha & Hd). unfold room, work.
  rewrite processNode_visited.
  destruct (processNode_queues c s st) as [[-> ->]|(H0 & [[-> ->]|[-> ->]])].
  - destruct (Z.eqb_spec (aget (dom_visited st) c) 0) as [H0|_].
    + rewrite len_aset. split; [done|].
      pose proof (unvisited_mark _ c Hc Hlen H0). lia.
    + split; [done|lia].
  - rewrite H0. cbn [Z.eqb]. rewrite len_aset. split.
    + split; [done|]. split; [|done]. intros u [<-|Hu]; [done|by apply Ha].
    + pose proof (unvisited_mark _ c Hc Hlen H0). cbn [length]. lia.
  - rewrite H0. cbn [Z.eqb]. rewrite len_aset. split.
    + split; [done|]. split; [done|]. intros u [<-|Hu]; [done|by apply Hd].
    + pose proof (unvisited_mark _ c Hc Hlen H0). cbn [length]. lia.
Qed.

Section Kept.
(** A property of the node array, the strings, the visited marks and the
    cache that every call of [processNode] keeps. *)
Variable P : DomState -> Prop.
Hypothesis P_store : forall st st', same_store st st' -> P st -> P st'.
Hypothesis P_processNode : forall c s st,
  0 <= c < n -> 1 <= s <= 3 -> room st -> P st -> P (processNode L c s st).

Definition kept (w : Z) (st : DomState) : Prop :=
  room st /\ P st /\ work st <= w.

Lemma propagateState_kept parent s st w :
  0 <= parent < n -> 1 <= s <= 3 -> kept w st ->
  kept w (propagateState L edges fei parent s st).
Proof.
  intros Hparent Hs Hst. unfold propagateState.
  destruct (wf_edges_spec L edges fei Hwf) as (HNF & HEF & _).
  match goal with
  | |- kept w (for_range ?a ?b ?c ?body ?s0) =>
      destruct (for_range_ind
                  (fun i st => (i - aget fei parent) mod EF = 0 /\ kept w st)
                  a b c body s0) as (e & _ & _ & _ & _ & Hend)
  end; try done.
  - split; [|done]. rewrite Z.sub_diag. by apply Z.mod_0_l, Z.neq_sym, Z.lt_neq.
  - intros i st' Hi [Hal (Hroom & HP & Hw)]. split.
    + replace (i + EF - aget fei parent) with (i - aget fei parent + EF) by lia.
      by apply aligned_add.
    + destruct (_ || _); [done|].
      pose proof (wf_edge_target L edges fei parent i Hwf Hparent
                    (conj Hi Hal)) as [_ Hchild].
      destruct (processNode_room _ s st' Hchild Hroom) as [Hroom' Hwork].
      split; [done|]. split; [by apply P_processNode|lia].
Qed.

Lemma propagateAttached_ends fuel :
  forall st w, kept w st -> w < Z.of_nat fuel ->
    exists st', propagateAttached L edges fei fuel st = Ok st' /\ kept w st'.
Proof.
  destruct (wf_edges_spec L edges fei Hwf) as (_ & _ & _ & Hn & _).
  induction fuel as [|fuel IH]; intros st w (Hroom & HP & Hw) Hfuel.
  - pose proof (unvisited_bounds (dom_visited st) Hn). unfold work in Hw. lia.
  - cbn [propagateAttached]. destruct (attached st) as [|u rest] eqn:Hq.
    { exists st. split; [done|]. split; [exact Hroom|]. split; [exact HP|exact Hw]. }
    destruct Hroom as (Hlen & Ha & Hd).
    match goal with
    | |- context [propagateState L edges fei u Attached ?s] => set (popped := s)
    end.
    assert (Hpopped : kept (w - 1) popped).
    { unfold popped. split; [|split].
      - split; [done|]. split; [|done]. cbn [attached]. intros x Hx.
        apply Ha. rewrite Hq. by right.
      - eapply P_store; [|exact HP]. by repeat split.
      - unfold work in *. cbn [attached detached dom_visited].
        rewrite Hq in Hw. cbn [length] in Hw. lia. }
    destruct (IH (propagateState L edges fei u Attached popped) (w - 1))
      as (st' & Hrun & Hroom' & HP' & Hw'); [|lia|].
    + apply propagateState_kept; [apply Ha; rewrite Hq; by left|done|done].
    + exists st'. split; [exact Hrun|]. split; [done|]. split; [done|lia].
Qed.

Lemma propagateDetached_ends fuel :
  forall st w, kept w st -> w < Z.of_nat fuel ->
    exists st', propagateDetached L edges fei fuel st = Ok st' /\ kept w st'.
Proof.
  destruct (wf_edges_spec L edges fei Hwf) as (_ & _ & _ & Hn & _).
  induction fuel as [|fuel IH]; intros st w (Hroom & HP & Hw) Hfuel.
  - pose proof (unvisited_bounds (dom_visited st) Hn). unfold work in Hw. lia.
  - cbn [propagateDetached]. destruct (detached st) as [|u rest] eqn:Hq.
    { exists st. split; [done|]. split; [exact Hroom|]. split; [exact HP|exact Hw]. }
    destruct Hroom as (Hlen & Ha & Hd).
    cbn [dom_nodes].
    match goal with
    | |- context [propagateState L edges fei u Detached ?s] => set (popped := s)
    end.
    assert (Hpopped : kept (w - 1) popped).
    { unfold popped. split; [|split].
      - split; [done|]. split; [done|]. cbn [detached]. intros x Hx.
        apply Hd. rewrite Hq. by right.
      - eapply P_store; [|exact HP]. by repeat split.
      - unfold work in *. cbn [attached detached dom_visited].
        rewrite Hq in Hw. cbn [length] in Hw. lia. }
    destruct (_ =? Attached).
    + destruct (IH popped (w - 1)) as (st' & Hrun & Hroom' & HP' & Hw');
        [done|lia|].
      exists st'. split; [exact Hrun|]. split; [done|]. split; [done|lia].
    + destruct (IH (propagateState L edges fei u Detached popped) (w - 1))
        as (st' & Hrun & Hroom' & HP' & Hw'); [|lia|].
      * apply propagateState_kept; [apply Hd; rewrite Hq; by left|done|done].
      * exists st'. split; [exact Hrun|]. split; [done|]. split; [done|lia].
Qed.

Lemma seedDOMState_kept nodes strings :
  P {| dom_nodes := nodes; dom_strings := strings;
       dom_visited := new_array n; attached := []; detached := [];
       stringIndexCache := ∅ |} ->
  kept n (seedDOMState L nodes strings).
Proof.
  intros HP.
  destruct (wf_edges_spec L edges fei Hwf) as (_ & _ & _ & Hn & _).
  unfold seedDOMState. apply (for_range_ind1 (fun _ => kept n)); [done| |].
  - split; [|split; [done|]].
    + split; [by apply len_new_array|]. by split; intros u [].
    + unfold work. cbn [attached detached dom_visited length].
      pose proof (unvisited_bounds (new_array n) Hn). lia.
  - intros i st Hi (Hroom & HP' & Hw). cbv beta.
    destruct (Z.eqb_spec (detachedness L (dom_nodes st) (i * NF)) Unknown)
      as [|Hne]; [done|].
    destruct (processNode_room i (detachedness L (dom_nodes st) (i * NF)) st
                Hi Hroom) as [Hroom' Hwork].
    split; [done|]. split; [|lia].
    apply P_processNode; [done| |done|done].
    unfold detachedness, BITMASK_FOR_DOM_LINK_STATE, Unknown in *.
    pose proof (Z.land_nonneg (aget (dom_nodes st)
                  (i * NF + nodeDetachednessAndClassIndexOffset L)) 3).
    assert (Z.land (aget (dom_nodes st)
              (i * NF + nodeDetachednessAndClassIndexOffset L)) 3 <= 3).
    { change 3 with (Z.ones 2) at 1. rewrite Z.land_ones by lia.
      pose proof (Z.mod_pos_bound (aget (dom_nodes st)
                    (i * NF + nodeDetachednessAndClassIndexOffset L)) (2 ^ 2)).
      lia. }
    lia.
Qed.

Lemma propagateDOMState_kept nodes strings :
  nodeDetachednessAndClassIndexOffset L <> -1 ->
  P {| dom_nodes := nodes; dom_strings := strings;
       dom_visited := new_array n; attached := []; detached := [];
       stringIndexCache := ∅ |} ->
  exists st,
    propagateDOMState L edges fei nodes strings
    = Ok (dom_nodes st, dom_strings st) /\ P st.
Proof.
  intros Hoff HP. unfold propagateDOMState.
  destruct (Z.eqb_spec (nodeDetachednessAndClassIndexOffset L) (-1)) as [|_];
    [done|].
  destruct (wf_edges_spec L edges fei Hwf) as (_ & _ & _ & Hn & _).
  destruct (propagateAttached_ends (dom_fuel L) _ n
              (seedDOMState_kept nodes strings HP)) as (st1 & H1 & K1).
  { unfold dom_fuel. lia. }
  destruct (propagateDetached_ends (dom_fuel L) st1 n K1) as (st2 & H2 & K2).
  { unfold dom_fuel. lia. }
  rewrite H1. cbn [mbind result_bind]. rewrite H2. cbn [mbind result_bind].
  exists st2. split; [done|apply K2].
Qed.
End Kept.

(** The run ends on every well-formed snapshot. *)
Lemma propagateDOMState_ends nodes strings :
  exists r, propagateDOMState L edges fei nodes strings = Ok r.
Proof.
  destruct (Z.eq_dec (nodeDetachednessAndClassIndexOffset L) (-1)) as [Heq|Hne].
  - unfold propagateDOMState. rewrite Heq. by eexists.
  - destruct (propagateDOMState_kept (fun _ => True) ltac:(done) ltac:(done)
                nodes strings Hne I) as (st & Hrun & _).
    by eexists.
Qed.
End DOMStateRun.

Lemma sget_app_l (s t : list string) i :
  0 <= i < Z.of_nat (length s) -> sget (s ++ t) i = sget s i.
Proof.
  intros Hi. unfold sget. destruct (i <? 0); [done|].
  rewrite lookup_app_l by lia. done.
Qed.

Lemma sget_app_new (s : list string) x :
  sget (s ++ [x]) (Z.of_nat (length s)) = x.
Proof.
  unfold sget. destruct (Z.ltb_spec (Z.of_nat (length s)) 0); [lia|].
  rewrite Nat2Z.id. by rewrite list_lookup_middle.
Qed.

Lemma classIndex_setDetachedness L nodes nodeIndex s nodeIndex' :
  0 <= s <= 3 ->
  classIndex L (setDetachedness L nodes nodeIndex s) nodeIndex'
  = classIndex L nodes nodeIndex'.
Proof.
  intros Hs. unfold classIndex, setDetachedness, aset32.
  unfold BITMASK_FOR_DOM_LINK_STATE, SHIFT_FOR_CLASS_INDEX.
  rewrite aget_aset.
  destruct (Z.eqb_spec (nodeIndex + nodeDetachednessAndClassIndexOffset L)
              (nodeIndex' + nodeDetachednessAndClassIndexOffset L)) as [Heq|_];
    [|done].
  destruct (_ && _); [|done]. cbn [andb]. rewrite <- Heq.
  set (v := aget nodes (nodeIndex + nodeDetachednessAndClassIndexOffset L)).
  rewrite clear_state_bits.
  assert (Hlor : Z.lor (4 * (v / 4)) s = s + 4 * (v / 4)).
  { rewrite Z.lor_comm. rewrite <- (lor_state_shiftl s (v / 4)) by lia.
    by rewrite Z.shiftl_mul_pow2, Z.mul_comm by lia. }
  rewrite Hlor, u32_u32, u32_state_index by lia.
  rewrite shiftr_state_index by lia. by rewrite classIndex_of_value.
Qed.

Section DOMStateFrame.
Variable L : Layout.
Variables edges fei : list Z.
Variable nodes0 : list Z.
Variable strings0 : list string.

Local Abbreviation NF := (nodeFieldCount L).
Local Abbreviation n := (nodeCount L).
Local Abbreviation stateOff := (nodeDetachednessAndClassIndexOffset L).
Local Abbreviation nameOff := (nodeNameOffset L).
Local Abbreviation typeOff := (nodeTypeOffset L).
Local Abbreviation N0 := (Z.of_nat (length strings0)).

Hypothesis Hwf : wf_edges L edges fei = true.
Hypothesis Hstate : 0 <= stateOff < NF.
Hypothesis Hname : 0 <= nameOff < NF.
Hypothesis Htype : 0 <= typeOff < NF.
Hypothesis Hdistinct : nameOff <> stateOff /\ typeOff <> nameOff /\ typeOff <> stateOff.
Hypothesis Hlen : len nodes0 = n * NF.
Hypothesis Hstrings : N0 + n <= 4294967296.

Local Set Default Proof Using "All".

Definition name_of (nodes : list Z) (v : Z) : Z := aget nodes (v * NF + nameOff).

Definition native (v : Z) : Prop := aget nodes0 (v * NF + typeOff) = nodeNativeType L.

(** What the run keeps true of the node array, the strings and the cache of
    renamed strings. *)
Record frame (st : DomState) : Prop := {
  fr_len : len (dom_nodes st) = len nodes0;
  fr_cells : forall v f, 0 <= f < NF -> f <> nameOff -> f <> stateOff ->
    aget (dom_nodes st) (v * NF + f) = aget nodes0 (v * NF + f);
  fr_class : forall v,
    classIndex L (dom_nodes st) (v * NF) = classIndex L nodes0 (v * NF);
  fr_strings : exists extra,
    dom_strings st = strings0 ++ extra
    /\ Z.of_nat (length extra) + unvisited L (dom_visited st) <= n;
  fr_cache : forall old i, 0 <= old < N0 ->
    stringIndexCache st !! old = Some i ->
    0 <= i < Z.of_nat (length (dom_strings st))
    /\ sget (dom_strings st) i = ("Detached " ++ sget strings0 old)%string;
  fr_fresh : forall v, 0 <= v < n -> aget (dom_visited st) v = 0 ->
    name_of (dom_nodes st) v = name_of nodes0 v;
  fr_js : forall v, ~ native v ->
    name_of (dom_nodes st) v = name_of nodes0 v
    /\ aget (dom_nodes st) (v * NF + stateOff) = aget nodes0 (v * NF + stateOff);
  fr_name : forall v, 0 <= v < n -> 0 <= name_of nodes0 v < N0 ->
    name_of (dom_nodes st) v = name_of nodes0 v
    \/ (aget (dom_visited st) v <> 0
        /\ 0 <= name_of (dom_nodes st) v < Z.of_nat (length (dom_strings st))
        /\ sget (dom_strings st) (name_of (dom_nodes st) v)
           = ("Detached " ++ sget strings0 (name_of nodes0 v))%string
        /\ state_of L (dom_nodes st) v = Detached);
  fr_detached : forall v, 0 <= v < n -> 0 <= name_of nodes0 v < N0 ->
    native v -> aget (dom_visited st) v <> 0 ->
    state_of L (dom_nodes st) v = Detached ->
    sget (dom_strings st) (name_of (dom_nodes st) v)
    = ("Detached " ++ sget strings0 (name_of nodes0 v))%string
}.

Lemma frame_facts : 0 < NF /\ 0 <= n.
Proof.
  destruct (wf_edges_spec L edges fei Hwf) as (HNF & _ & _ & Hn & _). done.
Qed.

Lemma cell_inj v c f g :
  0 <= f < NF -> 0 <= g < NF -> v * NF + f = c * NF + g -> v = c /\ f = g.
Proof. intros Hf Hg Heq. assert (v = c) by nia. subst. lia. Qed.

Lemma cell_in_range v f :
  0 <= v < n -> 0 <= f < NF -> 0 <= v * NF + f < len nodes0.
Proof. intros Hv Hf. rewrite Hlen. nia. Qed.

Lemma frame_store st st' : same_store st st' -> frame st -> frame st'.
Proof.
  intros (Hn & Hs & Hv & Hc) F.
  constructor; rewrite ?Hn, ?Hs, ?Hv, ?Hc; apply F.
Qed.

Lemma frame_initial :
  frame {| dom_nodes := nodes0; dom_strings := strings0;
           dom_visited := new_array n; attached := []; detached := [];
           stringIndexCache := ∅ |}.
Proof.
  destruct frame_facts as [HNF Hn].
  constructor; cbn [dom_nodes dom_strings dom_visited stringIndexCache]; try done.
  - exists []. rewrite app_nil_r. split; [done|].
    pose proof (unvisited_bounds L edges fei Hwf (new_array n) Hn). cbn [length]. lia.
  - intros v Hv Hin. by left.
  - intros v Hv _ _ Hvis. by rewrite aget_new_array in Hvis.
Qed.

Lemma unvisited_pos visited c :
  0 <= c < n -> len visited = n -> aget visited c = 0 -> 1 <= unvisited L visited.
Proof.
  intros Hc Hl H0. destruct frame_facts as [_ Hn].
  pose proof (unvisited_mark L edges fei Hwf visited c Hc Hl H0).
  pose proof (unvisited_bounds L edges fei Hwf (aset visited c 1) Hn). lia.
Qed.

(** The visited mark alone. *)
Lemma frame_markVisited c st :
  0 <= c < n -> len (dom_visited st) = n -> aget (dom_visited st) c = 0 ->
  (native c -> state_of L (dom_nodes st) c <> Detached) ->
  frame st -> frame (markVisited c st).
Proof.
  intros Hc Hl H0 Hnd F.
  constructor; cbn [markVisited dom_nodes dom_strings dom_visited stringIndexCache];
    try apply F.
  - destruct (fr_strings st F) as (extra & He & Hb). exists extra.
    split; [done|]. pose proof (unvisited_mark L edges fei Hwf _ c Hc Hl H0). lia.
  - intros v Hv. rewrite aget_aset.
    destruct (Z.eqb_spec c v) as [->|_]; cbn [andb]; [|by apply F].
    destruct (Z.leb_spec 0 v); [|lia]. destruct (Z.ltb_spec v (len (dom_visited st)));
      [discriminate|lia].
  - intros v Hv Hin. destruct (fr_name st F v Hv Hin) as [Hsame|(Hvis & Hrest)];
      [by left|right].
    split; [|done]. rewrite aget_aset.
    destruct (_ && _); [discriminate|done].
  - intros v Hv Hin Hnat. rewrite aget_aset.
    destruct (Z.eqb_spec c v) as [->|_]; cbn [andb].
    + intros _ Hdet. by destruct (Hnd Hnat).
    + by apply (fr_detached st F).
Qed.

(** The state field of a native node that has not been seen yet is written. *)
Lemma frame_setDetachedness c s st :
  0 <= c < n -> 0 <= s <= 3 -> aget (dom_visited st) c = 0 -> native c ->
  frame st ->
  frame {| dom_nodes := setDetachedness L (dom_nodes st) (c * NF) s;
           dom_strings := dom_strings st; dom_visited := dom_visited st;
           attached := attached st; detached := detached st;
           stringIndexCache := stringIndexCache st |}.
Proof.
  intros Hc Hs H0 Hnat F. destruct frame_facts as [HNF Hn].
  destruct Hdistinct as (Hd1 & Hd2 & Hd3).
  assert (Hother : forall v f, 0 <= f < NF -> (v <> c \/ f <> stateOff) ->
            aget (setDetachedness L (dom_nodes st) (c * NF) s) (v * NF + f)
            = aget (dom_nodes st) (v * NF + f)).
  { intros v f Hf Hne. unfold setDetachedness. apply aget_aset32_ne.
    intros Heq. symmetry in Heq. apply cell_inj in Heq as [-> ->]; [|done|done].
    by destruct Hne. }
  assert (Hnm : forall v,
            name_of (setDetachedness L (dom_nodes st) (c * NF) s) v
            = name_of (dom_nodes st) v).
  { intros v. unfold name_of. apply Hother; [done|by right]. }
  assert (Hst : forall v, v <> c ->
            aget (setDetachedness L (dom_nodes st) (c * NF) s) (v * NF + stateOff)
            = aget (dom_nodes st) (v * NF + stateOff)).
  { intros v Hv. apply Hother; [done|by left]. }
  constructor; cbn [dom_nodes dom_strings dom_visited stringIndexCache].
  - unfold setDetachedness. rewrite len_aset32. apply F.
  - intros v f Hf Hf1 Hf2. rewrite Hother; [by apply (fr_cells st F)|done|by right].
  - intros v. rewrite classIndex_setDetachedness by done. apply F.
  - apply F.
  - apply F.
  - intros v Hv Hvis. rewrite Hnm. exact (fr_fresh st F v Hv Hvis).
  - intros v Hjs. assert (v <> c) by (intros ->; done).
    rewrite Hnm, Hst by done. exact (fr_js st F v Hjs).
  - intros v Hv Hin. rewrite Hnm. destruct (Z.eq_dec v c) as [->|Hne].
    + left. exact (fr_fresh st F c Hv H0).
    + unfold state_of, detachedness. rewrite Hst by done.
      apply (fr_name st F v Hv Hin).
  - intros v Hv Hin Hnv Hvis. rewrite Hnm.
    destruct (Z.eq_dec v c) as [->|Hne]; [done|].
    unfold state_of, detachedness. rewrite Hst by done.
    by apply (fr_detached st F).
Qed.

(** The name field of a detached native node that has not been seen yet is
    pointed at index [i] of the strings, to which [tail] has been added, and
    the node is marked. *)
Lemma frame_renamed c st i tail cache' :
  0 <= c < n -> len (dom_visited st) = n -> aget (dom_visited st) c = 0 ->
  state_of L (dom_nodes st) c = Detached -> native c -> frame st ->
  (length tail <= 1)%nat ->
  (0 <= name_of nodes0 c < N0 ->
     0 <= i < Z.of_nat (length (dom_strings st ++ tail))
     /\ sget (dom_strings st ++ tail) i
        = ("Detached " ++ sget strings0 (name_of nodes0 c))%string) ->
  (forall old j, 0 <= old < N0 -> cache' !! old = Some j ->
     0 <= j < Z.of_nat (length (dom_strings st ++ tail))
     /\ sget (dom_strings st ++ tail) j
        = ("Detached " ++ sget strings0 old)%string) ->
  frame {| dom_nodes := aset32 (dom_nodes st) (c * NF + nameOff) i;
           dom_strings := dom_strings st ++ tail;
           dom_visited := aset (dom_visited st) c 1;
           attached := attached st; detached := detached st;
           stringIndexCache := cache' |}.
Proof.
  intros Hc Hl H0 Hdet Hnat F Htail Hi Hcache. destruct frame_facts as [HNF Hn].
  destruct Hdistinct as (Hd1 & Hd2 & Hd3).
  destruct (fr_strings st F) as (extra & He & Hb).
  pose proof (unvisited_pos _ c Hc Hl H0) as Hpos.
  pose proof (unvisited_mark L edges fei Hwf _ c Hc Hl H0) as Hmark.
  assert (Hother : forall v f, 0 <= f < NF -> (v <> c \/ f <> nameOff) ->
            aget (aset32 (dom_nodes st) (c * NF + nameOff) i) (v * NF + f)
            = aget (dom_nodes st) (v * NF + f)).
  { intros v f Hf Hne. apply aget_aset32_ne.
    intros Heq. symmetry in Heq. apply cell_inj in Heq as [-> ->]; [|done|done].
    by destruct Hne. }
  assert (Hnm : forall v, v <> c ->
            name_of (aset32 (dom_nodes st) (c * NF + nameOff) i) v
            = name_of (dom_nodes st) v).
  { intros v Hv. unfold name_of. apply Hother; [done|by left]. }
  assert (Hst : forall v,
            aget (aset32 (dom_nodes st) (c * NF + nameOff) i) (v * NF + stateOff)
            = aget (dom_nodes st) (v * NF + stateOff)).
  { intros v. apply Hother; [done|right; lia]. }
  constructor; cbn [dom_nodes dom_strings dom_visited stringIndexCache].
  - rewrite len_aset32. apply F.
  - intros v f Hf Hf1 Hf2. rewrite Hother; [by apply (fr_cells st F)|done|by right].
  - intros v. unfold classIndex. rewrite Hst. apply (fr_class st F).
  - exists (extra ++ tail). rewrite He, <- app_assoc. split; [done|].
    rewrite length_app. lia.
  - exact Hcache.
  - intros v Hv. rewrite aget_aset.
    destruct (Z.eqb_spec c v) as [->|Hne]; cbn [andb].
    + destruct (Z.leb_spec 0 v); [|lia].
      destruct (Z.ltb_spec v (len (dom_visited st))); [discriminate|lia].
    + intros Hvis. rewrite Hnm by lia. exact (fr_fresh st F v Hv Hvis).
  - intros v Hjs. assert (v <> c) by (intros ->; done).
    rewrite Hnm, Hst by done. exact (fr_js st F v Hjs).
  - intros v Hv Hin. destruct (Z.eq_dec v c) as [->|Hne].
    + right. destruct (Hi Hin) as [Hirange Hsget].
      assert (Hsmall : Z.of_nat (length (dom_strings st ++ tail)) <= 4294967296).
      { rewrite He, !length_app. lia. }
      assert (Hnew : name_of (aset32 (dom_nodes st) (c * NF + nameOff) i) c = i).
      { unfold name_of. rewrite aget_aset32_eq.
        - apply u32_small. lia.
        - rewrite (fr_len st F). by apply cell_in_range. }
      rewrite Hnew. split; [|split; [done|split; [done|]]].
      * rewrite aget_aset_eq by lia. discriminate.
      * unfold state_of, detachedness. rewrite Hst. exact Hdet.
    + rewrite Hnm by done.
      destruct (fr_name st F v Hv Hin) as [Hsame|(Hvis & Hrange & Hsget & Hstate')].
      * by left.
      * right. unfold state_of, detachedness. rewrite Hst.
        split; [by rewrite aget_aset_ne by lia|].
        split; [rewrite length_app; lia|].
        split; [|exact Hstate']. rewrite sget_app_l by exact Hrange. exact Hsget.
  - intros v Hv Hin Hnv. destruct (Z.eq_dec v c) as [->|Hne].
    + intros _ _. destruct (Hi Hin) as [Hirange Hsget].
      assert (Hsmall : Z.of_nat (length (dom_strings st ++ tail)) <= 4294967296).
      { rewrite He, !length_app. lia. }
      unfold name_of. rewrite aget_aset32_eq.
      * rewrite u32_small by lia. exact Hsget.
      * rewrite (fr_len st F). by apply cell_in_range.
    + rewrite Hnm by done. rewrite aget_aset_ne by lia.
      unfold state_of, detachedness. rewrite Hst. intros Hvis Hdet'.
      destruct (fr_name st F v Hv Hin) as [Hsame|(_ & Hrange & Hsget & _)].
      * pose proof (fr_detached st F v Hv Hin Hnv Hvis Hdet') as Hd.
        rewrite Hsame in *. rewrite sget_app_l; [done|].
        rewrite He, length_app. lia.
      * rewrite sget_app_l by exact Hrange. exact Hsget.
Qed.

Lemma state_of_written nodes c s :
  0 <= c * NF + stateOff < len nodes -> 0 <= s <= 3 ->
  state_of L (setDetachedness L nodes (c * NF) s) c = s.
Proof.
  intros Hin Hs. unfold state_of, detachedness, setDetachedness.
  rewrite aget_aset32_eq by done. rewrite land_state.
  unfold BITMASK_FOR_DOM_LINK_STATE.
  assert (Hcases : s = 0 \/ s = 1 \/ s = 2 \/ s = 3) by lia.
  by destruct Hcases as [->|[->|[->| ->]]].
Qed.

Lemma frame_processNode c s st :
  0 <= c < n -> 1 <= s <= 3 -> room L st -> frame st ->
  frame (processNode L c s st).
Proof.
  intros Hc Hs (Hl & _ & _) F. unfold processNode.
  destruct (Z.eqb_spec (aget (dom_visited st) c) 0) as [H0|_]; cbn [negb];
    [|done].
  destruct (Z.eqb_spec (aget (dom_nodes st) (c * NF + typeOff)) (nodeNativeType L))
    as [Hnat|Hjs]; cbn [negb].
  2: { apply frame_markVisited; [done|done|done| |done].
       intros Hn'. unfold native in Hn'. destruct Hjs.
       rewrite (fr_cells st F c typeOff); [done|done|apply Hdistinct|apply Hdistinct]. }
  destruct Hdistinct as (Hd1 & Hd2 & Hd3).
  assert (Hnative : native c).
  { unfold native. by rewrite <- (fr_cells st F c typeOff). }
  pose proof (frame_setDetachedness c s st Hc ltac:(lia) H0 Hnative F) as F1.
  set (st1 := {| dom_nodes := setDetachedness L (dom_nodes st) (c * NF) s;
                 dom_strings := dom_strings st; dom_visited := dom_visited st;
                 attached := attached st; detached := detached st;
                 stringIndexCache := stringIndexCache st |}) in *.
  assert (Hwritten : state_of L (dom_nodes st1) c = s).
  { unfold st1. cbn [dom_nodes]. rewrite state_of_written; [done| |lia].
    rewrite (fr_len st F). by apply cell_in_range. }
  destruct (Z.eqb_spec s Attached) as [Ha|Ha].
  { eapply frame_store; [|apply (frame_markVisited c st1 Hc Hl H0); [|exact F1]].
    - by repeat split.
    - intros _. rewrite Hwritten, Ha. discriminate. }
  destruct (Z.eqb_spec s Detached) as [Hd|Hd].
  2: { apply (frame_markVisited c st1 Hc Hl H0); [|exact F1].
       intros _. by rewrite Hwritten. }
  assert (Hdet : state_of L (dom_nodes st1) c = Detached) by congruence.
  assert (Hold : aget (dom_nodes st1) (c * NF + nameOff) = name_of nodes0 c).
  { apply (fr_fresh st1 F1 c Hc H0). }
  unfold addDetachedPrefixToNodeName. rewrite Hold.
  destruct (stringIndexCache st1 !! name_of nodes0 c) as [i|] eqn:Hlook.
  - eapply frame_store;
      [|apply (frame_renamed c st1 i [] (stringIndexCache st1) Hc Hl H0 Hdet
                 Hnative F1)].
    + split; [done|]. split; [|done]. cbn [markVisited dom_strings].
      by rewrite app_nil_r.
    + cbn [length]. lia.
    + intros Hin. rewrite app_nil_r. by apply (fr_cache st1 F1).
    + intros old j Hin Hj. rewrite app_nil_r. by apply (fr_cache st1 F1).
  - destruct (fr_strings st1 F1) as (extra & He & _).
    set (new := ("Detached " ++ sget (dom_strings st1) (name_of nodes0 c))%string).
    assert (Hfresh : 0 <= name_of nodes0 c < N0 ->
              0 <= Z.of_nat (length (dom_strings st1))
                < Z.of_nat (length (dom_strings st1 ++ [new]))
              /\ sget (dom_strings st1 ++ [new]) (Z.of_nat (length (dom_strings st1)))
                 = ("Detached " ++ sget strings0 (name_of nodes0 c))%string).
    { intros Hin. rewrite length_app. cbn [length]. split; [lia|].
      rewrite sget_app_new. unfold new. rewrite He. by rewrite sget_app_l. }
    eapply frame_store;
      [|apply (frame_renamed c st1 (Z.of_nat (length (dom_strings st1))) [new]
                 (<[name_of nodes0 c := Z.of_nat (length (dom_strings st1))]>
                    (stringIndexCache st1)) Hc Hl H0 Hdet Hnative F1)].
    + by repeat split.
    + cbn [length]. lia.
    + exact Hfresh.
    + intros old j Hin Hj.
      destruct (Z.eq_dec old (name_of nodes0 c)) as [->|Hne].
      * rewrite lookup_insert_eq in Hj. injection Hj as <-. by apply Hfresh.
      * rewrite lookup_insert_ne in Hj by done.
        destruct (fr_cache st1 F1 old j Hin Hj) as [Hr Hs'].
        rewrite length_app, sget_app_l by done. split; [lia|done].
Qed.

(** Every node that has a state has been seen. *)
Definition seen (st : DomState) : Prop :=
  forall v, 0 <= v < n -> state_of L (dom_nodes st) v <> Unknown ->
    aget (dom_visited st) v <> 0.

Lemma processNode_other_state c s st v :
  v <> c ->
  state_of L (dom_nodes (processNode L c s st)) v = state_of L (dom_nodes st) v.
Proof.
  intros Hne. destruct Hdistinct as (Hd1 & _).
  assert (H1 : forall nodes,
            state_of L (setDetachedness L nodes (c * NF) s) v = state_of L nodes v).
  { intros nodes. unfold state_of, detachedness, setDetachedness.
    rewrite aget_aset32_ne; [done|]. intros Heq.
    apply cell_inj in Heq as [Heq _]; [|done|done]. by destruct Hne. }
  assert (H2 : forall nodes i,
            state_of L (aset32 nodes (c * NF + nameOff) i) v = state_of L nodes v).
  { intros nodes i. unfold state_of, detachedness.
    rewrite aget_aset32_ne; [done|]. intros Heq.
    apply cell_inj in Heq as [Heq _]; [|done|done]. by destruct Hne. }
  unfold processNode.
  destruct (negb _); [done|]. destruct (negb _); [done|].
  destruct (s =? Attached); [apply H1|].
  destruct (s =? Detached); [|apply H1].
  unfold addDetachedPrefixToNodeName.
  destruct (_ !! _); cbn [markVisited dom_nodes]; by rewrite H2, H1.
Qed.

Lemma processNode_marks c s st :
  0 <= c < n -> len (dom_visited st) = n ->
  aget (dom_visited (processNode L c s st)) c <> 0.
Proof.
  intros Hc Hl. rewrite (processNode_visited L edges fei Hwf).
  destruct (Z.eqb_spec (aget (dom_visited st) c) 0) as [_|Hne]; [|done].
  rewrite aget_aset_eq by lia. discriminate.
Qed.

Lemma processNode_keeps_marks c s st v :
  aget (dom_visited st) v <> 0 ->
  aget (dom_visited (processNode L c s st)) v <> 0.
Proof.
  intros Hv. rewrite (processNode_visited L edges fei Hwf).
  destruct (_ =? 0); [|done]. rewrite aget_aset.
  destruct (_ && _); [discriminate|done].
Qed.

Lemma seen_processNode c s st :
  0 <= c < n -> 1 <= s <= 3 -> room L st -> seen st ->
  seen (processNode L c s st).
Proof.
  intros Hc _ (Hl & _) Hseen v Hv Hsv.
  destruct (Z.eq_dec v c) as [->|Hne]; [by apply processNode_marks|].
  rewrite processNode_other_state in Hsv by done.
  apply processNode_keeps_marks. by apply Hseen.
Qed.

Definition seen_before (i : Z) (st : DomState) : Prop :=
  len (dom_visited st) = n
  /\ forall v, 0 <= v < i -> state_of L (dom_nodes st) v <> Unknown ->
       aget (dom_visited st) v <> 0.

Lemma seedDOMState_seen : seen (seedDOMState L nodes0 strings0).
Proof.
  destruct frame_facts as [HNF Hn].
  enough (Hb : seen_before n (seedDOMState L nodes0 strings0))
    by (destruct Hb as [_ Hb]; exact Hb).
  unfold seedDOMState.
  apply (for_range_ind1 seen_before); [done| |].
  - split; [by apply len_new_array|]. intros v Hv. lia.
  - intros i st Hi [Hl Hseen]. cbv beta.
    destruct (Z.eqb_spec (detachedness L (dom_nodes st) (i * NF)) Unknown)
      as [Hu|Hu].
    + split; [done|]. intros v Hv Hsv.
      destruct (Z.eq_dec v i) as [->|Hne]; [done|]. apply Hseen; [lia|done].
    + split.
      * rewrite (processNode_visited L edges fei Hwf).
        destruct (_ =? 0); [by rewrite len_aset|done].
      * intros v Hv Hsv.
        destruct (Z.eq_dec v i) as [->|Hne]; [by apply processNode_marks|].
        rewrite processNode_other_state in Hsv by done.
        apply processNode_keeps_marks. apply Hseen; [lia|done].
Qed.

Lemma propagateDOMState_frame :
  exists st,
    propagateDOMState L edges fei nodes0 strings0
    = Ok (dom_nodes st, dom_strings st)
    /\ frame st /\ seen st.
Proof.
  destruct frame_facts as [HNF Hn].
  unfold propagateDOMState.
  destruct (Z.eqb_spec stateOff (-1)) as [|_]; [lia|].
  destruct (seedDOMState_kept L edges fei Hwf frame frame_store
              frame_processNode nodes0 strings0 frame_initial)
    as (Hroom & HF & Hw).
  pose proof seedDOMState_seen as Hseen.
  assert (Hstore : forall st st', same_store st st' ->
            frame st /\ seen st -> frame st' /\ seen st').
  { intros st st' Hs [F S]. split; [by apply (frame_store st)|].
    destruct Hs as (Hnodes & _ & Hvis & _). unfold seen.
    rewrite Hnodes, Hvis. exact S. }
  assert (Hproc : forall c s st, 0 <= c < n -> 1 <= s <= 3 -> room L st ->
            frame st /\ seen st ->
            frame (processNode L c s st) /\ seen (processNode L c s st)).
  { intros c s st Hc Hs Hr [F S].
    split; [by apply frame_processNode|by apply seen_processNode]. }
  destruct (propagateAttached_ends L edges fei Hwf
              (fun st => frame st /\ seen st) Hstore Hproc (dom_fuel L)
              (seedDOMState L nodes0 strings0) n) as (st1 & H1 & K1).
  { split; [exact Hroom|]. split; [by split|exact Hw]. }
  { unfold dom_fuel. lia. }
  destruct (propagateDetached_ends L edges fei Hwf
              (fun st => frame st /\ seen st) Hstore Hproc (dom_fuel L)
              st1 n K1) as (st2 & H2 & _ & [F2 S2] & _).
  { unfold dom_fuel. lia. }
  rewrite H1. cbn [mbind result_bind]. rewrite H2. cbn [mbind result_bind].
  by exists st2.
Qed.
End DOMStateFrame.

(** X9. [propagateDOMState] ends on every snapshot whose edges are well
    formed: every node enters the queues at most once, so the two loops stop
    and a node array and a string table are returned. *)
Theorem propagateDOMState_terminates (L : Layout) (edges fei nodes : list Z)
    (strings : list string) :
  wf_edges L edges fei = true ->
  exists nodes' strings',
    propagateDOMState L edges fei nodes strings = Ok (nodes', strings').
Proof.
  intros Hwf.
  destruct (propagateDOMState_ends L edges fei Hwf nodes strings)
    as ([nodes' strings'] & Hrun).
  by exists nodes', strings'.
Qed.

Lemma propagateDOMState_terminates_witness :
  let p := attached_wins in
  let L := layout_of p in
  let fei := buildEdgeIndexes L (p_nodes p) (p_edges p) in
  exists nodes' strings',
    propagateDOMState L (p_edges p) fei (p_nodes p) (p_strings p)
    = Ok (nodes', strings').
Proof.
  intros p L fei.
  apply (propagateDOMState_terminates L (p_edges p) fei (p_nodes p) (p_strings p)).
  vm_compute. reflexivity.
Defined.

(** X10. On a well-formed snapshot [propagateDOMState] writes name fields and
    DOM states and nothing else: the node array keeps its length, every other
    field of every node and every class index is as before, strings are only
    added at the end of the string table (at most one per node), and a node
    that is not native keeps its name and its state. *)
Theorem propagateDOMState_writes_names_and_states_only (L : Layout)
    (edges fei nodes : list Z) (strings : list string) :
  wf_edges L edges fei = true ->
  0 <= nodeDetachednessAndClassIndexOffset L < nodeFieldCount L ->
  0 <= nodeNameOffset L < nodeFieldCount L ->
  0 <= nodeTypeOffset L < nodeFieldCount L ->
  nodeNameOffset L <> nodeDetachednessAndClassIndexOffset L
  /\ nodeTypeOffset L <> nodeNameOffset L
  /\ nodeTypeOffset L <> nodeDetachednessAndClassIndexOffset L ->
  len nodes = nodeCount L * nodeFieldCount L ->
  Z.of_nat (length strings) + nodeCount L <= 4294967296 ->
  exists nodes' strings',
    propagateDOMState L edges fei nodes strings = Ok (nodes', strings')
    /\ len nodes' = len nodes
    /\ (forall v f, 0 <= f < nodeFieldCount L ->
          f <> nodeNameOffset L -> f <> nodeDetachednessAndClassIndexOffset L ->
          aget nodes' (v * nodeFieldCount L + f)
          = aget nodes (v * nodeFieldCount L + f))
    /\ (forall v, classIndex L nodes' (v * nodeFieldCount L)
                  = classIndex L nodes (v * nodeFieldCount L))
    /\ (exists extra, strings' = strings ++ extra
                      /\ Z.of_nat (length extra) <= nodeCount L)
    /\ (forall v,
          aget nodes (v * nodeFieldCount L + nodeTypeOffset L) <> nodeNativeType L ->
          aget nodes' (v * nodeFieldCount L + nodeNameOffset L)
          = aget nodes (v * nodeFieldCount L + nodeNameOffset L)
          /\ detachedness L nodes' (v * nodeFieldCount L)
             = detachedness L nodes (v * nodeFieldCount L)).
Proof.
  intros Hwf Hstate Hname Htype Hdistinct Hlen Hstrings.
  destruct (propagateDOMState_frame L edges fei nodes strings Hwf Hstate Hname
              Htype Hdistinct Hlen Hstrings) as (st & Hrun & F & _).
  exists (dom_nodes st), (dom_strings st). split; [exact Hrun|].
  split; [apply (fr_len _ _ _ _ F)|]. split; [apply (fr_cells _ _ _ _ F)|].
  split; [apply (fr_class _ _ _ _ F)|]. split.
  - destruct (fr_strings _ _ _ _ F) as (extra & He & Hb). exists extra.
    split; [done|].
    destruct (wf_edges_spec L edges fei Hwf) as (_ & _ & _ & Hn & _).
    pose proof (unvisited_bounds L edges fei Hwf (dom_visited st) Hn). lia.
  - intros v Hjs. destruct (fr_js _ _ _ _ F v Hjs) as [Hnm Hst].
    split; [exact Hnm|]. unfold detachedness. by rewrite Hst.
Qed.

Lemma propagateDOMState_writes_names_and_states_only_witness :
  let p := attached_wins in
  let L := layout_of p in
  let fei := buildEdgeIndexes L (p_nodes p) (p_edges p) in
  exists nodes' strings',
    propagateDOMState L (p_edges p) fei (p_nodes p) (p_strings p)
    = Ok (nodes', strings')
    /\ len nodes' = 28
    /\ (forall v f, 0 <= f < 7 -> f <> 1 -> f <> 6 ->
          aget nodes' (v * 7 + f) = aget (p_nodes p) (v * 7 + f))
    /\ (forall v, classIndex L nodes' (v * 7) = classIndex L (p_nodes p) (v * 7))
    /\ (exists extra, strings' = p_strings p ++ extra
                      /\ Z.of_nat (length extra) <= 4)
    /\ (forall v,
          aget (p_nodes p) (v * 7 + 0) <> 8 ->
          aget nodes' (v * 7 + 1) = aget (p_nodes p) (v * 7 + 1)
          /\ detachedness L nodes' (v * 7) = detachedness L (p_nodes p) (v * 7)).
Proof.
  intros p L fei.
  apply (propagateDOMState_writes_names_and_states_only L (p_edges p) fei
           (p_nodes p) (p_strings p)).
  - vm_compute. reflexivity.
  - vm_compute. split; [discriminate|reflexivity].
  - vm_compute. split; [discriminate|reflexivity].
  - vm_compute. split; [discriminate|reflexivity].
  - vm_compute. repeat split; discriminate.
  - vm_compute. reflexivity.
  - vm_compute. discriminate.
Defined.

(** X11. The name of a native node follows its final state: on a well-formed
    snapshot, a native node whose name is in the string table is named
    ["Detached " + old name] when it ends up [Detached], and keeps its name
    otherwise. *)
Theorem propagateDOMState_renames_detached_natives (L : Layout)
    (edges fei nodes : list Z) (strings : list string) :
  wf_edges L edges fei = true ->
  0 <= nodeDetachednessAndClassIndexOffset L < nodeFieldCount L ->
  0 <= nodeNameOffset L < nodeFieldCount L ->
  0 <= nodeTypeOffset L < nodeFieldCount L ->
  nodeNameOffset L <> nodeDetachednessAndClassIndexOffset L
  /\ nodeTypeOffset L <> nodeNameOffset L
  /\ nodeTypeOffset L <> nodeDetachednessAndClassIndexOffset L ->
  len nodes = nodeCount L * nodeFieldCount L ->
  Z.of_nat (length strings) + nodeCount L <= 4294967296 ->
  exists nodes' strings',
    propagateDOMState L edges fei nodes strings = Ok (nodes', strings')
    /\ forall v, 0 <= v < nodeCount L ->
         aget nodes (v * nodeFieldCount L + nodeTypeOffset L) = nodeNativeType L ->
         0 <= aget nodes (v * nodeFieldCount L + nodeNameOffset L)
           < Z.of_nat (length strings) ->
         sget strings' (aget nodes' (v * nodeFieldCount L + nodeNameOffset L))
         = if detachedness L nodes' (v * nodeFieldCount L) =? Detached
           then ("Detached "
                  ++ sget strings (aget nodes (v * nodeFieldCount L + nodeNameOffset L)))%string
           else sget strings (aget nodes (v * nodeFieldCount L + nodeNameOffset L)).
Proof.
  intros Hwf Hstate Hname Htype Hdistinct Hlen Hstrings.
  destruct (propagateDOMState_frame L edges fei nodes strings Hwf Hstate Hname
              Htype Hdistinct Hlen Hstrings) as (st & Hrun & F & S).
  exists (dom_nodes st), (dom_strings st). split; [exact Hrun|].
  intros v Hv Hnat Hin.
  destruct (Z.eqb_spec (detachedness L (dom_nodes st) (v * nodeFieldCount L))
              Detached) as [Hdet|Hdet].
  - apply (fr_detached _ _ _ _ F v Hv Hin Hnat); [|exact Hdet].
    apply (S v Hv). unfold state_of. rewrite Hdet. discriminate.
  - destruct (fr_name _ _ _ _ F v Hv Hin) as [Hsame|(_ & _ & _ & Hd)];
      [|by destruct Hdet].
    unfold name_of in Hsame. rewrite Hsame.
    destruct (fr_strings _ _ _ _ F) as (extra & -> & _).
    by apply sget_app_l.
Qed.

Lemma propagateDOMState_renames_detached_natives_witness :
  let p := attached_wins in
  let L := layout_of p in
  let fei := buildEdgeIndexes L (p_nodes p) (p_edges p) in
  exists nodes' strings',
    propagateDOMState L (p_edges p) fei (p_nodes p) (p_strings p)
    = Ok (nodes', strings')
    /\ sget strings' (aget nodes' (2 * 7 + 1))
       = if detachedness L nodes' (2 * 7) =? Detached
         then ("Detached " ++ "D")%string else "D"%string.
Proof.
  intros p L fei.
  destruct (propagateDOMState_renames_detached_natives L (p_edges p) fei
              (p_nodes p) (p_strings p)) as (nodes' & strings' & Hrun & Hnames).
  - vm_compute. reflexivity.
  - vm_compute. split; [discriminate|reflexivity].
  - vm_compute. split; [discriminate|reflexivity].
  - vm_compute. split; [discriminate|reflexivity].
  - vm_compute. repeat split; discriminate.
  - vm_compute. reflexivity.
  - vm_compute. discriminate.
  - exists nodes', strings'. split; [exact Hrun|].
    apply (Hnames 2).
    + vm_compute. split; [discriminate|reflexivity].
    + vm_compute. reflexivity.
    + vm_compute. split; [discriminate|reflexivity].
Defined.

(** ** The distance search ends *)

Section DistancesEnd.
Variable L : Layout.
Variables edges fei : list Z.
Variable isUserRoot : Z -> bool.
Context {FS : Type}.
Variable filter : option (FS -> Z -> Z -> bool * FS).

Local Abbreviation NF := (nodeFieldCount L).
Local Abbreviation EF := (edgeFieldsCount L).
Local Abbreviation n := (nodeCount L).
Local Abbreviation rootOrd := (rootNodeIndexInternal L / nodeFieldCount L).

Hypothesis Hwf : wf_edges L edges fei = true.
Hypothesis Hroot : 0 <= rootOrd < n.

Local Set Default Proof Using "All".

(** The nodes that have no distance yet. *)
Definition pending (d : list Z) : Z := countP (fun v => aget d v =? noDistance) n.

(** The queue cannot grow beyond this: a node enters it when it loses
    [noDistance]. *)
Definition budget (st : Bfs FS) : Z :=
  nodesToVisitLength st + pending (distances st).

Definition distances_ok (st : Bfs FS) : Prop :=
  len (distances st) = n /\ forall v, noDistance <= aget (distances st) v.

Lemma pending_bounds d : 0 <= pending d <= n.
Proof.
  destruct (wf_edges_spec L edges fei Hwf) as (_ & _ & _ & Hn & _).
  by apply countP_bounds.
Qed.

Lemma pending_set d v x :
  len d = n -> aget d v = noDistance -> x <> noDistance ->
  pending (aset d v x) + 1 = pending d.
Proof.
  intros Hl Hv Hx.
  assert (Hin : 0 <= v < n).
  { destruct (Z_lt_le_dec v 0); [rewrite aget_out in Hv by lia; discriminate|].
    destruct (Z_lt_le_dec v n); [lia|].
    rewrite aget_out in Hv by lia. discriminate. }
  unfold pending. apply (countP_drop _ _ n v); [done| | |].
  - by rewrite Hv.
  - rewrite aget_aset_eq by lia. by apply Z.eqb_neq.
  - intros k Hk. by rewrite aget_aset_ne by lia.
Qed.

Lemma bfs_edge_budget nodeIndex distance e (st : Bfs FS) :
  distances_ok st -> noDistance < distance ->
  distances_ok (bfs_edge L edges filter nodeIndex distance e st)
  /\ budget (bfs_edge L edges filter nodeIndex distance e st) <= budget st.
Proof.
  intros [Hl Hv] Hd. unfold bfs_edge.
  destruct (_ =? edgeWeakType L); [by split|].
  destruct (Z.eqb_spec
              (aget (distances st) (aget edges (e + edgeToNodeOffset L) / NF))
              noDistance) as [Hno|_]; cbn [negb]; [|by split].
  destruct (match filter with Some _ => _ | None => _ end) as [[] fs];
    cbn [negb]; unfold distances_ok, budget;
    cbn [distances nodesToVisitLength]; [|by split].
  split; [split|].
  - by rewrite len_aset.
  - intros v. rewrite aget_aset. destruct (_ && _); [lia|apply Hv].
  - pose proof (pending_set (distances st) _ distance Hl Hno ltac:(lia)). lia.
Qed.

Lemma bfs_visit_budget index (st : Bfs FS) :
  distances_ok st ->
  distances_ok (bfs_visit L edges fei filter index st)
  /\ budget (bfs_visit L edges fei filter index st) <= budget st.
Proof.
  intros Hok. destruct (wf_edges_spec L edges fei Hwf) as (_ & HEF & _).
  unfold bfs_visit.
  match goal with
  | |- distances_ok (for_range ?a ?b ?c ?body ?s0) /\ _ =>
      destruct (for_range_ind
                  (fun _ s => distances_ok s /\ budget s <= budget st)
                  a b c body s0) as (e & _ & _ & _ & Hend)
  end; try done.
  intros i s _ [Hs Hb].
  destruct (bfs_edge_budget (aget (nodesToVisit st) index)
              (aget (distances st) (aget (nodesToVisit st) index / NF) + 1) i s Hs)
    as [Hs' Hb'].
  - destruct Hok as [_ Hv]. specialize (Hv (aget (nodesToVisit st) index / NF)). lia.
  - split; [done|lia].
Qed.

Lemma bfs_loop_ends fuel :
  forall index (st : Bfs FS) W,
    distances_ok st -> budget st <= W -> W - index <= Z.of_nat fuel ->
    exists st', bfs_loop L edges fei filter fuel index st = Ok st'
                /\ distances_ok st'.
Proof.
  induction fuel as [|fuel IH]; intros index st W Hok Hb Hfuel;
    cbn [bfs_loop]; pose proof (pending_bounds (distances st)) as Hp;
    unfold budget in Hb.
  - destruct (Z.ltb_spec index (nodesToVisitLength st)); [lia|]. by exists st.
  - destruct (Z.ltb_spec index (nodesToVisitLength st)); [|by exists st].
    destruct (bfs_visit_budget index st Hok) as [Hok' Hb'].
    apply (IH (index + 1) _ W); [done|unfold budget in *; lia|lia].
Qed.

Lemma bfs_ends (st : Bfs FS) :
  distances_ok st -> budget st <= Z.of_nat (bfs_fuel L edges) ->
  (exists st', bfs L edges fei filter st = Ok st' /\ distances_ok st')
  \/ (exists a b, bfs L edges fei filter st = Throw (BFSFailed a b)).
Proof.
  intros Hok Hb. unfold bfs.
  destruct (bfs_loop_ends (bfs_fuel L edges) 0 st _ Hok Hb ltac:(lia))
    as (st' & -> & Hok').
  cbn [mbind result_bind]. destruct (_ >? n); [right; by eexists _, _|left].
  by exists st'.
Qed.

Definition seeds_counted (start e : Z) (s : Bfs FS) : Prop :=
  distances_ok s /\ 0 <= nodesToVisitLength s
  /\ nodesToVisitLength s * EF <= e - start.

Lemma calculateDistances_ends fs :
  (exists r, calculateDistances L edges fei isUserRoot filter fs = Ok r)
  \/ (exists a b,
        calculateDistances L edges fei isUserRoot filter fs
        = Throw (BFSFailed a b)).
Proof.
  destruct (wf_edges_spec L edges fei Hwf)
    as (HNF & HEF & Hoff & Hn & Hlen & Hsmall & Hfei0 & HfeiN & Hfei & Htarget).
  pose proof (fei_mono L edges fei HNF HEF Hoff Hn Hlen Hsmall Hfei0 HfeiN Hfei
                Htarget) as Hmono.
  pose proof (Hmono 0 rootOrd ltac:(lia) ltac:(lia)) as Hlo.
  pose proof (Hmono (rootOrd + 1) n ltac:(lia) ltac:(lia)) as Hhi.
  unfold calculateDistances. cbv zeta.
  match goal with
  | |- context [bfs L edges fei filter (for_range ?a ?b ?c ?body ?s0)] =>
      set (seeded := for_range a b c body s0);
      destruct (for_range_ind (seeds_counted a) a b c body s0)
        as (e & He1 & He2 & He3 & Hok & Hlen0 & Hcount)
  end; try done.
  - split; [split|split].
    + cbn [distances].
      apply (for_range_ind1 (fun _ a => len a = n)); [done| |].
      * by apply len_new_array.
      * intros i a _ Ha. by rewrite len_aset.
    + cbn [distances].
      apply (for_range_ind1 (fun _ a => forall v, noDistance <= aget a v));
        [done| |].
      * intros v. rewrite aget_new_array. unfold noDistance. lia.
      * intros i a _ Ha v. rewrite aget_aset. destruct (_ && _); [lia|apply Ha].
    + cbn [nodesToVisitLength]. lia.
    + cbn [nodesToVisitLength]. lia.
  - intros i s Hi ([Hl Hv] & Hpos & Hc). cbv beta.
    destruct (isUserRoot _).
    + unfold seeds_counted, distances_ok. cbn [distances nodesToVisitLength].
      split; [split|split].
      * by rewrite len_aset.
      * intros v. rewrite aget_aset. destruct (_ && _); [|apply Hv].
        unfold noDistance. lia.
      * lia.
      * lia.
    + split; [by split|]. split; [done|lia].
  - fold seeded in Hok, Hlen0, Hcount.
    assert (Hseeds : nodesToVisitLength seeded <= len edges).
    { rewrite HfeiN in Hhi. rewrite Hfei0 in Hlo.
      pose proof (len_nonneg edges) as Hedges.
      destruct (Z_lt_le_dec (aget fei rootOrd) (aget fei (rootOrd + 1))) as [Hlt|Hge].
      - specialize (He2 Hlt). nia.
      - specialize (He3 Hge). subst e. nia. }
    destruct (bfs_ends seeded Hok) as [(st1 & -> & Hok1)|(a & b & ->)];
      [| |right; by eexists _, _].
    { unfold budget, bfs_fuel. pose proof (pending_bounds (distances seeded)). lia. }
    cbn [mbind result_bind].
    match goal with
    | |- context [bfs L edges fei filter ?s] => set (rooted := s)
    end.
    assert (Hok2 : distances_ok rooted).
    { destruct Hok1 as [Hl Hv]. split; unfold rooted; cbn [distances].
      - by rewrite len_aset.
      - intros v. rewrite aget_aset. destruct (_ && _); [|apply Hv].
        destruct (_ >? 0); unfold noDistance, baseSystemDistance; lia. }
    destruct (bfs_ends rooted Hok2) as [(st2 & -> & _)|(a & b & ->)];
      [|left; by eexists|right; by eexists _, _].
    unfold budget, bfs_fuel. pose proof (pending_bounds (distances rooted)).
    unfold rooted at 1. cbn [nodesToVisitLength].
    pose proof (len_nonneg edges). lia.
Qed.
End DistancesEnd.

(** X12. [calculateDistances] ends on every well-formed snapshot, whatever
    the filter answers: a node enters the queue only when it loses
    [noDistance], so the queue stops growing; the call returns the distances
    or throws the [BFS failed] error of the queue-length check. *)
Theorem calculateDistances_returns_or_reports_bfs_failure (L : Layout)
    (edges fei : list Z) (isUserRoot : Z -> bool) {FS : Type}
    (filter : option (FS -> Z -> Z -> bool * FS)) (fs : FS) :
  wf_edges L edges fei = true ->
  0 <= rootNodeIndexInternal L / nodeFieldCount L < nodeCount L ->
  (exists d fs', calculateDistances L edges fei isUserRoot filter fs = Ok (d, fs'))
  \/ (exists seen total,
        calculateDistances L edges fei isUserRoot filter fs
        = Throw (BFSFailed seen total)).
Proof.
  intros Hwf Hroot.
  destruct (calculateDistances_ends L edges fei isUserRoot filter Hwf Hroot fs)
    as [([d fs'] & Hrun)|Hfail]; [left|by right].
  by exists d, fs'.
Qed.

Lemma calculateDistances_returns_or_reports_bfs_failure_witness :
  let p := weakmap_orphans in
  let L := layout_of p in
  let fei := buildEdgeIndexes L (p_nodes p) (p_edges p) in
  let isUserRoot := JS_isUserRoot L (p_nodes p) (p_strings p) in
  let filter := None (A := unit -> Z -> Z -> bool * unit) in
  (exists d fs',
      calculateDistances L (p_edges p) fei isUserRoot filter tt = Ok (d, fs'))
  \/ (exists seen total,
        calculateDistances L (p_edges p) fei isUserRoot filter tt
        = Throw (BFSFailed seen total)).
Proof.
  intros p L fei isUserRoot filter.
  apply (calculateDistances_returns_or_reports_bfs_failure L (p_edges p) fei
           isUserRoot filter tt).
  - vm_compute. reflexivity.
  - vm_compute. split; [discriminate|reflexivity].
Defined.

(** ** Page-owned nodes *)

(** An edge of the root that leads to an entry point of the page: an element
    edge to the root of the document DOM trees, or a shortcut edge. *)
Definition pageEntryEdge (L : Layout) (nodes edges : list Z) (strings : list string)
    (e : Z) : bool :=
  if aget edges (e + edgeTypeOffset L) =? edgeElementType L
  then isDocumentDOMTreesRoot L nodes strings (aget edges (e + edgeToNodeOffset L))
  else aget edges (e + edgeTypeOffset L) =? edgeShortcutType L.

Definition page_entry (L : Layout) (nodes edges : list Z) (strings : list string)
    (fei : list Z) (v : Z) : Prop :=
  exists e, edge_of L fei (rootNodeIndexInternal L / nodeFieldCount L) e
    /\ pageEntryEdge L nodes edges strings e = true
    /\ aget edges (e + edgeToNodeOffset L) / nodeFieldCount L = v.

(** [v] can be reached from an entry point through edges that are not weak. *)
Definition page_reach (L : Layout) (nodes edges : list Z) (strings : list string)
    (fei : list Z) (v : Z) : Prop :=
  exists s, page_entry L nodes edges strings fei s
            /\ rtc (nonweak_step L edges fei) s v.

Definition flagged (flags : list Z) (v : Z) : Prop :=
  Z.land (aget flags v) pageObjectFlag <> 0.

Section PageOwnedProof.
Variable L : Layout.
Variables nodes edges : list Z.
Variable strings : list string.
Variable fei : list Z.

Local Abbreviation NF := (nodeFieldCount L).
Local Abbreviation EF := (edgeFieldsCount L).
Local Abbreviation n := (nodeCount L).
Local Abbreviation rootOrd := (rootNodeIndexInternal L / nodeFieldCount L).
Local Abbreviation step := (nonweak_step L edges fei).
Local Abbreviation entry := (page_entry L nodes edges strings fei).
Local Abbreviation reach := (page_reach L nodes edges strings fei).
Local Abbreviation child := (fun e => aget edges (e + edgeToNodeOffset L) / NF).

Hypothesis Hwf : wf_edges L edges fei = true.
Hypothesis Hn32 : n <= 4294967296.
Hypothesis Hroot : 0 <= rootOrd < n.
(** No two entry edges lead to the same node. *)
Hypothesis Hentries : forall e1 e2,
  edge_of L fei rootOrd e1 -> pageEntryEdge L nodes edges strings e1 = true ->
  edge_of L fei rootOrd e2 -> pageEntryEdge L nodes edges strings e2 = true ->
  child e1 = child e2 -> e1 = e2.

Local Set Default Proof Using "All".

(** The edges of [x] before [lim] that are not weak lead to flagged nodes. *)
Definition scanned (flags : list Z) (x lim : Z) : Prop :=
  forall e, edge_of L fei x e -> e < lim ->
    aget edges (e + edgeTypeOffset L) <> edgeWeakType L -> flagged flags (child e).

Definition unflagged (flags : list Z) : Z :=
  countP (fun v => Z.land (aget flags v) pageObjectFlag =? 0) n.

(** What the worklist keeps true; [u] is the node whose edges are being
    looked at, up to [lim] ([u = -1] between two nodes). *)
Record page_inv (u lim : Z) (q : list Z) (nv : Z) (flags : list Z) : Prop := {
  pi_len_q : len q = n;
  pi_len_f : len flags = n;
  pi_nv : 0 <= nv;
  pi_nodup : List.NoDup (view q nv);
  pi_stack : forall x, In x (view q nv) -> 0 <= x < n /\ flagged flags x;
  pi_vals : forall v, aget flags v = 0 \/ aget flags v = pageObjectFlag;
  pi_sound : forall v, 0 <= v < n -> flagged flags v -> reach v;
  pi_closed : forall x, 0 <= x < n -> flagged flags x ->
    In x (view q nv)
    \/ scanned flags x (if x =? u then lim else aget fei (x + 1))
}.

Lemma page_facts : 0 < NF /\ 0 < EF /\ 0 <= n.
Proof.
  destruct (wf_edges_spec L edges fei Hwf) as (HNF & HEF & _ & Hn & _). done.
Qed.

Lemma flagged_set flags c x :
  len flags = n -> 0 <= c < n ->
  (forall v, aget flags v = 0 \/ aget flags v = pageObjectFlag) ->
  flagged (aset32 flags c (Z.lor (aget flags c) pageObjectFlag)) x
  <-> flagged flags x \/ x = c.
Proof.
  intros Hl Hc Hvals. unfold flagged, aset32. rewrite aget_aset.
  destruct (Z.eqb_spec c x) as [->|Hne]; cbn [andb].
  - destruct (Z.leb_spec 0 x); [|lia]. destruct (Z.ltb_spec x (len flags)); [|lia].
    cbn [andb]. split; [by right|intros _].
    destruct (Hvals x) as [-> | ->]; by vm_compute.
  - split; [by left|]. intros [H| ->]; [done|lia].
Qed.

Lemma vals_set flags c v :
  (forall v, aget flags v = 0 \/ aget flags v = pageObjectFlag) ->
  aget (aset32 flags c (Z.lor (aget flags c) pageObjectFlag)) v = 0
  \/ aget (aset32 flags c (Z.lor (aget flags c) pageObjectFlag)) v = pageObjectFlag.
Proof.
  intros Hvals. unfold aset32. rewrite aget_aset.
  destruct (_ && _); [|apply Hvals]. right.
  destruct (Hvals c) as [-> | ->]; by vm_compute.
Qed.

Lemma unflagged_set flags c :
  len flags = n -> 0 <= c < n -> ~ flagged flags c ->
  (forall v, aget flags v = 0 \/ aget flags v = pageObjectFlag) ->
  unflagged (aset32 flags c (Z.lor (aget flags c) pageObjectFlag)) + 1
  = unflagged flags.
Proof.
  intros Hl Hc Hnot Hvals. unfold unflagged.
  apply (countP_drop _ _ n c); [done| | |].
  - apply Z.eqb_eq. unfold flagged in Hnot. lia.
  - apply Z.eqb_neq. apply (flagged_set flags c c Hl Hc Hvals). by right.
  - intros k Hk. unfold aset32. by rewrite aget_aset_ne by lia.
Qed.

(** [flags[c] |= pageObjectFlag] and [c] is pushed. *)
Lemma markPage_inv u lim q nv flags c :
  page_inv u lim q nv flags -> 0 <= c < n -> ~ flagged flags c -> reach c ->
  page_inv u lim (aset32 q nv c) (nv + 1)
    (aset32 flags c (Z.lor (aget flags c) pageObjectFlag)).
Proof.
  intros I Hc Hnot Hreach. destruct page_facts as (HNF & HEF & Hn).
  pose proof (pi_len_q _ _ _ _ _ I) as Hlq. pose proof (pi_len_f _ _ _ _ _ I) as Hlf.
  pose proof (pi_nv _ _ _ _ _ I) as Hnv. pose proof (pi_vals _ _ _ _ _ I) as Hvals.
  assert (Hfresh : ~ In c (view q nv)).
  { intros Hin. by destruct (pi_stack _ _ _ _ _ I c Hin). }
  assert (Hnd : List.NoDup (view q nv ++ [c])).
  { apply NoDup_app_intro; [apply I|repeat constructor; by intros []|].
    intros x Hx [<-|[]]. by apply Hfresh. }
  assert (Hroom : nv < n).
  { pose proof (NoDup_ordinals_length _ n Hn Hnd) as Hle.
    unfold len in Hle. rewrite length_app in Hle. cbn [length] in Hle.
    pose proof (len_view q nv Hnv) as Hv. unfold len in Hv.
    enough (Z.of_nat (length (view q nv) + 1) <= n) by lia.
    apply Hle. intros x Hx. apply in_app_or in Hx as [Hx|[<-|[]]]; [|done].
    by apply (pi_stack _ _ _ _ _ I). }
  assert (Hview : view (aset32 q nv c) (nv + 1) = view q nv ++ [c]).
  { apply view_aset32_snoc; lia. }
  assert (Hmono : forall x, flagged flags x ->
            flagged (aset32 flags c (Z.lor (aget flags c) pageObjectFlag)) x).
  { intros x Hx. apply flagged_set; [done|done|done|by left]. }
  constructor.
  - by rewrite len_aset32.
  - by rewrite len_aset32.
  - lia.
  - by rewrite Hview.
  - intros x. rewrite Hview. intros Hx.
    apply in_app_or in Hx as [Hx|[<-|[]]].
    + destruct (pi_stack _ _ _ _ _ I x Hx). split; [done|by apply Hmono].
    + split; [done|]. apply flagged_set; [done|done|done|by right].
  - intros v. by apply vals_set.
  - intros v Hv Hfl. apply flagged_set in Hfl as [Hfl| ->]; [|done|done|done|done].
    by apply (pi_sound _ _ _ _ _ I).
  - intros x Hx Hfl. rewrite Hview.
    apply flagged_set in Hfl as [Hfl| ->]; [| |done|done|done].
    + destruct (pi_closed _ _ _ _ _ I x Hx Hfl) as [Hin|Hsc].
      * left. apply in_or_app. by left.
      * right. intros e He Hlt Hw. by apply Hmono, Hsc.
    + left. apply in_or_app. right. by left.
Qed.

Lemma flagged_new_array x : ~ flagged (new_array n) x.
Proof. unfold flagged. rewrite aget_new_array. by vm_compute. Qed.

(** While the entry points are collected from the edges of the root. *)
Definition entering (i : Z) (st : list Z * Z * list Z) : Prop :=
  let '(q, nv, flags) := st in
  (i - aget fei rootOrd) mod EF = 0
  /\ page_inv (-1) 0 q nv flags
  /\ nv + unflagged flags <= n
  /\ (forall x, flagged flags x -> In x (view q nv))
  /\ (forall x, In x (view q nv) ->
        exists e, edge_of L fei rootOrd e /\ e < i
                  /\ pageEntryEdge L nodes edges strings e = true /\ child e = x)
  /\ (forall e, edge_of L fei rootOrd e -> e < i ->
        pageEntryEdge L nodes edges strings e = true -> flagged flags (child e)).

Lemma entering_step i st :
  aget fei rootOrd <= i < aget fei (rootOrd + 1) -> entering i st ->
  entering (i + EF)
    (if negb (pageEntryEdge L nodes edges strings i) then st
     else markPage (child i) st).
Proof.
  destruct st as [[q nv] flags]. intros Hi (Hal & I & Hw & Hall & Hfrom & Hto).
  destruct page_facts as (HNF & HEF & Hn).
  assert (Hedge : edge_of L fei rootOrd i) by done.
  assert (Hal' : (i + EF - aget fei rootOrd) mod EF = 0).
  { replace (i + EF - aget fei rootOrd) with (i - aget fei rootOrd + EF) by lia.
    by apply aligned_add. }
  assert (Hbefore : forall e, edge_of L fei rootOrd e -> e < i + EF ->
            e = i \/ e < i).
  { intros e [_ Hale] Hlt.
    pose proof (aligned_le e i (aget fei rootOrd) EF HEF Hale Hal Hlt). lia. }
  destruct (pageEntryEdge L nodes edges strings i) eqn:Hentry; cbn [negb].
  - pose proof (wf_edge_target L edges fei rootOrd i Hwf Hroot Hedge) as [_ Hc].
    assert (Hnot : ~ flagged flags (child i)).
    { intros Hfl. destruct (Hfrom _ (Hall _ Hfl)) as (e & He & Hlt & Hen & Heq).
      pose proof (Hentries e i He Hen Hedge Hentry Heq). lia. }
    assert (Hreach : reach (child i)).
    { exists (child i). split; [|done]. by exists i. }
    pose proof (markPage_inv _ _ _ _ _ _ I Hc Hnot Hreach) as I'.
    pose proof (pi_len_f _ _ _ _ _ I) as Hlf.
    pose proof (pi_vals _ _ _ _ _ I) as Hvals.
    assert (Hview : view (aset32 q nv (child i)) (nv + 1) = view q nv ++ [child i]).
    { apply view_aset32_snoc; [|lia].
      pose proof (unflagged_set flags _ Hlf Hc Hnot Hvals).
      pose proof (countP_bounds
                    (fun v => Z.land (aget (aset32 flags (child i)
                       (Z.lor (aget flags (child i)) pageObjectFlag)) v)
                       pageObjectFlag =? 0) n Hn).
      unfold unflagged in *. rewrite (pi_len_q _ _ _ _ _ I).
      pose proof (pi_nv _ _ _ _ _ I). lia. }
    unfold markPage, entering. split; [done|]. split; [exact I'|].
    split; [pose proof (unflagged_set flags _ Hlf Hc Hnot Hvals); lia|].
    rewrite Hview. split; [|split].
    + intros x Hx. apply in_or_app.
      apply flagged_set in Hx as [Hx| ->]; [left; by apply Hall|right; by left|..];
        done.
    + intros x Hx. apply in_app_or in Hx as [Hx|[<-|[]]].
      * destruct (Hfrom x Hx) as (e & He & Hlt & Hen & Heq).
        exists e. repeat split; try done; try apply He. lia.
      * exists i. repeat split; try done; try apply Hedge. lia.
    + intros e He Hlt Hen. apply flagged_set; [done|done|done|].
      destruct (Hbefore e He Hlt) as [->|Hlt']; [by right|left; by apply Hto].
  - unfold entering. split; [done|]. split; [done|]. split; [done|].
    split; [done|]. split.
    + intros x Hx. destruct (Hfrom x Hx) as (e & He & Hlt & Hen & Heq).
      exists e. repeat split; try done; try apply He. lia.
    + intros e He Hlt Hen. destruct (Hbefore e He Hlt) as [->|Hlt'];
        [congruence|by apply Hto].
Qed.

Lemma entry_test e :
  (if aget edges (e + edgeTypeOffset L) =? edgeElementType L
   then negb (isDocumentDOMTreesRoot L nodes strings
                (aget edges (e + edgeToNodeOffset L)))
   else negb (aget edges (e + edgeTypeOffset L) =? edgeShortcutType L))
  = negb (pageEntryEdge L nodes edges strings e).
Proof. unfold pageEntryEdge. by destruct (_ =? edgeElementType L). Qed.

Lemma pageEntryPoints_inv :
  exists q nv flags,
    pageEntryPoints L nodes edges strings fei (new_array n) = (q, nv, flags)
    /\ page_inv (-1) 0 q nv flags
    /\ nv + unflagged flags <= n
    /\ (forall s, entry s -> flagged flags s).
Proof.
  destruct page_facts as (HNF & HEF & Hn). unfold pageEntryPoints.
  match goal with
  | |- context [for_range ?a ?b ?c ?body ?s0] =>
      destruct (for_range_ind entering a b c body s0)
        as (e & He1 & _ & _ & Hend); [done| | |]
  end.
  - split; [rewrite Z.sub_diag; by apply Z.mod_0_l, Z.neq_sym, Z.lt_neq|].
    split; [|split; [|split; [|split]]].
    + constructor.
      * by apply len_new_array.
      * by apply len_new_array.
      * done.
      * rewrite view_0 by done. constructor.
      * intros x. rewrite view_0 by done. intros [].
      * intros v. left. apply aget_new_array.
      * intros v _ Hfl. by destruct (flagged_new_array v).
      * intros x _ Hfl. by destruct (flagged_new_array x).
    + pose proof (countP_bounds
                    (fun v => Z.land (aget (new_array n) v) pageObjectFlag =? 0)
                    n Hn). unfold unflagged. lia.
    + intros x Hfl. by destruct (flagged_new_array x).
    + intros x. rewrite view_0 by done. intros [].
    + intros e [He _] Hlt _. lia.
  - intros i st Hi Hst. cbv beta zeta. rewrite entry_test.
    by apply entering_step.
  - destruct (for_range _ _ _ _ _) as [[q nv] flags].
    destruct Hend as (_ & I & Hw & _ & _ & Hto).
    exists q, nv, flags. split; [done|]. split; [done|]. split; [done|].
    intros s (e' & He' & Hen & <-). apply Hto; [done| |done].
    destruct He' as [He' _]. lia.
Qed.

(** The edge at [i] of the node that is looked at has been dealt with. *)
Lemma page_inv_next u i q nv flags :
  page_inv u i q nv flags -> edge_of L fei u i ->
  (aget edges (i + edgeTypeOffset L) <> edgeWeakType L -> flagged flags (child i)) ->
  page_inv u (i + EF) q nv flags.
Proof.
  intros I [Hi Hal] Hdone. destruct page_facts as (HNF & HEF & Hn).
  constructor; try apply I.
  intros x Hx Hfl. destruct (pi_closed _ _ _ _ _ I x Hx Hfl) as [Hin|Hsc];
    [by left|right].
  destruct (Z.eqb_spec x u) as [->|_]; [|done].
  intros e [He Hale] Hlt Hw.
  pose proof (aligned_le e i (aget fei u) EF HEF Hale Hal Hlt) as Hle.
  destruct (Z.eq_dec e i) as [->|Hne]; [by apply Hdone|].
  apply Hsc; [done|lia|done].
Qed.

(** While the edges of the flagged node [u] are looked at; [W] bounds the
    work that is left. *)
Definition scanning (u W i : Z) (st : list Z * Z * list Z) : Prop :=
  let '(q, nv, flags) := st in
  (i - aget fei u) mod EF = 0
  /\ page_inv u i q nv flags
  /\ nv + unflagged flags <= W
  /\ (forall s, entry s -> flagged flags s)
  /\ flagged flags u.

Lemma scanning_step u W i st :
  0 <= u < n -> aget fei u <= i < aget fei (u + 1) -> scanning u W i st ->
  scanning u W (i + EF)
    (if negb (Z.land (aget (snd st) (child i)) pageObjectFlag =? 0) then st
     else if aget edges (i + edgeTypeOffset L) =? edgeWeakType L then st
     else markPage (child i) st).
Proof.
  destruct st as [[q nv] flags]. intros Hu Hi (Hal & I & Hw & Hen & Hfu).
  destruct page_facts as (HNF & HEF & Hn). cbn [snd].
  assert (Hedge : edge_of L fei u i) by done.
  assert (Hal' : (i + EF - aget fei u) mod EF = 0).
  { replace (i + EF - aget fei u) with (i - aget fei u + EF) by lia.
    by apply aligned_add. }
  pose proof (wf_edge_target L edges fei u i Hwf Hu Hedge) as [_ Hc].
  destruct (Z.eqb_spec (Z.land (aget flags (child i)) pageObjectFlag) 0)
    as [Hnot|Hfl]; cbn [negb].
  2: { split; [done|]. split; [|by split]. by apply page_inv_next. }
  destruct (Z.eqb_spec (aget edges (i + edgeTypeOffset L)) (edgeWeakType L))
    as [Hweak|Hnw].
  { split; [done|]. split; [|by split]. by apply page_inv_next. }
  pose proof (pi_len_f _ _ _ _ _ I) as Hlf.
  pose proof (pi_vals _ _ _ _ _ I) as Hvals.
  assert (Hnot' : ~ flagged flags (child i)) by (unfold flagged; lia).
  assert (Hreach : reach (child i)).
  { destruct (pi_sound _ _ _ _ _ I u Hu Hfu) as (s & Hs & Hpath).
    exists s. split; [done|]. eapply rtc_r; [exact Hpath|]. by exists i. }
  pose proof (markPage_inv _ _ _ _ _ _ I Hc Hnot' Hreach) as I'.
  assert (Hmono : forall x, flagged flags x ->
            flagged (aset32 flags (child i)
                       (Z.lor (aget flags (child i)) pageObjectFlag)) x).
  { intros x Hx. apply flagged_set; [done|done|done|by left]. }
  unfold markPage, scanning. split; [done|]. split; [|split; [|split]].
  - apply page_inv_next; [done|done|]. intros _.
    apply flagged_set; [done|done|done|by right].
  - pose proof (unflagged_set flags _ Hlf Hc Hnot' Hvals). lia.
  - intros s Hs. by apply Hmono, Hen.
  - by apply Hmono.
Qed.

(** The node on top of the stack is taken off. *)
Lemma page_inv_pop lim q nv flags :
  page_inv (-1) lim q nv flags -> 0 < nv ->
  0 <= aget q (nv - 1) < n
  /\ flagged flags (aget q (nv - 1))
  /\ page_inv (aget q (nv - 1)) (aget fei (aget q (nv - 1))) q (nv - 1) flags.
Proof.
  intros I Hnv.
  assert (Hview : view q nv = view q (nv - 1) ++ [aget q (nv - 1)]).
  { replace nv with (nv - 1 + 1) at 1 by lia. apply view_snoc. lia. }
  assert (Htop : 0 <= aget q (nv - 1) < n /\ flagged flags (aget q (nv - 1))).
  { apply (pi_stack _ _ _ _ _ I). rewrite Hview. apply in_or_app. right. by left. }
  destruct Htop as [Hu Hfu]. split; [done|]. split; [done|].
  pose proof (pi_nodup _ _ _ _ _ I) as Hnd. rewrite Hview in Hnd.
  constructor.
  - exact (pi_len_q _ _ _ _ _ I).
  - exact (pi_len_f _ _ _ _ _ I).
  - lia.
  - by apply List.NoDup_app_remove_r in Hnd.
  - intros x Hx. apply (pi_stack _ _ _ _ _ I). rewrite Hview.
    apply in_or_app. by left.
  - exact (pi_vals _ _ _ _ _ I).
  - exact (pi_sound _ _ _ _ _ I).
  - intros x Hx Hfl.
    destruct (Z.eqb_spec x (aget q (nv - 1))) as [->|Hne].
    + right. intros e [He _] Hlt _. lia.
    + destruct (pi_closed _ _ _ _ _ I x Hx Hfl) as [Hin|Hsc].
      * rewrite Hview in Hin. apply in_app_or in Hin as [Hin|[Heq|[]]];
          [by left|by destruct Hne].
      * right. destruct (Z.eqb_spec x (-1)) as [|_]; [lia|done].
Qed.

(** All the edges of [u] have been looked at. *)
Lemma page_inv_done u e q nv flags :
  0 <= u < n -> aget fei (u + 1) <= e -> page_inv u e q nv flags ->
  page_inv (-1) 0 q nv flags.
Proof.
  intros Hu He I. constructor; try apply I.
  intros x Hx Hfl. destruct (pi_closed _ _ _ _ _ I x Hx Hfl) as [Hin|Hsc];
    [by left|right].
  destruct (Z.eqb_spec x (-1)) as [|_]; [lia|].
  destruct (Z.eqb_spec x u) as [->|_]; [|done].
  intros e' He' Hlt Hw. apply Hsc; [done| |done]. destruct He' as [He' _]. lia.
Qed.

Lemma entry_in_range s : entry s -> 0 <= s < n.
Proof.
  intros (e & He & _ & <-).
  by apply (wf_edge_target L edges fei rootOrd e Hwf Hroot He).
Qed.

Lemma markReachable_ends fuel :
  forall q nv flags,
    page_inv (-1) 0 q nv flags -> (forall s, entry s -> flagged flags s) ->
    nv + unflagged flags <= Z.of_nat fuel ->
    exists flags',
      markReachable L edges fei fuel (q, nv, flags) = Ok flags'
      /\ len flags' = n
      /\ forall v, 0 <= v < n -> flagged flags' v <-> reach v.
Proof.
  destruct page_facts as (HNF & HEF & Hn).
  induction fuel as [|fuel IH]; intros q nv flags I Hen Hfuel;
    cbn [markReachable];
    pose proof (countP_bounds
                  (fun v => Z.land (aget flags v) pageObjectFlag =? 0) n Hn) as Hp;
    fold (unflagged flags) in Hp; pose proof (pi_nv _ _ _ _ _ I) as Hnv;
    (destruct (Z.eqb_spec nv 0) as [->|Hne]; [|try lia]).
  1, 2: exists flags; split; [done|]; split; [apply I|];
    intros v Hv; split; [by apply (pi_sound _ _ _ _ _ I)|];
    intros (s & Hs & Hpath);
    pose proof (entry_in_range s Hs) as Hsr; pose proof (Hen s Hs) as Hfs;
    clear Hs; revert Hsr Hfs;
    induction Hpath as [|x y z Hxy _ IHp]; [done|]; intros Hx Hfx;
    destruct Hxy as (e & He & Hw & <-);
    (apply IHp;
     [done|by apply (wf_edge_target L edges fei x e Hwf Hx He)|]);
    (destruct (pi_closed _ _ _ _ _ I x Hx Hfx) as [Hin|Hsc];
     [rewrite view_0 in Hin by done; destruct Hin|]);
    (destruct (Z.eqb_spec x (-1)) as [|_]; [lia|]);
    (apply Hsc; [done|destruct He as [He _]; lia|done]).
  destruct (page_inv_pop _ _ _ _ I ltac:(lia)) as (Hu & Hfu & Ipop).
  set (u := aget q (nv - 1)) in *.
  match goal with
  | |- context [for_range ?a ?b ?c ?body ?s0] =>
      destruct (for_range_ind (scanning u (nv - 1 + unflagged flags))
                  a b c body s0) as (e & He1 & _ & _ & Hend); [done| | |]
  end.
  - split; [rewrite Z.sub_diag; by apply Z.mod_0_l, Z.neq_sym, Z.lt_neq|].
    split; [done|]. split; [lia|]. by split.
  - intros i st Hi Hst. cbv beta zeta. by apply scanning_step.
  - destruct (for_range _ _ _ _ _) as [[q' nv'] flags'].
    destruct Hend as (_ & I' & Hw' & Hen' & _).
    apply IH; [by apply (page_inv_done u e)|done|lia].
Qed.

Lemma markPageOwnedNodes_spec :
  exists flags,
    markPageOwnedNodes L nodes edges strings fei = Ok flags
    /\ len flags = n
    /\ forall v, 0 <= v < n -> flagged flags v <-> reach v.
Proof.
  destruct pageEntryPoints_inv as (q & nv & flags & Heq & I & Hw & Hen).
  unfold markPageOwnedNodes. rewrite Heq.
  apply markReachable_ends; [done|done|]. pose proof (len_nonneg edges). lia.
Qed.
End PageOwnedProof.

(** The root holds the window [W] through a shortcut edge and the node [G]
    through a property edge; [W] holds [A], and holds [C] weakly; [G] holds
    [B]. *)
Definition page_with_window : Profile :=
  {| meta := v8_meta;
     p_nodes :=
       [9; 0; 1; 0; 2; 0; 0;     (* root *)
        3; 1; 3; 8; 2; 0; 0;     (* W *)
        9; 2; 5; 0; 1; 0; 0;     (* G *)
        3; 3; 7; 8; 0; 0; 0;     (* A *)
        3; 4; 9; 8; 0; 0; 0;     (* B *)
        3; 5; 11; 8; 0; 0; 0];   (* C *)
     p_edges :=
       [5; 6; 7;                 (* root -> W, shortcut *)
        2; 6; 14;                (* root -> G *)
        2; 6; 21;                (* W -> A *)
        6; 6; 35;                (* W -> C, weak *)
        2; 6; 28];               (* G -> B *)
     p_strings := [""; "W"; "G"; "A"; "B"; "C"; "p"]%string;
     root_index := 0 |}.

(** X13. On a well-formed snapshot whose entry edges (the shortcut edges of
    the root and its element edge to the document DOM trees) lead to distinct
    nodes, [markPageOwnedNodes] ends, and it sets the [pageObject] flag of
    exactly the nodes that can be reached from an entry point through edges
    that are not weak. *)
Theorem markPageOwnedNodes_flags_what_the_page_reaches (L : Layout)
    (nodes edges : list Z) (strings : list string) (fei : list Z) :
  wf_edges L edges fei = true ->
  nodeCount L <= 4294967296 ->
  0 <= rootNodeIndexInternal L / nodeFieldCount L < nodeCount L ->
  (forall e1 e2,
     edge_of L fei (rootNodeIndexInternal L / nodeFieldCount L) e1 ->
     pageEntryEdge L nodes edges strings e1 = true ->
     edge_of L fei (rootNodeIndexInternal L / nodeFieldCount L) e2 ->
     pageEntryEdge L nodes edges strings e2 = true ->
     aget edges (e1 + edgeToNodeOffset L) / nodeFieldCount L
     = aget edges (e2 + edgeToNodeOffset L) / nodeFieldCount L ->
     e1 = e2) ->
  exists flags,
    markPageOwnedNodes L nodes edges strings fei = Ok flags
    /\ len flags = nodeCount L
    /\ forall v, 0 <= v < nodeCount L ->
         (Z.land (aget flags v) pageObjectFlag <> 0
          <-> page_reach L nodes edges strings fei v).
Proof.
  intros Hwf Hn32 Hroot Hentries.
  exact (markPageOwnedNodes_spec L nodes edges strings fei Hwf Hn32 Hroot Hentries).
Qed.

Lemma markPageOwnedNodes_flags_what_the_page_reaches_witness :
  let p := page_with_window in
  let L := layout_of p in
  let fei := buildEdgeIndexes L (p_nodes p) (p_edges p) in
  exists flags,
    markPageOwnedNodes L (p_nodes p) (p_edges p) (p_strings p) fei = Ok flags
    /\ len flags = 6
    /\ forall v, 0 <= v < 6 ->
         (Z.land (aget flags v) pageObjectFlag <> 0
          <-> page_reach L (p_nodes p) (p_edges p) (p_strings p) fei v).
Proof.
  intros p L fei.
  apply (markPageOwnedNodes_flags_what_the_page_reaches L (p_nodes p) (p_edges p)
           (p_strings p) fei).
  - vm_compute. reflexivity.
  - vm_compute. discriminate.
  - vm_compute. split; [discriminate|reflexivity].
  - assert (Honly : forall e,
              edge_of L fei (rootNodeIndexInternal L / nodeFieldCount L) e ->
              pageEntryEdge L (p_nodes p) (p_edges p) (p_strings p) e = true ->
              e = 0).
    { intros e [He Hal] Hentry.
      change (aget fei (rootNodeIndexInternal L / nodeFieldCount L)) with 0 in *.
      change (aget fei (rootNodeIndexInternal L / nodeFieldCount L + 1)) with 6 in He.
      change (edgeFieldsCount L) with 3 in Hal. rewrite Z.sub_0_r in Hal.
      assert (Hcases : e = 0 \/ e = 3).
      { pose proof (Z.div_mod e 3 ltac:(lia)). lia. }
      destruct Hcases as [->| ->]; [done|]. vm_compute in Hentry. discriminate. }
    intros e1 e2 H1 P1 H2 P2 _.
    rewrite (Honly e1 H1 P1), (Honly e2 H2 P2). reflexivity.
Defined.

(** ** The nodes that each node dominates *)

Section DominatedNodes.
Variable L : Layout.
Variable dom : list Z.
(** The ordinals between [from] and [to] are the nodes other than the root. *)
Variables from to : Z.

Local Abbreviation NF := (nodeFieldCount L).
Local Abbreviation n := (nodeCount L).

Hypothesis HNF : 0 < NF.
Hypothesis Hn : 0 < n.
Hypothesis Hsize : n * NF <= 4294967296.
Hypothesis Hscope : (from = 1 /\ to = n) \/ (from = 0 /\ to = n - 1).
Hypothesis Hdom : forall u, from <= u < to -> 0 <= aget dom u < n.

Local Set Default Proof Using "All".

Definition in_scope (u : Z) : bool := (from <=? u) && (u <? to).

(** The dominator of a node in scope; the root has none. *)
Definition key (u : Z) : Z := if in_scope u then aget dom u else n + 1.

(** The nodes before [K] that [v] dominates, and the nodes whose dominator
    comes before [v]. *)
Definition dominatedCount (K v : Z) : Z := countP (fun u => key u =? v) K.
Definition firstDominated (v : Z) : Z := countP (fun u => key u <? v) n.

Definition countDominated (idx : list Z) : list Z :=
  for_range from to 1
    (fun nodeOrdinal indexArray =>
       let d := aget dom nodeOrdinal in
       aset32 indexArray d (aget indexArray d + 1))
    idx.

Definition layoutDominated (idx dn : list Z) : Z * list Z * list Z :=
  for_range 0 n 1
    (fun i '(firstDominatedNodeIndex, indexArray, dominatedNodes) =>
       let dominatedCount := aget indexArray i in
       let dominatedNodes :=
         aset32 dominatedNodes firstDominatedNodeIndex dominatedCount in
       let indexArray := aset32 indexArray i firstDominatedNodeIndex in
       (firstDominatedNodeIndex + dominatedCount, indexArray, dominatedNodes))
    (0, idx, dn).

Definition fillDominated (idx dn : list Z) : list Z :=
  for_range from to 1
    (fun nodeOrdinal dominatedNodes =>
       let dominatorOrdinal := aget dom nodeOrdinal in
       let dominatedRefIndex := aget idx dominatorOrdinal in
       let counter := aget dominatedNodes dominatedRefIndex - 1 in
       let dominatedNodes := aset32 dominatedNodes dominatedRefIndex counter in
       aset32 dominatedNodes (dominatedRefIndex + counter) (nodeOrdinal * NF))
    dn.

Lemma scope_facts : 0 <= from <= to /\ to <= n /\ to - from = n - 1.
Proof. destruct Hscope as [[-> ->]|[-> ->]]; lia. Qed.

Lemma node_count_small : n <= 4294967296.
Proof. nia. Qed.

Lemma key_in_scope u : from <= u < to -> key u = aget dom u.
Proof.
  intros Hu. unfold key, in_scope.
  destruct (Z.leb_spec from u); [|lia]. destruct (Z.ltb_spec u to); [done|lia].
Qed.

Lemma key_out_of_scope u : ~ (from <= u < to) -> key u = n + 1.
Proof.
  intros Hu. unfold key, in_scope.
  destruct (Z.leb_spec from u); [|done]. destruct (Z.ltb_spec u to); [lia|done].
Qed.

Lemma key_range u : 0 <= key u.
Proof.
  destruct (Z_le_gt_dec from u) as [H1|H1].
  - destruct (Z_lt_le_dec u to) as [H2|H2].
    + rewrite key_in_scope by lia. apply Hdom. lia.
    + rewrite key_out_of_scope by lia. lia.
  - rewrite key_out_of_scope by lia. lia.
Qed.

Lemma dominatedCount_step K v :
  0 <= K ->
  dominatedCount (K + 1) v = dominatedCount K v + (if key K =? v then 1 else 0).
Proof. intros. unfold dominatedCount. by rewrite countP_step. Qed.

Lemma dominatedCount_bounds K v : 0 <= K -> 0 <= dominatedCount K v <= K.
Proof. apply countP_bounds. Qed.

Lemma dominatedCount_mono K K' v :
  0 <= K <= K' -> dominatedCount K v <= dominatedCount K' v.
Proof. apply countP_mono. Qed.

Lemma dominatedCount_from v : 0 <= v <= n -> dominatedCount from v = 0.
Proof.
  intros Hv. unfold dominatedCount. apply countP_none. intros u Hu.
  rewrite key_out_of_scope by lia. apply Z.eqb_neq. lia.
Qed.

Lemma dominatedCount_to v : 0 <= v <= n -> dominatedCount to v = dominatedCount n v.
Proof.
  intros Hv. destruct Hscope as [[Hf Ht]|[Hf Ht]]; [by rewrite Ht|].
  replace (dominatedCount n v) with (dominatedCount (to + 1) v)
    by (f_equal; lia).
  rewrite dominatedCount_step by lia.
  rewrite key_out_of_scope by lia.
  destruct (Z.eqb_spec (n + 1) v); lia.
Qed.

Lemma dominatedCount_scope K v :
  0 <= v <= n -> from <= K -> dominatedCount K v <= K - from.
Proof.
  intros Hv HK. destruct scope_facts as (Hft & _).
  replace K with (from + (K - from)) at 1 by lia.
  assert (Hd : 0 <= K - from) by lia. revert Hd. generalize (K - from).
  apply countP_ind.
  - rewrite Z.add_0_r. rewrite dominatedCount_from by done. lia.
  - intros d Hd IH. rewrite Z.add_assoc, dominatedCount_step by lia.
    destruct (key (from + d) =? v); lia.
Qed.

Lemma firstDominated_succ v :
  firstDominated (v + 1) = firstDominated v + dominatedCount n v.
Proof. unfold firstDominated, dominatedCount. apply countP_split. lia. Qed.

Lemma firstDominated_0 : firstDominated 0 = 0.
Proof.
  unfold firstDominated. apply countP_none. intros u _.
  pose proof (key_range u). apply Z.ltb_ge. lia.
Qed.

Lemma firstDominated_mono u v : u <= v -> firstDominated u <= firstDominated v.
Proof.
  intros H. unfold firstDominated. apply countP_le; [lia|].
  intros k _ Hk. apply Z.ltb_lt in Hk. apply Z.ltb_lt. lia.
Qed.

(** Every node but the root [c] has a dominator among the nodes. *)
Lemma firstDominated_total c :
  0 <= c < n -> ~ (from <= c < to) ->
  (forall k, 0 <= k < n -> k <> c -> from <= k < to) ->
  firstDominated n = n - 1.
Proof.
  intros Hc Hout Hrest. unfold firstDominated.
  assert (Hall : countP (fun u => (key u <? n) || (u =? c)) n = n).
  { apply countP_all; [lia|]. intros k Hk.
    destruct (Z.eqb_spec k c) as [->|Hne]; [apply orb_true_r|].
    rewrite key_in_scope by (by apply Hrest).
    rewrite orb_false_r. apply Z.ltb_lt. apply Hdom. by apply Hrest. }
  pose proof (countP_drop (fun u => (key u <? n) || (u =? c))
                (fun u => key u <? n) n c Hc) as Hdrop.
  rewrite Hall in Hdrop.
  enough (countP (fun u => key u <? n) n + 1 = n) by lia.
  apply Hdrop.
  - rewrite Z.eqb_refl. apply orb_true_r.
  - rewrite key_out_of_scope by done. apply Z.ltb_ge. lia.
  - intros k Hk. destruct (Z.eqb_spec k c) as [|_]; [done|].
    by rewrite orb_false_r.
Qed.

Lemma firstDominated_n : firstDominated n = n - 1.
Proof.
  destruct Hscope as [[Hf Ht]|[Hf Ht]].
  - apply (firstDominated_total 0); lia.
  - apply (firstDominated_total (n - 1)); lia.
Qed.

Lemma dominated_disjoint u v s t :
  u <> v ->
  firstDominated u <= s < firstDominated (u + 1) ->
  firstDominated v <= t < firstDominated (v + 1) ->
  s <> t.
Proof.
  intros Hne Hs Ht.
  destruct (Z_lt_le_dec u v).
  - assert (firstDominated (u + 1) <= firstDominated v)
      by (apply firstDominated_mono; lia). lia.
  - assert (firstDominated (v + 1) <= firstDominated u)
      by (apply firstDominated_mono; lia). lia.
Qed.

(** The first loop counts the nodes that each node dominates. *)
Lemma countDominated_spec :
  len (countDominated (new_array (n + 1))) = n + 1
  /\ forall v, 0 <= v <= n ->
       aget (countDominated (new_array (n + 1))) v = dominatedCount n v.
Proof.
  destruct scope_facts as (Hft & Htn & _).
  enough (H : len (countDominated (new_array (n + 1))) = n + 1
              /\ forall v, 0 <= v <= n ->
                   aget (countDominated (new_array (n + 1))) v
                   = dominatedCount to v).
  { destruct H as [Hl Hc]. split; [done|]. intros v Hv.
    rewrite Hc by done. by apply dominatedCount_to. }
  unfold countDominated.
  apply (for_range_ind1
           (fun K idx => len idx = n + 1
                         /\ forall v, 0 <= v <= n ->
                              aget idx v = dominatedCount K v)); [lia| |].
  - split; [apply len_new_array; lia|]. intros v Hv.
    rewrite aget_new_array. symmetry. by apply dominatedCount_from.
  - intros K idx HK [Hl Hc]. cbv zeta. split; [by rewrite len_aset32|].
    intros v Hv. rewrite dominatedCount_step by lia.
    rewrite key_in_scope by done. pose proof (Hdom K HK) as Hd.
    destruct (Z.eqb_spec (aget dom K) v) as [Heq|Hne].
    + rewrite <- Heq. rewrite aget_aset32_eq by lia. rewrite Hc by lia.
      pose proof (dominatedCount_bounds K (aget dom K) ltac:(lia)).
      pose proof (dominatedCount_scope K (aget dom K) ltac:(lia) ltac:(lia)).
      pose proof node_count_small. destruct scope_facts as (_ & _ & Hcount).
      apply u32_small. lia.
    + rewrite aget_aset32_ne by done. rewrite Hc by done. lia.
Qed.

Lemma firstDominated_bounds v : 0 <= v <= n -> 0 <= firstDominated v <= n - 1.
Proof.
  intros Hv. pose proof (firstDominated_mono 0 v ltac:(lia)) as H0.
  pose proof (firstDominated_mono v n ltac:(lia)) as H1.
  rewrite firstDominated_0 in H0. rewrite firstDominated_n in H1. lia.
Qed.

Lemma dominated_range v :
  0 <= v < n ->
  0 <= firstDominated v
  /\ firstDominated v + dominatedCount n v = firstDominated (v + 1)
  /\ firstDominated (v + 1) <= n - 1
  /\ 0 <= dominatedCount n v.
Proof.
  intros Hv. pose proof (firstDominated_bounds v ltac:(lia)).
  pose proof (firstDominated_bounds (v + 1) ltac:(lia)).
  pose proof (dominatedCount_bounds n v ltac:(lia)).
  rewrite firstDominated_succ in *. lia.
Qed.

(** While the second loop lays out the ranges: the ranges of the nodes
    before [i] are set, and the first cell of each range that is not empty
    holds the number of nodes to put there. *)
Definition laid (i : Z) (st : Z * list Z * list Z) : Prop :=
  let '(fd, idx, dn) := st in
  fd = firstDominated i
  /\ len idx = n + 1 /\ len dn = n - 1
  /\ (forall v, 0 <= v < i -> aget idx v = firstDominated v)
  /\ (forall v, i <= v <= n -> aget idx v = dominatedCount n v)
  /\ (forall v, 0 <= v < i -> 0 < dominatedCount n v ->
        aget dn (firstDominated v) = dominatedCount n v).

Lemma layoutDominated_spec idx dn :
  len idx = n + 1 -> len dn = n - 1 ->
  (forall v, 0 <= v <= n -> aget idx v = dominatedCount n v) ->
  laid n (layoutDominated idx dn).
Proof.
  intros Hl Hld Hc. pose proof node_count_small as Hsmall.
  unfold layoutDominated. apply (for_range_ind1 laid); [lia| |].
  - split; [by rewrite firstDominated_0|]. split; [done|]. split; [done|].
    split; [intros v Hv; lia|]. split; [intros v Hv; apply Hc; lia|].
    intros v Hv. lia.
  - intros i [[fd idx'] dn'] Hi (Hfd & Hl' & Hld' & Hdone & Htodo & Hpark).
    destruct (dominated_range i Hi) as (Hf0 & Hsum & Hend & Hc0).
    rewrite (Htodo i) by lia. subst fd.
    split; [by rewrite firstDominated_succ|].
    split; [by rewrite len_aset32|]. split; [by rewrite len_aset32|].
    split; [|split].
    + intros v Hv. destruct (Z.eq_dec v i) as [->|Hne].
      * rewrite aget_aset32_eq by lia. apply u32_small. lia.
      * rewrite aget_aset32_ne by lia. apply Hdone. lia.
    + intros v Hv. rewrite aget_aset32_ne by lia. apply Htodo. lia.
    + intros v Hv Hpos. destruct (Z.eq_dec v i) as [->|Hne].
      * rewrite aget_aset32_eq by lia. apply u32_small. lia.
      * destruct (dominated_range v ltac:(lia)) as (_ & Hsum' & _).
        pose proof (firstDominated_mono (v + 1) i ltac:(lia)).
        rewrite aget_aset32_ne by lia. apply Hpark; [lia|done].
Qed.

(** The nodes that [v] dominates and that come at or after [K]. *)
Definition toPlace (K v : Z) : Z := dominatedCount n v - dominatedCount K v.

(** While the third loop puts the nodes before [K] into the ranges of their
    dominators, from the end of each range. *)
Definition placed (K : Z) (dn : list Z) : Prop :=
  len dn = n - 1
  /\ (forall v, 0 <= v < n -> 0 < toPlace K v ->
        aget dn (firstDominated v) = toPlace K v)
  /\ (forall v j, 0 <= v < n -> toPlace K v <= j < dominatedCount n v ->
        exists u, from <= u < K /\ aget dom u = v
                  /\ aget dn (firstDominated v + j) = u * NF)
  /\ (forall u, from <= u < K ->
        exists j, toPlace K (aget dom u) <= j < dominatedCount n (aget dom u)
                  /\ aget dn (firstDominated (aget dom u) + j) = u * NF).

Lemma toPlace_step K v :
  from <= K < to ->
  toPlace (K + 1) v = toPlace K v - (if aget dom K =? v then 1 else 0)
  /\ 0 <= toPlace (K + 1) v.
Proof.
  intros HK. destruct scope_facts as (Hft & Htn & _). unfold toPlace.
  rewrite dominatedCount_step by lia. rewrite key_in_scope by done.
  pose proof (dominatedCount_mono (K + 1) n v ltac:(lia)) as Hm.
  rewrite dominatedCount_step in Hm by lia. rewrite key_in_scope in Hm by done.
  lia.
Qed.

Lemma placed_step idx K dn :
  (forall v, 0 <= v < n -> aget idx v = firstDominated v) ->
  from <= K < to -> placed K dn ->
  placed (K + 1)
    (aset32 (aset32 dn (aget idx (aget dom K))
               (aget dn (aget idx (aget dom K)) - 1))
       (aget idx (aget dom K) + (aget dn (aget idx (aget dom K)) - 1))
       (K * NF)).
Proof.
  intros Hidx HK (Hl & Hcount & Hslots & Hnodes).
  destruct scope_facts as (Hft & Htn & _).
  pose proof (Hdom K HK) as Hd. set (d := aget dom K) in *.
  rewrite (Hidx d Hd). set (ref := firstDominated d).
  destruct (toPlace_step K d HK) as [Hstep Hpos].
  fold d in Hstep. rewrite Z.eqb_refl in Hstep.
  destruct (dominated_range d Hd) as (Href0 & Hsum & Hend & _).
  assert (Hr : aget dn ref = toPlace K d) by (apply Hcount; [done|lia]).
  rewrite Hr. set (r := toPlace K d) in *.
  assert (Hrle : r <= dominatedCount n d).
  { unfold r, toPlace. pose proof (dominatedCount_bounds K d ltac:(lia)). lia. }
  set (dn2 := aset32 (aset32 dn ref (r - 1)) (ref + (r - 1)) (K * NF)).
  assert (Hother : forall x, x <> ref -> x <> ref + (r - 1) ->
            aget dn2 x = aget dn x).
  { intros x H1 H2. unfold dn2. by rewrite !aget_aset32_ne by lia. }
  assert (Hnew : aget dn2 (ref + (r - 1)) = K * NF).
  { unfold dn2. rewrite aget_aset32_eq by (rewrite len_aset32; lia).
    apply u32_small. nia. }
  assert (Hcell : 0 < r - 1 -> aget dn2 ref = r - 1).
  { intros Hgt. unfold dn2. rewrite aget_aset32_ne by lia.
    rewrite aget_aset32_eq by lia. apply u32_small.
    pose proof node_count_small. lia. }
  assert (Hfar : forall v j, 0 <= v < n -> v <> d ->
            0 <= j < dominatedCount n v ->
            aget dn2 (firstDominated v + j) = aget dn (firstDominated v + j)).
  { intros v j Hv Hne Hj.
    destruct (dominated_range v Hv) as (_ & Hsum' & _).
    apply Hother.
    - apply (dominated_disjoint v d); [done|lia|lia].
    - apply (dominated_disjoint v d); [done|lia|lia]. }
  split; [unfold dn2; by rewrite !len_aset32|]. split; [|split].
  - intros v Hv Hleft. destruct (toPlace_step K v HK) as [Hsv _].
    destruct (Z.eqb_spec (aget dom K) v) as [Heq|Hne].
    + fold d in Heq. subst v. fold r in Hsv. fold ref.
      rewrite Hcell by lia. lia.
    + fold d in Hne. rewrite Hsv, Z.sub_0_r in *.
      replace (firstDominated v) with (firstDominated v + 0) by lia.
      rewrite Hfar; [|done|done|].
      * rewrite Z.add_0_r. by apply Hcount.
      * unfold toPlace in Hleft.
        pose proof (dominatedCount_bounds K v ltac:(lia)). lia.
  - intros v j Hv Hj. destruct (toPlace_step K v HK) as [Hsv Hpv].
    destruct (Z.eqb_spec (aget dom K) v) as [Heq|Hne].
    + fold d in Heq. subst v. fold r in Hsv. fold ref.
      destruct (Z.eq_dec j (r - 1)) as [->|Hjne].
      * exists K. split; [lia|]. by split.
      * rewrite Hother by lia.
        destruct (Hslots d j Hd ltac:(fold r; lia)) as (u & Hu & Hdu & Hcellu).
        exists u. split; [lia|]. by split.
    + fold d in Hne. rewrite Hsv, Z.sub_0_r in Hj.
      rewrite Hfar; [|done|done|lia].
      destruct (Hslots v j Hv Hj) as (u & Hu & Hdu & Hcellu).
      exists u. split; [lia|]. by split.
  - intros u Hu. destruct (Z.eq_dec u K) as [->|Hne].
    + fold d. fold ref. exists (r - 1). rewrite Hstep. split; [lia|done].
    + destruct (Hnodes u ltac:(lia)) as (j & Hj & Hcellu).
      pose proof (Hdom u ltac:(lia)) as Hdu.
      destruct (toPlace_step K (aget dom u) HK) as [Hsu Hpu].
      exists j. destruct (Z.eqb_spec (aget dom K) (aget dom u)) as [Heq|Hne'].
      * fold d in Heq. rewrite <- Heq in *. fold r in Hj, Hsu. fold ref.
        split; [lia|]. rewrite Hother by lia. exact Hcellu.
      * fold d in Hne'. split; [lia|].
        rewrite Hfar; [done|done|by apply not_eq_sym|].
        unfold toPlace in Hj.
        pose proof (dominatedCount_mono K n (aget dom u) ltac:(lia)). lia.
Qed.

(** The three loops one after the other. *)
Definition groupDominated : list Z * list Z :=
  let idx := countDominated (new_array (n + 1)) in
  let '(_, idx, dn) := layoutDominated idx (new_array (n - 1)) in
  let idx := aset32 idx n (len dn) in
  (idx, fillDominated idx dn).

Lemma toPlace_from v : 0 <= v <= n -> toPlace from v = dominatedCount n v.
Proof. intros Hv. unfold toPlace. rewrite dominatedCount_from by done. lia. Qed.

Lemma toPlace_to v : 0 <= v <= n -> toPlace to v = 0.
Proof. intros Hv. unfold toPlace. rewrite dominatedCount_to by done. lia. Qed.

Lemma groupDominated_spec :
  len (fst groupDominated) = n + 1 /\ len (snd groupDominated) = n - 1
  /\ (forall v, 0 <= v <= n -> aget (fst groupDominated) v = firstDominated v)
  /\ (forall v j, 0 <= v < n -> 0 <= j < dominatedCount n v ->
        exists u, from <= u < to /\ aget dom u = v
                  /\ aget (snd groupDominated) (firstDominated v + j) = u * NF)
  /\ (forall u, from <= u < to ->
        exists j, 0 <= j < dominatedCount n (aget dom u)
                  /\ aget (snd groupDominated) (firstDominated (aget dom u) + j)
                     = u * NF).
Proof.
  destruct scope_facts as (Hft & Htn & _). pose proof node_count_small as Hsmall.
  unfold groupDominated. destruct countDominated_spec as [Hl Hc].
  pose proof (layoutDominated_spec _ (new_array (n - 1)) Hl
                (len_new_array (n - 1) ltac:(lia)) Hc) as Hlaid.
  destruct (layoutDominated _ _) as [[fd idx] dn].
  destruct Hlaid as (_ & Hl' & Hld & Hdone & _ & Hpark). cbn [fst snd].
  assert (Hidx : forall v, 0 <= v <= n ->
            aget (aset32 idx n (len dn)) v = firstDominated v).
  { intros v Hv. destruct (Z.eq_dec v n) as [->|Hne].
    - rewrite aget_aset32_eq by lia. rewrite Hld, firstDominated_n.
      apply u32_small. lia.
    - rewrite aget_aset32_ne by lia. apply Hdone. lia. }
  assert (Hplaced : placed to (fillDominated (aset32 idx n (len dn)) dn)).
  { unfold fillDominated. apply (for_range_ind1 placed); [lia| |].
    - split; [done|]. split; [|split].
      + intros v Hv. rewrite toPlace_from by lia. by apply Hpark.
      + intros v j Hv. rewrite toPlace_from by lia. lia.
      + intros u Hu. lia.
    - intros K dn' HK Hp. cbv zeta. apply placed_step; [|done|done].
      intros v Hv. apply Hidx. lia. }
  destruct Hplaced as (Hlen & _ & Hslots & Hnodes).
  split; [by rewrite len_aset32|]. split; [done|]. split; [done|]. split.
  - intros v j Hv Hj. apply Hslots; [done|]. rewrite toPlace_to by lia. done.
  - intros u Hu. destruct (Hnodes u Hu) as (j & Hj & Hcell).
    rewrite toPlace_to in Hj by (pose proof (Hdom u Hu); lia).
    exists j. by split.
Qed.
End DominatedNodes.

Lemma countP_ext p q K :
  (forall k, 0 <= k < K -> p k = q k) -> countP p K = countP q K.
Proof.
  intros H. destruct (Z_lt_le_dec K 0) as [|HK]; [by rewrite !countP_0 by lia|].
  assert (countP p K <= countP q K)
    by (apply countP_le; [done|]; intros k Hk Hp; by rewrite <- H).
  assert (countP q K <= countP p K)
    by (apply countP_le; [done|]; intros k Hk Hq; by rewrite H).
  lia.
Qed.

Lemma buildDominatedNodes_grouped L dom from to :
  (if quotient_is (rootNodeIndexInternal L) (nodeFieldCount L) 0
   then Ok (1, nodeCount L)
   else if quotient_is (rootNodeIndexInternal L) (nodeFieldCount L)
             (nodeCount L - 1)
   then Ok (0, nodeCount L - 1)
   else Throw RootNotFirstOrLast) = Ok (from, to) ->
  buildDominatedNodes L dom = Ok (groupDominated L dom from to).
Proof.
  intros Htest. unfold buildDominatedNodes, groupDominated. rewrite Htest.
  cbn [mbind result_bind]. unfold countDominated, layoutDominated, fillDominated.
  by destruct (for_range 0 _ 1 _ _) as [[fd idx] dn].
Qed.

(** What [buildDominatedNodes] returns when [c] is the ordinal of the root and
    the other nodes are those from [from] up to [to]. *)
Lemma groupDominated_by_dominator L dom from to c :
  0 < nodeFieldCount L -> 0 < nodeCount L ->
  nodeCount L * nodeFieldCount L <= 4294967296 ->
  (from = 1 /\ to = nodeCount L /\ c = 0)
  \/ (from = 0 /\ to = nodeCount L - 1 /\ c = nodeCount L - 1) ->
  (forall u, 0 <= u < nodeCount L -> u <> c -> 0 <= aget dom u < nodeCount L) ->
  let first := fst (groupDominated L dom from to) in
  let dn := snd (groupDominated L dom from to) in
  len first = nodeCount L + 1 /\ len dn = nodeCount L - 1
  /\ aget first 0 = 0 /\ aget first (nodeCount L) = nodeCount L - 1
  /\ (forall v, 0 <= v < nodeCount L ->
        aget first (v + 1)
        = aget first v
          + countP (fun u => negb (u =? c) && (aget dom u =? v)) (nodeCount L))
  /\ (forall v slot, 0 <= v < nodeCount L ->
        aget first v <= slot < aget first (v + 1) ->
        exists u, 0 <= u < nodeCount L /\ u <> c /\ aget dom u = v
                  /\ aget dn slot = u * nodeFieldCount L)
  /\ (forall u, 0 <= u < nodeCount L -> u <> c ->
        exists slot,
          aget first (aget dom u) <= slot < aget first (aget dom u + 1)
          /\ aget dn slot = u * nodeFieldCount L).
Proof.
  intros HNF Hn Hsize Hcase Hdom first dn.
  assert (Hscope : (from = 1 /\ to = nodeCount L)
                   \/ (from = 0 /\ to = nodeCount L - 1))
    by (destruct Hcase as [(? & ? & ?)|(? & ? & ?)]; [by left|by right]).
  assert (Hin : forall u, from <= u < to <-> 0 <= u < nodeCount L /\ u <> c)
    by (intros u; destruct Hcase as [(? & ? & ?)|(? & ? & ?)]; lia).
  assert (Hdom' : forall u, from <= u < to -> 0 <= aget dom u < nodeCount L).
  { intros u Hu. apply Hin in Hu as [Hu Hne]. by apply Hdom. }
  destruct (groupDominated_spec L dom from to HNF Hn Hsize Hscope Hdom')
    as (Hl & Hld & Hidx & Hslots & Hnodes).
  fold first in Hl, Hidx. fold dn in Hld, Hslots, Hnodes.
  pose proof (key_in_scope L dom from to HNF Hn Hsize Hscope Hdom') as Hkin.
  pose proof (key_out_of_scope L dom from to HNF Hn Hsize Hscope Hdom') as Hkout.
  pose proof (firstDominated_succ L dom from to HNF Hn Hsize Hscope Hdom') as Hsucc.
  assert (Hcount : forall v, 0 <= v < nodeCount L ->
            dominatedCount L dom from to (nodeCount L) v
            = countP (fun u => negb (u =? c) && (aget dom u =? v)) (nodeCount L)).
  { intros v Hv. unfold dominatedCount. apply countP_ext. intros k Hk.
    destruct (Z.eqb_spec k c) as [->|Hne]; cbn [negb andb].
    - rewrite Hkout by (rewrite Hin; lia). apply Z.eqb_neq. lia.
    - by rewrite Hkin by (rewrite Hin; lia). }
  split; [done|]. split; [done|].
  split; [rewrite Hidx by lia; by apply (firstDominated_0 L dom from to)|].
  split; [rewrite Hidx by lia; by apply (firstDominated_n L dom from to)|].
  split; [|split].
  - intros v Hv. rewrite !Hidx by lia. rewrite Hsucc.
    by rewrite Hcount.
  - intros v slot Hv. rewrite !Hidx by lia. rewrite Hsucc.
    intros Hslot.
    destruct (Hslots v (slot - firstDominated L dom from to v) Hv ltac:(lia))
      as (u & Hu & Hdu & Hcell).
    exists u. apply Hin in Hu as [Hu Hne].
    replace (firstDominated L dom from to v
             + (slot - firstDominated L dom from to v)) with slot in Hcell by lia.
    done.
  - intros u Hu Hne. destruct (Hnodes u ltac:(rewrite Hin; done))
      as (j & Hj & Hcell).
    pose proof (Hdom u Hu Hne) as Hd.
    exists (firstDominated L dom from to (aget dom u) + j).
    rewrite !Hidx by lia. rewrite Hsucc. split; [lia|done].
Qed.

(** X14. [buildDominatedNodes] groups the nodes by their dominator: when the
    root is the first or the last node and every other node has a dominator
    among the nodes, the ranges [[first[v], first[v+1])] start at 0, end at
    [nodeCount - 1] and are as long as the number of nodes (other than the
    root) that [v] dominates; every slot of the range of [v] holds the index
    of such a node, and every node other than the root is found in the range
    of its dominator. *)
Theorem buildDominatedNodes_groups_by_dominator (L : Layout) (dom : list Z) :
  let NF := nodeFieldCount L in
  let n := nodeCount L in
  let root := rootNodeIndexInternal L / NF in
  0 < NF -> 0 < n -> n * NF <= 4294967296 ->
  rootNodeIndexInternal L = 0 \/ rootNodeIndexInternal L = (n - 1) * NF ->
  (forall u, 0 <= u < n -> u <> root -> 0 <= aget dom u < n) ->
  exists first dn,
    buildDominatedNodes L dom = Ok (first, dn)
    /\ len first = n + 1 /\ len dn = n - 1
    /\ aget first 0 = 0 /\ aget first n = n - 1
    /\ (forall v, 0 <= v < n ->
          aget first (v + 1)
          = aget first v
            + countP (fun u => negb (u =? root) && (aget dom u =? v)) n)
    /\ (forall v slot, 0 <= v < n ->
          aget first v <= slot < aget first (v + 1) ->
          exists u, 0 <= u < n /\ u <> root /\ aget dom u = v
                    /\ aget dn slot = u * NF)
    /\ (forall u, 0 <= u < n -> u <> root ->
          exists slot,
            aget first (aget dom u) <= slot < aget first (aget dom u + 1)
            /\ aget dn slot = u * NF).
Proof.
  intros NF n root HNF Hn Hsize Hroot Hdom.
  assert (Hcase : exists from to,
            buildDominatedNodes L dom = Ok (groupDominated L dom from to)
            /\ ((from = 1 /\ to = n /\ root = 0)
                \/ (from = 0 /\ to = n - 1 /\ root = n - 1))).
  { destruct (Z.eq_dec (rootNodeIndexInternal L) 0) as [H0|Hne].
    - exists 1, n. split; [|left; unfold root; by rewrite H0].
      apply buildDominatedNodes_grouped. unfold quotient_is. rewrite H0.
      fold NF. by destruct (Z.ltb_spec 0 NF); [|lia].
    - destruct Hroot as [|Hlast]; [done|].
      exists 0, (n - 1). split.
      + apply buildDominatedNodes_grouped. unfold quotient_is. fold NF n.
        destruct (Z.ltb_spec 0 NF); [|lia]. cbn [andb].
        destruct (Z.eqb_spec (rootNodeIndexInternal L) (0 * NF)); [lia|].
        by destruct (Z.eqb_spec (rootNodeIndexInternal L) ((n - 1) * NF)).
      + right. unfold root. rewrite Hlast, Z.div_mul by lia. done. }
  destruct Hcase as (from & to & Hrun & Hcase).
  exists (fst (groupDominated L dom from to)), (snd (groupDominated L dom from to)).
  split; [by rewrite Hrun, <- surjective_pairing|].
  apply (groupDominated_by_dominator L dom from to root HNF Hn Hsize Hcase Hdom).
Qed.

Lemma buildDominatedNodes_groups_by_dominator_witness :
  let L := layout_of unreachable_cycle in
  exists first dn,
    buildDominatedNodes L [0; 0; 0; 0] = Ok (first, dn)
    /\ len first = 5 /\ len dn = 3
    /\ aget first 0 = 0 /\ aget first 4 = 3
    /\ (forall v, 0 <= v < 4 ->
          aget first (v + 1)
          = aget first v
            + countP (fun u => negb (u =? 0) && (aget [0; 0; 0; 0] u =? v)) 4)
    /\ (forall v slot, 0 <= v < 4 ->
          aget first v <= slot < aget first (v + 1) ->
          exists u, 0 <= u < 4 /\ u <> 0 /\ aget [0; 0; 0; 0] u = v
                    /\ aget dn slot = u * 7)
    /\ (forall u, 0 <= u < 4 -> u <> 0 ->
          exists slot,
            aget first (aget [0; 0; 0; 0] u) <= slot
              < aget first (aget [0; 0; 0; 0] u + 1)
            /\ aget dn slot = u * 7).
Proof.
  intros L.
  apply (buildDominatedNodes_groups_by_dominator L [0; 0; 0; 0]).
  - vm_compute. reflexivity.
  - vm_compute. reflexivity.
  - vm_compute. discriminate.
  - left. vm_compute. reflexivity.
  - intros u Hu _. change (nodeCount L) with 4 in *.
    assert (Hcases : u = 0 \/ u = 1 \/ u = 2 \/ u = 3) by lia.
    destruct Hcases as [->|[->|[->| ->]]]; vm_compute;
      (split; [discriminate|reflexivity]).
Defined.

(** ** Shallow sizes: owners and the sizes that move *)

Section ShallowSizesProof.
Variable L : Layout.
Variable edges : list Z.
Variable strings : list string.
Variable fei : list Z.

Local Abbreviation NF := (nodeFieldCount L).
Local Abbreviation EF := (edgeFieldsCount L).
Local Abbreviation n := (nodeCount L).

Hypothesis Hwf : wf_edges L edges fei = true.
Hypothesis Hsmall : n < kHasMultipleOwners.

Local Set Default Proof Using "All".

(** What a cell of [owners] can hold. *)
Definition allowed (x : Z) : Prop :=
  0 <= x < n \/ x = kUnvisited \/ x = kHasMultipleOwners.

(** An unvisited node can enter the worklist twice more, a node with one
    owner once more, a node with several owners never again. *)
Definition weight (x : Z) : Z :=
  if x =? kUnvisited then 2 else if x =? kHasMultipleOwners then 0 else 1.

Definition weights (owners : list Z) (K : Z) : Z :=
  sumZ (map (fun i => weight (aget owners i)) (range 0 K 1)).

Definition own_inv (st : list Z * list Z) : Prop :=
  let '(owners, worklist) := st in
  len owners = n
  /\ (forall i, 0 <= i < n -> allowed (aget owners i))
  /\ (forall id, In id worklist -> 0 <= id < n /\ aget owners id <> kUnvisited).

Definition owner_work (st : list Z * list Z) : Z :=
  let '(owners, worklist) := st in
  Z.of_nat (length worklist) + weights owners n.

Lemma weight_bounds x : 0 <= weight x <= 2.
Proof.
  unfold weight. destruct (x =? kUnvisited); [lia|].
  destruct (x =? kHasMultipleOwners); lia.
Qed.

Lemma weight_owner x : x <> kUnvisited -> weight x <= 1.
Proof.
  intros Hx. unfold weight. destruct (Z.eqb_spec x kUnvisited); [done|].
  destruct (x =? kHasMultipleOwners); lia.
Qed.

Lemma weight_node x : 0 <= x < n -> weight x = 1.
Proof.
  intros Hx. unfold weight, kUnvisited, kHasMultipleOwners in *.
  destruct (Z.eqb_spec x 4294967295); [lia|].
  destruct (Z.eqb_spec x 4294967294); [lia|done].
Qed.

Lemma allowed_small x : allowed x -> 0 <= x < 4294967296.
Proof. unfold allowed, kUnvisited, kHasMultipleOwners in *. lia. Qed.

Lemma weights_nonneg owners K : 0 <= weights owners K.
Proof. apply sumZ_nonneg. intros i _. apply weight_bounds. Qed.

Lemma weights_snoc owners K :
  0 <= K -> weights owners (K + 1) = weights owners K + weight (aget owners K).
Proof.
  intros HK. unfold weights. rewrite range1_snoc by done.
  rewrite map_app, sumZ_app. unfold sumZ at 2. cbn [map fold_right]. lia.
Qed.

Lemma weights_ext a b K :
  (forall j, 0 <= j < K -> aget a j = aget b j) -> weights a K = weights b K.
Proof.
  intros H. unfold weights. apply sumZ_map_ext. intros j Hj.
  apply In_range1 in Hj. by rewrite H.
Qed.

Lemma weights_set owners t x :
  len owners = n -> 0 <= t < n -> 0 <= x < 4294967296 ->
  weights (aset32 owners t x) n
  = weights owners n - weight (aget owners t) + weight x.
Proof.
  intros Hl Ht Hx. unfold weights.
  rewrite (sumZ_map_ext _
             (fun i => weight (aget owners i)
                       + (if i =? t then weight x - weight (aget owners t) else 0))).
  - rewrite sumZ_map_add, sumZ_point; [lia|by apply NoDup_range|].
    by apply In_range1.
  - intros i Hi. unfold aset32. rewrite aget_aset, u32_small by done.
    destruct (Z.eqb_spec i t) as [->|Hne].
    + rewrite Z.eqb_refl. destruct (Z.leb_spec 0 t); [|lia].
      destruct (Z.ltb_spec t (len owners)); [|lia]. cbn [andb]. lia.
    + destruct (Z.eqb_spec t i); [lia|]. cbn [andb]. lia.
Qed.

(** One edge of the node [id], whose owner is [owner]. *)
Lemma updateOwner_inv id owner e st :
  0 <= id < n -> edge_of L fei id e -> allowed owner -> owner <> kUnvisited ->
  own_inv st ->
  own_inv (updateOwner L edges owner e st)
  /\ owner_work (updateOwner L edges owner e st) <= owner_work st.
Proof.
  destruct st as [owners wl]. intros Hid He Hown HownU (Hl & Hall & Hwl).
  unfold updateOwner. destruct (edge_isWeak L edges e); [by split|].
  unfold edge_nodeIndex.
  pose proof (wf_edge_target L edges fei id e Hwf Hid He) as [_ Ht].
  set (t := aget edges (e + edgeToNodeOffset L) / NF) in *.
  pose proof (allowed_small owner Hown) as Hos.
  assert (Hset : forall x, allowed x -> x <> kUnvisited ->
            weight x < weight (aget owners t) ->
            own_inv (aset32 owners t x, t :: wl)
            /\ owner_work (aset32 owners t x, t :: wl) <= owner_work (owners, wl)).
  { intros x Hx HxU Hless. pose proof (allowed_small x Hx) as Hxs.
    assert (Hread : forall i, aget (aset32 owners t x) i
                              = if i =? t then x else aget owners i).
    { intros i. unfold aset32. rewrite aget_aset, u32_small by done.
      destruct (Z.eqb_spec i t) as [->|Hne].
      - rewrite Z.eqb_refl. destruct (Z.leb_spec 0 t); [|lia].
        by destruct (Z.ltb_spec t (len owners)); [|lia].
      - by destruct (Z.eqb_spec t i); [lia|]. }
    split; [split; [|split]|].
    - by rewrite len_aset32.
    - intros i Hi. rewrite Hread. destruct (i =? t); [done|by apply Hall].
    - intros id' [<-|Hin].
      + split; [done|]. rewrite Hread, Z.eqb_refl. done.
      + destruct (Hwl id' Hin) as [Hr HU]. split; [done|].
        rewrite Hread. by destruct (id' =? t).
    - unfold owner_work. rewrite weights_set by done. cbn [length]. lia. }
  destruct (Z.eqb_spec (aget owners t) kUnvisited) as [HU|HnU].
  { apply Hset; [done|done|]. rewrite HU.
    pose proof (weight_owner owner HownU). unfold weight at 2.
    rewrite Z.eqb_refl. lia. }
  destruct (Z.eqb_spec (aget owners t) t) as [|Hnt]; [by split|].
  destruct (Z.eqb_spec (aget owners t) owner) as [|Hno]; [by split|].
  destruct (Z.eqb_spec (aget owners t) kHasMultipleOwners) as [|HnM]; [by split|].
  cbn [orb]. apply Hset.
  - right. by right.
  - unfold kHasMultipleOwners, kUnvisited. lia.
  - destruct (Hall t Ht) as [Hnode|[HU|HM]]; [|done|done].
    rewrite (weight_node _ Hnode). unfold weight, kHasMultipleOwners, kUnvisited.
    cbn. lia.
Qed.

(** All the edges of the node [id]. *)
Lemma updateOwners_inv id owner st :
  0 <= id < n -> allowed owner -> owner <> kUnvisited -> own_inv st ->
  own_inv (fold_left (fun st e => updateOwner L edges owner e st)
             (edgesOf L fei id) st)
  /\ owner_work (fold_left (fun st e => updateOwner L edges owner e st)
                   (edgesOf L fei id) st) <= owner_work st.
Proof.
  intros Hid Hown HownU Hst.
  destruct (wf_edges_spec L edges fei Hwf) as (_ & HEF & _).
  change (fold_left (fun st e => updateOwner L edges owner e st)
            (edgesOf L fei id) st)
    with (for_range (aget fei id) (aget fei (id + 1)) EF
            (fun e st => updateOwner L edges owner e st) st).
  destruct (for_range_ind
              (fun i s => (i - aget fei id) mod EF = 0
                          /\ own_inv s /\ owner_work s <= owner_work st)
              (aget fei id) (aget fei (id + 1)) EF
              (fun e st => updateOwner L edges owner e st) st)
    as (e & _ & _ & _ & _ & Hend); [done| | |done].
  - split; [rewrite Z.sub_diag; by apply Z.mod_0_l, Z.neq_sym, Z.lt_neq|].
    split; [done|lia].
  - intros i s Hi (Hal & Hs & Hw). split.
    + replace (i + EF - aget fei id) with (i - aget fei id + EF) by lia.
      by apply aligned_add.
    + destruct (updateOwner_inv id owner i s Hid (conj Hi Hal) Hown HownU Hs)
        as [Hs' Hw'].
      split; [done|lia].
Qed.

Lemma propagateOwners_ends fuel :
  forall st, own_inv st -> owner_work st <= Z.of_nat fuel ->
    exists owners,
      propagateOwners L edges fei fuel st = Ok owners
      /\ len owners = n /\ forall i, 0 <= i < n -> allowed (aget owners i).
Proof.
  induction fuel as [|fuel IH]; intros [owners wl] Hst Hfuel;
    cbn [propagateOwners]; pose proof (weights_nonneg owners n) as Hw;
    unfold owner_work in Hfuel.
  - destruct wl as [|id rest]; [|cbn [length] in Hfuel; lia].
    exists owners. destruct Hst as (Hl & Hall & _). by split.
  - destruct wl as [|id rest].
    { exists owners. destruct Hst as (Hl & Hall & _). by split. }
    destruct Hst as (Hl & Hall & Hwl).
    destruct (Hwl id ltac:(by left)) as [Hid HidU].
    destruct (updateOwners_inv id (aget owners id) (owners, rest) Hid
                (Hall id Hid) HidU) as [Hst' Hw'].
    { split; [done|]. split; [done|]. intros id' Hin. apply Hwl. by right. }
    apply IH; [done|]. unfold owner_work in Hw' at 2. cbn [length] in Hfuel. lia.
Qed.

(** While the first loop fills [owners]. *)
Definition owners_seeded (i : Z) (st : list Z * list Z) : Prop :=
  let '(owners, worklist) := st in
  len owners = n
  /\ (forall j, 0 <= j < i -> allowed (aget owners j))
  /\ (forall id, In id worklist -> 0 <= id < i /\ aget owners id = id)
  /\ Z.of_nat (length worklist) + weights owners i <= 2 * i.

Lemma initialOwners_inv nodes :
  own_inv (initialOwners L nodes) /\ owner_work (initialOwners L nodes) <= 2 * n.
Proof.
  destruct (wf_edges_spec L edges fei Hwf) as (_ & _ & _ & Hn & _).
  enough (H : owners_seeded n (initialOwners L nodes)).
  { destruct (initialOwners L nodes) as [owners wl].
    destruct H as (Hl & Hall & Hwl & Hw). split; [|done].
    split; [done|]. split; [done|]. intros id Hin.
    destruct (Hwl id Hin) as [Hid Heq]. split; [done|].
    rewrite Heq. unfold kUnvisited, kHasMultipleOwners in *. lia. }
  unfold initialOwners. apply (for_range_ind1 owners_seeded); [done| |].
  - split; [by apply len_new_array|]. split; [intros j Hj; lia|].
    split; [intros id []|]. unfold weights. rewrite range_stop by lia.
    cbn. lia.
  - intros i [owners wl] Hi (Hl & Hall & Hwl & Hw).
    assert (Hsmall' : 0 <= i < 4294967296)
      by (unfold kHasMultipleOwners in Hsmall; lia).
    assert (Hnew : forall x, 0 <= x < 4294967296 ->
              aget (aset32 owners i x) i = x
              /\ (forall j, j <> i -> aget (aset32 owners i x) j = aget owners j)
              /\ weights (aset32 owners i x) (i + 1) = weights owners i + weight x).
    { intros x Hx. assert (Hcell : aget (aset32 owners i x) i = x).
      { rewrite aget_aset32_eq by lia. by apply u32_small. }
      split; [done|]. split; [intros j Hj; by rewrite aget_aset32_ne by lia|].
      rewrite weights_snoc by lia. rewrite Hcell. f_equal.
      apply weights_ext. intros j Hj. by rewrite aget_aset32_ne by lia. }
    destruct (_ || _).
    + destruct (Hnew kUnvisited ltac:(unfold kUnvisited; lia))
        as (Hcell & Hrest & Hweights).
      split; [by rewrite len_aset32|]. split; [|split].
      * intros j Hj. destruct (Z.eq_dec j i) as [->|Hne].
        -- rewrite Hcell. right. by left.
        -- rewrite Hrest by done. apply Hall. lia.
      * intros id Hin. destruct (Hwl id Hin) as [Hid Heq].
        split; [lia|]. rewrite Hrest by lia. done.
      * rewrite Hweights. unfold weight. rewrite Z.eqb_refl. lia.
    + destruct (Hnew i Hsmall') as (Hcell & Hrest & Hweights).
      split; [by rewrite len_aset32|]. split; [|split].
      * intros j Hj. destruct (Z.eq_dec j i) as [->|Hne].
        -- rewrite Hcell. left. lia.
        -- rewrite Hrest by done. apply Hall. lia.
      * intros id [<-|Hin]; [split; [lia|done]|].
        destruct (Hwl id Hin) as [Hid Heq].
        split; [lia|]. rewrite Hrest by lia. done.
      * rewrite Hweights, (weight_node i Hi). cbn [length]. lia.
Qed.

Lemma owners_end nodes :
  exists owners,
    propagateOwners L edges fei (Z.to_nat (3 * n + 1)) (initialOwners L nodes)
    = Ok owners
    /\ len owners = n /\ forall i, 0 <= i < n -> allowed (aget owners i).
Proof.
  destruct (wf_edges_spec L edges fei Hwf) as (_ & _ & _ & Hn & _).
  destruct (initialOwners_inv nodes) as [Hinv Hw].
  apply propagateOwners_ends; [done|lia].
Qed.
End ShallowSizesProof.

Lemma sumZ_map_le {A} (f g : A -> Z) (xs : list A) :
  (forall x, In x xs -> f x <= g x) -> sumZ (map f xs) <= sumZ (map g xs).
Proof.
  induction xs as [|x xs IH]; intros H; simpl; [lia|].
  pose proof (H x ltac:(by left)).
  assert (sumZ (map f xs) <= sumZ (map g xs))
    by (apply IH; intros y Hy; apply H; by right).
  lia.
Qed.

(** Two terms of a sum of numbers that are not negative. *)
Lemma two_le_total (f : Z -> Z) (xs : list Z) i o :
  List.NoDup xs -> In i xs -> In o xs -> i <> o ->
  (forall x, In x xs -> 0 <= f x) -> f i + f o <= sumZ (map f xs).
Proof.
  intros Hnd Hi Ho Hne Hpos.
  rewrite <- (sumZ_point i (f i) xs Hnd Hi) at 1.
  rewrite <- (sumZ_point o (f o) xs Hnd Ho) at 1.
  rewrite <- sumZ_map_add. apply sumZ_map_le. intros x Hx.
  pose proof (Hpos x Hx).
  destruct (Z.eqb_spec x i) as [Hxi|_], (Z.eqb_spec x o) as [Hxo|_];
    subst; lia.
Qed.

Section ShallowSizesMoved.
Variable L : Layout.
Variable nodes0 : list Z.

Local Abbreviation NF := (nodeFieldCount L).
Local Abbreviation n := (nodeCount L).
Local Abbreviation sizeOff := (nodeSelfSizeOffset L).

Hypothesis HNF : 0 < NF.
Hypothesis Hn : 0 <= n.
Hypothesis Hoff : 0 <= sizeOff < NF.
Hypothesis Hlen : len nodes0 = n * NF.

Local Set Default Proof Using "All".

Definition size_of (nodes : list Z) (v : Z) : Z := aget nodes (v * NF + sizeOff).

Definition total_size (nodes : list Z) : Z :=
  sumZ (map (size_of nodes) (range 0 n 1)).

(** What the last loop keeps: the sizes add up to what they added up to, and
    nothing but self sizes is written. *)
Definition sizes_kept (nodes : list Z) : Prop :=
  len nodes = len nodes0
  /\ (forall v, 0 <= v < n -> 0 <= size_of nodes v)
  /\ total_size nodes = total_size nodes0
  /\ (forall v f, 0 <= f < NF -> f <> sizeOff ->
        aget nodes (v * NF + f) = aget nodes0 (v * NF + f)).

(** The size of [i] moves to its owner [o]. *)
Lemma transfer_kept nodes i o :
  total_size nodes0 < 4294967296 ->
  sizes_kept nodes -> 0 <= i < n -> 0 <= o < n -> o <> i ->
  sizes_kept
    (aset32 (aset32 nodes (i * NF + sizeOff) 0) (o * NF + sizeOff)
       (aget (aset32 nodes (i * NF + sizeOff) 0) (o * NF + sizeOff)
        + aget nodes (i * NF + sizeOff))).
Proof.
  intros Htotal (Hl & Hpos & Hsum & Hrest) Hi Ho Hne.
  assert (Hci : 0 <= i * NF + sizeOff < len nodes) by (rewrite Hl, Hlen; nia).
  assert (Hco : 0 <= o * NF + sizeOff < len nodes) by (rewrite Hl, Hlen; nia).
  assert (Hcells : forall v w f g, 0 <= f < NF -> 0 <= g < NF ->
            v * NF + f = w * NF + g -> v = w /\ f = g).
  { intros v w f g Hf Hg Heq. assert (v = w) by nia. subst. lia. }
  assert (Hdiff : i * NF + sizeOff <> o * NF + sizeOff).
  { intros Heq. apply Hcells in Heq as [Heq _]; [lia|done|done]. }
  rewrite (aget_aset32_ne _ _ (o * NF + sizeOff)) by done.
  fold (size_of nodes o). fold (size_of nodes i).
  pose proof (two_le_total (size_of nodes) (range 0 n 1) i o
                (NoDup_range 0 n 1 ltac:(lia)) ltac:(by apply In_range1)
                ltac:(by apply In_range1) ltac:(lia)) as Hle.
  fold (total_size nodes) in Hle. rewrite Hsum in Hle.
  specialize (Hle ltac:(intros x Hx; apply Hpos; by apply In_range1)).
  pose proof (Hpos i Hi) as Hpi. pose proof (Hpos o Ho) as Hpo.
  set (nodes2 := aset32 (aset32 nodes (i * NF + sizeOff) 0) (o * NF + sizeOff)
                   (size_of nodes o + size_of nodes i)).
  assert (Hread : forall v, 0 <= v < n ->
            size_of nodes2 v
            = size_of nodes v
              + (if v =? i then - size_of nodes i else 0)
              + (if v =? o then size_of nodes i else 0)).
  { intros v Hv. unfold size_of at 1. unfold nodes2.
    destruct (Z.eqb_spec v o) as [->|Hvo].
    - rewrite aget_aset32_eq by (by rewrite len_aset32).
      rewrite u32_small by lia. destruct (Z.eqb_spec o i); lia.
    - rewrite aget_aset32_ne
        by (intros Heq; apply Hcells in Heq as [Heq _]; [lia|done|done]).
      destruct (Z.eqb_spec v i) as [->|Hvi].
      + rewrite aget_aset32_eq by done. rewrite u32_small by lia. lia.
      + rewrite aget_aset32_ne
          by (intros Heq; apply Hcells in Heq as [Heq _]; [lia|done|done]).
        unfold size_of. lia. }
  split; [unfold nodes2; by rewrite !len_aset32|]. split; [|split].
  - intros v Hv. rewrite Hread by done. pose proof (Hpos v Hv).
    destruct (Z.eqb_spec v i) as [Hvi|_], (Z.eqb_spec v o) as [Hvo|_];
      subst; lia.
  - rewrite <- Hsum. unfold total_size.
    rewrite (sumZ_map_ext _
               (fun v => size_of nodes v
                         + (if v =? i then - size_of nodes i else 0)
                         + (if v =? o then size_of nodes i else 0))).
    + rewrite !sumZ_map_add.
      rewrite !sumZ_point;
        [lia|by apply NoDup_range|by apply In_range1|by apply NoDup_range
        |by apply In_range1].
    + intros v Hv. apply Hread. by apply In_range1.
  - intros v f Hf Hfne. unfold nodes2.
    rewrite !aget_aset32_ne
      by (intros Heq; apply Hcells in Heq as [_ Heq]; [lia|done|done]).
    by apply Hrest.
Qed.

Lemma transferSizes_kept owners :
  total_size nodes0 < 4294967296 ->
  (forall v, 0 <= v < n -> 0 <= size_of nodes0 v) ->
  (forall i, 0 <= i < n -> allowed L (aget owners i)) ->
  sizes_kept (transferSizes L owners nodes0).
Proof.
  intros Htotal Hpos Hall. unfold transferSizes.
  apply (for_range_ind1 (fun _ => sizes_kept)); [done|by split|].
  intros i nodes Hi Hk. cbv zeta.
  destruct (Z.eqb_spec (aget owners i) kUnvisited) as [|HU]; [done|].
  destruct (Z.eqb_spec (aget owners i) kHasMultipleOwners) as [|HM]; [done|].
  destruct (Z.eqb_spec (aget owners i) i) as [|Hself]; [done|]. cbn [orb].
  destruct (_ || _); [done|].
  destruct (Hall i Hi) as [Ho|[|]]; [|done|done].
  by apply transfer_kept.
Qed.
End ShallowSizesMoved.

(** The root holds the object [W], which alone holds the hidden node [H]. *)
Definition hidden_child : Profile :=
  {| meta := v8_meta;
     p_nodes :=
       [9; 0; 1; 0; 1; 0; 0;     (* root *)
        3; 1; 3; 8; 1; 0; 0;     (* W *)
        0; 2; 5; 16; 0; 0; 0];   (* H, hidden *)
     p_edges :=
       [2; 3; 7;                 (* root -> W *)
        3; 3; 14];               (* W -> H, internal *)
     p_strings := [""; "W"; "H"; "p"]%string;
     root_index := 0 |}.

(** X15. Past its early exits, [calculateShallowSizes] ends and only moves
    self sizes around: on a well-formed snapshot with fewer than 0xfffffffe
    nodes whose self sizes add up to less than 2^32, it returns a node array
    of the same length in which the self sizes have the same total and every
    other field is unchanged. *)
Theorem calculateShallowSizes_keeps_total_size (L : Layout) (edges : list Z)
    (strings : list string) (fei nodes : list Z) :
  wf_edges L edges fei = true ->
  nodeCount L < kHasMultipleOwners ->
  0 <= nodeSelfSizeOffset L < nodeFieldCount L ->
  len nodes = nodeCount L * nodeFieldCount L ->
  (forall v, 0 <= v < nodeCount L -> 0 <= size_of L nodes v) ->
  total_size L nodes < 4294967296 ->
  exists nodes',
    calculateShallowSizes L edges strings fei nodes = Ok nodes'
    /\ len nodes' = len nodes
    /\ total_size L nodes' = total_size L nodes
    /\ forall v f, 0 <= f < nodeFieldCount L -> f <> nodeSelfSizeOffset L ->
         aget nodes' (v * nodeFieldCount L + f)
         = aget nodes (v * nodeFieldCount L + f).
Proof.
  intros Hwf Hsmall Hoff Hlen Hpos Htotal.
  destruct (wf_edges_spec L edges fei Hwf) as (HNF & _ & _ & Hn & _).
  unfold calculateShallowSizes. destruct (negb _).
  { exists nodes. by repeat split. }
  destruct (Z.geb_spec (nodeCount L) kHasMultipleOwners) as [|_]; [lia|].
  destruct (owners_end L edges strings fei Hwf Hsmall nodes)
    as (owners & -> & _ & Hall).
  cbn [mbind result_bind]. eexists. split; [reflexivity|].
  destruct (transferSizes_kept L nodes HNF Hn Hoff Hlen owners Htotal Hpos Hall)
    as (Hl & _ & Hsum & Hrest).
  by repeat split.
Qed.

Lemma calculateShallowSizes_keeps_total_size_witness :
  let p := hidden_child in
  let L := layout_of p in
  let fei := buildEdgeIndexes L (p_nodes p) (p_edges p) in
  exists nodes',
    calculateShallowSizes L (p_edges p) (p_strings p) fei (p_nodes p) = Ok nodes'
    /\ len nodes' = 21
    /\ total_size L nodes' = 24
    /\ forall v f, 0 <= f < 7 -> f <> 3 ->
         aget nodes' (v * 7 + f) = aget (p_nodes p) (v * 7 + f).
Proof.
  intros p L fei.
  apply (calculateShallowSizes_keeps_total_size L (p_edges p) (p_strings p) fei
           (p_nodes p)).
  - vm_compute. reflexivity.
  - vm_compute. reflexivity.
  - vm_compute. split; [discriminate|reflexivity].
  - vm_compute. reflexivity.
  - intros v Hv. change (nodeCount L) with 3 in Hv.
    assert (Hcases : v = 0 \/ v = 1 \/ v = 2) by lia.
    destruct Hcases as [->|[->| ->]]; vm_compute; discriminate.
  - vm_compute. reflexivity.
Defined.

(** ** Iterators *)

(** [HeapSnapshotItemIterator].  An item is a view of the snapshot at an
    index, and is given here by that index ([itemIndex()]).  [next] can run
    out of fuel, for the iterator whose [next] is a loop. *)
Class ItemIterator (I : Type) : Type := {
  hasNext : I -> bool;
  item : I -> Z;
  next : I -> result I
}.

(** [HeapSnapshotNodeIterator]: the index of its node, the length of the
    node array and the field count of the snapshot. *)
Record HeapSnapshotNodeIterator : Type := {
  nit_nodeIndex : Z;
  nit_nodesLength : Z;
  nit_nodeFieldCount : Z
}.

#[export] Instance nodeIterator : ItemIterator HeapSnapshotNodeIterator := {|
  hasNext it := nit_nodeIndex it <? nit_nodesLength it;
  item it := nit_nodeIndex it;
  next it :=
    Ok {| nit_nodeIndex := nit_nodeIndex it + nit_nodeFieldCount it;
          nit_nodesLength := nit_nodesLength it;
          nit_nodeFieldCount := nit_nodeFieldCount it |}
|}.

(** [allNodes()] starts at the root node. *)
Definition allNodes (L : Layout) (nodes : list Z) : HeapSnapshotNodeIterator :=
  {| nit_nodeIndex := rootNodeIndexInternal L;
     nit_nodesLength := len nodes;
     nit_nodeFieldCount := nodeFieldCount L |}.

(** [HeapSnapshotIndexRangeIterator]; [itemForIndex(index)] is the item at
    [index]. *)
Record HeapSnapshotIndexRangeIterator : Type := {
  iri_indexes : list Z;
  iri_position : Z
}.

#[export] Instance indexRangeIterator : ItemIterator HeapSnapshotIndexRangeIterator := {|
  hasNext it := iri_position it <? len (iri_indexes it);
  item it := aget (iri_indexes it) (iri_position it);
  next it :=
    Ok {| iri_indexes := iri_indexes it; iri_position := iri_position it + 1 |}
|}.

(** [HeapSnapshotFilteredIterator]; [fi_fuel] bounds the loop of
    [skipFilteredItems]. *)
Record HeapSnapshotFilteredIterator (I : Type) : Type := {
  fi_iterator : I;
  fi_filter : option (Z -> bool);
  fi_fuel : nat
}.
Arguments fi_iterator {I} _.
Arguments fi_filter {I} _.
Arguments fi_fuel {I} _.

(** [this.#filter && !this.#filter(item)] *)
Definition rejects (filter : option (Z -> bool)) (x : Z) : bool :=
  match filter with
  | Some f => negb (f x)
  | None => false
  end.

Fixpoint skipFilteredItems {I} `{ItemIterator I} (filter : option (Z -> bool))
    (fuel : nat) (it : I) : result I :=
  if hasNext it && rejects filter (item it) then
    match fuel with
    | O => OutOfFuel
    | S fuel' => it' ← next it; skipFilteredItems filter fuel' it'
    end
  else Ok it.

(** The constructor skips to the first item that passes. *)
Definition newFilteredIterator {I} `{ItemIterator I} (it : I)
    (filter : option (Z -> bool)) (fuel : nat)
    : result (HeapSnapshotFilteredIterator I) :=
  it' ← skipFilteredItems filter fuel it;
  Ok {| fi_iterator := it'; fi_filter := filter; fi_fuel := fuel |}.

#[export] Instance filteredIterator {I} `{ItemIterator I}
    : ItemIterator (HeapSnapshotFilteredIterator I) := {|
  hasNext fi := hasNext (fi_iterator fi);
  item fi := item (fi_iterator fi);
  next fi :=
    it1 ← next (fi_iterator fi);
    it2 ← skipFilteredItems (fi_filter fi) (fi_fuel fi) it1;
    Ok {| fi_iterator := it2; fi_filter := fi_filter fi; fi_fuel := fi_fuel fi |}
|}.

(** The loop of [HeapSnapshotItemProvider.createIterationOrder]. *)
Fixpoint createIterationOrder {I} `{ItemIterator I} (fuel : nat) (it : I)
    (iterationOrder : list Z) : result (list Z) :=
  if hasNext it then
    match fuel with
    | O => OutOfFuel
    | S fuel' =>
        it' ← next it;
        createIterationOrder fuel' it' (iterationOrder ++ [item it])
    end
  else Ok iterationOrder.

(** The loop of [nodeForSnapshotObjectId]; the result is the index of the
    node, [None] for [null]. *)
Fixpoint findNode (L : Layout) (nodes : list Z) (snapshotObjectId : Z)
    (fuel : nat) (it : HeapSnapshotNodeIterator) : result (option Z) :=
  if hasNext it then
    match fuel with
    | O => OutOfFuel
    | S fuel' =>
        if node_id L nodes (item it) =? snapshotObjectId then Ok (Some (item it))
        else it' ← next it; findNode L nodes snapshotObjectId fuel' it'
    end
  else Ok None.

Definition nodeForSnapshotObjectId (L : Layout) (nodes : list Z)
    (snapshotObjectId : Z) : result (option Z) :=
  findNode L nodes snapshotObjectId (Z.to_nat (len nodes + 1)) (allNodes L nodes).

(** The items that an iterator gives before it ends. *)
Inductive yields {I} `{ItemIterator I} : I -> list Z -> Prop :=
  | yields_end it : hasNext it = false -> yields it []
  | yields_step it it' l :
      hasNext it = true -> next it = Ok it' -> yields it' l ->
      yields it (item it :: l).

Lemma yields_nodes idx length step :
  0 < step ->
  yields {| nit_nodeIndex := idx; nit_nodesLength := length;
            nit_nodeFieldCount := step |} (range idx length step).
Proof.
  intros Hs. remember (iters idx length step) as k eqn:Hk.
  revert idx Hk. induction k as [|k IH]; intros idx Hk.
  - destruct (Z_lt_le_dec idx length) as [Hlt|Hge].
    { rewrite iters_step in Hk by done. discriminate. }
    rewrite range_stop by done. apply yields_end. cbn. apply Z.ltb_ge. lia.
  - destruct (Z_lt_le_dec idx length) as [Hlt|Hge].
    2: { rewrite iters_stop in Hk by done. discriminate. }
    rewrite iters_step in Hk by done. injection Hk as Hk.
    rewrite range_step by done.
    set (it := {| nit_nodeIndex := idx; nit_nodesLength := length;
                  nit_nodeFieldCount := step |}).
    change (yields it (item it :: range (idx + step) length step)).
    apply (yields_step it
             {| nit_nodeIndex := idx + step; nit_nodesLength := length;
                nit_nodeFieldCount := step |}).
    + cbn. apply Z.ltb_lt. lia.
    + reflexivity.
    + by apply IH.
Qed.

Lemma yields_indexes l k :
  yields {| iri_indexes := l; iri_position := Z.of_nat k |} (drop k l).
Proof.
  remember (length l - k)%nat as m eqn:Hm.
  revert k Hm. induction m as [|m IH]; intros k Hm.
  - rewrite drop_ge by lia. apply yields_end. cbn. apply Z.ltb_ge.
    unfold len. lia.
  - destruct (lookup_lt_is_Some_2 l k ltac:(lia)) as [x Hx].
    rewrite (drop_S l x k Hx).
    assert (Hitem : item {| iri_indexes := l; iri_position := Z.of_nat k |} = x).
    { cbn. unfold aget. destruct (Z.ltb_spec (Z.of_nat k) 0); [lia|].
      by rewrite Nat2Z.id, Hx. }
    rewrite <- Hitem.
    apply (yields_step _ {| iri_indexes := l; iri_position := Z.of_nat (S k) |}).
    + cbn. apply Z.ltb_lt. unfold len. lia.
    + cbn. do 2 f_equal. lia.
    + apply IH. lia.
Qed.

Lemma createIterationOrder_yields {I} `{ItemIterator I} (it : I) l :
  yields it l ->
  forall fuel order, (length l <= fuel)%nat ->
    createIterationOrder fuel it order = Ok (order ++ l).
Proof.
  induction 1 as [it Hend|it it' l Hhas Hnext _ IH]; intros fuel order Hfuel.
  - destruct fuel; cbn [createIterationOrder]; rewrite Hend;
      by rewrite app_nil_r.
  - destruct fuel as [|fuel]; [cbn [length] in Hfuel; lia|].
    cbn [createIterationOrder]. rewrite Hhas, Hnext. cbn [mbind result_bind].
    rewrite IH by (cbn [length] in Hfuel; lia). by rewrite <- app_assoc.
Qed.

Section Filtered.
Context {I : Type} `{ItemIterator I}.
Variable filter : option (Z -> bool).

Definition accepts (x : Z) : bool := negb (rejects filter x).

(** [skipFilteredItems] stops at the first item that passes. *)
Lemma skipFilteredItems_spec (it : I) l :
  yields it l ->
  forall fuel, (length l <= fuel)%nat ->
    exists it' l',
      skipFilteredItems filter fuel it = Ok it'
      /\ yields it' l'
      /\ (length l' <= length l)%nat
      /\ List.filter accepts l' = List.filter accepts l
      /\ (hasNext it' = true -> rejects filter (item it') = false).
Proof.
  induction 1 as [it Hend|it it' l Hhas Hnext Hy IH]; intros fuel Hfuel.
  - exists it, []. split.
    { destruct fuel; cbn [skipFilteredItems]; by rewrite Hend. }
    split; [by apply yields_end|]. split; [done|]. split; [done|].
    intros Hhas. congruence.
  - destruct (rejects filter (item it)) eqn:Hrej.
    + destruct fuel as [|fuel]; [cbn [length] in Hfuel; lia|].
      destruct (IH fuel ltac:(cbn [length] in Hfuel; lia))
        as (it2 & l2 & Hskip & Hy2 & Hlen & Hfilter & Hhead).
      exists it2, l2. split.
      { cbn [skipFilteredItems]. rewrite Hhas, Hrej, Hnext.
        cbn [andb mbind result_bind]. exact Hskip. }
      split; [done|]. split; [cbn [length]; lia|]. split; [|done].
      rewrite Hfilter. cbn [List.filter]. unfold accepts at 2. by rewrite Hrej.
    + exists it, (item it :: l). split.
      { destruct fuel; cbn [skipFilteredItems]; by rewrite Hhas, Hrej. }
      split; [by eapply yields_step|]. by repeat split.
Qed.

(** A filtered iterator gives the items that pass, in their order. *)
Lemma filtered_yields fuel m :
  forall (it : I) l,
    (length l <= m)%nat -> (length l <= fuel)%nat -> yields it l ->
    (hasNext it = true -> rejects filter (item it) = false) ->
    yields {| fi_iterator := it; fi_filter := filter; fi_fuel := fuel |}
      (List.filter accepts l).
Proof.
  induction m as [|m IH]; intros it l Hm Hfuel Hy Hhead.
  - destruct l; [|cbn [length] in Hm; lia].
    inversion Hy as [it0 Hend|]; subst. by apply yields_end.
  - inversion Hy as [it0 Hend|it0 it1 l0 Hhas Hnext Hy1]; subst.
    { by apply yields_end. }
    cbn [List.filter]. unfold accepts at 1. rewrite (Hhead Hhas). cbn [negb].
    destruct (skipFilteredItems_spec it1 l0 Hy1 fuel
                ltac:(cbn [length] in Hfuel; lia))
      as (it2 & l2 & Hskip & Hy2 & Hlen & Hfilter & Hhead2).
    rewrite <- Hfilter.
    set (fit := {| fi_iterator := it; fi_filter := filter; fi_fuel := fuel |}).
    change (yields fit (item fit :: List.filter accepts l2)).
    apply (yields_step fit
             {| fi_iterator := it2; fi_filter := filter; fi_fuel := fuel |}).
    + exact Hhas.
    + cbn. rewrite Hnext. cbn [mbind result_bind]. by rewrite Hskip.
    + apply IH; [cbn [length] in Hm; lia|cbn [length] in Hfuel; lia|done|done].
Qed.
End Filtered.

Lemma accepts_filter (filter : option (Z -> bool)) (l : list Z) :
  List.filter (accepts filter) l
  = match filter with Some f => List.filter f l | None => l end.
Proof.
  destruct filter as [f|]; unfold accepts, rejects.
  - apply List.filter_ext. intros x. apply negb_involutive.
  - cbn [negb]. induction l as [|x l IH]; [done|]. cbn [List.filter]. by rewrite IH.
Qed.

(** X16. Iterating a [HeapSnapshotFilteredIterator] over a
    [HeapSnapshotIndexRangeIterator] gives, in their order, the indexes whose
    items pass the filter (all of them when there is no filter): this is the
    iteration order that [createIterationOrder] stores. *)
Theorem createIterationOrder_of_filtered_indexes (indexes : list Z)
    (filter : option (Z -> bool)) (fuel fuel' : nat) :
  (length indexes <= fuel)%nat -> (length indexes <= fuel')%nat ->
  exists fit,
    newFilteredIterator {| iri_indexes := indexes; iri_position := 0 |} filter fuel
    = Ok fit
    /\ createIterationOrder fuel' fit []
       = Ok (match filter with
             | Some f => List.filter f indexes
             | None => indexes
             end).
Proof.
  intros Hfuel Hfuel'.
  pose proof (yields_indexes indexes 0) as Hy.
  change (yields {| iri_indexes := indexes; iri_position := 0 |} indexes) in Hy.
  destruct (skipFilteredItems_spec filter _ _ Hy fuel Hfuel)
    as (it' & l' & Hskip & Hy' & Hlen & Hfilter & Hhead).
  unfold newFilteredIterator. rewrite Hskip. cbn [mbind result_bind].
  eexists. split; [reflexivity|].
  pose proof (filtered_yields filter fuel (length l') it' l' ltac:(lia)
                ltac:(lia) Hy' Hhead) as Hyf.
  rewrite (createIterationOrder_yields _ _ Hyf).
  - rewrite Hfilter, app_nil_l. by rewrite accepts_filter.
  - rewrite Hfilter. pose proof (List.filter_length_le (accepts filter) indexes).
    lia.
Qed.

Lemma createIterationOrder_of_filtered_indexes_witness :
  exists fit,
    newFilteredIterator {| iri_indexes := [3; 4; 5; 6]; iri_position := 0 |}
      (Some Z.even) 4 = Ok fit
    /\ createIterationOrder 4 fit [] = Ok [4; 6].
Proof.
  apply (createIterationOrder_of_filtered_indexes [3; 4; 5; 6] (Some Z.even) 4 4).
  - cbn [length]. lia.
  - cbn [length]. lia.
Defined.

Lemma length_range_le a b s :
  0 < s -> 0 <= a -> 0 <= b -> (length (range a b s) <= Z.to_nat (b + 1))%nat.
Proof.
  intros Hs Ha Hb. unfold range. rewrite length_map, length_seq. unfold iters.
  assert (Hq : (b - a + s - 1) / s < b + 1 + 1).
  { apply Z.div_lt_upper_bound; [done|]. nia. }
  lia.
Qed.

(** The first index of a range that passes a test. *)
Lemma find_in_range (p : Z -> bool) b s :
  0 < s ->
  forall k a, k = iters a b s ->
    match List.find p (range a b s) with
    | Some idx =>
        a <= idx < b /\ (idx - a) mod s = 0 /\ p idx = true
        /\ forall j, a <= j < idx -> (j - a) mod s = 0 -> p j = false
    | None => forall j, a <= j < b -> (j - a) mod s = 0 -> p j = false
    end.
Proof.
  intros Hs. induction k as [|k IH]; intros a Hk.
  - destruct (Z_lt_le_dec a b) as [Hlt|Hge].
    { rewrite iters_step in Hk by done. discriminate. }
    rewrite range_stop by done. cbn [List.find]. intros j Hj. lia.
  - destruct (Z_lt_le_dec a b) as [Hlt|Hge].
    2: { rewrite iters_stop in Hk by done. discriminate. }
    rewrite iters_step in Hk by done. injection Hk as Hk.
    rewrite range_step by done. cbn [List.find].
    assert (Hshift : forall j, (j - (a + s)) mod s = (j - a) mod s).
    { intros j. replace (j - (a + s)) with (j - a + (-1) * s) by lia.
      apply Z.mod_add. lia. }
    assert (Hsplit : forall j, a <= j -> (j - a) mod s = 0 -> j = a \/ a + s <= j).
    { intros j Hj Hal. destruct (Z.eq_dec j a) as [|Hne]; [by left|right].
      pose proof (aligned_next 0 (j - a) s Hs ltac:(by apply Z.mod_0_l, Z.neq_sym, Z.lt_neq)
                    Hal ltac:(lia)). lia. }
    destruct (p a) eqn:Hpa.
    + split; [lia|]. split; [rewrite Z.sub_diag; by apply Z.mod_0_l, Z.neq_sym, Z.lt_neq|].
      split; [done|]. intros j Hj. lia.
    + specialize (IH (a + s) Hk).
      destruct (List.find p (range (a + s) b s)) as [idx|].
      * destruct IH as (Hidx & Hal & Hp & Hfirst).
        split; [lia|]. split; [by rewrite <- Hshift|]. split; [done|].
        intros j Hj Halj. destruct (Hsplit j ltac:(lia) Halj) as [->|Hge]; [done|].
        apply Hfirst; [lia|by rewrite Hshift].
      * intros j Hj Halj. destruct (Hsplit j ltac:(lia) Halj) as [->|Hge]; [done|].
        apply IH; [lia|by rewrite Hshift].
Qed.

Lemma findNode_yields L nodes x it l :
  yields it l ->
  forall fuel, (length l <= fuel)%nat ->
    findNode L nodes x fuel it
    = Ok (List.find (fun i => node_id L nodes i =? x) l).
Proof.
  induction 1 as [it Hend|it it' l Hhas Hnext _ IH]; intros fuel Hfuel.
  - destruct fuel; cbn [findNode]; by rewrite Hend.
  - destruct fuel as [|fuel]; [cbn [length] in Hfuel; lia|].
    cbn [findNode List.find]. rewrite Hhas.
    destruct (node_id L nodes (item it) =? x); [done|].
    rewrite Hnext. cbn [mbind result_bind]. apply IH.
    cbn [length] in Hfuel. lia.
Qed.

(** X17. [nodeForSnapshotObjectId] walks the nodes from the root node on: it
    returns the first node at or after the root whose id is the given one,
    and [null] when no node from the root on has that id.  A node that comes
    before the root in the node array is never found. *)
Theorem nodeForSnapshotObjectId_first_from_root (L : Layout) (nodes : list Z)
    (snapshotObjectId : Z) :
  0 < nodeFieldCount L -> 0 <= rootNodeIndexInternal L ->
  exists r,
    nodeForSnapshotObjectId L nodes snapshotObjectId = Ok r
    /\ match r with
       | Some idx =>
           rootNodeIndexInternal L <= idx < len nodes
           /\ (idx - rootNodeIndexInternal L) mod nodeFieldCount L = 0
           /\ node_id L nodes idx = snapshotObjectId
           /\ forall j, rootNodeIndexInternal L <= j < idx ->
                (j - rootNodeIndexInternal L) mod nodeFieldCount L = 0 ->
                node_id L nodes j <> snapshotObjectId
       | None =>
           forall j, rootNodeIndexInternal L <= j < len nodes ->
             (j - rootNodeIndexInternal L) mod nodeFieldCount L = 0 ->
             node_id L nodes j <> snapshotObjectId
       end.
Proof.
  intros HNF Hroot. unfold nodeForSnapshotObjectId, allNodes.
  rewrite (findNode_yields L nodes snapshotObjectId _ _
             (yields_nodes _ _ _ HNF))
    by (apply length_range_le; [done|done|apply len_nonneg]).
  eexists. split; [reflexivity|].
  pose proof (find_in_range (fun i => node_id L nodes i =? snapshotObjectId)
                (len nodes) (nodeFieldCount L) HNF _
                (rootNodeIndexInternal L) eq_refl) as Hfind.
  destruct (List.find _ _) as [idx|].
  - destruct Hfind as (Hidx & Hal & Hp & Hfirst).
    split; [done|]. split; [done|]. split; [by apply Z.eqb_eq|].
    intros j Hj Halj. apply Z.eqb_neq. by apply Hfirst.
  - intros j Hj Halj. apply Z.eqb_neq. by apply Hfind.
Qed.

Lemma nodeForSnapshotObjectId_first_from_root_witness :
  let p := orphan_before_root in
  let L := layout_of p in
  exists r,
    nodeForSnapshotObjectId L (p_nodes p) 3 = Ok r
    /\ match r with
       | Some idx =>
           7 <= idx < 14 /\ (idx - 7) mod 7 = 0
           /\ node_id L (p_nodes p) idx = 3
           /\ forall j, 7 <= j < idx -> (j - 7) mod 7 = 0 ->
                node_id L (p_nodes p) j <> 3
       | None =>
           forall j, 7 <= j < 14 -> (j - 7) mod 7 = 0 ->
             node_id L (p_nodes p) j <> 3
       end.
Proof.
  intros p L.
  apply (nodeForSnapshotObjectId_first_from_root L (p_nodes p) 3).
  - vm_compute. reflexivity.
  - vm_compute. discriminate.
Defined.

(** ** Aggregates *)

Record AggregatedInfo : Type := {
  agg_count : Z;
  agg_distance : Z;
  agg_self : Z;
  agg_maxRet : Z;
  agg_type : string;
  agg_name : option string;
  agg_idxs : list Z
}.

Section Aggregates.
Variable L : Layout.
Variable nodes : list Z.
Variable strings : list string.
Variable nodeTypes : list string.
Variable nodeDistances : list Z.
Variable filter : option (Z -> bool).

(** [node.type()] and [node.className()]; a string that is not there reads
    as the empty string. *)
Definition node_type (nodeIndex : Z) : string :=
  sget nodeTypes (rawType L nodes nodeIndex).
Definition className (nodeIndex : Z) : string :=
  sget strings (classIndex L nodes nodeIndex).

(** The body of the loop of [buildAggregates].  The state is
    [aggregates], [classIndexes] and [aggregatesByClassName]; the two maps
    share their values, so the second one holds the class index under which
    the first one has the value (a later class of the same name takes the
    name over). *)
Definition aggregateNode (nodeIndex : Z)
    (st : gmap Z AggregatedInfo * list Z * list (string * Z))
    : gmap Z AggregatedInfo * list Z * list (string * Z) :=
  let '(aggregates, classIndexes, aggregatesByClassName) := st in
  if rejects filter nodeIndex then st
  else
    let selfSize := aget nodes (nodeIndex + nodeSelfSizeOffset L) in
    if selfSize =? 0 then st
    else
      let classIndex := classIndex L nodes nodeIndex in
      let nodeOrdinal := nodeIndex / nodeFieldCount L in
      let distance := aget nodeDistances nodeOrdinal in
      match aggregates !! classIndex with
      | None =>
          let nodeType := node_type nodeIndex in
          let nameMatters :=
            String.eqb nodeType "object" || String.eqb nodeType "native" in
          let value :=
            {| agg_count := 1;
               agg_distance := distance;
               agg_self := selfSize;
               agg_maxRet := 0;
               agg_type := nodeType;
               agg_name := if nameMatters then Some (className nodeIndex) else None;
               agg_idxs := [nodeIndex] |} in
          (<[classIndex := value]> aggregates,
           classIndexes ++ [classIndex],
           (className nodeIndex, classIndex) :: aggregatesByClassName)
      | Some clss =>
          (<[classIndex :=
               {| agg_count := agg_count clss + 1;
                  agg_distance := Z.min (agg_distance clss) distance;
                  agg_self := agg_self clss + selfSize;
                  agg_maxRet := agg_maxRet clss;
                  agg_type := agg_type clss;
                  agg_name := agg_name clss;
                  agg_idxs := agg_idxs clss ++ [nodeIndex] |}]> aggregates,
           classIndexes, aggregatesByClassName)
      end.

(** [buildAggregates(filter)]; the second loop only copies the [idxs]
    arrays. *)
Definition buildAggregates
    : gmap Z AggregatedInfo * list Z * list (string * Z) :=
  for_range 0 (len nodes) (nodeFieldCount L) aggregateNode (∅, [], []).

(** The nodes that go into the aggregate of the class [c]. *)
Definition inClass (c : Z) (nodeIndex : Z) : bool :=
  negb (rejects filter nodeIndex)
  && negb (aget nodes (nodeIndex + nodeSelfSizeOffset L) =? 0)
  && (classIndex L nodes nodeIndex =? c).

(** The aggregate of a list of nodes of one class. *)
Definition aggregateOf (members : list Z) : option AggregatedInfo :=
  match members with
  | [] => None
  | first :: rest =>
      Some
        {| agg_count := Z.of_nat (length members);
           agg_distance :=
             fold_left Z.min
               (map (fun i => aget nodeDistances (i / nodeFieldCount L)) rest)
               (aget nodeDistances (first / nodeFieldCount L));
           agg_self :=
             sumZ (map (fun i => aget nodes (i + nodeSelfSizeOffset L)) members);
           agg_maxRet := 0;
           agg_type := node_type first;
           agg_name :=
             if String.eqb (node_type first) "object"
                || String.eqb (node_type first) "native"
             then Some (className first) else None;
           agg_idxs := members |}
  end.

Definition grouped (seen : list Z)
    (st : gmap Z AggregatedInfo * list Z * list (string * Z)) : Prop :=
  forall c, fst (fst st) !! c = aggregateOf (List.filter (inClass c) seen).

Lemma aggregateOf_snoc members x :
  aggregateOf (members ++ [x])
  = Some
      match aggregateOf members with
      | None =>
          {| agg_count := 1;
             agg_distance := aget nodeDistances (x / nodeFieldCount L);
             agg_self := aget nodes (x + nodeSelfSizeOffset L);
             agg_maxRet := 0;
             agg_type := node_type x;
             agg_name :=
               if String.eqb (node_type x) "object"
                  || String.eqb (node_type x) "native"
               then Some (className x) else None;
             agg_idxs := [x] |}
      | Some clss =>
          {| agg_count := agg_count clss + 1;
             agg_distance :=
               Z.min (agg_distance clss) (aget nodeDistances (x / nodeFieldCount L));
             agg_self := agg_self clss + aget nodes (x + nodeSelfSizeOffset L);
             agg_maxRet := agg_maxRet clss;
             agg_type := agg_type clss;
             agg_name := agg_name clss;
             agg_idxs := agg_idxs clss ++ [x] |}
      end.
Proof.
  destruct members as [|first rest]; cbn [aggregateOf app].
  - f_equal. f_equal. unfold sumZ. cbn [map fold_right]. lia.
  - f_equal. cbn [agg_count agg_distance agg_self agg_maxRet agg_type agg_name
                   agg_idxs]. f_equal.
    + cbn [length]. rewrite length_app. cbn [length]. lia.
    + rewrite map_app, fold_left_app. done.
    + replace (first :: rest ++ [x]) with ((first :: rest) ++ [x]) by done.
      rewrite map_app, sumZ_app. unfold sumZ at 2. cbn [map fold_right]. lia.
Qed.

Lemma aggregateNode_grouped seen x st :
  grouped seen st -> grouped (seen ++ [x]) (aggregateNode x st).
Proof.
  destruct st as [[aggregates classIndexes] byName]. intros Hg c.
  unfold grouped in Hg. cbn [fst] in Hg.
  rewrite List.filter_app. cbn [List.filter]. unfold aggregateNode.
  unfold inClass at 2.
  destruct (rejects filter x); cbn [negb andb fst].
  { rewrite app_nil_r. apply Hg. }
  destruct (aget nodes (x + nodeSelfSizeOffset L) =? 0); cbn [negb andb fst].
  { rewrite app_nil_r. apply Hg. }
  destruct (Z.eqb_spec (classIndex L nodes x) c) as [Hc|Hc].
  - rewrite aggregateOf_snoc, <- Hg, <- Hc.
    destruct (aggregates !! classIndex L nodes x) as [clss|]; cbn [fst];
      by rewrite lookup_insert_eq.
  - rewrite app_nil_r.
    destruct (aggregates !! classIndex L nodes x) as [clss|]; cbn [fst];
      rewrite lookup_insert_ne by done; apply Hg.
Qed.

Lemma aggregateNodes_grouped l :
  forall seen st, grouped seen st ->
    grouped (seen ++ l) (fold_left (fun st i => aggregateNode i st) l st).
Proof.
  induction l as [|x l IH]; intros seen st Hg; cbn [fold_left].
  - by rewrite app_nil_r.
  - replace (seen ++ x :: l) with ((seen ++ [x]) ++ l) by (by rewrite <- app_assoc).
    apply IH. by apply aggregateNode_grouped.
Qed.

Lemma buildAggregates_grouped c :
  fst (fst buildAggregates) !! c
  = aggregateOf
      (List.filter (inClass c) (range 0 (len nodes) (nodeFieldCount L))).
Proof.
  unfold buildAggregates, for_range.
  apply (aggregateNodes_grouped _ [] (∅, [], [])). intros c'. done.
Qed.
End Aggregates.

Lemma fold_left_min_spec (l : list Z) (a : Z) :
  (fold_left Z.min l a <= a /\ forall x, In x l -> fold_left Z.min l a <= x)
  /\ (fold_left Z.min l a = a \/ In (fold_left Z.min l a) l).
Proof.
  revert a. induction l as [|y l IH]; intros a; cbn [fold_left].
  - split; [split; [lia|intros x []]|by left].
  - destruct (IH (Z.min a y)) as [[Hle Hall] Hin]. split; [split|].
    + lia.
    + intros x [<-|Hx]; [lia|by apply Hall].
    + destruct Hin as [Heq|Hin]; [|right; by right].
      destruct (Z.min_spec a y) as [[_ Hm]|[_ Hm]]; [left; lia|right; left; lia].
Qed.

(** X18. [buildAggregates] groups the nodes by class index.  With the
    distances covering every node, the class [c] has an aggregate exactly
    when some node of that class passes the filter and has a self size other
    than 0; the aggregate then lists those nodes in the order of the node
    array, counts them, adds up their self sizes, holds the least of their
    distances, and has [maxRet] 0. *)
Theorem buildAggregates_groups_by_class (L : Layout) (nodes : list Z)
    (strings nodeTypes : list string) (nodeDistances : list Z)
    (filter : option (Z -> bool)) (c : Z) :
  0 < nodeFieldCount L ->
  len nodes <= len nodeDistances * nodeFieldCount L ->
  let members :=
    List.filter (inClass L nodes filter c)
      (range 0 (len nodes) (nodeFieldCount L)) in
  let distance i := aget nodeDistances (i / nodeFieldCount L) in
  match fst (fst (buildAggregates L nodes strings nodeTypes nodeDistances filter))
          !! c with
  | None => members = []
  | Some a =>
      members <> []
      /\ agg_idxs a = members
      /\ agg_count a = Z.of_nat (length members)
      /\ agg_self a
         = sumZ (map (fun i => aget nodes (i + nodeSelfSizeOffset L)) members)
      /\ agg_maxRet a = 0
      /\ (forall i, In i members -> agg_distance a <= distance i)
      /\ (exists i, In i members /\ agg_distance a = distance i)
  end.
Proof.
  intros HNF Hcover members distance.
  rewrite buildAggregates_grouped. fold members.
  destruct members as [|first rest]; cbn [aggregateOf]; [done|].
  cbn [agg_idxs agg_count agg_self agg_maxRet agg_distance].
  split; [done|]. split; [done|]. split; [done|]. split; [done|].
  split; [done|].
  destruct (fold_left_min_spec (map distance rest) (distance first))
    as [[Hle Hall] Hin].
  split.
  - intros i [<-|Hi]; [exact Hle|]. apply Hall. by apply in_map.
  - destruct Hin as [Heq|Hin].
    + exists first. split; [by left|exact Heq].
    + apply in_map_iff in Hin as (i & Heq & Hi). exists i.
      split; [by right|by symmetry].
Qed.

Lemma buildAggregates_groups_by_class_witness :
  let p := weakmap_orphans in
  let L := layout_of p in
  let aggregates :=
    fst (fst (buildAggregates L (p_nodes p) (p_strings p) (node_types (meta p))
                [0; 1; 2; 3] None)) in
  match aggregates !! 0 with
  | None => False
  | Some a =>
      agg_idxs a = [7; 14; 21] /\ agg_count a = 3 /\ agg_self a = 56
      /\ agg_maxRet a = 0
      /\ (forall i, In i [7; 14; 21] -> agg_distance a <= aget [0; 1; 2; 3] (i / 7))
      /\ (exists i, In i [7; 14; 21] /\ agg_distance a = aget [0; 1; 2; 3] (i / 7))
  end.
Proof.
  intros p L aggregates.
  pose proof (buildAggregates_groups_by_class L (p_nodes p) (p_strings p)
                (node_types (meta p)) [0; 1; 2; 3] None 0
                ltac:(vm_compute; reflexivity)
                ltac:(vm_compute; discriminate)) as H.
  cbv zeta in H. fold aggregates in H.
  change (List.filter (inClass L (p_nodes p) None 0)
            (range 0 (len (p_nodes p)) (nodeFieldCount L)))
    with [7; 14; 21] in H.
  change (nodeFieldCount L) with 7 in H.
  destruct (aggregates !! 0) as [a|]; [|discriminate H].
  destruct H as (_ & H1 & H2 & H3 & H4 & H5 & H6).
  split; [exact H1|]. split; [exact H2|]. split; [exact H3|].
  split; [exact H4|]. split; [exact H5|exact H6].
Defined.

(** ** The shape of a WeakMap edge name *)

(** Every character of [s] satisfies [p]. *)
Fixpoint all_chars (p : ascii -> bool) (s : string) : bool :=
  match s with
  | EmptyString => true
  | String c s' => p c && all_chars p s'
  end.

(** What [\d+] matches. *)
Definition digits (s : string) : Prop :=
  all_chars is_digit s = true /\ s <> EmptyString.

(** What [.*?] can match. *)
Definition one_line (s : string) : Prop :=
  all_chars (fun c => negb (is_line_terminator c)) s = true.

(** The text the pattern's [duplicatedPart] group covers, for the key and
    value descriptions and the three ids in it. *)
Definition weakMapNameTail (key keyId value valueId table : string) : string :=
  (" / part of key (" ++ key ++ " @" ++ keyId ++ ") -> value (" ++ value
   ++ " @" ++ valueId ++ ") pair in WeakMap (table @" ++ table ++ ")")%string.

Lemma string_app_cons (c : ascii) (a b : string) :
  (String c a ++ b)%string = String c (a ++ b)%string.
Proof. reflexivity. Qed.

Lemma string_app_nil_r (s : string) : (s ++ "")%string = s.
Proof.
  induction s as [|c s IH]; [reflexivity|].
  by rewrite string_app_cons, IH.
Qed.

Lemma string_app_assoc (a b c : string) :
  ((a ++ b) ++ c)%string = (a ++ (b ++ c))%string.
Proof.
  induction a as [|x a IH]; [reflexivity|].
  by rewrite !string_app_cons, IH.
Qed.

Section RegexSound.
Context {R : Type}.

Lemma lit_sound (l : string) (k : string -> option R) (s : string) (r : R) :
  lit l k s = Some r -> exists s', s = (l ++ s')%string /\ k s' = Some r.
Proof.
  revert s. induction l as [|c l IH]; intros s Hs; simpl in Hs.
  - by exists s.
  - destruct s as [|d s]; [discriminate|].
    destruct (Ascii.eqb c d) eqn:E; [|discriminate].
    apply Ascii.eqb_eq in E as ->.
    destruct (IH s Hs) as (s' & -> & Hk). by exists s'.
Qed.

Lemma digits_more_sound (k : string -> string -> option R) (s taken : string)
    (r : R) :
  digits_more k taken s = Some r ->
  exists ds rest, s = (ds ++ rest)%string /\ all_chars is_digit ds = true
    /\ k (taken ++ ds)%string rest = Some r.
Proof.
  revert taken r. induction s as [|c s IH]; intros taken r Hs; simpl in Hs.
  - exists EmptyString, EmptyString. by rewrite (string_app_nil_r taken).
  - assert (Hstop : k taken (String c s) = Some r ->
        exists ds rest, String c s = (ds ++ rest)%string
          /\ all_chars is_digit ds = true
          /\ k (taken ++ ds)%string rest = Some r).
    { intros Hk. exists EmptyString, (String c s).
      by rewrite (string_app_nil_r taken). }
    destruct (is_digit c) eqn:Ed; [|by apply Hstop].
    destruct (digits_more k (taken ++ String c EmptyString)%string s) as [r'|] eqn:Em;
      [|by apply Hstop].
    injection Hs as ->.
    destruct (IH _ _ Em) as (ds & rest & -> & Hd & Hk).
    exists (String c ds), rest. split; [reflexivity|].
    split; [by simpl; rewrite Ed|].
    by rewrite string_app_assoc in Hk.
Qed.

Lemma digits1_sound (k : string -> string -> option R) (s : string) (r : R) :
  digits1 k s = Some r ->
  exists ds rest, s = (ds ++ rest)%string /\ digits ds /\ k ds rest = Some r.
Proof.
  unfold digits1. destruct s as [|c s]; [discriminate|].
  destruct (is_digit c) eqn:Ed; [|discriminate]. intros Hs.
  apply digits_more_sound in Hs as (ds & rest & -> & Hd & Hk).
  exists (String c ds), rest. split; [reflexivity|].
  split; [|exact Hk]. split; [by simpl; rewrite Ed|discriminate].
Qed.

Lemma lazy_any_sound (k : string -> option R) (s : string) (r : R) :
  lazy_any k s = Some r ->
  exists skipped rest, s = (skipped ++ rest)%string /\ one_line skipped
    /\ k rest = Some r.
Proof.
  induction s as [|c s IH]; simpl; intros Hs.
  - destruct (k EmptyString) eqn:Ek; [|discriminate].
    injection Hs as ->. by exists EmptyString, EmptyString.
  - destruct (k (String c s)) eqn:Ek.
    + injection Hs as ->. by exists EmptyString, (String c s).
    + destruct (is_line_terminator c) eqn:El; [discriminate|].
      destruct (IH Hs) as (skipped & rest & -> & Hone & Hk).
      exists (String c skipped), rest. split; [reflexivity|].
      split; [|exact Hk]. unfold one_line in *. by simpl; rewrite El.
Qed.

Lemma eos_sound (r r' : R) (s : string) :
  eos r s = Some r' -> s = EmptyString /\ r' = r.
Proof. destruct s; simpl; [|discriminate]. intros [= ->]. done. Qed.






End RegexSound.






Lemma ephemeronNameRegex_sound (name : string) (groups : WeakMapEdgeName) :
  ephemeronNameRegex name = Some groups ->
  exists id key keyId value valueId,
    name = (id ++ duplicatedPart groups)%string
    /\ duplicatedPart groups
       = weakMapNameTail key keyId value valueId (tableId groups)
    /\ digits id /\ one_line key /\ digits keyId /\ one_line value
    /\ digits valueId /\ digits (tableId groups).
Proof.
  unfold ephemeronNameRegex. intros H.
  apply digits1_sound in H as (id & dup & -> & Hid & H). cbv zeta in H.
  apply lit_sound in H as (s1 & Hdup & H).
  apply lazy_any_sound in H as (key & s2 & -> & Hkey & H).
  apply lit_sound in H as (s3 & -> & H).
  apply digits1_sound in H as (keyId & s4 & -> & HkeyId & H).
  apply lit_sound in H as (s5 & -> & H).
  apply lazy_any_sound in H as (value & s6 & -> & Hvalue & H).
  apply lit_sound in H as (s7 & -> & H).
  apply digits1_sound in H as (valueId & s8 & -> & HvalueId & H).
  apply lit_sound in H as (s9 & -> & H).
  apply digits1_sound in H as (table & s10 & -> & Htable & H).
  apply lit_sound in H as (s11 & -> & H).
  apply eos_sound in H as [-> ->].
  exists id, key, keyId, value, valueId. cbn [duplicatedPart tableId].
  split; [reflexivity|]. split; [|done].
  rewrite Hdup. reflexivity.
Qed.




(** X19. When [tryParseWeakMapEdgeName] answers with groups for a name index,
    the name is a run of digits followed by the [duplicatedPart] group, and
    that group reads [ / part of key (K @a) -> value (V @b) pair in WeakMap
    (table @t)] for descriptions [K] and [V] without a line break, runs of
    digits [a] and [b], and [t] the [tableId] group, itself a run of digits.
    The cache of the names that did not match is left as it was. *)
Theorem tryParseWeakMapEdgeName_answers_weakmap_names (strings : list string)
    (cache : BitVector) (edgeNameIndex : Z) (groups : WeakMapEdgeName) :
  cache_ok strings cache ->
  fst (tryParseWeakMapEdgeName strings cache edgeNameIndex) = Some groups ->
  snd (tryParseWeakMapEdgeName strings cache edgeNameIndex) = cache
  /\ exists id key keyId value valueId,
       sget strings edgeNameIndex = (id ++ duplicatedPart groups)%string
       /\ duplicatedPart groups
          = weakMapNameTail key keyId value valueId (tableId groups)
       /\ digits id /\ one_line key /\ digits keyId /\ one_line value
       /\ digits valueId /\ digits (tableId groups).
Proof.
  intros _. unfold tryParseWeakMapEdgeName.
  destruct (getBit cache edgeNameIndex); [discriminate|].
  destruct (ephemeronNameRegex (sget strings edgeNameIndex)) as [g|] eqn:Hg;
    [|discriminate].
  intros [= ->]. split; [reflexivity|].
  by apply ephemeronNameRegex_sound.
Qed.

Lemma tryParseWeakMapEdgeName_answers_weakmap_names_witness :
  let strings := [S4_name] in
  let cache := createBitVector 1 in
  cache_ok strings cache
  /\ fst (tryParseWeakMapEdgeName strings cache 0)
     = Some {| duplicatedPart :=
                 " / part of key (K @5) -> value (V @7) pair in WeakMap (table @3)";
               tableId := "3" |}
  /\ snd (tryParseWeakMapEdgeName strings cache 0) = cache
  /\ exists id key keyId value valueId,
       S4_name
       = (id ++ " / part of key (K @5) -> value (V @7) pair in WeakMap (table @3)")%string
       /\ " / part of key (K @5) -> value (V @7) pair in WeakMap (table @3)"%string
          = weakMapNameTail key keyId value valueId "3"
       /\ digits id /\ one_line key /\ digits keyId /\ one_line value
       /\ digits valueId /\ digits "3".
Proof.
  intros strings cache.
  pose proof (cache_ok_create strings 1) as Hc.
  split; [exact Hc|]. split; [reflexivity|].
  exact (tryParseWeakMapEdgeName_answers_weakmap_names strings cache 0
           {| duplicatedPart :=
                " / part of key (K @5) -> value (V @7) pair in WeakMap (table @3)";
              tableId := "3" |} Hc eq_refl).
Defined.



(** ** Source locations of the objects *)

(** [HeapSnapshotModel.Location] *)
Record Location : Type := {
  loc_scriptId : Z;
  loc_lineNumber : Z;
  loc_columnNumber : Z
}.

(** The offsets of the location fields, from [meta.location_fields]. *)
Record LocationLayout : Type := {
  locationIndexOffset : Z;
  locationScriptIdOffset : Z;
  locationLineOffset : Z;
  locationColumnOffset : Z;
  locationFieldCount : Z
}.

(** [buildLocationMap]: one [map.set] for every record of [locations]. *)
Definition buildLocationMap (F : LocationLayout) (locations : list Z)
    : gmap Z Location :=
  for_range 0 (len locations) (locationFieldCount F)
    (fun i map =>
       let nodeIndex := aget locations (i + locationIndexOffset F) in
       let scriptId := aget locations (i + locationScriptIdOffset F) in
       let line := aget locations (i + locationLineOffset F) in
       let col := aget locations (i + locationColumnOffset F) in
       <[nodeIndex := {| loc_scriptId := scriptId; loc_lineNumber := line;
                         loc_columnNumber := col |}]> map)
    ∅.

(** [getLocation(nodeIndex)]: [null] is [None]. *)
Definition getLocation (locationMap : gmap Z Location) (nodeIndex : Z)
    : option Location :=
  locationMap !! nodeIndex.

(** The node the [k]-th location record is about, and what the record says. *)
Definition locationNode (F : LocationLayout) (locations : list Z) (k : Z) : Z :=
  aget locations (k * locationFieldCount F + locationIndexOffset F).

Definition locationRecord (F : LocationLayout) (locations : list Z) (k : Z)
    : Location :=
  {| loc_scriptId := aget locations (k * locationFieldCount F + locationScriptIdOffset F);
     loc_lineNumber := aget locations (k * locationFieldCount F + locationLineOffset F);
     loc_columnNumber := aget locations (k * locationFieldCount F + locationColumnOffset F) |}.

(** The map after the first [k] records. *)
Definition located (F : LocationLayout) (locations : list Z) (k : Z)
    (map : gmap Z Location) : Prop :=
  forall x,
    (map !! x = None <-> forall j, 0 <= j < k -> locationNode F locations j <> x)
    /\ (forall j, 0 <= j < k -> locationNode F locations j = x ->
        (forall j', j < j' < k -> locationNode F locations j' <> x) ->
        map !! x = Some (locationRecord F locations j)).

Lemma located_step (F : LocationLayout) (locations : list Z) (k : Z)
    (map : gmap Z Location) :
  0 <= k -> located F locations k map ->
  located F locations (k + 1)
    (<[locationNode F locations k := locationRecord F locations k]> map).
Proof.
  intros Hk Hm x. destruct (Hm x) as [Hnone Hsome].
  destruct (Z.eq_dec (locationNode F locations k) x) as [Heq|Hne].
  - subst x. rewrite lookup_insert_eq. split.
    + split; [discriminate|]. intros Hall. exfalso. apply (Hall k); [lia|done].
    + intros j Hj Hjx Hlast.
      destruct (Z.eq_dec j k) as [->|Hjk]; [reflexivity|].
      exfalso. apply (Hlast k); [lia|done].
  - rewrite lookup_insert_ne by done. split.
    + rewrite Hnone. split.
      * intros Hall j Hj. destruct (Z.eq_dec j k) as [->|Hjk]; [done|].
        apply Hall. lia.
      * intros Hall j Hj. apply Hall. lia.
    + intros j Hj Hjx Hlast.
      assert (j <> k) by (intros ->; done).
      apply Hsome; [lia|done|]. intros j' Hj'. apply Hlast. lia.
Qed.

Lemma buildLocationMap_located (F : LocationLayout) (locations : list Z)
    (n : Z) :
  0 < locationFieldCount F -> 0 <= n ->
  len locations = n * locationFieldCount F ->
  located F locations n (buildLocationMap F locations).
Proof.
  intros Hfc Hn Hlen. unfold buildLocationMap. rewrite Hlen.
  change 0 with (0 * locationFieldCount F) at 1.
  rewrite for_range_records by done.
  apply (for_range_ind1 (located F locations)); [done| |].
  - intros x. split; [|intros j Hj; lia].
    rewrite lookup_empty. split; [intros _ j Hj; lia|done].
  - intros k map Hk Hm.
    exact (located_step F locations k map (proj1 Hk) Hm).
Qed.

(** X21. [getLocation] answers with the last record of [locations] that names
    the node, and with [null] exactly when no record names it: a later record
    for the same object replaces the earlier ones. *)
Theorem getLocation_last_record_wins (F : LocationLayout) (locations : list Z)
    (n nodeIndex : Z) :
  0 < locationFieldCount F ->
  0 <= locationIndexOffset F < locationFieldCount F ->
  0 <= locationScriptIdOffset F < locationFieldCount F ->
  0 <= locationLineOffset F < locationFieldCount F ->
  0 <= locationColumnOffset F < locationFieldCount F ->
  0 <= n -> len locations = n * locationFieldCount F ->
  let answer := getLocation (buildLocationMap F locations) nodeIndex in
  (answer = None
   <-> forall k, 0 <= k < n -> locationNode F locations k <> nodeIndex)
  /\ (forall k, 0 <= k < n -> locationNode F locations k = nodeIndex ->
      (forall j, k < j < n -> locationNode F locations j <> nodeIndex) ->
      answer = Some (locationRecord F locations k)).
Proof.
  intros Hfc _ _ _ _ Hn Hlen answer.
  exact (buildLocationMap_located F locations n Hfc Hn Hlen nodeIndex).
Qed.

Lemma getLocation_last_record_wins_witness :
  let F := {| locationIndexOffset := 0; locationScriptIdOffset := 1;
              locationLineOffset := 2; locationColumnOffset := 3;
              locationFieldCount := 4 |} in
  let locations := [7; 10; 1; 1;  14; 11; 2; 2;  7; 12; 3; 3] in
  0 < locationFieldCount F
  /\ len locations = 3 * locationFieldCount F
  /\ locationNode F locations 2 = 7
  /\ getLocation (buildLocationMap F locations) 7
     = Some {| loc_scriptId := 12; loc_lineNumber := 3; loc_columnNumber := 3 |}
  /\ getLocation (buildLocationMap F locations) 21 = None.
Proof.
  intros F locations.
  assert (Hfc : 0 < locationFieldCount F) by reflexivity.
  assert (Hlen : len locations = 3 * locationFieldCount F) by reflexivity.
  assert (Ho : forall o, o = 0 \/ o = 1 \/ o = 2 \/ o = 3 ->
                 0 <= o < locationFieldCount F).
  { intros o Ho. change (locationFieldCount F) with 4. lia. }
  pose proof (getLocation_last_record_wins F locations 3 7 Hfc
                (Ho 0 ltac:(lia)) (Ho 1 ltac:(lia)) (Ho 2 ltac:(lia))
                (Ho 3 ltac:(lia)) ltac:(lia) Hlen) as [_ Hlast].
  pose proof (getLocation_last_record_wins F locations 3 21 Hfc
                (Ho 0 ltac:(lia)) (Ho 1 ltac:(lia)) (Ho 2 ltac:(lia))
                (Ho 3 ltac:(lia)) ltac:(lia) Hlen) as [Hnone _].
  split; [exact Hfc|]. split; [exact Hlen|]. split; [reflexivity|].
  split.
  - apply (Hlast 2); [lia|reflexivity|]. intros j Hj. lia.
  - apply Hnone. intros k Hk.
    assert (Hcases : k = 0 \/ k = 1 \/ k = 2) by lia.
    destruct Hcases as [Hk0|[Hk1|Hk2]]; subst k; vm_compute; discriminate.
Defined.

(** ** The name of a concatenated string *)

Section ConsStringName.
Variable L : Layout.
Variables nodes edges : list Z.
Variable strings : list string.
Variable firstEdgeIndexes : list Z.
(** [nodeTypes.indexOf('concatenated string')] *)
Variable nodeConsStringType : Z.

(** The scan of the edges of a cons string for its two halves: the node
    indexes [firstNodeIndex] and [secondNodeIndex], 0 for a half that is not
    found.  The scan stops once both are set; here the later turns leave them
    as they are. *)
Definition consStringHalves (nodeIndex : Z) : Z * Z :=
  let nodeOrdinal := nodeIndex / nodeFieldCount L in
  let beginEdgeIndex := aget firstEdgeIndexes nodeOrdinal in
  let endEdgeIndex := aget firstEdgeIndexes (nodeOrdinal + 1) in
  for_range beginEdgeIndex endEdgeIndex (edgeFieldsCount L)
    (fun edgeIndex '(firstNodeIndex, secondNodeIndex) =>
       if (firstNodeIndex =? 0) || (secondNodeIndex =? 0) then
         let edgeType := aget edges (edgeIndex + edgeTypeOffset L) in
         if edgeType =? edgeInternalType L then
           let edgeName := sget strings (aget edges (edgeIndex + edgeNameOffset L)) in
           if String.eqb edgeName "first" then
             (aget edges (edgeIndex + edgeToNodeOffset L), secondNodeIndex)
           else if String.eqb edgeName "second" then
             (firstNodeIndex, aget edges (edgeIndex + edgeToNodeOffset L))
           else (firstNodeIndex, secondNodeIndex)
         else (firstNodeIndex, secondNodeIndex)
       else (firstNodeIndex, secondNodeIndex))
    (0, 0).

(** The loop of [consStringName]; the top of [nodesStack] is the head of the
    list. *)
Fixpoint consStringName_loop (fuel : nat) (nodesStack : list Z) (name : string)
    : result string :=
  match fuel with
  | O => OutOfFuel
  | S fuel' =>
      match nodesStack with
      | [] => Ok name
      | nodeIndex :: rest =>
          if (String.length name <? 1024)%nat then
            if negb (aget nodes (nodeIndex + nodeTypeOffset L)
                     =? nodeConsStringType) then
              consStringName_loop fuel' rest
                (name ++ sget strings (aget nodes (nodeIndex + nodeNameOffset L)))
            else
              let '(firstNodeIndex, secondNodeIndex) :=
                consStringHalves nodeIndex in
              consStringName_loop fuel'
                (firstNodeIndex :: secondNodeIndex :: rest) name
          else Ok name
      end
  end.

Definition consStringName (fuel : nat) (nodeIndex : Z) : result string :=
  consStringName_loop fuel [nodeIndex] EmptyString.

(** A node of the node array. *)
Definition is_node (nodeIndex : Z) : Prop :=
  0 <= nodeIndex /\ nodeIndex mod nodeFieldCount L = 0
  /\ nodeIndex / nodeFieldCount L < nodeCount L.

(** The pieces of a string node, from left to right: the name of a node that
    is no cons string, the pieces of the two halves of one that is.  A cons
    string that is reached from itself has no pieces. *)
Inductive pieces : Z -> list string -> Prop :=
| pieces_flat nodeIndex :
    is_node nodeIndex ->
    aget nodes (nodeIndex + nodeTypeOffset L) <> nodeConsStringType ->
    0 <= aget nodes (nodeIndex + nodeNameOffset L)
      < Z.of_nat (List.length strings) ->
    pieces nodeIndex [sget strings (aget nodes (nodeIndex + nodeNameOffset L))]
| pieces_cons nodeIndex firstNodeIndex secondNodeIndex firstPieces secondPieces :
    is_node nodeIndex ->
    aget nodes (nodeIndex + nodeTypeOffset L) = nodeConsStringType ->
    consStringHalves nodeIndex = (firstNodeIndex, secondNodeIndex) ->
    pieces firstNodeIndex firstPieces ->
    pieces secondNodeIndex secondPieces ->
    pieces nodeIndex (firstPieces ++ secondPieces).

(** The pieces one after the other. *)
Definition joinPieces (l : list string) : string :=
  fold_right String.append EmptyString l.

(** [name] with the pieces added one by one while it is shorter than 1024. *)
Fixpoint joinWhileShort (name : string) (l : list string) : string :=
  match l with
  | [] => name
  | piece :: l' =>
      if (String.length name <? 1024)%nat
      then joinWhileShort (name ++ piece) l'
      else name
  end.

Lemma joinWhileShort_long (name : string) (l : list string) :
  (String.length name <? 1024)%nat = false -> joinWhileShort name l = name.
Proof. intros H. destruct l; simpl; [reflexivity|by rewrite H]. Qed.

Lemma joinWhileShort_app (name : string) (l1 l2 : list string) :
  joinWhileShort name (l1 ++ l2)
  = joinWhileShort (joinWhileShort name l1) l2.
Proof.
  revert name. induction l1 as [|piece l1 IH]; intros name; simpl;
    [reflexivity|].
  destruct (String.length name <? 1024)%nat eqn:E; [apply IH|].
  by rewrite joinWhileShort_long.
Qed.

Lemma joinWhileShort_spec (l : list string) (name : string) :
  exists k : nat,
    (k <= List.length l)%nat
    /\ joinWhileShort name l = (name ++ joinPieces (take k l))%string
    /\ (k = List.length l
        \/ (1024 <= String.length (joinWhileShort name l))%nat)
    /\ forall j : nat, (j < k)%nat ->
         (String.length (name ++ joinPieces (take j l)) < 1024)%nat.
Proof.
  revert name. induction l as [|piece l IH]; intros name.
  - exists O. simpl. rewrite string_app_nil_r.
    split; [lia|]. split; [reflexivity|]. split; [by left|]. intros j Hj. lia.
  - simpl. destruct (String.length name <? 1024)%nat eqn:E.
    + destruct (IH (name ++ piece)%string) as (k & Hk & Heq & Hend & Hshort).
      exists (S k). split; [lia|]. simpl. rewrite <- string_app_assoc.
      split; [exact Heq|]. split; [destruct Hend; [left; lia|by right]|].
      intros [|j] Hj; simpl.
      * rewrite string_app_nil_r. by apply Nat.ltb_lt.
      * rewrite <- string_app_assoc. apply Hshort. lia.
    + exists O. simpl. rewrite string_app_nil_r.
      split; [lia|]. split; [reflexivity|].
      split; [right; apply Nat.ltb_ge in E; lia|]. intros j Hj. lia.
Qed.

Lemma consStringName_loop_long (fuel : nat) (nodesStack : list Z)
    (name : string) :
  (String.length name <? 1024)%nat = false ->
  consStringName_loop (S fuel) nodesStack name = Ok name.
Proof. intros H. destruct nodesStack; simpl; [reflexivity|by rewrite H]. Qed.

(** The loop takes the pieces of the node on top of the stack and goes on
    with the rest of the stack. *)
Lemma consStringName_loop_pieces (nodeIndex : Z) (l : list string) :
  pieces nodeIndex l ->
  exists n : nat, forall (rest : list Z) (name : string) (fuel : nat),
    consStringName_loop (n + S fuel) (nodeIndex :: rest) name
    = consStringName_loop (S fuel) rest (joinWhileShort name l).
Proof.
  induction 1 as [i _ Htype _|i a b la lb _ Htype Hhalves _ [na IHa] _ [nb IHb]].
  - exists 1%nat. intros rest name fuel.
    cbn [Nat.add consStringName_loop joinWhileShort].
    destruct (String.length name <? 1024)%nat eqn:E.
    + apply Z.eqb_neq in Htype. by rewrite Htype.
    + symmetry. by apply consStringName_loop_long.
  - exists (S (na + nb)). intros rest name fuel.
    rewrite joinWhileShort_app.
    cbn [Nat.add consStringName_loop].
    destruct (String.length name <? 1024)%nat eqn:E.
    + apply Z.eqb_eq in Htype. rewrite Htype, Hhalves. cbn [negb].
      replace (na + nb + S fuel)%nat with (na + S (nb + fuel))%nat by lia.
      rewrite IHa.
      replace (S (nb + fuel)) with (nb + S fuel)%nat by lia.
      apply IHb.
    + rewrite (joinWhileShort_long name la E), (joinWhileShort_long name lb E).
      symmetry. by apply consStringName_loop_long.
Qed.

Lemma consStringName_joins (nodeIndex : Z) (l : list string) :
  pieces nodeIndex l ->
  exists fuel : nat, forall more : nat,
    consStringName (fuel + more) nodeIndex
    = Ok (joinWhileShort EmptyString l).
Proof.
  intros Hp. destruct (consStringName_loop_pieces nodeIndex l Hp) as [n Hn].
  exists (n + 1)%nat. intros more. unfold consStringName.
  replace (n + 1 + more)%nat with (n + S more)%nat by lia.
  by rewrite Hn.
Qed.

(** A cons string that is its own first half: the loop puts it back on the
    stack at every turn and the name stays empty. *)
Lemma consStringName_loop_cycle (nodeIndex : Z) (fuel : nat) (rest : list Z) :
  aget nodes (nodeIndex + nodeTypeOffset L) = nodeConsStringType ->
  fst (consStringHalves nodeIndex) = nodeIndex ->
  consStringName_loop fuel (nodeIndex :: rest) EmptyString = OutOfFuel.
Proof.
  intros Htype Hfirst. revert rest.
  induction fuel as [|fuel IH]; intros rest; [reflexivity|].
  cbn [consStringName_loop String.length Nat.ltb Nat.leb].
  apply Z.eqb_eq in Htype. rewrite Htype. cbn [negb].
  destruct (consStringHalves nodeIndex) as [a b]. simpl in Hfirst. subst a.
  apply IH.
Qed.
End ConsStringName.

(** The root holds the cons string [C]; its first half is the cons string [D]
    of [a] and [b], whose edges come in the other order, its second half is
    [c]. *)
Definition cons_abc : Profile :=
  {| meta := v8_meta;
     p_nodes :=
       [9; 0; 1; 0; 1; 0; 0;     (* root *)
        10; 0; 3; 0; 2; 0; 0;    (* C *)
        10; 0; 5; 0; 2; 0; 0;    (* D *)
        2; 1; 7; 0; 0; 0; 0;     (* a *)
        2; 2; 9; 0; 0; 0; 0;     (* b *)
        2; 3; 11; 0; 0; 0; 0];   (* c *)
     p_edges :=
       [2; 4; 7;                 (* root -> C *)
        3; 5; 14;                (* C -first-> D *)
        3; 6; 35;                (* C -second-> c *)
        3; 6; 28;                (* D -second-> b *)
        3; 5; 21];               (* D -first-> a *)
     p_strings := [""; "a"; "b"; "c"; "s"; "first"; "second"]%string;
     root_index := 0 |}.

(** The cons string [C] is its own first half. *)
Definition cons_self : Profile :=
  {| meta := v8_meta;
     p_nodes :=
       [9; 0; 1; 0; 1; 0; 0;     (* root *)
        10; 0; 3; 0; 2; 0; 0;    (* C *)
        2; 1; 5; 0; 0; 0; 0];    (* a *)
     p_edges :=
       [2; 2; 7;                 (* root -> C *)
        3; 3; 7;                 (* C -first-> C *)
        3; 4; 14];               (* C -second-> a *)
     p_strings := [""; "a"; "s"; "first"; "second"]%string;
     root_index := 0 |}.

(** X22. [consStringName] ends on a cons string whose halves, and theirs in
    turn, lead to flat strings, and returns the pieces joined from left to
    right, stopping after the first piece that brings the name to 1024
    characters or more: the name is the joinPieces of the first [k] pieces, before
    each of which the name was shorter than 1024, and either these are all the
    pieces or the name has reached 1024.  A half that the scan of the edges
    does not find is taken to be the node at index 0. *)
Theorem consStringName_joins_the_pieces (L : Layout) (nodes edges : list Z)
    (strings : list string) (firstEdgeIndexes : list Z)
    (nodeConsStringType nodeIndex : Z) (l : list string) :
  wf_edges L edges firstEdgeIndexes = true ->
  0 <= nodeTypeOffset L < nodeFieldCount L ->
  0 <= nodeNameOffset L < nodeFieldCount L ->
  len nodes = nodeCount L * nodeFieldCount L ->
  pieces L nodes edges strings firstEdgeIndexes nodeConsStringType nodeIndex l ->
  exists k fuel : nat,
    (k <= List.length l)%nat
    /\ (forall more : nat,
          consStringName L nodes edges strings firstEdgeIndexes
            nodeConsStringType (fuel + more) nodeIndex
          = Ok (joinPieces (take k l)))
    /\ (k = List.length l \/ (1024 <= String.length (joinPieces (take k l)))%nat)
    /\ forall j : nat, (j < k)%nat ->
         (String.length (joinPieces (take j l)) < 1024)%nat.
Proof.
  intros _ _ _ _ Hp.
  destruct (consStringName_joins L nodes edges strings firstEdgeIndexes
              nodeConsStringType nodeIndex l Hp) as [fuel Hfuel].
  destruct (joinWhileShort_spec l EmptyString) as (k & Hk & Heq & Hend & Hshort).
  change (EmptyString ++ joinPieces (take k l))%string with (joinPieces (take k l)) in Heq.
  exists k, fuel. split; [exact Hk|].
  split; [intros more; by rewrite Hfuel, Heq|].
  split; [by rewrite <- Heq|]. intros j Hj. exact (Hshort j Hj).
Qed.

Lemma consStringName_joins_the_pieces_witness :
  let p := cons_abc in
  let L := layout_of p in
  let fei := buildEdgeIndexes L (p_nodes p) (p_edges p) in
  wf_edges L (p_edges p) fei = true
  /\ 0 <= nodeTypeOffset L < nodeFieldCount L
  /\ 0 <= nodeNameOffset L < nodeFieldCount L
  /\ len (p_nodes p) = nodeCount L * nodeFieldCount L
  /\ pieces L (p_nodes p) (p_edges p) (p_strings p) fei 10 7
       ["a"; "b"; "c"]%string
  /\ exists k fuel : nat,
       (k <= 3)%nat
       /\ (forall more : nat,
             consStringName L (p_nodes p) (p_edges p) (p_strings p) fei 10
               (fuel + more) 7
             = Ok (joinPieces (take k ["a"; "b"; "c"]%string)))
       /\ (k = 3%nat
           \/ (1024 <= String.length (joinPieces (take k ["a"; "b"; "c"]%string)))%nat)
       /\ forall j : nat, (j < k)%nat ->
            (String.length (joinPieces (take j ["a"; "b"; "c"]%string)) < 1024)%nat.
Proof.
  intros p L fei.
  assert (Hwf : wf_edges L (p_edges p) fei = true) by (vm_compute; reflexivity).
  assert (Ht : 0 <= nodeTypeOffset L < nodeFieldCount L)
    by (vm_compute; split; discriminate || reflexivity).
  assert (Hn : 0 <= nodeNameOffset L < nodeFieldCount L)
    by (vm_compute; split; discriminate || reflexivity).
  assert (Hlen : len (p_nodes p) = nodeCount L * nodeFieldCount L)
    by (vm_compute; reflexivity).
  assert (Hnode : forall i, i = 7 \/ i = 14 \/ i = 21 \/ i = 28 \/ i = 35 ->
            is_node L i).
  { intros i Hi. unfold is_node.
    change (nodeFieldCount L) with 7. change (nodeCount L) with 6.
    destruct Hi as [->|[->|[->|[->| ->]]]]; vm_compute;
      (split; [discriminate|split; reflexivity]). }
  assert (Hflat : forall i, i = 21 \/ i = 28 \/ i = 35 ->
            pieces L (p_nodes p) (p_edges p) (p_strings p) fei 10 i
              [sget (p_strings p) (aget (p_nodes p) (i + nodeNameOffset L))]).
  { intros i Hi. apply pieces_flat.
    - apply Hnode. lia.
    - destruct Hi as [->|[->| ->]]; vm_compute; discriminate.
    - destruct Hi as [->|[->| ->]]; vm_compute;
        (split; [discriminate|reflexivity]). }
  assert (HD : pieces L (p_nodes p) (p_edges p) (p_strings p) fei 10 14
                 (["a"%string] ++ ["b"%string])).
  { apply (pieces_cons L (p_nodes p) (p_edges p) (p_strings p) fei 10 14 21 28);
      [apply Hnode; lia|reflexivity|reflexivity| |].
    - exact (Hflat 21 ltac:(lia)).
    - exact (Hflat 28 ltac:(lia)). }
  assert (HC : pieces L (p_nodes p) (p_edges p) (p_strings p) fei 10 7
                 (["a"%string; "b"%string] ++ ["c"%string])).
  { apply (pieces_cons L (p_nodes p) (p_edges p) (p_strings p) fei 10 7 14 35);
      [apply Hnode; lia|reflexivity|reflexivity|exact HD|].
    exact (Hflat 35 ltac:(lia)). }
  split; [exact Hwf|]. split; [exact Ht|]. split; [exact Hn|].
  split; [exact Hlen|]. split; [exact HC|].
  exact (consStringName_joins_the_pieces L (p_nodes p) (p_edges p) (p_strings p)
           fei 10 7 ["a"; "b"; "c"]%string Hwf Ht Hn Hlen HC).
Defined.

(** X23. On a cons string that is its own first half [consStringName] does not
    end: at every turn the loop takes the node from the stack and puts it
    back on top of its second half, the name stays empty, and no number of
    turns brings the loop to its exit. *)
Theorem consStringName_loops_on_its_own_half (L : Layout) (nodes edges : list Z)
    (strings : list string) (firstEdgeIndexes : list Z)
    (nodeConsStringType nodeIndex : Z) :
  wf_edges L edges firstEdgeIndexes = true ->
  0 <= nodeTypeOffset L < nodeFieldCount L ->
  len nodes = nodeCount L * nodeFieldCount L ->
  is_node L nodeIndex ->
  aget nodes (nodeIndex + nodeTypeOffset L) = nodeConsStringType ->
  fst (consStringHalves L edges strings firstEdgeIndexes nodeIndex) = nodeIndex ->
  forall fuel : nat,
    consStringName L nodes edges strings firstEdgeIndexes nodeConsStringType
      fuel nodeIndex
    = OutOfFuel.
Proof.
  intros _ _ _ _ Htype Hfirst fuel.
  by apply consStringName_loop_cycle.
Qed.

Lemma consStringName_loops_on_its_own_half_witness :
  let p := cons_self in
  let L := layout_of p in
  let fei := buildEdgeIndexes L (p_nodes p) (p_edges p) in
  wf_edges L (p_edges p) fei = true
  /\ is_node L 7
  /\ aget (p_nodes p) (7 + nodeTypeOffset L) = 10
  /\ consStringHalves L (p_edges p) (p_strings p) fei 7 = (7, 14)
  /\ forall fuel : nat,
       consStringName L (p_nodes p) (p_edges p) (p_strings p) fei 10 fuel 7
       = OutOfFuel.
Proof.
  intros p L fei.
  assert (Hwf : wf_edges L (p_edges p) fei = true) by (vm_compute; reflexivity).
  assert (Ht : 0 <= nodeTypeOffset L < nodeFieldCount L)
    by (vm_compute; split; discriminate || reflexivity).
  assert (Hlen : len (p_nodes p) = nodeCount L * nodeFieldCount L)
    by (vm_compute; reflexivity).
  assert (Hnode : is_node L 7)
    by (vm_compute; split; [discriminate|split; reflexivity]).
  assert (Htype : aget (p_nodes p) (7 + nodeTypeOffset L) = 10) by reflexivity.
  assert (Hhalves : consStringHalves L (p_edges p) (p_strings p) fei 7 = (7, 14))
    by reflexivity.
  split; [exact Hwf|]. split; [exact Hnode|]. split; [exact Htype|].
  split; [exact Hhalves|].
  apply (consStringName_loops_on_its_own_half L (p_nodes p) (p_edges p)
           (p_strings p) fei 10 7 Hwf Ht Hlen Hnode Htype).
  by rewrite Hhalves.
Defined.

(** ** Statistics *)

(** [HeapSnapshotModel.Statistics] *)
Record Statistics : Type := {
  st_total : Z;
  st_v8heap : Z;
  st_native : Z;
  st_code : Z;
  st_jsArrays : Z;
  st_strings : Z;
  st_system : Z
}.

(** [nodeTypes.indexOf('concatenated string')] and
    [nodeTypes.indexOf('sliced string')] *)
Definition nodeConsStringType (nodeTypes : list string) : Z :=
  indexOf "concatenated string" nodeTypes.
Definition nodeSlicedStringType (nodeTypes : list string) : Z :=
  indexOf "sliced string" nodeTypes.

Section StatisticsModel.
Variable L : Layout.
Variables nodes edges : list Z.
Variable strings : list string.
Variables firstEdgeIndexes firstRetainerIndex : list Z.
Variable nodeTypes : list string.
Variable nodeDistances : list Z.
Variable totalSize : Z.

(** [HeapSnapshotNode.retainersCount] *)
Definition retainersCount (nodeIndex : Z) : Z :=
  let ordinal := nodeIndex / nodeFieldCount L in
  aget firstRetainerIndex (ordinal + 1) - aget firstRetainerIndex ordinal.

(** [calculateArraySize]; the second component of the state of the loop says
    that the [break] has been taken. *)
Definition calculateArraySize (nodeIndex : Z) : Z :=
  let size := aget nodes (nodeIndex + nodeSelfSizeOffset L) in
  let beginEdgeIndex := aget firstEdgeIndexes (nodeIndex / nodeFieldCount L) in
  let endEdgeIndex := aget firstEdgeIndexes (nodeIndex / nodeFieldCount L + 1) in
  fst (for_range beginEdgeIndex endEdgeIndex (edgeFieldsCount L)
         (fun edgeIndex '(size, broken) =>
            if (broken : bool) then (size, broken)
            else
              let edgeType := aget edges (edgeIndex + edgeTypeOffset L) in
              if negb (edgeType =? edgeInternalType L) then (size, false)
              else
                let edgeName :=
                  sget strings (aget edges (edgeIndex + edgeNameOffset L)) in
                if negb (String.eqb edgeName "elements") then (size, false)
                else
                  let elementsNodeIndex :=
                    aget edges (edgeIndex + edgeToNodeOffset L) in
                  (if retainersCount elementsNodeIndex =? 1
                   then size + aget nodes (elementsNodeIndex + nodeSelfSizeOffset L)
                   else size,
                   true))
         (size, false)).

(** [JSHeapSnapshot.calculateStatistics]; [totalSize] is the retained size of
    the root.  In the last branch the node is not a cons string, so its
    [name()] is the string of its name field. *)
Definition calculateStatistics : Statistics :=
  let '(sizeNative, sizeCode, sizeStrings, sizeJSArrays, sizeSystem) :=
    for_range 0 (len nodes) (nodeFieldCount L)
      (fun nodeIndex '(sizeNative, sizeCode, sizeStrings, sizeJSArrays, sizeSystem) =>
         let nodeSize := aget nodes (nodeIndex + nodeSelfSizeOffset L) in
         let ordinal := nodeIndex / nodeFieldCount L in
         if baseSystemDistance <=? aget nodeDistances ordinal then
           (sizeNative, sizeCode, sizeStrings, sizeJSArrays, sizeSystem + nodeSize)
         else
           let nodeType := aget nodes (nodeIndex + nodeTypeOffset L) in
           if nodeType =? nodeNativeType L then
             (sizeNative + nodeSize, sizeCode, sizeStrings, sizeJSArrays, sizeSystem)
           else if nodeType =? nodeCodeType L then
             (sizeNative, sizeCode + nodeSize, sizeStrings, sizeJSArrays, sizeSystem)
           else if (nodeType =? nodeConsStringType nodeTypes)
                   || (nodeType =? nodeSlicedStringType nodeTypes)
                   || String.eqb (sget nodeTypes nodeType) "string" then
             (sizeNative, sizeCode, sizeStrings + nodeSize, sizeJSArrays, sizeSystem)
           else if String.eqb
                     (sget strings (aget nodes (nodeIndex + nodeNameOffset L)))
                     "Array" then
             (sizeNative, sizeCode, sizeStrings,
              sizeJSArrays + calculateArraySize nodeIndex, sizeSystem)
           else
             (sizeNative, sizeCode, sizeStrings, sizeJSArrays, sizeSystem))
      (0, 0, 0, 0, 0) in
  {| st_total := totalSize;
     st_v8heap := totalSize - sizeNative;
     st_native := sizeNative;
     st_code := sizeCode;
     st_jsArrays := sizeJSArrays;
     st_strings := sizeStrings;
     st_system := sizeSystem |}.

(** Where the self size of the node of ordinal [v] is counted. *)
Definition inSystem (v : Z) : bool :=
  baseSystemDistance <=? aget nodeDistances v.
Definition inNative (v : Z) : bool :=
  negb (inSystem v)
  && (aget nodes (v * nodeFieldCount L + nodeTypeOffset L) =? nodeNativeType L).
Definition inCode (v : Z) : bool :=
  negb (inSystem v) && negb (inNative v)
  && (aget nodes (v * nodeFieldCount L + nodeTypeOffset L) =? nodeCodeType L).
Definition inStrings (v : Z) : bool :=
  let nodeType := aget nodes (v * nodeFieldCount L + nodeTypeOffset L) in
  negb (inSystem v) && negb (inNative v) && negb (inCode v)
  && ((nodeType =? nodeConsStringType nodeTypes)
      || (nodeType =? nodeSlicedStringType nodeTypes)
      || String.eqb (sget nodeTypes nodeType) "string").
Definition inJSArrays (v : Z) : bool :=
  negb (inSystem v) && negb (inNative v) && negb (inCode v)
  && negb (inStrings v)
  && String.eqb
       (sget strings (aget nodes (v * nodeFieldCount L + nodeNameOffset L)))
       "Array".

Definition statSelfSize (v : Z) : Z :=
  aget nodes (v * nodeFieldCount L + nodeSelfSizeOffset L).

(** The sum of [f] over the ordinals below [K] that satisfy [p]. *)
Definition sumIf (p : Z -> bool) (f : Z -> Z) (K : Z) : Z :=
  sumZ (map f (List.filter p (range 0 K 1))).

Lemma sumIf_0 p f : sumIf p f 0 = 0.
Proof. unfold sumIf. by rewrite range_stop by lia. Qed.

Lemma sumIf_step p f K :
  0 <= K -> sumIf p f (K + 1) = sumIf p f K + (if p K then f K else 0).
Proof.
  intros HK. unfold sumIf. rewrite range1_snoc by done.
  rewrite List.filter_app, map_app, sumZ_app. simpl.
  destruct (p K); simpl; lia.
Qed.

Lemma calculateStatistics_sums (n : Z) :
  0 < nodeFieldCount L -> 0 <= n -> len nodes = n * nodeFieldCount L ->
  calculateStatistics
  = {| st_total := totalSize;
       st_v8heap := totalSize - sumIf inNative statSelfSize n;
       st_native := sumIf inNative statSelfSize n;
       st_code := sumIf inCode statSelfSize n;
       st_jsArrays :=
         sumIf inJSArrays (fun v => calculateArraySize (v * nodeFieldCount L)) n;
       st_strings := sumIf inStrings statSelfSize n;
       st_system := sumIf inSystem statSelfSize n |}.
Proof.
  intros HNF Hn Hlen. unfold calculateStatistics. rewrite Hlen.
  change 0 with (0 * nodeFieldCount L) at 1.
  rewrite for_range_records by done.
  match goal with
  | |- context [for_range 0 n 1 ?body ?init] =>
      assert (Hinv : for_range 0 n 1 body init
                = (sumIf inNative statSelfSize n, sumIf inCode statSelfSize n,
                   sumIf inStrings statSelfSize n,
                   sumIf inJSArrays
                     (fun v => calculateArraySize (v * nodeFieldCount L)) n,
                   sumIf inSystem statSelfSize n))
  end.
  { apply (for_range_ind1
             (fun k acc =>
                acc = (sumIf inNative statSelfSize k, sumIf inCode statSelfSize k,
                       sumIf inStrings statSelfSize k,
                       sumIf inJSArrays
                         (fun v => calculateArraySize (v * nodeFieldCount L)) k,
                       sumIf inSystem statSelfSize k))); [done| |].
    - by rewrite !sumIf_0.
    - intros k acc Hk ->. cbv beta iota zeta.
      rewrite !sumIf_step by lia.
      rewrite Z.div_mul by lia.
      unfold inJSArrays, inStrings, inCode, inNative, inSystem, statSelfSize.
      destruct (baseSystemDistance <=? aget nodeDistances k); cbn [negb andb];
        [repeat (f_equal; try lia)|].
      destruct (aget nodes (k * nodeFieldCount L + nodeTypeOffset L)
                =? nodeNativeType L); cbn [negb andb];
        [repeat (f_equal; try lia)|].
      destruct (aget nodes (k * nodeFieldCount L + nodeTypeOffset L)
                =? nodeCodeType L); cbn [negb andb];
        [repeat (f_equal; try lia)|].
      destruct ((aget nodes (k * nodeFieldCount L + nodeTypeOffset L)
                 =? nodeConsStringType nodeTypes)
                || (aget nodes (k * nodeFieldCount L + nodeTypeOffset L)
                    =? nodeSlicedStringType nodeTypes)
                || String.eqb
                     (sget nodeTypes
                        (aget nodes (k * nodeFieldCount L + nodeTypeOffset L)))
                     "string"); cbn [negb andb];
        [repeat (f_equal; try lia)|].
      destruct (String.eqb
                  (sget strings
                     (aget nodes (k * nodeFieldCount L + nodeNameOffset L)))
                  "Array"); repeat (f_equal; try lia). }
  rewrite Hinv. reflexivity.
Qed.

(** The four categories of self sizes do not overlap. *)
Lemma categories_within_total (K : Z) :
  0 <= K ->
  (forall v, 0 <= v < K -> 0 <= statSelfSize v) ->
  sumIf inNative statSelfSize K + sumIf inCode statSelfSize K
  + sumIf inStrings statSelfSize K + sumIf inSystem statSelfSize K
  <= sumIf (fun _ => true) statSelfSize K.
Proof.
  intros HK. revert K HK.
  apply (countP_ind (fun K =>
           (forall v, 0 <= v < K -> 0 <= statSelfSize v) ->
           sumIf inNative statSelfSize K + sumIf inCode statSelfSize K
           + sumIf inStrings statSelfSize K + sumIf inSystem statSelfSize K
           <= sumIf (fun _ => true) statSelfSize K)).
  - intros _. rewrite !sumIf_0. lia.
  - intros K HK IH Hsize. rewrite !sumIf_step by done.
    pose proof (Hsize K ltac:(lia)) as HsK.
    assert (IH' := IH (fun v Hv => Hsize v ltac:(lia))).
    generalize dependent (sumIf inNative statSelfSize K).
    generalize dependent (sumIf inCode statSelfSize K).
    generalize dependent (sumIf inStrings statSelfSize K).
    generalize dependent (sumIf inSystem statSelfSize K).
    generalize dependent (sumIf (fun _ => true) statSelfSize K).
    intros total sSystem sStrings sCode sNative _ IH'.
    unfold inStrings, inCode, inNative.
    destruct (inSystem K); cbn [negb andb]; cbv iota; [lia|].
    destruct (_ =? nodeNativeType L); cbn [negb andb]; cbv iota; [lia|].
    destruct (_ =? nodeCodeType L); cbn [negb andb]; cbv iota; [lia|].
    destruct (_ || _); lia.
Qed.
End StatisticsModel.

Lemma sumIf_nonneg (p : Z -> bool) (f : Z -> Z) (K : Z) :
  (forall v, 0 <= v < K -> 0 <= f v) -> 0 <= sumIf p f K.
Proof.
  intros Hf. unfold sumIf. apply sumZ_nonneg. intros v Hv.
  apply List.filter_In in Hv as [Hv _]. apply In_range1 in Hv. by apply Hf.
Qed.

(** A loop that is left at the first index that [hit]s. *)
Lemma fold_left_break (f : Z * bool -> Z -> Z * bool) (hit : Z -> bool)
    (bonus : Z -> Z) :
  (forall size e, f (size, true) e = (size, true)) ->
  (forall size e,
     f (size, false) e = if hit e then (size + bonus e, true) else (size, false)) ->
  forall l size,
    fold_left f l (size, false)
    = match List.find hit l with
      | Some e => (size + bonus e, true)
      | None => (size, false)
      end.
Proof.
  intros Hdone Hstep l. induction l as [|e l IH]; intros size; [reflexivity|].
  simpl. rewrite Hstep. destruct (hit e); [|apply IH].
  generalize (size + bonus e). clear -Hdone.
  induction l as [|e' l IH]; intros size; [reflexivity|].
  simpl. rewrite Hdone. apply IH.
Qed.

Section ArraySize.
Variable L : Layout.
Variables nodes edges : list Z.
Variable strings : list string.
Variables firstEdgeIndexes firstRetainerIndex : list Z.

(** An internal edge named [elements]. *)
Definition elementsEdge (edgeIndex : Z) : bool :=
  (aget edges (edgeIndex + edgeTypeOffset L) =? edgeInternalType L)
  && String.eqb (sget strings (aget edges (edgeIndex + edgeNameOffset L)))
       "elements".

(** What [calculateArraySize] adds for the target of such an edge. *)
Definition elementsSize (edgeIndex : Z) : Z :=
  let elementsNodeIndex := aget edges (edgeIndex + edgeToNodeOffset L) in
  if retainersCount L firstRetainerIndex elementsNodeIndex =? 1
  then aget nodes (elementsNodeIndex + nodeSelfSizeOffset L)
  else 0.

Lemma calculateArraySize_first (nodeIndex : Z) :
  calculateArraySize L nodes edges strings firstEdgeIndexes firstRetainerIndex
    nodeIndex
  = aget nodes (nodeIndex + nodeSelfSizeOffset L)
    + match List.find elementsEdge
              (range (aget firstEdgeIndexes (nodeIndex / nodeFieldCount L))
                 (aget firstEdgeIndexes (nodeIndex / nodeFieldCount L + 1))
                 (edgeFieldsCount L)) with
      | Some edgeIndex => elementsSize edgeIndex
      | None => 0
      end.
Proof.
  unfold calculateArraySize, for_range.
  rewrite (fold_left_break _ elementsEdge elementsSize).
  - destruct (List.find _ _); simpl; lia.
  - reflexivity.
  - intros size e. unfold elementsEdge, elementsSize. cbv beta iota zeta.
    destruct (_ =? edgeInternalType L); cbn [negb andb]; [|reflexivity].
    destruct (String.eqb _ _); cbn [negb]; [|reflexivity].
    destruct (_ =? 1); f_equal; lia.
Qed.
End ArraySize.

(** The root holds the object [A] named [Array], a native node [N], a string
    [S] and a code node [C]; [A] alone holds its elements [E]. *)
Definition array_with_elements : Profile :=
  {| meta := v8_meta;
     p_nodes :=
       [9; 0; 1; 0; 4; 0; 0;     (* root *)
        3; 1; 3; 16; 2; 0; 0;    (* A *)
        1; 0; 5; 32; 0; 0; 0;    (* E *)
        8; 2; 7; 8; 0; 0; 0;     (* N *)
        2; 3; 9; 4; 0; 0; 0;     (* S *)
        4; 4; 11; 2; 0; 0; 0];   (* C *)
     p_edges :=
       [2; 5; 7;                 (* root -> A *)
        2; 5; 21;                (* root -> N *)
        2; 5; 28;                (* root -> S *)
        2; 5; 35;                (* root -> C *)
        3; 6; 28;                (* A -map-> S, internal *)
        3; 7; 14];               (* A -elements-> E, internal *)
     p_strings :=
       [""; "Array"; "N"; "S"; "C"; "p"; "map"; "elements"]%string;
     root_index := 0 |}.

(** X24. [calculateStatistics] sorts the self sizes into categories that do
    not overlap: a node at a distance of [baseSystemDistance] or more counts
    as system whatever its type, then native nodes, then code, then strings
    (cons strings, sliced strings and nodes of type [string]); objects named
    [Array] among the rest are counted with their elements.  So native, code,
    strings and system together never exceed the sum of all self sizes, and
    [v8heap] is [total] less the native part. *)
Theorem calculateStatistics_categories (L : Layout) (nodes edges : list Z)
    (strings : list string) (firstEdgeIndexes firstRetainerIndex : list Z)
    (nodeTypes : list string) (nodeDistances : list Z) (totalSize : Z) :
  0 < nodeFieldCount L -> 0 <= nodeCount L ->
  len nodes = nodeCount L * nodeFieldCount L ->
  len nodeDistances = nodeCount L ->
  0 <= nodeSelfSizeOffset L < nodeFieldCount L ->
  0 <= nodeTypeOffset L < nodeFieldCount L ->
  0 <= nodeNameOffset L < nodeFieldCount L ->
  (forall v, 0 <= v < nodeCount L -> 0 <= statSelfSize L nodes v) ->
  sumIf (fun _ => true) (statSelfSize L nodes) (nodeCount L)
    < 9007199254740992 ->
  let s := calculateStatistics L nodes edges strings firstEdgeIndexes
             firstRetainerIndex nodeTypes nodeDistances totalSize in
  let sum p := sumIf p (statSelfSize L nodes) (nodeCount L) in
  st_system s = sum (inSystem nodeDistances)
  /\ st_native s = sum (inNative L nodes nodeDistances)
  /\ st_code s = sum (inCode L nodes nodeDistances)
  /\ st_strings s = sum (inStrings L nodes nodeTypes nodeDistances)
  /\ st_jsArrays s
     = sumIf (inJSArrays L nodes strings nodeTypes nodeDistances)
         (fun v =>
            calculateArraySize L nodes edges strings firstEdgeIndexes
              firstRetainerIndex (v * nodeFieldCount L))
         (nodeCount L)
  /\ st_total s = totalSize
  /\ st_v8heap s = totalSize - st_native s
  /\ 0 <= st_system s /\ 0 <= st_native s /\ 0 <= st_code s
  /\ 0 <= st_strings s
  /\ st_native s + st_code s + st_strings s + st_system s
     <= sum (fun _ => true).
Proof.
  intros HNF Hn Hlen _ _ _ _ Hsize _ s sum. unfold s, sum.
  rewrite (calculateStatistics_sums L nodes edges strings firstEdgeIndexes
             firstRetainerIndex nodeTypes nodeDistances totalSize (nodeCount L)
             HNF Hn Hlen).
  cbn [st_total st_v8heap st_native st_code st_jsArrays st_strings st_system].
  split; [reflexivity|]. split; [reflexivity|]. split; [reflexivity|].
  split; [reflexivity|]. split; [reflexivity|]. split; [reflexivity|].
  split; [reflexivity|].
  split; [by apply sumIf_nonneg|]. split; [by apply sumIf_nonneg|].
  split; [by apply sumIf_nonneg|]. split; [by apply sumIf_nonneg|].
  by apply categories_within_total.
Qed.

Lemma calculateStatistics_categories_witness :
  let p := array_with_elements in
  let L := layout_of p in
  let fei := buildEdgeIndexes L (p_nodes p) (p_edges p) in
  let fri := [0; 0; 1; 2; 3; 5; 6] in
  let distances := [0; 1; 100000002; 1; 2; 1] in
  let s := calculateStatistics L (p_nodes p) (p_edges p) (p_strings p) fei fri
             (node_types (meta p)) distances 62 in
  len (p_nodes p) = nodeCount L * nodeFieldCount L
  /\ len distances = nodeCount L
  /\ (forall v, 0 <= v < nodeCount L -> 0 <= statSelfSize L (p_nodes p) v)
  /\ s = {| st_total := 62; st_v8heap := 54; st_native := 8; st_code := 2;
            st_jsArrays := 48; st_strings := 4; st_system := 32 |}
  /\ st_native s + st_code s + st_strings s + st_system s
     <= sumIf (fun _ => true) (statSelfSize L (p_nodes p)) (nodeCount L).
Proof.
  intros p L fei fri distances s.
  assert (HNF : 0 < nodeFieldCount L) by reflexivity.
  assert (Hn : 0 <= nodeCount L) by (vm_compute; discriminate).
  assert (Hlen : len (p_nodes p) = nodeCount L * nodeFieldCount L)
    by reflexivity.
  assert (Hd : len distances = nodeCount L) by reflexivity.
  assert (Hoff : forall o, o = 0 \/ o = 1 \/ o = 3 -> 0 <= o < nodeFieldCount L).
  { intros o Ho. change (nodeFieldCount L) with 7. lia. }
  assert (Hsize : forall v, 0 <= v < nodeCount L ->
            0 <= statSelfSize L (p_nodes p) v).
  { intros v Hv. change (nodeCount L) with 6 in Hv.
    assert (Hcases : v = 0 \/ v = 1 \/ v = 2 \/ v = 3 \/ v = 4 \/ v = 5) by lia.
    destruct Hcases as [->|[->|[->|[->|[->| ->]]]]]; vm_compute; discriminate. }
  assert (Hsmall : sumIf (fun _ => true) (statSelfSize L (p_nodes p)) (nodeCount L)
                   < 9007199254740992) by reflexivity.
  pose proof (calculateStatistics_categories L (p_nodes p) (p_edges p)
                (p_strings p) fei fri (node_types (meta p)) distances 62
                HNF Hn Hlen Hd (Hoff 3 ltac:(lia)) (Hoff 0 ltac:(lia))
                (Hoff 1 ltac:(lia)) Hsize Hsmall) as H.
  cbv zeta in H. fold s in H.
  destruct H as (_ & _ & _ & _ & _ & _ & _ & _ & _ & _ & _ & Hle).
  split; [exact Hlen|]. split; [exact Hd|]. split; [exact Hsize|].
  split; [reflexivity|exact Hle].
Defined.

(** X25. [calculateArraySize] adds to the self size of the node the self size
    of the target of its first internal edge named [elements], and only if
    that target has exactly one retainer; later edges of that name are not
    looked at, and without such an edge the size is the self size alone. *)
Theorem calculateArraySize_first_elements_edge (L : Layout)
    (nodes edges : list Z) (strings : list string)
    (firstEdgeIndexes firstRetainerIndex : list Z) (nodeIndex : Z) :
  wf_edges L edges firstEdgeIndexes = true ->
  len nodes = nodeCount L * nodeFieldCount L ->
  len firstRetainerIndex = nodeCount L + 1 ->
  is_node L nodeIndex ->
  let nodeEdges :=
    range (aget firstEdgeIndexes (nodeIndex / nodeFieldCount L))
      (aget firstEdgeIndexes (nodeIndex / nodeFieldCount L + 1))
      (edgeFieldsCount L) in
  let size :=
    calculateArraySize L nodes edges strings firstEdgeIndexes
      firstRetainerIndex nodeIndex in
  let selfSize := aget nodes (nodeIndex + nodeSelfSizeOffset L) in
  ((forall e, In e nodeEdges -> elementsEdge L edges strings e = false) ->
   size = selfSize)
  /\ (forall before e after,
        nodeEdges = before ++ e :: after ->
        elementsEdge L edges strings e = true ->
        (forall e', In e' before -> elementsEdge L edges strings e' = false) ->
        size = selfSize + elementsSize L nodes edges firstRetainerIndex e).
Proof.
  intros _ _ _ _ nodeEdges size selfSize. unfold size, selfSize.
  rewrite calculateArraySize_first. fold nodeEdges. split.
  - intros Hnone.
    destruct (List.find _ nodeEdges) as [e|] eqn:Hfind; [|lia].
    apply List.find_some in Hfind as [Hin Hhit].
    rewrite (Hnone e Hin) in Hhit. discriminate.
  - intros before e after -> Hhit Hbefore.
    assert (Hfind : List.find (elementsEdge L edges strings) (before ++ e :: after)
                    = Some e).
    { clear -Hhit Hbefore. induction before as [|x before IH]; simpl.
      - by rewrite Hhit.
      - rewrite (Hbefore x) by (by left). apply IH.
        intros e' He'. apply Hbefore. by right. }
    by rewrite Hfind.
Qed.

Lemma calculateArraySize_first_elements_edge_witness :
  let p := array_with_elements in
  let L := layout_of p in
  let fei := buildEdgeIndexes L (p_nodes p) (p_edges p) in
  let fri := [0; 0; 1; 2; 3; 5; 6] in
  wf_edges L (p_edges p) fei = true
  /\ len (p_nodes p) = nodeCount L * nodeFieldCount L
  /\ len fri = nodeCount L + 1
  /\ is_node L 7
  /\ range (aget fei (7 / nodeFieldCount L)) (aget fei (7 / nodeFieldCount L + 1))
       (edgeFieldsCount L) = [12] ++ 15 :: []
  /\ elementsEdge L (p_edges p) (p_strings p) 15 = true
  /\ elementsEdge L (p_edges p) (p_strings p) 12 = false
  /\ calculateArraySize L (p_nodes p) (p_edges p) (p_strings p) fei fri 7
     = 16 + 32.
Proof.
  intros p L fei fri.
  assert (Hwf : wf_edges L (p_edges p) fei = true) by (vm_compute; reflexivity).
  assert (Hlen : len (p_nodes p) = nodeCount L * nodeFieldCount L)
    by reflexivity.
  assert (Hfri : len fri = nodeCount L + 1) by reflexivity.
  assert (Hnode : is_node L 7)
    by (vm_compute; split; [discriminate|split; reflexivity]).
  assert (Hedges : range (aget fei (7 / nodeFieldCount L))
                     (aget fei (7 / nodeFieldCount L + 1)) (edgeFieldsCount L)
                   = [12] ++ 15 :: []) by reflexivity.
  assert (Hhit : elementsEdge L (p_edges p) (p_strings p) 15 = true)
    by reflexivity.
  assert (Hmiss : elementsEdge L (p_edges p) (p_strings p) 12 = false)
    by reflexivity.
  split; [exact Hwf|]. split; [exact Hlen|]. split; [exact Hfri|].
  split; [exact Hnode|]. split; [exact Hedges|]. split; [exact Hhit|].
  split; [exact Hmiss|].
  destruct (calculateArraySize_first_elements_edge L (p_nodes p) (p_edges p)
              (p_strings p) fei fri 7 Hwf Hlen Hfri Hnode) as [_ Hfirst].
  rewrite (Hfirst [12] 15 [] Hedges Hhit).
  - reflexivity.
  - intros e' [<-|[]]. exact Hmiss.
Defined.

(** ** The position of a node in a sorted list of nodes *)

Section NodePosition.
Variable L : Layout.
Variable nodes : list Z.
(** The values that the methods named by [comparator.fieldName1] and
    [comparator.fieldName2] give for the node at an index, for the fields
    whose values are numbers. *)
Variables fieldAccessor1 fieldAccessor2 : Z -> Z.
(** [comparator.ascending1] and [comparator.ascending2] *)
Variables ascending1 ascending2 : bool.

(** [sortByNodeField], with [nodeA] at [indexA] and [nodeB] at [indexB]. *)
Definition sortByNodeField (fieldAccessor : Z -> Z) (ascending : Z)
    (indexA indexB : Z) : Z :=
  let valueA := fieldAccessor indexA in
  let valueB := fieldAccessor indexB in
  if valueA <? valueB then - ascending
  else if valueB <? valueA then ascending else 0.

(** [sortByComparator], the function that [buildCompareFunction] returns. *)
Definition sortByComparator (indexA indexB : Z) : Z :=
  let ascending1 := if ascending1 then 1 else -1 in
  let ascending2 := if ascending2 then 1 else -1 in
  let result := sortByNodeField fieldAccessor1 ascending1 indexA indexB in
  let result :=
    if result =? 0
    then sortByNodeField fieldAccessor2 ascending2 indexA indexB
    else result in
  if result =? 0 then indexA - indexB else result.

(** [HeapSnapshotNodesProvider.nodePosition] on the iteration order of the
    provider; the second component of the state of the first loop says that
    the [break] has been taken. *)
Definition nodePosition (iterationOrder : list Z) (snapshotObjectId : Z) : Z :=
  let '(i, _) :=
    for_range 0 (len iterationOrder) 1
      (fun _ '(i, broken) =>
         if (broken : bool) then (i, broken)
         else if aget nodes (aget iterationOrder i + nodeIdOffset L)
                 =? snapshotObjectId
              then (i, true)
              else (i + 1, false))
      (0, false) in
  if i =? len iterationOrder then -1
  else
    let targetNodeIndex := aget iterationOrder i in
    for_range 0 (len iterationOrder) 1
      (fun i smallerCount =>
         if sortByComparator (aget iterationOrder i) targetNodeIndex <? 0
         then smallerCount + 1
         else smallerCount)
      0.

Definition idOf (nodeIndex : Z) : Z := aget nodes (nodeIndex + nodeIdOffset L).

(** [a] comes before [t] under the comparator. *)
Definition sortsBefore (t a : Z) : bool := sortByComparator a t <? 0.

Lemma sortByComparator_refl (t : Z) : sortByComparator t t = 0.
Proof.
  unfold sortByComparator, sortByNodeField.
  rewrite !Z.ltb_irrefl. simpl. lia.
Qed.

Lemma sortByComparator_antisym (a b : Z) :
  sortByComparator a b <= 0 -> sortByComparator b a < 0 -> False.
Proof.
  unfold sortByComparator, sortByNodeField.
  destruct ascending1, ascending2;
    destruct (Z.ltb_spec (fieldAccessor1 a) (fieldAccessor1 b)),
             (Z.ltb_spec (fieldAccessor1 b) (fieldAccessor1 a)),
             (Z.ltb_spec (fieldAccessor2 a) (fieldAccessor2 b)),
             (Z.ltb_spec (fieldAccessor2 b) (fieldAccessor2 a));
    simpl; try lia;
    destruct (Z.eqb_spec (a - b) 0), (Z.eqb_spec (b - a) 0); lia.
Qed.

Lemma sortByComparator_strict (a b : Z) :
  sortByComparator a b <= 0 -> a <> b -> sortByComparator a b < 0.
Proof.
  unfold sortByComparator, sortByNodeField.
  destruct ascending1, ascending2;
    destruct (Z.ltb_spec (fieldAccessor1 a) (fieldAccessor1 b)),
             (Z.ltb_spec (fieldAccessor1 b) (fieldAccessor1 a)),
             (Z.ltb_spec (fieldAccessor2 a) (fieldAccessor2 b)),
             (Z.ltb_spec (fieldAccessor2 b) (fieldAccessor2 a));
    simpl; try lia;
    destruct (Z.eqb_spec (a - b) 0); lia.
Qed.

(** In a list sorted by the comparator the number of the items that come
    before [t] is the place of [t]. *)
Lemma rank_in_sorted (sorted : list Z) (t : Z) :
  StronglySorted (fun a b => sortByComparator a b <= 0) sorted ->
  In t sorted ->
  exists i : nat,
    sorted !! i = Some t
    /\ (forall j : nat, (j < i)%nat -> sorted !! j <> Some t)
    /\ List.length (List.filter (sortsBefore t) sorted) = i.
Proof.
  induction 1 as [|x l Hsorted IH Hall]; intros Hin; [destruct Hin|].
  rewrite List.Forall_forall in Hall.
  destruct (Z.eq_dec x t) as [->|Hne].
  - exists O. split; [reflexivity|]. split; [intros j Hj; lia|].
    simpl. unfold sortsBefore at 1. rewrite sortByComparator_refl. simpl.
    assert (Hnone : forall l', (forall a, In a l' -> sortByComparator t a <= 0) ->
              List.filter (sortsBefore t) l' = []).
    { induction l' as [|a l' IHl]; intros Hl; [reflexivity|]. simpl.
      unfold sortsBefore at 1.
      destruct (Z.ltb_spec (sortByComparator a t) 0) as [Hlt|_].
      - exfalso. apply (sortByComparator_antisym t a); [|done].
        apply Hl. by left.
      - apply IHl. intros b Hb. apply Hl. by right. }
    by rewrite Hnone.
  - destruct Hin as [->|Hin]; [done|].
    destruct (IH Hin) as (i & Hi & Hfirst & Hcount).
    exists (S i). split; [exact Hi|]. split.
    + intros [|j] Hj; simpl; [congruence|]. apply Hfirst. lia.
    + simpl. unfold sortsBefore at 1.
      pose proof (sortByComparator_strict x t (Hall t Hin) Hne) as Hlt.
      apply Z.ltb_lt in Hlt. rewrite Hlt. simpl. by rewrite Hcount.
Qed.

Lemma filter_length_Permutation (p : Z -> bool) (l l' : list Z) :
  Permutation l l' ->
  List.length (List.filter p l) = List.length (List.filter p l').
Proof.
  induction 1 as [|x l l' _ IH|x y l|l l' l'' _ IH1 _ IH2]; simpl.
  - reflexivity.
  - destruct (p x); simpl; lia.
  - destruct (p x), (p y); reflexivity.
  - lia.
Qed.

(** The first loop: the index of the first item with the id, or the length
    of the list. *)
Definition searched (iterationOrder : list Z) (snapshotObjectId : Z) (k : Z)
    (st : Z * bool) : Prop :=
  let '(i, broken) := st in
  (forall j, 0 <= j < i -> idOf (aget iterationOrder j) <> snapshotObjectId)
  /\ if broken
     then 0 <= i < k /\ idOf (aget iterationOrder i) = snapshotObjectId
     else i = k.

Lemma aget_lookup (a : list Z) (i : nat) (x : Z) :
  a !! i = Some x -> aget a (Z.of_nat i) = x.
Proof.
  intros H. unfold aget. destruct (Z.ltb_spec (Z.of_nat i) 0); [lia|].
  by rewrite Nat2Z.id, H.
Qed.

Lemma aget_middle (before after : list Z) (t : Z) :
  aget (before ++ t :: after) (len before) = t.
Proof.
  apply aget_lookup. rewrite lookup_app_r by lia.
  by rewrite Nat.sub_diag.
Qed.

Lemma aget_before (before after : list Z) (j : Z) :
  0 <= j < len before -> In (aget (before ++ after) j) before.
Proof.
  intros Hj.
  replace (aget (before ++ after) j) with (aget before j); [by apply aget_In|].
  unfold aget, len in *. destruct (Z.ltb_spec j 0); [lia|].
  by rewrite lookup_app_l by lia.
Qed.

Lemma nodePosition_count (iterationOrder : list Z) (t : Z) :
  for_range 0 (len iterationOrder) 1
    (fun i smallerCount =>
       if sortByComparator (aget iterationOrder i) t <? 0
       then smallerCount + 1
       else smallerCount)
    0
  = Z.of_nat (List.length (List.filter (sortsBefore t) iterationOrder)).
Proof.
  pose proof (len_nonneg iterationOrder) as Hlen.
  assert (Hinv : forall k, 0 <= k -> k <= len iterationOrder ->
            for_range 0 k 1
              (fun i smallerCount =>
                 if sortByComparator (aget iterationOrder i) t <? 0
                 then smallerCount + 1
                 else smallerCount)
              0
            = Z.of_nat (List.length
                          (List.filter (sortsBefore t)
                             (take (Z.to_nat k) iterationOrder)))).
  { apply (countP_ind (fun k => k <= len iterationOrder -> _ = _)).
    - intros _. by rewrite for_range_stop by lia.
    - intros k Hk IH Hle. rewrite for_range_snoc by lia.
      rewrite IH by lia. unfold len in Hle.
      destruct (lookup_lt_is_Some_2 iterationOrder (Z.to_nat k) ltac:(lia))
        as [x Hx].
      replace (Z.to_nat (k + 1)) with (S (Z.to_nat k)) by lia.
      rewrite (take_S_r _ _ x Hx), List.filter_app, List.length_app.
      replace (aget iterationOrder k) with x
        by (symmetry; rewrite <- (Z2Nat.id k) by lia; by apply aget_lookup).
      simpl. unfold sortsBefore.
      destruct (sortByComparator x t <? 0); simpl; lia. }
  rewrite Hinv by lia. unfold len. rewrite Nat2Z.id.
  by rewrite take_ge by lia.
Qed.

Lemma nodePosition_search (iterationOrder : list Z) (snapshotObjectId : Z) :
  searched iterationOrder snapshotObjectId (len iterationOrder)
    (for_range 0 (len iterationOrder) 1
       (fun _ '(i, broken) =>
          if (broken : bool) then (i, broken)
          else if aget nodes (aget iterationOrder i + nodeIdOffset L)
                  =? snapshotObjectId
               then (i, true)
               else (i + 1, false))
       (0, false)).
Proof.
  apply (for_range_ind1 (searched iterationOrder snapshotObjectId));
    [apply len_nonneg| |].
  - split; [intros j Hj; lia|reflexivity].
  - intros k [i broken] Hk [Hnone Hst]. destruct broken.
    + split; [exact Hnone|]. split; [lia|apply Hst].
    + subst i. fold (idOf (aget iterationOrder k)).
      destruct (Z.eqb_spec (idOf (aget iterationOrder k)) snapshotObjectId)
        as [Heq|Hne].
      * split; [exact Hnone|]. split; [lia|exact Heq].
      * split; [|reflexivity]. intros j Hj.
        destruct (Z.eq_dec j k) as [->|Hjk]; [exact Hne|]. apply Hnone. lia.
Qed.

Lemma nodePosition_absent (iterationOrder : list Z) (snapshotObjectId : Z) :
  (forall a, In a iterationOrder -> idOf a <> snapshotObjectId) ->
  nodePosition iterationOrder snapshotObjectId = -1.
Proof.
  intros Hnone. unfold nodePosition.
  pose proof (nodePosition_search iterationOrder snapshotObjectId) as Hs.
  destruct (for_range _ _ _ _ _) as [i broken]. destruct Hs as [_ Hst].
  destruct broken.
  - destruct Hst as [Hi Hid]. exfalso.
    apply (Hnone (aget iterationOrder i)); [|exact Hid]. by apply aget_In.
  - subst i. by rewrite Z.eqb_refl.
Qed.

Lemma nodePosition_found (before after : list Z) (t snapshotObjectId : Z) :
  idOf t = snapshotObjectId ->
  (forall a, In a before -> idOf a <> snapshotObjectId) ->
  nodePosition (before ++ t :: after) snapshotObjectId
  = Z.of_nat (List.length (List.filter (sortsBefore t) (before ++ t :: after))).
Proof.
  intros Hid Hbefore. unfold nodePosition.
  pose proof (nodePosition_search (before ++ t :: after) snapshotObjectId) as Hs.
  destruct (for_range _ _ _ (fun _ '(i, broken) => _) _) as [i broken].
  destruct Hs as [Hnone Hst].
  assert (Hlen : len (before ++ t :: after) = len before + 1 + len after).
  { unfold len. rewrite List.length_app. simpl. lia. }
  pose proof (len_nonneg before) as Hb. pose proof (len_nonneg after) as Ha.
  assert (Hi : i = len before).
  { destruct (Z_lt_le_dec (len before) i) as [Hlt|Hle].
    - exfalso. apply (Hnone (len before)); [lia|]. by rewrite aget_middle.
    - destruct broken; [|lia]. destruct Hst as [Hi Hfound].
      destruct (Z.eq_dec i (len before)) as [|Hne]; [done|]. exfalso.
      apply (Hbefore (aget (before ++ t :: after) i)); [|exact Hfound].
      apply aget_before. lia. }
  subst i. rewrite aget_middle.
  destruct (Z.eqb_spec (len before) (len (before ++ t :: after))); [lia|].
  apply nodePosition_count.
Qed.
End NodePosition.

(** X26. [nodePosition] answers -1 when no item of the provider has the id.
    Otherwise it takes the first item [t] with the id and answers with its
    rank under the comparator: a number below the length of the list, and the
    place where [t] stands (and first stands) in every arrangement of the
    list that is sorted by the function of [buildCompareFunction]. *)
Theorem nodePosition_is_the_rank (L : Layout) (nodes : list Z)
    (fieldAccessor1 fieldAccessor2 : Z -> Z) (ascending1 ascending2 : bool)
    (iterationOrder : list Z) (snapshotObjectId : Z) :
  len nodes = nodeCount L * nodeFieldCount L ->
  0 <= nodeIdOffset L < nodeFieldCount L ->
  (forall a, In a iterationOrder -> is_node L a) ->
  let compare :=
    sortByComparator fieldAccessor1 fieldAccessor2 ascending1 ascending2 in
  let position :=
    nodePosition L nodes fieldAccessor1 fieldAccessor2 ascending1 ascending2
      iterationOrder snapshotObjectId in
  ((forall a, In a iterationOrder -> idOf L nodes a <> snapshotObjectId) ->
   position = -1)
  /\ (forall before t after,
        iterationOrder = before ++ t :: after ->
        idOf L nodes t = snapshotObjectId ->
        (forall a, In a before -> idOf L nodes a <> snapshotObjectId) ->
        0 <= position < len iterationOrder
        /\ forall sorted,
             Permutation sorted iterationOrder ->
             StronglySorted (fun a b => compare a b <= 0) sorted ->
             sorted !! Z.to_nat position = Some t
             /\ forall j : nat, (j < Z.to_nat position)%nat ->
                  sorted !! j <> Some t).
Proof.
  intros _ _ _ compare position. unfold position. split.
  - apply nodePosition_absent.
  - intros before t after -> Hid Hbefore.
    rewrite (nodePosition_found L nodes fieldAccessor1 fieldAccessor2
               ascending1 ascending2 before after t snapshotObjectId Hid Hbefore).
    split.
    + split; [lia|]. unfold len.
      rewrite List.filter_app, !List.length_app. simpl.
      unfold sortsBefore at 2. rewrite sortByComparator_refl. simpl.
      pose proof (List.filter_length_le
                    (sortsBefore fieldAccessor1 fieldAccessor2 ascending1
                       ascending2 t) before).
      pose proof (List.filter_length_le
                    (sortsBefore fieldAccessor1 fieldAccessor2 ascending1
                       ascending2 t) after).
      lia.
    + intros sorted Hperm Hsorted. rewrite Nat2Z.id.
      rewrite <- (filter_length_Permutation _ _ _ Hperm).
      destruct (rank_in_sorted fieldAccessor1 fieldAccessor2 ascending1
                  ascending2 sorted t Hsorted) as (i & Hi & Hfirst & Hcount).
      { eapply Permutation_in; [symmetry; exact Hperm|].
        apply in_or_app. right. by left. }
      rewrite Hcount. split; [exact Hi|exact Hfirst].
Qed.

Lemma nodePosition_is_the_rank_witness :
  let p := array_with_elements in
  let L := layout_of p in
  let selfSize := fun i => aget (p_nodes p) (i + nodeSelfSizeOffset L) in
  let id := fun i => aget (p_nodes p) (i + nodeIdOffset L) in
  let order := [7; 14; 21] in
  len (p_nodes p) = nodeCount L * nodeFieldCount L
  /\ (forall a, In a order -> is_node L a)
  /\ idOf L (p_nodes p) 7 = 3
  /\ Permutation [21; 7; 14] order
  /\ StronglySorted (fun a b => sortByComparator selfSize id true true a b <= 0)
       [21; 7; 14]
  /\ nodePosition L (p_nodes p) selfSize id true true order 3 = 1
  /\ nodePosition L (p_nodes p) selfSize id true true order 4 = -1.
Proof.
  intros p L selfSize id order.
  assert (Hlen : len (p_nodes p) = nodeCount L * nodeFieldCount L)
    by reflexivity.
  assert (Hoff : 0 <= nodeIdOffset L < nodeFieldCount L)
    by (vm_compute; split; discriminate || reflexivity).
  assert (Hnodes : forall a, In a order -> is_node L a).
  { intros a [<-|[<-|[<-|[]]]]; vm_compute;
      (split; [discriminate|split; reflexivity]). }
  assert (Hperm : Permutation [21; 7; 14] order).
  { apply perm_trans with [7; 21; 14]; [apply perm_swap|].
    apply perm_skip, perm_swap. }
  assert (Hsorted : StronglySorted
                      (fun a b => sortByComparator selfSize id true true a b <= 0)
                      [21; 7; 14]).
  { repeat constructor; vm_compute; discriminate. }
  destruct (nodePosition_is_the_rank L (p_nodes p) selfSize id true true order 3
              Hlen Hoff Hnodes) as [_ Hfound].
  destruct (nodePosition_is_the_rank L (p_nodes p) selfSize id true true order 4
              Hlen Hoff Hnodes) as [Habsent _].
  split; [exact Hlen|]. split; [exact Hnodes|]. split; [reflexivity|].
  split; [exact Hperm|]. split; [exact Hsorted|]. split.
  - destruct (Hfound [] 7 [14; 21] eq_refl eq_refl ltac:(intros a []))
      as [_ Hrank].
    destruct (Hrank [21; 7; 14] Hperm Hsorted) as [Hat _].
    reflexivity.
  - apply Habsent. intros a [<-|[<-|[<-|[]]]]; vm_compute; discriminate.
Defined.

(** ** Objects that can be queried *)

(** [nodeFlags.canBeQueried] *)
Definition canBeQueriedFlag : Z := 1.

Section QueriableObjects.
Variable L : Layout.
Variables nodes containmentEdges : list Z.
Variable firstEdgeIndexes : list Z.

(** The first loop of [markQueriableHeapObjects]: the user roots that the
    edges of the root lead to.  The end of the JavaScript array [list], where
    [push] and [pop] work, is the head of [worklist]. *)
Definition queriableEntryPoints : list Z :=
  let rootNodeOrdinal := rootNodeIndexInternal L / nodeFieldCount L in
  for_range (aget firstEdgeIndexes rootNodeOrdinal)
    (aget firstEdgeIndexes (rootNodeOrdinal + 1)) (edgeFieldsCount L)
    (fun edgeIndex worklist =>
       let nodeIndex := aget containmentEdges (edgeIndex + edgeToNodeOffset L) in
       if node_isUserRoot L nodes nodeIndex
       then nodeIndex / nodeFieldCount L :: worklist
       else worklist)
    [].

(** The loop over the edges of the node that has been taken from [list]. *)
Definition pushQueriableChildren (flags : list Z) (nodeOrdinal : Z)
    (worklist : list Z) : list Z :=
  for_range (aget firstEdgeIndexes nodeOrdinal)
    (aget firstEdgeIndexes (nodeOrdinal + 1)) (edgeFieldsCount L)
    (fun edgeIndex worklist =>
       let childNodeIndex :=
         aget containmentEdges (edgeIndex + edgeToNodeOffset L) in
       let childNodeOrdinal := childNodeIndex / nodeFieldCount L in
       if negb (Z.land (aget flags childNodeOrdinal) canBeQueriedFlag =? 0)
       then worklist
       else
         let type := aget containmentEdges (edgeIndex + edgeTypeOffset L) in
         if (type =? edgeHiddenType L) || (type =? edgeInvisibleType L)
            || (type =? edgeInternalType L) || (type =? edgeWeakType L)
         then worklist
         else childNodeOrdinal :: worklist)
    worklist.

(** [while (list.length)] *)
Fixpoint markQueriable (fuel : nat) (worklist flags : list Z) : result (list Z) :=
  match worklist with
  | [] => Ok flags
  | nodeOrdinal :: worklist =>
      match fuel with
      | O => OutOfFuel
      | S fuel' =>
          if negb (Z.land (aget flags nodeOrdinal) canBeQueriedFlag =? 0)
          then markQueriable fuel' worklist flags
          else
            let flags :=
              aset32 flags nodeOrdinal
                (Z.lor (aget flags nodeOrdinal) canBeQueriedFlag) in
            markQueriable fuel'
              (pushQueriableChildren flags nodeOrdinal worklist) flags
      end
  end.

(** [markQueriableHeapObjects] on the flags that [markDetachedDOMTreeNodes]
    has left. *)
Definition markQueriableHeapObjects (flags : list Z) : result (list Z) :=
  markQueriable
    (Z.to_nat (nodeCount L * (edgeCount L + 1) + edgeCount L + 1))
    queriableEntryPoints flags.
End QueriableObjects.

(** An edge that the walk follows: not hidden, invisible, internal or weak. *)
Definition queriableEdge (L : Layout) (edges : list Z) (e : Z) : bool :=
  let type := aget edges (e + edgeTypeOffset L) in
  negb ((type =? edgeHiddenType L) || (type =? edgeInvisibleType L)
        || (type =? edgeInternalType L) || (type =? edgeWeakType L)).

Definition queriable_step (L : Layout) (edges fei : list Z) (u v : Z) : Prop :=
  exists e, edge_of L fei u e
    /\ queriableEdge L edges e = true
    /\ aget edges (e + edgeToNodeOffset L) / nodeFieldCount L = v.

(** A user root that an edge of the root leads to. *)
Definition queriable_entry (L : Layout) (nodes edges fei : list Z) (v : Z)
    : Prop :=
  exists e, edge_of L fei (rootNodeIndexInternal L / nodeFieldCount L) e
    /\ node_isUserRoot L nodes (aget edges (e + edgeToNodeOffset L)) = true
    /\ aget edges (e + edgeToNodeOffset L) / nodeFieldCount L = v.

Definition queriable (L : Layout) (nodes edges fei : list Z) (v : Z) : Prop :=
  exists s, queriable_entry L nodes edges fei s
            /\ rtc (queriable_step L edges fei) s v.

Definition canBeQueried (flags : list Z) (v : Z) : Prop :=
  Z.land (aget flags v) canBeQueriedFlag <> 0.

Lemma fold_left_push {A} (keep : Z -> bool) (item : Z -> A) (es : list Z)
    (l0 : list A) :
  fold_left (fun l e => if keep e then item e :: l else l) es l0
  = rev (map item (List.filter keep es)) ++ l0.
Proof.
  revert l0. induction es as [|e es IH]; intros l0; simpl; [reflexivity|].
  rewrite IH. destruct (keep e); simpl; [|reflexivity].
  by rewrite <- List.app_assoc.
Qed.

Lemma fold_left_pointwise {A B} (f g : A -> B -> A) (l : list B) (a : A) :
  (forall a b, f a b = g a b) -> fold_left f l a = fold_left g l a.
Proof.
  intros H. revert a. induction l as [|b l IH]; intros a; simpl; [reflexivity|].
  by rewrite H, IH.
Qed.

Lemma In_range (start stop step e : Z) :
  0 < step ->
  In e (range start stop step)
  <-> start <= e < stop /\ (e - start) mod step = 0.
Proof.
  intros Hs. remember (iters start stop step) as k eqn:Hk.
  revert start Hk. induction k as [|k IH]; intros start Hk.
  - destruct (Z_lt_le_dec start stop) as [Hlt|Hge].
    + rewrite iters_step in Hk by done. discriminate.
    + rewrite range_stop by done. simpl. lia.
  - destruct (Z_lt_le_dec start stop) as [Hlt|Hge].
    2: { rewrite iters_stop in Hk by done. discriminate. }
    rewrite iters_step in Hk by done. injection Hk as Hk.
    rewrite range_step by done. simpl. rewrite (IH _ Hk). split.
    + intros [<-|[Hr Hm]].
      * rewrite Z.sub_diag. split; [lia|]. by apply Z.mod_0_l, Z.neq_sym, Z.lt_neq.
      * split; [lia|].
        replace (e - start) with (e - (start + step) + 1 * step) by lia.
        by rewrite Z.mod_add by lia.
    + intros [Hr Hm]. destruct (Z.eq_dec start e) as [|Hne]; [by left|right].
      assert (Hnext : 0 + step <= e - start).
      { apply aligned_next; [done| |done|lia].
        by apply Z.mod_0_l, Z.neq_sym, Z.lt_neq. }
      split; [lia|].
      replace (e - (start + step)) with (e - start + (-1) * step) by lia.
      by rewrite Z.mod_add by lia.
Qed.

Lemma lor_flag_range (x : Z) :
  0 <= x < 4294967296 -> 0 <= Z.lor x canBeQueriedFlag < 4294967296.
Proof.
  intros Hx. unfold canBeQueriedFlag.
  pose proof (Z.add_lor_land x 1) as Hadd.
  pose proof (Z.land_ones x 1 ltac:(lia)) as Hland.
  change (Z.ones 1) with 1 in Hland. change (2 ^ 1) with 2 in Hland.
  pose proof (Z.mod_pos_bound x 2 ltac:(lia)) as Hmod.
  pose proof (Z.div_mod x 2 ltac:(lia)) as Hdiv.
  lia.
Qed.

Lemma lor_flag_set (x : Z) :
  Z.land (Z.lor x canBeQueriedFlag) canBeQueriedFlag <> 0.
Proof.
  unfold canBeQueriedFlag. rewrite Z.land_lor_distr_l.
  change (Z.land 1 1) with 1. intros H.
  apply Z.lor_eq_0_iff in H as [_ H]. discriminate.
Qed.

Section QueriableProof.
Variable L : Layout.
Variables nodes edges : list Z.
Variable fei : list Z.
Variable flags0 : list Z.

Local Abbreviation NF := (nodeFieldCount L).
Local Abbreviation EF := (edgeFieldsCount L).
Local Abbreviation n := (nodeCount L).
Local Abbreviation E := (edgeCount L).
Local Abbreviation rootOrd := (rootNodeIndexInternal L / nodeFieldCount L).
Local Abbreviation child :=
  (fun e => aget edges (e + edgeToNodeOffset L) / nodeFieldCount L).
Local Abbreviation step := (queriable_step L edges fei).
Local Abbreviation entry := (queriable_entry L nodes edges fei).
Local Abbreviation reach := (queriable L nodes edges fei).

Hypothesis Hwf : wf_edges L edges fei = true.
Hypothesis Hroot : 0 <= rootOrd < n.
Hypothesis Hlen0 : len flags0 = n.
Hypothesis Hrange0 : forall v, 0 <= aget flags0 v < 4294967296.
Hypothesis Hfresh : forall v, ~ canBeQueried flags0 v.

Local Set Default Proof Using "All".

Lemma queriable_facts :
  0 < NF /\ 0 < EF /\ 0 <= n /\ 0 <= E /\ len edges = E * EF.
Proof.
  destruct (wf_edges_spec L edges fei Hwf) as (HNF & HEF & _ & Hn & Hlen & _).
  pose proof (len_nonneg edges). repeat split; try done. nia.
Qed.

Lemma edges_of_node (u e : Z) :
  In e (range (aget fei u) (aget fei (u + 1)) EF) <-> edge_of L fei u e.
Proof.
  destruct queriable_facts as (_ & HEF & _). unfold edge_of.
  by apply In_range.
Qed.

Lemma edges_of_node_count (u : Z) :
  0 <= u < n ->
  len (range (aget fei u) (aget fei (u + 1)) EF) <= E.
Proof.
  intros Hu.
  destruct (wf_edges_spec L edges fei Hwf)
    as (HNF & HEF & Hoff & Hn & Hlen & Hsmall & Hfei0 & HfeiN & Hfei & Htarget).
  pose proof (fei_mono L edges fei HNF HEF Hoff Hn Hlen Hsmall Hfei0 HfeiN Hfei
                Htarget) as Hmono.
  pose proof (Hmono 0 u ltac:(lia) ltac:(lia)) as H0.
  pose proof (Hmono (u + 1) n ltac:(lia) ltac:(lia)) as H1.
  destruct (Hfei u Hu) as [Hle _].
  unfold len, range. rewrite length_map, length_seq. unfold iters.
  assert (Hq : (aget fei (u + 1) - aget fei u + EF - 1) / EF < E + 1).
  { apply Z.div_lt_upper_bound; [done|]. nia. }
  assert (0 <= E) by nia. lia.
Qed.

Lemma child_in_nodes (u e : Z) :
  0 <= u < n -> edge_of L fei u e -> 0 <= child e < n.
Proof. intros Hu He. by destruct (wf_edge_target L edges fei u e Hwf Hu He). Qed.

Lemma canBeQueried_in_nodes (flags : list Z) (v : Z) :
  len flags = n -> canBeQueried flags v -> 0 <= v < n.
Proof.
  intros Hl Hq. destruct (Z_le_gt_dec 0 v), (Z_lt_le_dec v n); try lia;
    exfalso; apply Hq; rewrite aget_out by lia; reflexivity.
Qed.

Lemma canBeQueried_set (flags : list Z) (c x : Z) :
  len flags = n -> 0 <= c < n -> 0 <= aget flags c < 4294967296 ->
  canBeQueried (aset32 flags c (Z.lor (aget flags c) canBeQueriedFlag)) x
  <-> canBeQueried flags x \/ x = c.
Proof.
  intros Hl Hc Hr. unfold canBeQueried, aset32.
  rewrite u32_small by (by apply lor_flag_range).
  destruct (Z.eq_dec c x) as [->|Hne].
  - rewrite aget_aset_eq by lia. split; [by right|intros _; apply lor_flag_set].
  - rewrite aget_aset_ne by done. split; [by left|]. intros [H| ->]; done.
Qed.

(** The nodes that do not have the flag yet. *)
Definition unqueried (flags : list Z) : Z :=
  countP (fun v => Z.land (aget flags v) canBeQueriedFlag =? 0) n.

Lemma unqueried_set (flags : list Z) (c : Z) :
  len flags = n -> 0 <= c < n -> 0 <= aget flags c < 4294967296 ->
  ~ canBeQueried flags c ->
  unqueried (aset32 flags c (Z.lor (aget flags c) canBeQueriedFlag)) + 1
  = unqueried flags.
Proof.
  intros Hl Hc Hr Hnot. unfold unqueried.
  apply (countP_drop _ _ n c); [done| | |].
  - apply Z.eqb_eq. unfold canBeQueried in Hnot. lia.
  - apply Z.eqb_neq. apply (canBeQueried_set flags c c Hl Hc Hr). by right.
  - intros k Hk. unfold aset32. by rewrite aget_aset_ne by lia.
Qed.

(** The edges of [u] whose targets the loop pushes. *)
Definition pushedEdges (flags : list Z) (u : Z) : list Z :=
  List.filter
    (fun e =>
       (Z.land (aget flags (child e)) canBeQueriedFlag =? 0)
       && queriableEdge L edges e)
    (range (aget fei u) (aget fei (u + 1)) EF).

Lemma pushQueriableChildren_spec (flags : list Z) (u : Z) (worklist : list Z) :
  pushQueriableChildren L edges fei flags u worklist
  = rev (map child (pushedEdges flags u)) ++ worklist.
Proof.
  unfold pushQueriableChildren, for_range, pushedEdges.
  rewrite <- fold_left_push. apply fold_left_pointwise.
  intros l e. unfold queriableEdge. cbv beta zeta.
  destruct (Z.land _ _ =? 0); cbn [negb andb]; [|reflexivity].
  by destruct (_ || _).
Qed.

Lemma pushedEdges_spec (flags : list Z) (u x : Z) :
  In x (map child (pushedEdges flags u))
  <-> exists e, edge_of L fei u e /\ queriableEdge L edges e = true
                /\ child e = x /\ ~ canBeQueried flags x.
Proof.
  unfold pushedEdges. rewrite in_map_iff. split.
  - intros (e & Hx & He). apply List.filter_In in He as [He Hkeep].
    apply andb_true_iff in Hkeep as [Hq Hedge]. apply Z.eqb_eq in Hq.
    exists e. split; [by apply edges_of_node|]. split; [done|].
    split; [done|]. unfold canBeQueried. rewrite <- Hx. lia.
  - intros (e & He & Hedge & Hx & Hq). exists e. split; [done|].
    apply List.filter_In. split; [by apply edges_of_node|].
    apply andb_true_iff. split; [|done]. apply Z.eqb_eq.
    unfold canBeQueried in Hq. rewrite Hx. lia.
Qed.

Lemma pushedEdges_count (flags : list Z) (u : Z) :
  0 <= u < n -> len (rev (map child (pushedEdges flags u))) <= E.
Proof.
  intros Hu. pose proof (edges_of_node_count u Hu) as Hle.
  unfold len in *. rewrite length_rev, length_map. unfold pushedEdges.
  pose proof (List.filter_length_le
                (fun e =>
                   (Z.land (aget flags (child e)) canBeQueriedFlag =? 0)
                   && queriableEdge L edges e)
                (range (aget fei u) (aget fei (u + 1)) EF)).
  lia.
Qed.

Lemma queriableEntryPoints_spec :
  (forall s, In s (queriableEntryPoints L nodes edges fei) <-> entry s)
  /\ len (queriableEntryPoints L nodes edges fei) <= E.
Proof.
  unfold queriableEntryPoints, for_range.
  rewrite (fold_left_push
             (fun e => node_isUserRoot L nodes (aget edges (e + edgeToNodeOffset L)))
             child).
  rewrite List.app_nil_r. split.
  - intros s. rewrite <- in_rev, in_map_iff. unfold queriable_entry. split.
    + intros (e & Hs & He). apply List.filter_In in He as [He Huser].
      exists e. split; [by apply edges_of_node|done].
    + intros (e & He & Huser & Hs). exists e. split; [done|].
      apply List.filter_In. split; [by apply edges_of_node|done].
  - pose proof (edges_of_node_count rootOrd Hroot) as Hle.
    unfold len in *. rewrite length_rev, length_map.
    pose proof (List.filter_length_le
                  (fun e => node_isUserRoot L nodes
                              (aget edges (e + edgeToNodeOffset L)))
                  (range (aget fei rootOrd) (aget fei (rootOrd + 1)) EF)).
    lia.
Qed.

Lemma entry_in_nodes (s : Z) : entry s -> 0 <= s < n.
Proof. intros (e & He & _ & <-). by apply (child_in_nodes rootOrd). Qed.

(** What the loop keeps true of the list of nodes to visit and the flags. *)
Record queriable_inv (worklist flags : list Z) : Prop := {
  qi_len : len flags = n;
  qi_range : forall v, 0 <= aget flags v < 4294967296;
  qi_list : forall x, In x worklist -> 0 <= x < n /\ reach x;
  qi_sound : forall v, canBeQueried flags v -> reach v;
  qi_entry : forall s, entry s -> canBeQueried flags s \/ In s worklist;
  qi_closed : forall u v,
    canBeQueried flags u -> step u v -> canBeQueried flags v \/ In v worklist;
  qi_bits : forall v,
    aget flags v = aget flags0 v
    \/ aget flags v = Z.lor (aget flags0 v) canBeQueriedFlag
}.

Lemma queriable_inv_start :
  queriable_inv (queriableEntryPoints L nodes edges fei) flags0.
Proof.
  destruct queriableEntryPoints_spec as [Hentries _]. constructor.
  - exact Hlen0.
  - exact Hrange0.
  - intros x Hx. apply Hentries in Hx. split; [by apply entry_in_nodes|].
    exists x. split; [exact Hx|apply rtc_refl].
  - intros v Hv. by destruct (Hfresh v).
  - intros s Hs. right. by apply Hentries.
  - intros u v Hu. by destruct (Hfresh u).
  - intros v. by left.
Qed.

Lemma queriable_inv_skip (x : Z) (worklist flags : list Z) :
  queriable_inv (x :: worklist) flags -> canBeQueried flags x ->
  queriable_inv worklist flags.
Proof.
  intros I Hx. constructor.
  - exact (qi_len _ _ I).
  - exact (qi_range _ _ I).
  - intros y Hy. apply (qi_list _ _ I). by right.
  - exact (qi_sound _ _ I).
  - intros s Hs. destruct (qi_entry _ _ I s Hs) as [Hq|[<-|Hin]];
      [by left|by left|by right].
  - intros u v Hu Huv. destruct (qi_closed _ _ I u v Hu Huv) as [Hq|[<-|Hin]];
      [by left|by left|by right].
  - exact (qi_bits _ _ I).
Qed.

Lemma queriable_inv_visit (x : Z) (worklist flags : list Z) :
  queriable_inv (x :: worklist) flags -> ~ canBeQueried flags x ->
  let flags' := aset32 flags x (Z.lor (aget flags x) canBeQueriedFlag) in
  queriable_inv (pushQueriableChildren L edges fei flags' x worklist) flags'.
Proof.
  intros I Hx flags'. rewrite pushQueriableChildren_spec.
  pose proof (qi_len _ _ I) as Hl. pose proof (qi_range _ _ I) as Hr.
  destruct (qi_list _ _ I x ltac:(by left)) as [Hxn Hxr].
  assert (Hset : forall v, canBeQueried flags' v <-> canBeQueried flags v \/ v = x).
  { intros v. by apply canBeQueried_set. }
  assert (Hval : aget flags' x = Z.lor (aget flags x) canBeQueriedFlag).
  { unfold flags', aset32. rewrite u32_small by (by apply lor_flag_range).
    by rewrite aget_aset_eq by lia. }
  assert (Hother : forall v, v <> x -> aget flags' v = aget flags v).
  { intros v Hv. unfold flags', aset32. by rewrite aget_aset_ne by lia. }
  constructor.
  - unfold flags'. by rewrite len_aset32.
  - intros v. destruct (Z.eq_dec v x) as [->|Hv].
    + rewrite Hval. by apply lor_flag_range.
    + by rewrite Hother.
  - intros y Hy. apply in_app_or in Hy as [Hy|Hy].
    + rewrite <- in_rev in Hy. apply pushedEdges_spec in Hy
        as (e & He & Hedge & Hy & _).
      split; [rewrite <- Hy; by apply (child_in_nodes x)|].
      destruct Hxr as (s & Hs & Hsx). exists s. split; [exact Hs|].
      eapply rtc_r; [exact Hsx|]. by exists e.
    + apply (qi_list _ _ I). by right.
  - intros v Hv. apply Hset in Hv as [Hv| ->]; [by apply (qi_sound _ _ I)|done].
  - intros s Hs. destruct (qi_entry _ _ I s Hs) as [Hq|[<-|Hin]].
    + left. apply Hset. by left.
    + left. apply Hset. by right.
    + right. apply in_or_app. by right.
  - intros u v Hu Huv. apply Hset in Hu as [Hu| ->].
    + destruct (qi_closed _ _ I u v Hu Huv) as [Hq|[<-|Hin]].
      * left. apply Hset. by left.
      * left. apply Hset. by right.
      * right. apply in_or_app. by right.
    + destruct (Z.eq_dec (Z.land (aget flags' v) canBeQueriedFlag) 0)
        as [Hz|Hnz]; [|by left].
      right. apply in_or_app. left. rewrite <- in_rev. apply pushedEdges_spec.
      destruct Huv as (e & He & Hedge & Hv). exists e.
      split; [done|]. split; [done|]. split; [done|].
      unfold canBeQueried. lia.
  - intros v. destruct (Z.eq_dec v x) as [->|Hv].
    + right. rewrite Hval. f_equal.
      destruct (qi_bits _ _ I x) as [Hb|Hb]; [done|]. exfalso. apply Hx.
      unfold canBeQueried. rewrite Hb. apply lor_flag_set.
    + rewrite Hother by done. apply (qi_bits _ _ I).
Qed.

Lemma unqueried_bounds (flags : list Z) : 0 <= unqueried flags <= n.
Proof.
  destruct queriable_facts as (_ & _ & Hn & _). by apply countP_bounds.
Qed.

Lemma markQueriable_ends (fuel : nat) :
  forall worklist flags,
    queriable_inv worklist flags ->
    unqueried flags * (E + 1) + len worklist < Z.of_nat fuel ->
    exists flags',
      markQueriable L edges fei fuel worklist flags = Ok flags'
      /\ queriable_inv [] flags'.
Proof.
  destruct queriable_facts as (_ & _ & Hn & HE & _).
  induction fuel as [|fuel IH]; intros worklist flags I Hfuel.
  - pose proof (unqueried_bounds flags). pose proof (len_nonneg worklist). nia.
  - destruct worklist as [|x worklist]; [by exists flags|].
    cbn [markQueriable].
    assert (Hcons : len (x :: worklist) = len worklist + 1).
    { unfold len. cbn [List.length]. lia. }
    destruct (Z.eqb_spec (Z.land (aget flags x) canBeQueriedFlag) 0)
      as [Hz|Hnz]; cbn [negb].
    + assert (Hx : ~ canBeQueried flags x) by (unfold canBeQueried; lia).
      destruct (qi_list _ _ I x ltac:(by left)) as [Hxn _].
      pose proof (queriable_inv_visit x worklist flags I Hx) as I'.
      cbv zeta in I'. apply IH; [exact I'|].
      rewrite pushQueriableChildren_spec.
      pose proof (unqueried_set flags x (qi_len _ _ I) Hxn (qi_range _ _ I x) Hx)
        as Hdrop.
      pose proof (pushedEdges_count
                    (aset32 flags x (Z.lor (aget flags x) canBeQueriedFlag)) x
                    Hxn) as Hpush.
      unfold len in *. rewrite List.length_app. nia.
    + apply IH; [by apply (queriable_inv_skip x)|]. lia.
Qed.

Lemma markQueriableHeapObjects_spec :
  exists flags',
    markQueriableHeapObjects L nodes edges fei flags0 = Ok flags'
    /\ len flags' = n
    /\ forall v,
         (canBeQueried flags' v <-> reach v)
         /\ (reach v -> aget flags' v = Z.lor (aget flags0 v) canBeQueriedFlag)
         /\ (~ reach v -> aget flags' v = aget flags0 v).
Proof.
  destruct queriable_facts as (_ & _ & Hn & HE & _).
  destruct queriableEntryPoints_spec as [_ Hcount].
  destruct (markQueriable_ends
              (Z.to_nat (n * (E + 1) + E + 1))
              (queriableEntryPoints L nodes edges fei) flags0
              queriable_inv_start) as (flags' & Hrun & I).
  { pose proof (unqueried_bounds flags0). nia. }
  exists flags'. split; [exact Hrun|]. split; [exact (qi_len _ _ I)|].
  assert (Hcomplete : forall v, reach v -> canBeQueried flags' v).
  { intros v (s & Hs & Hsv). revert v Hsv.
    apply (rtc_ind_r (fun v => canBeQueried flags' v)).
    - by destruct (qi_entry _ _ I s Hs) as [Hq|[]].
    - intros y z _ Hyz Hy.
      by destruct (qi_closed _ _ I y z Hy Hyz) as [Hq|[]]. }
  intros v. split; [split; [apply (qi_sound _ _ I)|apply Hcomplete]|]. split.
  - intros Hv. apply Hcomplete in Hv.
    destruct (qi_bits _ _ I v) as [Hb|Hb]; [|done].
    exfalso. apply (Hfresh v). unfold canBeQueried in *. by rewrite <- Hb.
  - intros Hv. destruct (qi_bits _ _ I v) as [Hb|Hb]; [done|].
    exfalso. apply Hv, (qi_sound _ _ I). unfold canBeQueried. rewrite Hb.
    apply lor_flag_set.
Qed.
End QueriableProof.

(** The root holds the window [W] and the synthetic node [G]; [W] holds [A]
    by a property and [B] by an internal edge, [G] holds [C]. *)
Definition window_and_roots : Profile :=
  {| meta := v8_meta;
     p_nodes :=
       [9; 0; 1; 0; 2; 0; 0;     (* root *)
        3; 1; 3; 8; 2; 0; 0;     (* W *)
        9; 2; 5; 0; 1; 0; 0;     (* G, synthetic *)
        3; 3; 7; 8; 0; 0; 0;     (* A *)
        3; 4; 9; 8; 0; 0; 0;     (* B *)
        3; 5; 11; 8; 0; 0; 0];   (* C *)
     p_edges :=
       [1; 0; 7;                 (* root -> W *)
        1; 1; 14;                (* root -> G *)
        2; 6; 21;                (* W -p-> A *)
        3; 6; 28;                (* W -> B, internal *)
        2; 6; 35];               (* G -p-> C *)
     p_strings := [""; "W"; "(GC roots)"; "A"; "B"; "C"; "p"]%string;
     root_index := 0 |}.

(** X27. [markQueriableHeapObjects] ends, and sets the [canBeQueried] bit of
    exactly the nodes that can be reached from a user root held by the root
    through edges that are not hidden, invisible, internal or weak; the other
    bits of the flags, and the flags of all other nodes, stay as they were. *)
Theorem markQueriableHeapObjects_flags_what_user_roots_reach (L : Layout)
    (nodes edges fei flags : list Z) :
  wf_edges L edges fei = true ->
  0 <= rootNodeIndexInternal L / nodeFieldCount L < nodeCount L ->
  len nodes = nodeCount L * nodeFieldCount L ->
  len flags = nodeCount L ->
  (forall v, 0 <= aget flags v < 4294967296) ->
  (forall v, ~ canBeQueried flags v) ->
  exists flags',
    markQueriableHeapObjects L nodes edges fei flags = Ok flags'
    /\ len flags' = nodeCount L
    /\ forall v,
         (canBeQueried flags' v <-> queriable L nodes edges fei v)
         /\ (queriable L nodes edges fei v ->
             aget flags' v = Z.lor (aget flags v) canBeQueriedFlag)
         /\ (~ queriable L nodes edges fei v -> aget flags' v = aget flags v).
Proof.
  intros Hwf Hroot _ Hlen Hrange Hfresh.
  exact (markQueriableHeapObjects_spec L nodes edges fei flags Hwf Hroot Hlen
           Hrange Hfresh).
Qed.

Lemma markQueriableHeapObjects_flags_what_user_roots_reach_witness :
  let p := window_and_roots in
  let L := layout_of p in
  let fei := buildEdgeIndexes L (p_nodes p) (p_edges p) in
  let flags := [0; 2; 0; 0; 2; 0] in
  wf_edges L (p_edges p) fei = true
  /\ 0 <= rootNodeIndexInternal L / nodeFieldCount L < nodeCount L
  /\ len (p_nodes p) = nodeCount L * nodeFieldCount L
  /\ len flags = nodeCount L
  /\ (forall v, 0 <= aget flags v < 4294967296)
  /\ (forall v, ~ canBeQueried flags v)
  /\ markQueriableHeapObjects L (p_nodes p) (p_edges p) fei flags
     = Ok [0; 3; 0; 1; 2; 0]
  /\ exists flags',
       markQueriableHeapObjects L (p_nodes p) (p_edges p) fei flags = Ok flags'
       /\ len flags' = nodeCount L
       /\ forall v,
            (canBeQueried flags' v <-> queriable L (p_nodes p) (p_edges p) fei v)
            /\ (queriable L (p_nodes p) (p_edges p) fei v ->
                aget flags' v = Z.lor (aget flags v) canBeQueriedFlag)
            /\ (~ queriable L (p_nodes p) (p_edges p) fei v ->
                aget flags' v = aget flags v).
Proof.
  intros p L fei flags.
  assert (Hwf : wf_edges L (p_edges p) fei = true) by (vm_compute; reflexivity).
  assert (Hroot : 0 <= rootNodeIndexInternal L / nodeFieldCount L < nodeCount L)
    by (vm_compute; split; [discriminate|reflexivity]).
  assert (Hlen : len (p_nodes p) = nodeCount L * nodeFieldCount L)
    by reflexivity.
  assert (Hflags : len flags = nodeCount L) by reflexivity.
  assert (Hcases : forall v,
            aget flags v = 0 \/ aget flags v = 2).
  { intros v. destruct (Z_lt_le_dec v 0) as [Hneg|Hpos].
    - left. apply aget_out. lia.
    - destruct (Z_lt_le_dec v 6) as [Hlt|Hge].
      + assert (Hv : v = 0 \/ v = 1 \/ v = 2 \/ v = 3 \/ v = 4 \/ v = 5) by lia.
        destruct Hv as [->|[->|[->|[->|[->| ->]]]]]; vm_compute; auto.
      + left. apply aget_out. change (len flags) with 6. lia. }
  assert (Hrange : forall v, 0 <= aget flags v < 4294967296).
  { intros v. destruct (Hcases v) as [-> | ->]; lia. }
  assert (Hfresh : forall v, ~ canBeQueried flags v).
  { intros v. unfold canBeQueried.
    destruct (Hcases v) as [-> | ->]; intros H; by apply H. }
  split; [exact Hwf|]. split; [exact Hroot|]. split; [exact Hlen|].
  split; [exact Hflags|]. split; [exact Hrange|]. split; [exact Hfresh|].
  split; [reflexivity|].
  exact (markQueriableHeapObjects_flags_what_user_roots_reach L (p_nodes p)
           (p_edges p) fei flags Hwf Hroot Hlen Hflags Hrange Hfresh).
Defined.

(** ** Detached DOM tree nodes *)

(** [nodeFlags.detachedDOMTreeNode] *)
Definition detachedDOMTreeNodeFlag : Z := 2.

(** [markDetachedDOMTreeNodes]; a native node is not a concatenated string, so
    its [name()] is the string of its name field. *)
Definition markDetachedDOMTreeNodes (L : Layout) (nodes : list Z)
    (strings : list string) (flags : list Z) : list Z :=
  snd (for_range 0 (len nodes) (nodeFieldCount L)
         (fun nodeIndex '(ordinal, flags) =>
            let nodeType := aget nodes (nodeIndex + nodeTypeOffset L) in
            if negb (nodeType =? nodeNativeType L) then (ordinal + 1, flags)
            else if String.prefix "Detached "
                      (sget strings (aget nodes (nodeIndex + nodeNameOffset L)))
                 then
                   (ordinal + 1,
                    aset32 flags ordinal
                      (Z.lor (aget flags ordinal) detachedDOMTreeNodeFlag))
                 else (ordinal + 1, flags))
         (0, flags)).

(** A native node whose name begins with [Detached ]. *)
Definition namedDetached (L : Layout) (nodes : list Z) (strings : list string)
    (v : Z) : bool :=
  (aget nodes (v * nodeFieldCount L + nodeTypeOffset L) =? nodeNativeType L)
  && String.prefix "Detached "
       (sget strings (aget nodes (v * nodeFieldCount L + nodeNameOffset L))).

Lemma markDetachedDOMTreeNodes_fresh (L : Layout) (nodes : list Z)
    (strings : list string) (v : Z) :
  0 < nodeFieldCount L -> 0 <= nodeCount L ->
  len nodes = nodeCount L * nodeFieldCount L ->
  0 <= v < nodeCount L ->
  aget (markDetachedDOMTreeNodes L nodes strings (new_array (nodeCount L))) v
  = if namedDetached L nodes strings v then detachedDOMTreeNodeFlag else 0.
Proof.
  intros HNF Hn Hlen Hv. unfold markDetachedDOMTreeNodes. rewrite Hlen.
  change 0 with (0 * nodeFieldCount L) at 1.
  rewrite for_range_records by done.
  match goal with
  | |- context [for_range 0 _ 1 ?body ?init] =>
      assert (Hinv : let st := for_range 0 (nodeCount L) 1 body init in
                fst st = nodeCount L
                /\ len (snd st) = nodeCount L
                /\ forall x, 0 <= x ->
                     aget (snd st) x
                     = if (x <? nodeCount L) && namedDetached L nodes strings x
                       then detachedDOMTreeNodeFlag else 0)
  end.
  { apply (for_range_ind1
             (fun k st =>
                fst st = k
                /\ len (snd st) = nodeCount L
                /\ forall x, 0 <= x ->
                     aget (snd st) x
                     = if (x <? k) && namedDetached L nodes strings x
                       then detachedDOMTreeNodeFlag else 0)); [done| |].
    - split; [reflexivity|]. split; [by apply len_new_array|].
      intros x Hx. cbn [snd]. rewrite aget_new_array.
      destruct (Z.ltb_spec x 0); [lia|reflexivity].
    - intros k [ordinal flags] Hk (Hord & Hl & Hflags).
      cbn [fst snd] in Hord, Hl, Hflags. subst ordinal. cbv beta iota zeta.
      assert (Hkeep : forall x, 0 <= x -> x <> k ->
                aget flags x
                = if (x <? k + 1) && namedDetached L nodes strings x
                  then detachedDOMTreeNodeFlag else 0).
      { intros x Hx Hne. rewrite (Hflags x Hx).
        destruct (Z.ltb_spec x k), (Z.ltb_spec x (k + 1)); try lia; reflexivity. }
      assert (Hzero : aget flags k = 0).
      { rewrite (Hflags k ltac:(lia)). by rewrite Z.ltb_irrefl. }
      unfold namedDetached in *.
      destruct (aget nodes (k * nodeFieldCount L + nodeTypeOffset L)
                =? nodeNativeType L) eqn:Htype; cbn [negb andb fst snd].
      + destruct (String.prefix _ _) eqn:Hprefix; cbn [fst snd].
        * split; [reflexivity|]. split; [by rewrite len_aset32|].
          intros x Hx. destruct (Z.eq_dec x k) as [->|Hne].
          -- rewrite Hzero. rewrite aget_aset32_eq by lia.
             rewrite Htype, Hprefix.
             destruct (Z.ltb_spec k (k + 1)); [reflexivity|lia].
          -- rewrite aget_aset32_ne by lia. by apply Hkeep.
        * split; [reflexivity|]. split; [done|].
          intros x Hx. destruct (Z.eq_dec x k) as [->|Hne]; [|by apply Hkeep].
          rewrite Hzero, Htype, Hprefix. by rewrite andb_false_r.
      + split; [reflexivity|]. split; [done|].
        intros x Hx. destruct (Z.eq_dec x k) as [->|Hne]; [|by apply Hkeep].
        rewrite Hzero, Htype. by rewrite andb_false_r. }
  cbv zeta in Hinv. destruct Hinv as (_ & _ & Hflags).
  rewrite (Hflags v ltac:(lia)).
  destruct (Z.ltb_spec v (nodeCount L)); [reflexivity|lia].
Qed.

Lemma prefix_app (p s : string) : String.prefix p (p ++ s) = true.
Proof.
  induction p as [|a p IH]; [by destruct s|].
  change (String a p ++ s)%string with (String a (p ++ s)%string).
  cbn [String.prefix]. by destruct (ascii_dec a a).
Qed.

(** X28. The flags follow the DOM states: when [calculateFlags] runs
    [markDetachedDOMTreeNodes] on the nodes and strings that
    [propagateDOMState] has left, a node gets the [detachedDOMTreeNode] flag
    exactly when it is native and either ended up [Detached] or had a name
    that began with [Detached ] from the start. *)
Theorem markDetachedDOMTreeNodes_follows_propagateDOMState (L : Layout)
    (edges fei nodes : list Z) (strings : list string) :
  wf_edges L edges fei = true ->
  0 <= nodeDetachednessAndClassIndexOffset L < nodeFieldCount L ->
  0 <= nodeNameOffset L < nodeFieldCount L ->
  0 <= nodeTypeOffset L < nodeFieldCount L ->
  nodeNameOffset L <> nodeDetachednessAndClassIndexOffset L
  /\ nodeTypeOffset L <> nodeNameOffset L
  /\ nodeTypeOffset L <> nodeDetachednessAndClassIndexOffset L ->
  len nodes = nodeCount L * nodeFieldCount L ->
  Z.of_nat (length strings) + nodeCount L <= 4294967296 ->
  (forall v, 0 <= v < nodeCount L ->
     0 <= aget nodes (v * nodeFieldCount L + nodeNameOffset L)
       < Z.of_nat (length strings)) ->
  exists nodes' strings',
    propagateDOMState L edges fei nodes strings = Ok (nodes', strings')
    /\ forall v, 0 <= v < nodeCount L ->
         aget (markDetachedDOMTreeNodes L nodes' strings'
                 (new_array (nodeCount L))) v
         = if (aget nodes (v * nodeFieldCount L + nodeTypeOffset L)
               =? nodeNativeType L)
              && ((detachedness L nodes' (v * nodeFieldCount L) =? Detached)
                  || String.prefix "Detached "
                       (sget strings
                          (aget nodes (v * nodeFieldCount L + nodeNameOffset L))))
           then detachedDOMTreeNodeFlag else 0.
Proof.
  intros Hwf Hstate Hname Htype Hdistinct Hlen Hstrings Hnames.
  destruct (propagateDOMState_frame L edges fei nodes strings Hwf Hstate Hname
              Htype Hdistinct Hlen Hstrings) as (st & Hrun & F & S).
  destruct (wf_edges_spec L edges fei Hwf) as (HNF & _ & _ & Hn & _).
  exists (dom_nodes st), (dom_strings st). split; [exact Hrun|].
  intros v Hv.
  rewrite markDetachedDOMTreeNodes_fresh;
    [|done|done|by rewrite (fr_len _ _ _ _ F)|done].
  unfold namedDetached.
  rewrite (fr_cells _ _ _ _ F v (nodeTypeOffset L) Htype)
    by (destruct Hdistinct as (_ & ? & ?); done).
  destruct (Z.eqb_spec (aget nodes (v * nodeFieldCount L + nodeTypeOffset L))
              (nodeNativeType L)) as [Hnat|_]; cbn [andb]; [|reflexivity].
  pose proof (Hnames v Hv) as Hin.
  destruct (Z.eqb_spec (detachedness L (dom_nodes st) (v * nodeFieldCount L))
              Detached) as [Hdet|Hdet]; cbn [orb].
  - assert (Hnew : sget (dom_strings st)
                     (aget (dom_nodes st) (v * nodeFieldCount L + nodeNameOffset L))
                   = ("Detached "
                      ++ sget strings
                           (aget nodes (v * nodeFieldCount L + nodeNameOffset L)))%string).
    { apply (fr_detached _ _ _ _ F v Hv Hin Hnat); [|exact Hdet].
      apply (S v Hv). unfold state_of. rewrite Hdet. discriminate. }
    by rewrite Hnew, prefix_app.
  - assert (Hold : sget (dom_strings st)
                     (aget (dom_nodes st) (v * nodeFieldCount L + nodeNameOffset L))
                   = sget strings
                       (aget nodes (v * nodeFieldCount L + nodeNameOffset L))).
    { destruct (fr_name _ _ _ _ F v Hv Hin) as [Hsame|(_ & _ & _ & Hd)];
        [|by destruct Hdet].
      unfold name_of in Hsame. rewrite Hsame.
      destruct (fr_strings _ _ _ _ F) as (extra & -> & _).
      by apply sget_app_l. }
    by rewrite Hold.
Qed.

Lemma markDetachedDOMTreeNodes_follows_propagateDOMState_witness :
  let p := attached_wins in
  let L := layout_of p in
  let fei := buildEdgeIndexes L (p_nodes p) (p_edges p) in
  exists nodes' strings',
    propagateDOMState L (p_edges p) fei (p_nodes p) (p_strings p)
    = Ok (nodes', strings')
    /\ markDetachedDOMTreeNodes L nodes' strings' (new_array (nodeCount L))
       = [0; 0; 2; 0]
    /\ aget (markDetachedDOMTreeNodes L nodes' strings'
               (new_array (nodeCount L))) 2
       = if (aget (p_nodes p) (2 * nodeFieldCount L + nodeTypeOffset L)
             =? nodeNativeType L)
            && ((detachedness L nodes' (2 * nodeFieldCount L) =? Detached)
                || String.prefix "Detached "
                     (sget (p_strings p)
                        (aget (p_nodes p)
                           (2 * nodeFieldCount L + nodeNameOffset L))))
         then detachedDOMTreeNodeFlag else 0.
Proof.
  intros p L fei.
  destruct (markDetachedDOMTreeNodes_follows_propagateDOMState L (p_edges p) fei
              (p_nodes p) (p_strings p)) as (nodes' & strings' & Hrun & Hflags).
  - vm_compute. reflexivity.
  - vm_compute. split; [discriminate|reflexivity].
  - vm_compute. split; [discriminate|reflexivity].
  - vm_compute. split; [discriminate|reflexivity].
  - vm_compute. repeat split; discriminate.
  - vm_compute. reflexivity.
  - vm_compute. discriminate.
  - intros v Hv. change (nodeCount L) with 4 in Hv.
    assert (Hcases : v = 0 \/ v = 1 \/ v = 2 \/ v = 3) by lia.
    destruct Hcases as [->|[->|[-> | ->]]]; vm_compute;
      (split; [discriminate|reflexivity]).
  - exists nodes', strings'. split; [exact Hrun|].
    split; [|apply (Hflags 2); vm_compute; split; [discriminate|reflexivity]].
    assert (Hok : propagateDOMState L (p_edges p) fei (p_nodes p) (p_strings p)
                  = Ok ([9; 0; 1; 0; 2; 0; 0;
                         8; 1; 3; 8; 1; 0; 1;
                         8; 5; 5; 8; 1; 0; 2;
                         8; 3; 7; 8; 0; 0; 1],
                        [""; "A"; "D"; "C"; "p"; "Detached D"]%string))
      by (vm_compute; reflexivity).
    rewrite Hok in Hrun. injection Hrun as <- <-. vm_compute. reflexivity.
Defined.

(** ** Class names *)

Section ObjectNames.
Variable L : Layout.
Variable nodeTypes : list string.

(** [stringTable.get(s)]; the map is kept as the list of its entries, the
    last one set first. *)
Definition stringTable_get (s : string) (stringTable : list (string * Z))
    : option Z :=
  match List.find (fun entry => String.eqb (fst entry) s) stringTable with
  | Some entry => Some (snd entry)
  | None => None
  end.

(** [getIndexForString] on the strings of the snapshot and [stringTable];
    [addString] pushes the string and returns its index. *)
Definition getIndexForString (s : string)
    (st : list string * list (string * Z))
    : Z * (list string * list (string * Z)) :=
  let '(strings, stringTable) := st in
  match stringTable_get s stringTable with
  | Some index => (index, st)
  | None =>
      let index := Z.of_nat (List.length strings) in
      (index, ((strings ++ [s])%list, (s, index) :: stringTable))
  end.

(** [node.type()] as it reads inside ['(' + node.type() + ')']. *)
Definition typeText (rawType : Z) : string :=
  if rawType <? 0 then "undefined"
  else default "undefined"%string (nodeTypes !! Z.to_nat rawType).

(** [name.substring(0, firstSpace) + '>'] for the first space at or after
    [from], the name itself when there is none. *)
Definition shortened (from : nat) (name : string) : string :=
  match String.index from " " name with
  | Some firstSpace => (substring 0 firstSpace name ++ ">")%string
  | None => name
  end.

(** [getNodeClassIndex(node)] *)
Definition getNodeClassIndex
    (hiddenClassIndex codeClassIndex functionClassIndex regExpClassIndex : Z)
    (nodes : list Z) (nodeIndex : Z) (st : list string * list (string * Z))
    : Z * (list string * list (string * Z)) :=
  let rawType := aget nodes (nodeIndex + nodeTypeOffset L) in
  if rawType =? nodeHiddenType L then (hiddenClassIndex, st)
  else if (rawType =? nodeObjectType L) || (rawType =? nodeNativeType L) then
    let name := sget (fst st) (aget nodes (nodeIndex + nodeNameOffset L)) in
    if String.prefix "<" name then getIndexForString (shortened 0 name) st
    else if String.prefix "Detached <" name
         then getIndexForString (shortened 10 name) st
         else (aget nodes (nodeIndex + nodeNameOffset L), st)
  else if rawType =? nodeCodeType L then (codeClassIndex, st)
  else if rawType =? nodeClosureType L then (functionClassIndex, st)
  else if rawType =? nodeRegExpType L then (regExpClassIndex, st)
  else getIndexForString ("(" ++ typeText rawType ++ ")")%string st.

(** [calculateObjectNames], for a snapshot with a detachedness field: the
    new node array and the new strings. *)
Definition calculateObjectNames (nodes : list Z) (strings : list string)
    : result (list Z * list string) :=
  let st := (strings, []) in
  let '(hiddenClassIndex, st) := getIndexForString "(system)" st in
  let '(codeClassIndex, st) := getIndexForString "(compiled code)" st in
  let '(functionClassIndex, st) := getIndexForString "Function" st in
  let '(regExpClassIndex, st) := getIndexForString "RegExp" st in
  '(_, nodes, st) ← for_rangeM 0 (nodeCount L) 1
    (fun _ '(nodeIndex, nodes, st) =>
       let '(index, st) :=
         getNodeClassIndex hiddenClassIndex codeClassIndex functionClassIndex
           regExpClassIndex nodes nodeIndex st in
       nodes ← setClassIndex L nodes nodeIndex index;
       Ok (nodeIndex + nodeFieldCount L, nodes, st))
    (0, nodes, st);
  Ok (nodes, fst st).
End ObjectNames.

(** The root holds a hidden node, two elements of the same tag, an object
    whose name is the text of a class name that the engine adds, and a node
    of type [number]. *)
Definition tags_and_types : Profile :=
  {| meta := v8_meta;
     p_nodes :=
       [9; 0; 1; 0; 5; 0; 0;     (* root *)
        0; 1; 3; 8; 0; 0; 0;     (* hidden *)
        8; 2; 5; 8; 0; 0; 2;     (* <div id="a">, native, detached *)
        8; 3; 7; 8; 0; 0; 0;     (* <div class="b">, native *)
        3; 4; 9; 8; 0; 0; 0;     (* object named (system) *)
        7; 5; 11; 8; 0; 0; 0];   (* number *)
     p_edges :=
       [2; 6; 7; 2; 6; 14; 2; 6; 21; 2; 6; 28; 2; 6; 35];
     p_strings :=
       [""; "h"; "<div id=a>"; "<div class=b>"; "(system)"; "n"; "p"]%string;
     root_index := 0 |}.

Example calculateObjectNames_tags_and_types :
  let p := tags_and_types in
  let L := layout_of p in
  calculateObjectNames L (node_types (meta p)) (p_nodes p) (p_strings p)
  = Ok ([9; 0; 1; 0; 5; 0; 44;
         0; 1; 3; 8; 0; 0; 28;
         8; 2; 5; 8; 0; 0; 50;
         8; 3; 7; 8; 0; 0; 48;
         3; 4; 9; 8; 0; 0; 16;
         7; 5; 11; 8; 0; 0; 52],
        [""; "h"; "<div id=a>"; "<div class=b>"; "(system)"; "n"; "p";
         "(system)"; "(compiled code)"; "Function"; "RegExp"; "(synthetic)";
         "<div>"; "(number)"]%string).
Proof. vm_compute. reflexivity. Qed.

Section ObjectNamesProof.
Variable L : Layout.
Variable nodeTypes : list string.
Variable nodes0 : list Z.
Variable strings0 : list string.

Local Abbreviation NF := (nodeFieldCount L).
Local Abbreviation n := (nodeCount L).
Local Abbreviation typeOff := (nodeTypeOffset L).
Local Abbreviation nameOff := (nodeNameOffset L).
Local Abbreviation stateOff := (nodeDetachednessAndClassIndexOffset L).
Local Abbreviation N0 := (Z.of_nat (List.length strings0)).

Hypothesis HNF : 0 < NF.
Hypothesis Hn : 0 <= n.
Hypothesis Hlen : len nodes0 = n * NF.
Hypothesis Hstate : 0 <= stateOff < NF.
Hypothesis Htype : 0 <= typeOff < NF.
Hypothesis Hname : 0 <= nameOff < NF.
Hypothesis Hdistinct : typeOff <> stateOff /\ nameOff <> stateOff.
Hypothesis Hnames : forall v, 0 <= v < n ->
  0 <= aget nodes0 (v * NF + nameOff) < N0.
Hypothesis Hsmall : N0 + n + 4 <= 1073741824.

Local Set Default Proof Using "All".

(** The type and the name of the node of ordinal [v] in the snapshot. *)
Definition typeOfNode (v : Z) : Z := aget nodes0 (v * NF + typeOff).
Definition nameOfNode (v : Z) : string :=
  sget strings0 (aget nodes0 (v * NF + nameOff)).

(** Whether the class of the node comes from [getIndexForString]. *)
Definition classFromTable (v : Z) : bool :=
  let t := typeOfNode v in
  if t =? nodeHiddenType L then true
  else if (t =? nodeObjectType L) || (t =? nodeNativeType L) then
    String.prefix "<" (nameOfNode v) || String.prefix "Detached <" (nameOfNode v)
  else true.

(** The class name that the node is to have. *)
Definition classNameOf (v : Z) : string :=
  let t := typeOfNode v in
  if t =? nodeHiddenType L then "(system)"
  else if (t =? nodeObjectType L) || (t =? nodeNativeType L) then
    if String.prefix "<" (nameOfNode v) then shortened 0 (nameOfNode v)
    else if String.prefix "Detached <" (nameOfNode v)
         then shortened 10 (nameOfNode v)
         else nameOfNode v
  else if t =? nodeCodeType L then "(compiled code)"
  else if t =? nodeClosureType L then "Function"
  else if t =? nodeRegExpType L then "RegExp"
  else ("(" ++ typeText nodeTypes t ++ ")")%string.

(** The strings only grow, and every entry of the table is the index of its
    string among the new ones. *)
Definition table_ok (st : list string * list (string * Z)) : Prop :=
  (exists extra, fst st = (strings0 ++ extra)%list
                 /\ List.length extra = List.length (snd st))
  /\ forall s i, stringTable_get s (snd st) = Some i ->
       N0 <= i < Z.of_nat (List.length (fst st)) /\ sget (fst st) i = s.

Definition table_grows (st st' : list string * list (string * Z)) : Prop :=
  (forall s i, stringTable_get s (snd st) = Some i ->
     stringTable_get s (snd st') = Some i)
  /\ (List.length (snd st') <= S (List.length (snd st)))%nat.

Lemma stringTable_get_cons (s s' : string) (i : Z)
    (stringTable : list (string * Z)) :
  stringTable_get s' ((s, i) :: stringTable)
  = if String.eqb s s' then Some i else stringTable_get s' stringTable.
Proof.
  unfold stringTable_get. cbn [List.find fst]. by destruct (String.eqb s s').
Qed.

Lemma getIndexForString_ok (s : string) (st : list string * list (string * Z)) :
  table_ok st ->
  table_ok (snd (getIndexForString s st))
  /\ table_grows st (snd (getIndexForString s st))
  /\ stringTable_get s (snd (snd (getIndexForString s st)))
     = Some (fst (getIndexForString s st)).
Proof.
  destruct st as [strings stringTable]. intros [(extra & Hext & Hcount) Htab].
  cbn [fst snd] in Hext, Hcount, Htab. unfold getIndexForString.
  destruct (stringTable_get s stringTable) as [i|] eqn:Hget; cbn [fst snd].
  - split; [split; [by exists extra|exact Htab]|].
    split; [split; [done|lia]|exact Hget].
  - split; [|split].
    + split.
      * exists (extra ++ [s])%list. cbn [fst snd]. subst strings.
        rewrite <- List.app_assoc. split; [reflexivity|].
        rewrite List.length_app. cbn [List.length]. lia.
      * intros s' i. cbn [fst snd]. rewrite stringTable_get_cons.
        destruct (String.eqb_spec s s') as [->|Hne].
        -- intros [= <-]. rewrite List.length_app. cbn [List.length].
           split; [|apply sget_app_new]. subst strings.
           rewrite List.length_app. lia.
        -- intros Hi. destruct (Htab s' i Hi) as [Hr Hs].
           rewrite List.length_app. cbn [List.length].
           split; [lia|]. rewrite sget_app_l by lia. exact Hs.
    + split; [|cbn [snd List.length]; lia].
      intros s' i Hi. cbn [snd] in Hi |- *. rewrite stringTable_get_cons.
      destruct (String.eqb_spec s s') as [->|_]; [congruence|exact Hi].
    + rewrite stringTable_get_cons. by rewrite String.eqb_refl.
Qed.

Lemma table_grows_refl st : table_grows st st.
Proof. split; [done|lia]. Qed.

Lemma old_string_kept (st : list string * list (string * Z)) (i : Z) :
  table_ok st -> 0 <= i < N0 -> sget (fst st) i = sget strings0 i.
Proof.
  intros [(extra & -> & _) _] Hi. by apply sget_app_l.
Qed.

Lemma field_cell (v c f : Z) :
  0 <= f < NF -> f <> stateOff -> v * NF + f <> c * NF + stateOff.
Proof. intros Hf Hne Heq. assert (v = c) by nia. subst. lia. Qed.

Lemma state_cell (v c : Z) :
  v <> c -> v * NF + stateOff <> c * NF + stateOff.
Proof. intros Hne Heq. apply Hne. nia. Qed.

(** What the loop keeps true after [k] nodes; [consts] are the indexes of the
    four class names that are looked up before the loop. *)
Record names_inv (k : Z)
    (s : Z * list Z * (list string * list (string * Z))) : Prop := {
  ni_index : fst (fst s) = k * NF;
  ni_len : len (snd (fst s)) = len nodes0;
  ni_table : table_ok (snd s);
  ni_count : Z.of_nat (List.length (snd (snd s))) <= 4 + k;
  ni_fields : forall v f, 0 <= f < NF -> f <> stateOff ->
    aget (snd (fst s)) (v * NF + f) = aget nodes0 (v * NF + f);
  ni_state : forall v,
    detachedness L (snd (fst s)) (v * NF) = detachedness L nodes0 (v * NF);
  ni_class : forall v, 0 <= v < k ->
    if classFromTable v
    then stringTable_get (classNameOf v) (snd (snd s))
         = Some (classIndex L (snd (fst s)) (v * NF))
    else classIndex L (snd (fst s)) (v * NF) = aget nodes0 (v * NF + nameOff)
}.

Lemma getNodeClassIndex_ok (h c f r : Z) (nodes : list Z) (k : Z)
    (st : list string * list (string * Z)) :
  0 <= k < n ->
  table_ok st ->
  stringTable_get "(system)" (snd st) = Some h ->
  stringTable_get "(compiled code)" (snd st) = Some c ->
  stringTable_get "Function" (snd st) = Some f ->
  stringTable_get "RegExp" (snd st) = Some r ->
  aget nodes (k * NF + typeOff) = aget nodes0 (k * NF + typeOff) ->
  aget nodes (k * NF + nameOff) = aget nodes0 (k * NF + nameOff) ->
  let res := getNodeClassIndex L nodeTypes h c f r nodes (k * NF) st in
  table_ok (snd res) /\ table_grows st (snd res)
  /\ if classFromTable k
     then stringTable_get (classNameOf k) (snd (snd res)) = Some (fst res)
     else fst res = aget nodes0 (k * NF + nameOff).
Proof.
  intros Hk Hok Hh Hc Hf Hr Ht Hnm res. unfold res, getNodeClassIndex.
  rewrite Ht, Hnm. rewrite (old_string_kept st _ Hok (Hnames k Hk)).
  unfold classFromTable, classNameOf. fold (typeOfNode k) (nameOfNode k).
  cbv zeta.
  destruct (typeOfNode k =? nodeHiddenType L);
    [cbn [fst snd]; split; [done|split; [apply table_grows_refl|done]]|].
  destruct ((typeOfNode k =? nodeObjectType L)
            || (typeOfNode k =? nodeNativeType L)).
  - destruct (String.prefix "<" (nameOfNode k)); cbn [orb];
      [by apply getIndexForString_ok|].
    destruct (String.prefix "Detached <" (nameOfNode k));
      [by apply getIndexForString_ok|].
    cbn [fst snd]. split; [done|split; [apply table_grows_refl|done]].
  - destruct (typeOfNode k =? nodeCodeType L);
      [cbn [fst snd]; split; [done|split; [apply table_grows_refl|done]]|].
    destruct (typeOfNode k =? nodeClosureType L);
      [cbn [fst snd]; split; [done|split; [apply table_grows_refl|done]]|].
    destruct (typeOfNode k =? nodeRegExpType L);
      [cbn [fst snd]; split; [done|split; [apply table_grows_refl|done]]|].
    by apply getIndexForString_ok.
Qed.

(** The four class names that are looked up before the loop. *)
Definition consts_ok (h c f r : Z) (st : list string * list (string * Z))
    : Prop :=
  stringTable_get "(system)" (snd st) = Some h
  /\ stringTable_get "(compiled code)" (snd st) = Some c
  /\ stringTable_get "Function" (snd st) = Some f
  /\ stringTable_get "RegExp" (snd st) = Some r.

Lemma consts_ok_grows (h c f r : Z) (st st' : list string * list (string * Z)) :
  table_grows st st' -> consts_ok h c f r st -> consts_ok h c f r st'.
Proof.
  intros [Hmono _] (H1 & H2 & H3 & H4).
  repeat split; by apply Hmono.
Qed.

Lemma names_inv_step (h c f r : Z) (k : Z)
    (s : Z * list Z * (list string * list (string * Z))) :
  0 <= k < n -> names_inv k s -> consts_ok h c f r (snd s) ->
  exists s',
    (let '(nodeIndex, nodes, st) := s in
     let '(index, st) :=
       getNodeClassIndex L nodeTypes h c f r nodes nodeIndex st in
     nodes ← setClassIndex L nodes nodeIndex index;
     Ok (nodeIndex + NF, nodes, st)) = Ok s'
    /\ names_inv (k + 1) s' /\ consts_ok h c f r (snd s').
Proof.
  intros Hk I Hconsts. destruct s as [[nodeIndex nodes] st].
  pose proof (ni_index _ _ I) as Hidx. pose proof (ni_len _ _ I) as Hl.
  pose proof (ni_table _ _ I) as Htab. pose proof (ni_count _ _ I) as Hcount.
  pose proof (ni_fields _ _ I) as Hfields. pose proof (ni_state _ _ I) as Hst.
  pose proof (ni_class _ _ I) as Hclass.
  cbn [fst snd] in Hidx, Hl, Htab, Hcount, Hfields, Hst, Hclass, Hconsts.
  subst nodeIndex. destruct Hdistinct as [Hts Hns].
  destruct Hconsts as (Hh & Hc & Hf & Hr).
  destruct (getNodeClassIndex_ok h c f r nodes k st Hk Htab Hh Hc Hf Hr
              (Hfields k typeOff Htype Hts) (Hfields k nameOff Hname Hns))
    as (Htab' & Hgrow & Hres).
  destruct (getNodeClassIndex L nodeTypes h c f r nodes (k * NF) st)
    as [index st'] eqn:Eres.
  cbn [fst snd] in Htab', Hgrow, Hres.
  assert (Hcell : 0 <= k * NF + stateOff < len nodes) by (rewrite Hl, Hlen; nia).
  assert (Hindex : 0 <= index < 1073741824).
  { destruct (classFromTable k).
    - destruct Htab' as [(extra & Hext & Hextra) Hget].
      destruct (Hget _ _ Hres) as [Hrange _]. rewrite Hext in Hrange.
      rewrite List.length_app in Hrange. destruct Hgrow as [_ Hgrow]. lia.
    - rewrite Hres. pose proof (Hnames k Hk). lia. }
  destruct (setClassIndex_stored L nodes (k * NF) index Hcell)
    as [Hstored Hkept].
  cbv zeta in Hstored, Hkept. rewrite Z.mod_small in Hstored by done.
  unfold setClassIndex. rewrite Hstored, Z.eqb_refl.
  cbn [mbind result_bind].
  eexists. split; [reflexivity|].
  set (nodes1 := aset32 nodes (k * NF + stateOff) _) in *.
  assert (Hother : forall v, v <> k ->
            aget nodes1 (v * NF + stateOff) = aget nodes (v * NF + stateOff)).
  { intros v Hv. unfold nodes1. rewrite aget_aset32_ne; [done|].
    apply not_eq_sym. by apply state_cell. }
  split; [|by apply (consts_ok_grows h c f r st)].
  constructor; cbn [fst snd].
  - lia.
  - unfold nodes1. by rewrite len_aset32.
  - exact Htab'.
  - destruct Hgrow as [_ Hgrow]. lia.
  - intros v g Hg Hne. rewrite <- (Hfields v g Hg Hne). unfold nodes1.
    rewrite aget_aset32_ne; [done|]. apply not_eq_sym. by apply field_cell.
  - intros v. destruct (Z.eq_dec v k) as [->|Hv].
    + rewrite Hkept. apply Hst.
    + rewrite <- (Hst v). unfold detachedness. by rewrite Hother.
  - intros v Hv. destruct (Z.eq_dec v k) as [->|Hne].
    + rewrite Hstored. exact Hres.
    + assert (Hsame : classIndex L nodes1 (v * NF) = classIndex L nodes (v * NF)).
      { unfold classIndex. by rewrite Hother. }
      rewrite Hsame. specialize (Hclass v ltac:(lia)).
      destruct (classFromTable v); [|exact Hclass].
      by apply Hgrow.
Qed.

Lemma calculateObjectNames_spec :
  exists nodes' strings',
    calculateObjectNames L nodeTypes nodes0 strings0 = Ok (nodes', strings')
    /\ (exists extra, strings' = (strings0 ++ extra)%list)
    /\ len nodes' = len nodes0
    /\ (forall v f, 0 <= f < NF -> f <> stateOff ->
          aget nodes' (v * NF + f) = aget nodes0 (v * NF + f))
    /\ (forall v, detachedness L nodes' (v * NF) = detachedness L nodes0 (v * NF))
    /\ (forall v, 0 <= v < n ->
          sget strings' (classIndex L nodes' (v * NF)) = classNameOf v
          /\ if classFromTable v
             then N0 <= classIndex L nodes' (v * NF)
             else classIndex L nodes' (v * NF) = aget nodes0 (v * NF + nameOff))
    /\ (forall u v, 0 <= u < n -> 0 <= v < n ->
          classFromTable u = true -> classFromTable v = true ->
          (classIndex L nodes' (u * NF) = classIndex L nodes' (v * NF)
           <-> classNameOf u = classNameOf v)).
Proof.
  unfold calculateObjectNames.
  assert (Hstart : table_ok (strings0, [])).
  { split; [exists []; by rewrite List.app_nil_r|]. intros s i Hi. discriminate. }
  destruct (getIndexForString_ok "(system)" _ Hstart) as (Hok1 & Hg1 & Hh).
  destruct (getIndexForString "(system)" (strings0, [])) as [h st1].
  cbn [fst snd] in Hok1, Hg1, Hh.
  destruct (getIndexForString_ok "(compiled code)" _ Hok1) as (Hok2 & Hg2 & Hc).
  destruct (getIndexForString "(compiled code)" st1) as [c st2].
  cbn [fst snd] in Hok2, Hg2, Hc.
  destruct (getIndexForString_ok "Function" _ Hok2) as (Hok3 & Hg3 & Hf).
  destruct (getIndexForString "Function" st2) as [f st3].
  cbn [fst snd] in Hok3, Hg3, Hf.
  destruct (getIndexForString_ok "RegExp" _ Hok3) as (Hok4 & Hg4 & Hr).
  destruct (getIndexForString "RegExp" st3) as [r st4].
  cbn [fst snd] in Hok4, Hg4, Hr.
  assert (Hconsts : consts_ok h c f r st4).
  { destruct Hg2 as [Hm2 _], Hg3 as [Hm3 _], Hg4 as [Hm4 _].
    repeat split; [apply Hm4, Hm3, Hm2, Hh|apply Hm4, Hm3, Hc|apply Hm4, Hf|exact Hr]. }
  assert (Hfour : Z.of_nat (List.length (snd st4)) <= 4).
  { destruct Hg1 as [_ H1], Hg2 as [_ H2], Hg3 as [_ H3], Hg4 as [_ H4].
    cbn [snd List.length] in H1. lia. }
  destruct (for_rangeM_ind1
              (fun k s => names_inv k s /\ consts_ok h c f r (snd s))
              0 n
              (fun _ '(nodeIndex, nodes, st) =>
                 let '(index, st) :=
                   getNodeClassIndex L nodeTypes h c f r nodes nodeIndex st in
                 nodes ← setClassIndex L nodes nodeIndex index;
                 Ok (nodeIndex + NF, nodes, st))
              (0, nodes0, st4) Hn)
    as ([[nodeIndex nodes'] st'] & Hrun & I & _).
  { split; [|exact Hconsts]. constructor; cbn [fst snd]; try done; try lia;
      intros v Hv; lia. }
  { intros k s Hk [I Hc']. by apply names_inv_step. }
  rewrite Hrun. cbn [mbind result_bind].
  exists nodes', (fst st'). split; [reflexivity|].
  pose proof (ni_table _ _ I) as Htab. pose proof (ni_class _ _ I) as Hclass.
  cbn [fst snd] in Htab, Hclass.
  split; [destruct Htab as [(extra & Hext & _) _]; by exists extra|].
  split; [exact (ni_len _ _ I)|]. split; [exact (ni_fields _ _ I)|].
  split; [exact (ni_state _ _ I)|]. split.
  - intros v Hv. specialize (Hclass v Hv).
    unfold classNameOf, classFromTable in *.
    destruct Htab as [_ Hget].
    destruct (typeOfNode v =? nodeHiddenType L);
      [destruct (Hget _ _ Hclass) as [? ?]; split; [done|lia]|].
    destruct ((typeOfNode v =? nodeObjectType L)
              || (typeOfNode v =? nodeNativeType L));
      [|destruct (Hget _ _ Hclass) as [? ?]; split; [done|lia]].
    destruct (String.prefix "<" (nameOfNode v)); cbn [orb] in *;
      [destruct (Hget _ _ Hclass) as [? ?]; split; [done|lia]|].
    destruct (String.prefix "Detached <" (nameOfNode v));
      [destruct (Hget _ _ Hclass) as [? ?]; split; [done|lia]|].
    split; [|exact Hclass]. rewrite Hclass.
    by apply (old_string_kept st' _ (ni_table _ _ I)), Hnames.
  - intros u v Hu Hv Htu Htv.
    pose proof (Hclass u Hu) as Hcu. pose proof (Hclass v Hv) as Hcv.
    rewrite Htu in Hcu. rewrite Htv in Hcv. destruct Htab as [_ Hget].
    split.
    + intros Heq. destruct (Hget _ _ Hcu) as [_ Hsu].
      destruct (Hget _ _ Hcv) as [_ Hsv]. by rewrite <- Hsu, <- Hsv, Heq.
    + intros Heq. rewrite Heq in Hcu. congruence.
Qed.
End ObjectNamesProof.

(** X29. [calculateObjectNames] succeeds and gives every node the class index
    of its class name: [(system)] for hidden nodes, the tag alone for objects
    and native nodes named like [<div id=a>] or [Detached <div id=a>], their
    own name otherwise, [(compiled code)], [Function] and [RegExp] for code,
    closures and regular expressions, and the type in brackets for the rest.
    The strings only grow, the DOM state and the other fields of the nodes
    are kept.  Class names that come from the table are new strings, one per
    name, so two such nodes have the same class index exactly when they have
    the same class name; an object that has no tag keeps its name index,
    even when a class of the same name is in the table. *)
Theorem calculateObjectNames_names_every_node (L : Layout)
    (nodeTypes : list string) (nodes : list Z) (strings : list string) :
  0 < nodeFieldCount L -> 0 <= nodeCount L ->
  len nodes = nodeCount L * nodeFieldCount L ->
  0 <= nodeDetachednessAndClassIndexOffset L < nodeFieldCount L ->
  0 <= nodeTypeOffset L < nodeFieldCount L ->
  0 <= nodeNameOffset L < nodeFieldCount L ->
  nodeTypeOffset L <> nodeDetachednessAndClassIndexOffset L
  /\ nodeNameOffset L <> nodeDetachednessAndClassIndexOffset L ->
  (forall v, 0 <= v < nodeCount L ->
     0 <= aget nodes (v * nodeFieldCount L + nodeNameOffset L)
       < Z.of_nat (List.length strings)) ->
  Z.of_nat (List.length strings) + nodeCount L + 4 <= 1073741824 ->
  exists nodes' strings',
    calculateObjectNames L nodeTypes nodes strings = Ok (nodes', strings')
    /\ (exists extra, strings' = (strings ++ extra)%list)
    /\ len nodes' = len nodes
    /\ (forall v f, 0 <= f < nodeFieldCount L ->
          f <> nodeDetachednessAndClassIndexOffset L ->
          aget nodes' (v * nodeFieldCount L + f)
          = aget nodes (v * nodeFieldCount L + f))
    /\ (forall v,
          detachedness L nodes' (v * nodeFieldCount L)
          = detachedness L nodes (v * nodeFieldCount L))
    /\ (forall v, 0 <= v < nodeCount L ->
          sget strings' (classIndex L nodes' (v * nodeFieldCount L))
          = classNameOf L nodeTypes nodes strings v
          /\ if classFromTable L nodes strings v
             then Z.of_nat (List.length strings)
                  <= classIndex L nodes' (v * nodeFieldCount L)
             else classIndex L nodes' (v * nodeFieldCount L)
                  = aget nodes (v * nodeFieldCount L + nodeNameOffset L))
    /\ (forall u v, 0 <= u < nodeCount L -> 0 <= v < nodeCount L ->
          classFromTable L nodes strings u = true ->
          classFromTable L nodes strings v = true ->
          (classIndex L nodes' (u * nodeFieldCount L)
           = classIndex L nodes' (v * nodeFieldCount L)
           <-> classNameOf L nodeTypes nodes strings u
               = classNameOf L nodeTypes nodes strings v)).
Proof.
  intros HNF Hn Hlen Hstate Htype Hname Hdistinct Hnames Hsmall.
  exact (calculateObjectNames_spec L nodeTypes nodes strings HNF Hn Hlen Hstate
           Htype Hname Hdistinct Hnames Hsmall).
Qed.

Lemma calculateObjectNames_names_every_node_witness :
  let p := tags_and_types in
  let L := layout_of p in
  let nodeTypes := node_types (meta p) in
  len (p_nodes p) = nodeCount L * nodeFieldCount L
  /\ (forall v, 0 <= v < nodeCount L ->
        0 <= aget (p_nodes p) (v * nodeFieldCount L + nodeNameOffset L)
          < Z.of_nat (List.length (p_strings p)))
  /\ classNameOf L nodeTypes (p_nodes p) (p_strings p) 2 = "<div>"%string
  /\ classNameOf L nodeTypes (p_nodes p) (p_strings p) 3 = "<div>"%string
  /\ classNameOf L nodeTypes (p_nodes p) (p_strings p) 1 = "(system)"%string
  /\ classNameOf L nodeTypes (p_nodes p) (p_strings p) 4 = "(system)"%string
  /\ classFromTable L (p_nodes p) (p_strings p) 4 = false
  /\ exists nodes' strings',
       calculateObjectNames L nodeTypes (p_nodes p) (p_strings p)
       = Ok (nodes', strings')
       /\ classIndex L nodes' (2 * nodeFieldCount L)
          = classIndex L nodes' (3 * nodeFieldCount L)
       /\ sget strings' (classIndex L nodes' (2 * nodeFieldCount L))
          = "<div>"%string
       /\ classIndex L nodes' (4 * nodeFieldCount L) = 4
       /\ 7 <= classIndex L nodes' (1 * nodeFieldCount L).
Proof.
  intros p L nodeTypes.
  assert (Hlen : len (p_nodes p) = nodeCount L * nodeFieldCount L)
    by reflexivity.
  assert (Hnames : forall v, 0 <= v < nodeCount L ->
            0 <= aget (p_nodes p) (v * nodeFieldCount L + nodeNameOffset L)
              < Z.of_nat (List.length (p_strings p))).
  { intros v Hv. change (nodeCount L) with 6 in Hv.
    assert (Hcases : v = 0 \/ v = 1 \/ v = 2 \/ v = 3 \/ v = 4 \/ v = 5) by lia.
    destruct Hcases as [->|[->|[->|[->|[->| ->]]]]]; vm_compute;
      (split; [discriminate|reflexivity]). }
  assert (Hrange : forall a b, 0 <= a -> a < b -> 0 <= a < b) by (intros; lia).
  destruct (calculateObjectNames_names_every_node L nodeTypes (p_nodes p)
              (p_strings p))
    as (nodes' & strings' & Hrun & _ & _ & _ & _ & Hclass & Hgroup);
    [reflexivity|vm_compute; discriminate|exact Hlen
    |vm_compute; split; [discriminate|reflexivity]
    |vm_compute; split; [discriminate|reflexivity]
    |vm_compute; split; [discriminate|reflexivity]
    |vm_compute; split; discriminate
    |exact Hnames|vm_compute; discriminate|].
  assert (H23 : 0 <= 2 < nodeCount L /\ 0 <= 3 < nodeCount L
                /\ 0 <= 4 < nodeCount L /\ 0 <= 1 < nodeCount L).
  { change (nodeCount L) with 6. lia. }
  destruct H23 as (H2 & H3 & H4 & H1).
  split; [exact Hlen|]. split; [exact Hnames|].
  split; [reflexivity|]. split; [reflexivity|]. split; [reflexivity|].
  split; [reflexivity|]. split; [reflexivity|].
  exists nodes', strings'. split; [exact Hrun|]. split; [|split; [|split]].
  - apply (Hgroup 2 3 H2 H3); reflexivity.
  - destruct (Hclass 2 H2) as [Hname _]. exact Hname.
  - destruct (Hclass 4 H4) as [_ Hidx]. exact Hidx.
  - destruct (Hclass 1 H1) as [_ Hidx]. exact Hidx.
Defined.


(** ** Retained sizes of the classes *)

(** What the walk over the dominator tree can end with: the aggregates, the
    [TypeError] of [aggregates[classIndex].maxRet] for a class that has no
    aggregate, or no fuel. *)
Inductive WalkResult : Type :=
| WalkOk (aggregates : gmap Z AggregatedInfo)
| WalkTypeError
| WalkOutOfFuel.

(** The state of the loop of [calculateClassesRetainedSize]; the ends of the
    JavaScript arrays [list], [sizes] and [classes], where [push] and [pop]
    work, are the heads of the lists. *)
Record ClassWalk : Type := {
  cw_list : list Z;
  cw_sizes : list Z;
  cw_classes : list Z;
  cw_seenClassNameIndexes : gmap Z bool;
  cw_aggregates : gmap Z AggregatedInfo
}.

(** [aggregate.maxRet += retainedSize] *)
Definition addMaxRet (a : AggregatedInfo) (retainedSize : Z) : AggregatedInfo :=
  {| agg_count := agg_count a; agg_distance := agg_distance a;
     agg_self := agg_self a; agg_maxRet := agg_maxRet a + retainedSize;
     agg_type := agg_type a; agg_name := agg_name a; agg_idxs := agg_idxs a |}.

Section ClassesRetainedSize.
Variable L : Layout.
Variable nodes : list Z.
Variables dominatedNodes firstDominatedNodeIndex retainedSizes : list Z.
Variable filter : option (Z -> bool).

(** [while (sizes[sizes.length - 1] === l)]: the marks of the classes whose
    subtree is done are taken off.  [classes] is never empty here, since the
    first entry of [sizes] is -1. *)
Fixpoint unwindClasses (l : Z) (sizes classes : list Z)
    (seenClassNameIndexes : gmap Z bool)
    : list Z * list Z * gmap Z bool :=
  match sizes with
  | size :: sizes' =>
      if size =? l then
        match classes with
        | classIndex :: classes' =>
            unwindClasses l sizes' classes'
              (<[classIndex := false]> seenClassNameIndexes)
        | [] => unwindClasses l sizes' [] seenClassNameIndexes
        end
      else (sizes, classes, seenClassNameIndexes)
  | [] => (sizes, classes, seenClassNameIndexes)
  end.

(** Whether the node is counted when its class is not seen above it:
    [(!filter || filter(node)) && node.selfSize()]. *)
Definition countsForClass (nodeIndex : Z) : bool :=
  negb (rejects filter nodeIndex)
  && negb (aget nodes (nodeIndex + nodeSelfSizeOffset L) =? 0).

(** One turn of the loop for the node taken from [list]. *)
Definition classWalkStep (nodeIndex : Z) (list : Datatypes.list Z)
    (st : ClassWalk) : option ClassWalk :=
  let classIndex := classIndex L nodes nodeIndex in
  let seen := default false (cw_seenClassNameIndexes st !! classIndex) in
  let nodeOrdinal := nodeIndex / nodeFieldCount L in
  let dominatedIndexFrom := aget firstDominatedNodeIndex nodeOrdinal in
  let dominatedIndexTo := aget firstDominatedNodeIndex (nodeOrdinal + 1) in
  let counted :=
    if negb seen && countsForClass nodeIndex then
      match cw_aggregates st !! classIndex with
      | None => None
      | Some a =>
          let aggregates :=
            <[classIndex := addMaxRet a (aget retainedSizes nodeOrdinal)]>
              (cw_aggregates st) in
          if negb (dominatedIndexFrom =? dominatedIndexTo) then
            Some (len list :: cw_sizes st, classIndex :: cw_classes st,
                  <[classIndex := true]> (cw_seenClassNameIndexes st),
                  aggregates)
          else
            Some (cw_sizes st, cw_classes st, cw_seenClassNameIndexes st,
                  aggregates)
      end
    else
      Some (cw_sizes st, cw_classes st, cw_seenClassNameIndexes st,
            cw_aggregates st) in
  match counted with
  | None => None
  | Some (sizes, classes, seenClassNameIndexes, aggregates) =>
      let list :=
        for_range dominatedIndexFrom dominatedIndexTo 1
          (fun i list => aget dominatedNodes i :: list) list in
      let '(sizes, classes, seenClassNameIndexes) :=
        unwindClasses (len list) sizes classes seenClassNameIndexes in
      Some {| cw_list := list; cw_sizes := sizes; cw_classes := classes;
              cw_seenClassNameIndexes := seenClassNameIndexes;
              cw_aggregates := aggregates |}
  end.

(** [while (list.length)] *)
Fixpoint classWalk (fuel : nat) (st : ClassWalk) : WalkResult :=
  match cw_list st with
  | [] => WalkOk (cw_aggregates st)
  | nodeIndex :: list =>
      match fuel with
      | O => WalkOutOfFuel
      | S fuel' =>
          match classWalkStep nodeIndex list st with
          | None => WalkTypeError
          | Some st' => classWalk fuel' st'
          end
      end
  end.

(** [calculateClassesRetainedSize(aggregates, filter)] *)
Definition calculateClassesRetainedSize (fuel : nat)
    (aggregates : gmap Z AggregatedInfo) : WalkResult :=
  classWalk fuel
    {| cw_list := [rootNodeIndexInternal L]; cw_sizes := [-1];
       cw_classes := []; cw_seenClassNameIndexes := ∅;
       cw_aggregates := aggregates |}.

(** The nodes that a node dominates directly, as [dominatedNodes] lists
    them. *)
Definition dominatedBy (nodeIndex : Z) : list Z :=
  let nodeOrdinal := nodeIndex / nodeFieldCount L in
  map (aget dominatedNodes)
    (range (aget firstDominatedNodeIndex nodeOrdinal)
       (aget firstDominatedNodeIndex (nodeOrdinal + 1)) 1).

(** The nodes whose retained size is added to their class, in the order of
    the walk, down to [depth] levels below [nodeIndex]: a node counts when
    [countsForClass] holds and no node above it has been counted for the same
    class; [seen] are the classes counted above. *)
Fixpoint countedNodes (depth : nat) (seen : list Z) (nodeIndex : Z) : list Z :=
  match depth with
  | O => []
  | S depth' =>
      let classIndex := classIndex L nodes nodeIndex in
      let nodeOrdinal := nodeIndex / nodeFieldCount L in
      let counts :=
        negb (existsb (Z.eqb classIndex) seen) && countsForClass nodeIndex in
      let marked :=
        counts
        && negb (aget firstDominatedNodeIndex nodeOrdinal
                 =? aget firstDominatedNodeIndex (nodeOrdinal + 1)) in
      (if counts then [nodeIndex] else [])
      ++ flat_map
           (countedNodes depth' (if marked then classIndex :: seen else seen))
           (rev (dominatedBy nodeIndex))
  end.

(** [aggregates[classIndex].maxRet += node.retainedSize()] for a class that
    has an aggregate. *)
Definition addRetained (aggregates : gmap Z AggregatedInfo) (nodeIndex : Z)
    : gmap Z AggregatedInfo :=
  let classIndex := classIndex L nodes nodeIndex in
  match aggregates !! classIndex with
  | Some a =>
      <[classIndex :=
          addMaxRet a (aget retainedSizes (nodeIndex / nodeFieldCount L))]>
        aggregates
  | None => aggregates
  end.
End ClassesRetainedSize.

(** The marks alone: what [unwindClasses] leaves of [sizes] and [classes]. *)
Fixpoint unwindFrames (l : Z) (sizes classes : list Z) : list Z * list Z :=
  match sizes with
  | size :: sizes' =>
      if size =? l then
        match classes with
        | _ :: classes' => unwindFrames l sizes' classes'
        | [] => unwindFrames l sizes' []
        end
      else (sizes, classes)
  | [] => (sizes, classes)
  end.

Lemma unwindClasses_frames (l : Z) (sizes classes : list Z)
    (seen : gmap Z bool) :
  fst (unwindClasses l sizes classes seen) = unwindFrames l sizes classes.
Proof.
  revert classes seen. induction sizes as [|size sizes IH]; intros classes seen;
    [reflexivity|].
  cbn [unwindClasses unwindFrames]. destruct (size =? l); [|reflexivity].
  destruct classes as [|c classes]; apply IH.
Qed.

(** [sizes] holds one mark for every class in [classes] above its first
    entry -1, no class is there twice, and the map says which classes are
    there. *)
Definition marks_ok (sizes classes : list Z) (seen : gmap Z bool) : Prop :=
  (exists marks, sizes = (marks ++ [-1])%list
                 /\ List.length marks = List.length classes)
  /\ List.NoDup classes
  /\ forall c, default false (seen !! c) = true <-> In c classes.

Lemma unwindClasses_ok (l : Z) (sizes classes : list Z) (seen : gmap Z bool) :
  0 <= l -> marks_ok sizes classes seen ->
  marks_ok (fst (unwindFrames l sizes classes))
    (snd (unwindFrames l sizes classes))
    (snd (unwindClasses l sizes classes seen)).
Proof.
  intros Hl. revert classes seen.
  induction sizes as [|size sizes IH]; intros classes seen Hok; [exact Hok|].
  cbn [unwindClasses unwindFrames].
  destruct (Z.eqb_spec size l) as [->|_]; [|exact Hok].
  destruct Hok as [(marks & Hsizes & Hlen) [Hnd Hseen]].
  destruct marks as [|m marks].
  - cbn [app] in Hsizes. injection Hsizes as Hm _. lia.
  - destruct classes as [|c classes]; [discriminate Hlen|].
    cbn [app] in Hsizes. injection Hsizes as _ Hsizes.
    apply IH. split; [exists marks; split; [done|]; by injection Hlen|].
    apply List.NoDup_cons_iff in Hnd as [Hc Hnd]. split; [exact Hnd|].
    intros c'. destruct (Z.eq_dec c c') as [<-|Hne].
    + rewrite lookup_insert_eq. cbn [default]. split; [discriminate|done].
    + rewrite lookup_insert_ne by done. rewrite Hseen. cbn [In].
      split; [intros [?|?]; [done|done]|by right].
Qed.

Lemma unwindFrames_bound (m l : Z) (sizes classes : list Z) :
  Forall (fun s => s <= m) sizes ->
  Forall (fun s => s <= m) (fst (unwindFrames l sizes classes)).
Proof.
  revert classes. induction sizes as [|size sizes IH]; intros classes Hall;
    [exact Hall|].
  cbn [unwindFrames]. destruct (size =? l); [|exact Hall].
  apply Forall_cons in Hall as [_ Hall]. destruct classes; by apply IH.
Qed.

Lemma unwindClasses_below (l : Z) (sizes classes : list Z) (seen : gmap Z bool) :
  Forall (fun s => s < l) sizes ->
  unwindClasses l sizes classes seen = (sizes, classes, seen).
Proof.
  intros Hall. destruct sizes as [|size sizes]; [reflexivity|].
  apply Forall_cons in Hall as [Hs _]. cbn [unwindClasses].
  destruct (Z.eqb_spec size l); [lia|reflexivity].
Qed.

Lemma unwindFrames_below (l : Z) (sizes classes : list Z) :
  Forall (fun s => s < l) sizes -> unwindFrames l sizes classes = (sizes, classes).
Proof.
  intros Hall. destruct sizes as [|size sizes]; [reflexivity|].
  apply Forall_cons in Hall as [Hs _]. cbn [unwindFrames].
  destruct (Z.eqb_spec size l); [lia|reflexivity].
Qed.

Lemma fold_left_cons_all {A} (item : Z -> A) (es : list Z) (l0 : list A) :
  fold_left (fun l e => item e :: l) es l0 = (rev (map item es) ++ l0)%list.
Proof.
  revert l0. induction es as [|e es IH]; intros l0; simpl; [reflexivity|].
  rewrite IH. by rewrite <- List.app_assoc.
Qed.

Lemma existsb_eqb_In (c : Z) (l : list Z) :
  existsb (Z.eqb c) l = true <-> In c l.
Proof.
  rewrite existsb_exists. split.
  - intros (x & Hx & Heq). apply Z.eqb_eq in Heq. by subst.
  - intros Hc. exists c. split; [done|apply Z.eqb_refl].
Qed.

Lemma addMaxRet_add (a : AggregatedInfo) (r s : Z) :
  addMaxRet (addMaxRet a r) s = addMaxRet a (r + s).
Proof. unfold addMaxRet. cbn. f_equal. lia. Qed.

Lemma addMaxRet_0 (a : AggregatedInfo) : addMaxRet a 0 = a.
Proof. destruct a. unfold addMaxRet. cbn. f_equal. lia. Qed.

Section ClassesRetainedSizeProof.
Variable L : Layout.
Variable nodes : list Z.
Variables dominatedNodes firstDominatedNodeIndex retainedSizes : list Z.
Variable filter : option (Z -> bool).
(** The dominated nodes form a tree of nodes: what a node dominates is a
    node and stands lower than it. *)
Variable rank : Z -> nat.

Local Abbreviation kids :=
  (dominatedBy L dominatedNodes firstDominatedNodeIndex).
Local Abbreviation class := (classIndex L nodes).
Local Abbreviation counts := (countsForClass L nodes filter).
Local Abbreviation counted :=
  (countedNodes L nodes dominatedNodes firstDominatedNodeIndex filter).
Local Abbreviation add := (addRetained L nodes retainedSizes).
Local Abbreviation walk :=
  (classWalk L nodes dominatedNodes firstDominatedNodeIndex retainedSizes filter).

Hypothesis Hrank :
  forall v k, is_node L v -> In k (kids v) ->
    is_node L k /\ (rank k < rank v)%nat.

Local Set Default Proof Using "All".

(** Every node that counts has an aggregate for its class. *)
Definition aggregates_ok (aggregates : gmap Z AggregatedInfo) : Prop :=
  forall v, is_node L v -> counts v = true -> is_Some (aggregates !! class v).

Lemma aggregates_ok_add (aggregates : gmap Z AggregatedInfo) (v : Z) :
  aggregates_ok aggregates -> aggregates_ok (add aggregates v).
Proof.
  intros Hok u Hnode Hu. unfold addRetained.
  destruct (aggregates !! class v) as [a|] eqn:Ha; [|by apply Hok].
  destruct (Z.eq_dec (class v) (class u)) as [Heq|Hne].
  - rewrite <- Heq, lookup_insert_eq. by eexists.
  - rewrite lookup_insert_ne by done. by apply Hok.
Qed.

Lemma aggregates_ok_fold (l : list Z) (aggregates : gmap Z AggregatedInfo) :
  aggregates_ok aggregates -> aggregates_ok (fold_left add l aggregates).
Proof.
  revert aggregates. induction l as [|v l IH]; intros aggregates Hok;
    [exact Hok|].
  cbn [fold_left]. by apply IH, aggregates_ok_add.
Qed.

(** What a walk down from the nodes [ks] on top of [rest] comes to. *)
Definition walks_down (depth : nat) (ks rest : list Z) : Prop :=
  forall sizes classes seen aggregates,
    marks_ok sizes classes seen ->
    Forall (fun s => s <= len rest) sizes ->
    aggregates_ok aggregates ->
    exists (n : nat) (seen' : gmap Z bool),
      marks_ok (fst (unwindFrames (len rest) sizes classes))
        (snd (unwindFrames (len rest) sizes classes)) seen'
      /\ forall fuel,
           walk (n + fuel)
             {| cw_list := ks ++ rest; cw_sizes := sizes;
                cw_classes := classes; cw_seenClassNameIndexes := seen;
                cw_aggregates := aggregates |}
           = walk fuel
               {| cw_list := rest;
                  cw_sizes := fst (unwindFrames (len rest) sizes classes);
                  cw_classes := snd (unwindFrames (len rest) sizes classes);
                  cw_seenClassNameIndexes := seen';
                  cw_aggregates :=
                    fold_left add (flat_map (counted depth classes) ks)
                      aggregates |}.

Lemma len_app_cons (k : Z) (ks rest : list Z) :
  len rest < len ((k :: ks) ++ rest).
Proof.
  unfold len. rewrite List.length_app. cbn [List.length]. lia.
Qed.

(** Several nodes on top of [rest], one after the other. *)
Lemma walks_down_forest (depth : nat) (ks rest : list Z) :
  ks <> [] ->
  (forall k rest', In k ks -> walks_down depth [k] rest') ->
  walks_down depth ks rest.
Proof.
  intros Hne Hone. induction ks as [|k ks IH]; [done|].
  destruct ks as [|k2 ks].
  - apply Hone. by left.
  - intros sizes classes seen aggregates Hmarks Hbound Hagg.
    pose proof (len_app_cons k2 ks rest) as Hlonger.
    destruct (Hone k ((k2 :: ks) ++ rest) ltac:(by left) sizes classes seen
                aggregates Hmarks) as (n1 & seen1 & Hmarks1 & Hrun1).
    { eapply Forall_impl; [exact Hbound|]. intros s Hs. cbv beta in *. lia. }
    { exact Hagg. }
    assert (Hsame : unwindFrames (len ((k2 :: ks) ++ rest)) sizes classes
                    = (sizes, classes)).
    { apply unwindFrames_below. eapply Forall_impl; [exact Hbound|].
      intros s Hs. cbv beta in *. lia. }
    rewrite Hsame in Hmarks1, Hrun1. cbn [fst snd] in Hmarks1, Hrun1.
    destruct (IH ltac:(done) ltac:(intros k' rest' Hk'; apply Hone; by right)
                sizes classes seen1
                (fold_left add (flat_map (counted depth classes) [k]) aggregates)
                Hmarks1 Hbound (aggregates_ok_fold _ _ Hagg))
      as (n2 & seen2 & Hmarks2 & Hrun2).
    exists (n1 + n2)%nat, seen2. split; [exact Hmarks2|]. intros fuel.
    rewrite <- Nat.add_assoc.
    change ((k :: k2 :: ks) ++ rest)%list with ([k] ++ (k2 :: ks) ++ rest)%list.
    rewrite Hrun1, Hrun2. f_equal. f_equal.
    change (k :: k2 :: ks) with ([k] ++ (k2 :: ks))%list.
    by rewrite flat_map_app, fold_left_app.
Qed.

Lemma pushed_kids (v : Z) (rest : list Z) :
  for_range (aget firstDominatedNodeIndex (v / nodeFieldCount L))
    (aget firstDominatedNodeIndex (v / nodeFieldCount L + 1)) 1
    (fun i list => aget dominatedNodes i :: list) rest
  = (rev (kids v) ++ rest)%list.
Proof. unfold for_range, dominatedBy. apply fold_left_cons_all. Qed.

Lemma no_kids (v : Z) :
  aget firstDominatedNodeIndex (v / nodeFieldCount L)
  = aget firstDominatedNodeIndex (v / nodeFieldCount L + 1) ->
  kids v = [].
Proof.
  intros Heq. unfold dominatedBy. rewrite Heq. by rewrite range_stop by lia.
Qed.

Lemma seen_in_classes (sizes classes : list Z) (seen : gmap Z bool) (c : Z) :
  marks_ok sizes classes seen ->
  default false (seen !! c) = existsb (Z.eqb c) classes.
Proof.
  intros (_ & _ & Hseen). specialize (Hseen c).
  pose proof (existsb_eqb_In c classes) as Hex.
  destruct (default false (seen !! c)), (existsb (Z.eqb c) classes);
    try reflexivity.
  - symmetry. apply Hex, Hseen. reflexivity.
  - apply Hseen, Hex. reflexivity.
Qed.

Lemma marks_ok_push (sizes classes : list Z) (seen : gmap Z bool) (m c : Z) :
  marks_ok sizes classes seen -> ~ In c classes ->
  marks_ok (m :: sizes) (c :: classes) (<[c := true]> seen).
Proof.
  intros [(marks & -> & Hlen) [Hnd Hseen]] Hc. split; [|split].
  - exists (m :: marks). split; [reflexivity|]. cbn [List.length]. lia.
  - by constructor.
  - intros c'. destruct (Z.eq_dec c c') as [<-|Hne].
    + rewrite lookup_insert_eq. cbn [default In]. split; [by left|done].
    + rewrite lookup_insert_ne by done. rewrite Hseen. cbn [In].
      split; [by right|intros [?|?]; done].
Qed.

Lemma marks_ok_reset (sizes classes : list Z) (seen : gmap Z bool) (c : Z) :
  marks_ok sizes classes seen -> ~ In c classes ->
  marks_ok sizes classes (<[c := false]> (<[c := true]> seen)).
Proof.
  intros (Hmarks & Hnd & Hseen) Hc. split; [exact Hmarks|]. split; [exact Hnd|].
  intros c'. destruct (Z.eq_dec c c') as [<-|Hne].
  - rewrite lookup_insert_eq. cbn [default]. split; [discriminate|done].
  - rewrite !lookup_insert_ne by done. apply Hseen.
Qed.

(** The end of a turn after which nothing has been pushed. *)
Lemma walk_unwinds (rest sizes classes : list Z) (seen : gmap Z bool)
    (aggregates : gmap Z AggregatedInfo) :
  marks_ok sizes classes seen ->
  exists seen',
    marks_ok (fst (unwindFrames (len rest) sizes classes))
      (snd (unwindFrames (len rest) sizes classes)) seen'
    /\ (let '(sizes', classes', seen') :=
          unwindClasses (len rest) sizes classes seen in
        Some {| cw_list := rest; cw_sizes := sizes'; cw_classes := classes';
                cw_seenClassNameIndexes := seen';
                cw_aggregates := aggregates |})
       = Some {| cw_list := rest;
                 cw_sizes := fst (unwindFrames (len rest) sizes classes);
                 cw_classes := snd (unwindFrames (len rest) sizes classes);
                 cw_seenClassNameIndexes := seen';
                 cw_aggregates := aggregates |}.
Proof.
  intros Hmarks.
  pose proof (unwindClasses_ok (len rest) sizes classes seen (len_nonneg rest)
                Hmarks) as Hok.
  pose proof (unwindClasses_frames (len rest) sizes classes seen) as Hframes.
  destruct (unwindClasses (len rest) sizes classes seen) as [[sizes' classes'] seen'].
  cbn [fst snd] in Hok, Hframes. exists seen'.
  split; [exact Hok|by rewrite <- Hframes].
Qed.

Lemma walks_down_node (depth : nat) (v : Z) (rest : list Z) :
  is_node L v ->
  (forall k rest', In k (kids v) -> walks_down depth [k] rest') ->
  walks_down (S depth) [v] rest.
Proof.
  intros Hnode Hkids sizes classes seen aggregates Hmarks Hbound Hagg.
  cbn [flat_map]. rewrite List.app_nil_r. cbn [countedNodes].
  fold (kids v).
  set (c := class v).
  set (from := aget firstDominatedNodeIndex (v / nodeFieldCount L)).
  set (to := aget firstDominatedNodeIndex (v / nodeFieldCount L + 1)).
  assert (Hstep : forall st',
            classWalkStep L nodes dominatedNodes firstDominatedNodeIndex
              retainedSizes filter v rest
              {| cw_list := [v] ++ rest; cw_sizes := sizes;
                 cw_classes := classes; cw_seenClassNameIndexes := seen;
                 cw_aggregates := aggregates |} = Some st' ->
            forall fuel,
              walk (S fuel)
                {| cw_list := [v] ++ rest; cw_sizes := sizes;
                   cw_classes := classes; cw_seenClassNameIndexes := seen;
                   cw_aggregates := aggregates |}
              = walk fuel st').
  { intros st' Hst fuel. cbn [classWalk cw_list app]. cbn [app] in Hst.
    by rewrite Hst. }
  assert (Hforest : rev (kids v) <> [] ->
            walks_down depth (rev (kids v)) rest).
  { intros Hne. apply walks_down_forest; [exact Hne|].
    intros k rest' Hk. apply Hkids. by apply in_rev. }
  assert (Hlonger : rev (kids v) <> [] ->
            len rest < len (rev (kids v) ++ rest)).
  { intros Hne. destruct (rev (kids v)) as [|k ks]; [done|].
    apply len_app_cons. }
  pose proof (seen_in_classes sizes classes seen c Hmarks) as Hseen.
  assert (Hpush : for_range from to 1
                    (fun i list => aget dominatedNodes i :: list) rest
                  = (rev (kids v) ++ rest)%list) by apply pushed_kids.
  destruct (negb (existsb (Z.eqb c) classes) && counts v) eqn:Hcnt.
  - apply andb_true_iff in Hcnt as [Hnew Hcounts].
    apply negb_true_iff in Hnew.
    assert (Hc : ~ In c classes).
    { intros Hin. apply existsb_eqb_In in Hin. congruence. }
    destruct (Hagg v Hnode Hcounts) as [a Ha]. fold c in Ha.
    assert (Hadd : add aggregates v
                   = <[c := addMaxRet a (aget retainedSizes (v / nodeFieldCount L))]>
                       aggregates).
    { unfold addRetained. fold c. by rewrite Ha. }
    cbn [andb]. rewrite fold_left_app. cbn [fold_left].
    destruct (Z.eqb_spec from to) as [Heq|Hne]; cbn [negb].
    + (* a counted node that dominates nothing *)
      rewrite (no_kids v Heq). cbn [rev flat_map fold_left].
      destruct (walk_unwinds rest sizes classes seen (add aggregates v) Hmarks)
        as (seen' & Hmarks' & Hstate).
      exists 1%nat, seen'. split; [exact Hmarks'|]. intros fuel.
      cbn [Nat.add]. apply Hstep. unfold classWalkStep.
      cbn [cw_sizes cw_classes cw_seenClassNameIndexes cw_aggregates].
      fold c from to. rewrite Hseen, Hnew, Hcounts, Ha. cbn [negb andb].
      rewrite (proj2 (Z.eqb_eq from to) Heq). cbn [negb].
      rewrite Hpush, (no_kids v Heq). cbn [rev app].
      rewrite <- Hadd. exact Hstate.
    + (* a counted node with a mark *)
      destruct (rev (kids v)) as [|k ks] eqn:Hks.
      * cbn [flat_map fold_left].
        destruct (walk_unwinds rest sizes classes
                    (<[c := false]> (<[c := true]> seen)) (add aggregates v)
                    (marks_ok_reset _ _ _ _ Hmarks Hc))
          as (seen' & Hmarks' & Hstate).
        exists 1%nat, seen'. split; [exact Hmarks'|]. intros fuel.
        cbn [Nat.add]. apply Hstep. unfold classWalkStep.
        cbn [cw_sizes cw_classes cw_seenClassNameIndexes cw_aggregates].
        fold c from to. rewrite Hseen, Hnew, Hcounts, Ha. cbn [negb andb].
        rewrite (proj2 (Z.eqb_neq from to) Hne). cbn [negb].
        rewrite Hpush. cbn [app unwindClasses].
        rewrite Z.eqb_refl. rewrite <- Hadd. exact Hstate.
      * destruct (Hforest ltac:(done) (len rest :: sizes) (c :: classes)
                    (<[c := true]> seen) (add aggregates v))
          as (n & seen' & Hmarks' & Hrun).
        { by apply marks_ok_push. }
        { constructor; [lia|exact Hbound]. }
        { by apply aggregates_ok_add. }
        cbn [unwindFrames] in Hmarks', Hrun. rewrite Z.eqb_refl in Hmarks', Hrun.
        exists (S n), seen'. split; [exact Hmarks'|]. intros fuel.
        cbn [Nat.add]. rewrite <- Hrun. apply Hstep. unfold classWalkStep.
        cbn [cw_sizes cw_classes cw_seenClassNameIndexes cw_aggregates].
        fold c from to. rewrite Hseen, Hnew, Hcounts, Ha. cbn [negb andb].
        rewrite (proj2 (Z.eqb_neq from to) Hne). cbn [negb].
        rewrite Hpush.
        rewrite unwindClasses_below.
        -- by rewrite <- Hadd.
        -- specialize (Hlonger ltac:(done)).
           constructor; [lia|]. eapply Forall_impl; [exact Hbound|].
           intros s Hs. cbv beta in *. lia.
  - (* a node that is not counted *)
    cbn [app].
    assert (Hskip : negb (default false (seen !! c)) && counts v = false)
      by (by rewrite Hseen).
    replace (false && negb (from =? to)) with false by reflexivity.
    destruct (rev (kids v)) as [|k ks] eqn:Hks.
    + cbn [flat_map fold_left].
      destruct (walk_unwinds rest sizes classes seen aggregates Hmarks)
        as (seen' & Hmarks' & Hstate).
      exists 1%nat, seen'. split; [exact Hmarks'|]. intros fuel.
      cbn [Nat.add]. apply Hstep. unfold classWalkStep.
      cbn [cw_sizes cw_classes cw_seenClassNameIndexes cw_aggregates].
      fold c from to. rewrite Hskip.
      rewrite Hpush. cbn [app]. exact Hstate.
    + destruct (Hforest ltac:(done) sizes classes seen aggregates Hmarks Hbound
                  Hagg) as (n & seen' & Hmarks' & Hrun).
      exists (S n), seen'. split; [exact Hmarks'|]. intros fuel.
      cbn [Nat.add]. rewrite <- Hrun. apply Hstep. unfold classWalkStep.
      cbn [cw_sizes cw_classes cw_seenClassNameIndexes cw_aggregates].
      fold c from to. rewrite Hskip.
      rewrite Hpush.
      rewrite unwindClasses_below; [reflexivity|].
      specialize (Hlonger ltac:(done)).
      eapply Forall_impl; [exact Hbound|]. intros s Hs. cbv beta in *. lia.
Qed.

Lemma walks_down_tree (depth : nat) :
  forall v rest,
    is_node L v -> (rank v < depth)%nat -> walks_down depth [v] rest.
Proof.
  induction depth as [|depth IH]; intros v rest Hnode Hv; [lia|].
  apply walks_down_node; [exact Hnode|]. intros k rest' Hk.
  destruct (Hrank v k Hnode Hk) as [Hnode' Hlower].
  apply IH; [exact Hnode'|lia].
Qed.

Lemma calculateClassesRetainedSize_walk (root : Z)
    (aggregates : gmap Z AggregatedInfo) :
  is_node L root -> aggregates_ok aggregates ->
  exists fuel : nat, forall more : nat,
    walk (fuel + more)
      {| cw_list := [root]; cw_sizes := [-1]; cw_classes := [];
         cw_seenClassNameIndexes := ∅; cw_aggregates := aggregates |}
    = WalkOk (fold_left add (counted (S (rank root)) [] root) aggregates).
Proof.
  intros Hroot Hagg.
  destruct (walks_down_tree (S (rank root)) root [] Hroot ltac:(lia) [-1] [] ∅
              aggregates) as (n & seen' & _ & Hrun).
  - split; [exists []; by split|]. split; [constructor|].
    intros c. rewrite lookup_empty. cbn [default In]. split; [discriminate|done].
  - constructor; [|constructor]. unfold len. cbn [List.length]. lia.
  - exact Hagg.
  - exists n. intros more. cbn [app flat_map] in Hrun. rewrite Hrun.
    rewrite List.app_nil_r. by destruct more.
Qed.

Lemma fold_addRetained_class (l : list Z) (aggregates : gmap Z AggregatedInfo)
    (c : Z) :
  fold_left add l aggregates !! c
  = match aggregates !! c with
    | Some a =>
        Some (addMaxRet a
                (sumZ (map (fun v => aget retainedSizes (v / nodeFieldCount L))
                         (List.filter (fun v => class v =? c) l))))
    | None => None
    end.
Proof.
  revert aggregates. induction l as [|v l IH]; intros aggregates.
  - cbn [fold_left List.filter map sumZ fold_right].
    destruct (aggregates !! c) as [a|]; [by rewrite addMaxRet_0|reflexivity].
  - cbn [fold_left List.filter]. rewrite IH. unfold addRetained.
    destruct (Z.eqb_spec (class v) c) as [Heq|Hne].
    + rewrite Heq. destruct (aggregates !! c) as [a|] eqn:Ha.
      * rewrite lookup_insert_eq. cbn [map sumZ fold_right].
        by rewrite addMaxRet_add.
      * by rewrite Ha.
    + destruct (aggregates !! class v) as [b|]; [|reflexivity].
      by rewrite lookup_insert_ne by done.
Qed.
End ClassesRetainedSizeProof.

(** A heap where [B] has the class of [A], which dominates it: the root
    dominates [A] and [D], [A] dominates [B], and [B] dominates [C]. *)
Definition class_under_class : Profile :=
  {| meta := v8_meta;
     p_nodes :=
       [9; 0; 1; 0; 2; 0; 0;     (* root *)
        3; 1; 3; 8; 1; 0; 0;     (* A, a K *)
        3; 1; 5; 16; 1; 0; 0;    (* B, a K *)
        3; 2; 7; 32; 0; 0; 0;    (* C, a V *)
        3; 1; 9; 4; 0; 0; 0];    (* D, a K *)
     p_edges :=
       [2; 3; 7;                 (* root -> A *)
        2; 3; 28;                (* root -> D *)
        2; 3; 14;                (* A -> B *)
        2; 3; 21];               (* B -> C *)
     p_strings := [""; "K"; "V"; "p"]%string;
     root_index := 0 |}.

(** Its nodes with their classes: [K] is class 1 and [V] class 2. *)
Definition class_under_class_nodes : list Z :=
  [9; 0; 1; 0; 2; 0; 32;
   3; 1; 3; 8; 1; 0; 4;
   3; 1; 5; 16; 1; 0; 4;
   3; 2; 7; 32; 0; 0; 8;
   3; 1; 9; 4; 0; 0; 4].

Example calculateObjectNames_class_under_class :
  let p := class_under_class in
  calculateObjectNames (layout_of p) (node_types (meta p)) (p_nodes p)
    (p_strings p)
  = Ok (class_under_class_nodes,
        [""; "K"; "V"; "p"; "(system)"; "(compiled code)"; "Function";
         "RegExp"; "(synthetic)"]%string).
Proof. vm_compute. reflexivity. Qed.

(** The aggregates of the classes [K] and [V] before the walk. *)
Definition class_under_class_aggregates : gmap Z AggregatedInfo :=
  <[1 := {| agg_count := 3; agg_distance := 1; agg_self := 28; agg_maxRet := 0;
            agg_type := "object"; agg_name := Some "K"%string;
            agg_idxs := [7; 14; 28] |}]>
    (<[2 := {| agg_count := 1; agg_distance := 3; agg_self := 32;
               agg_maxRet := 0; agg_type := "object";
               agg_name := Some "V"%string; agg_idxs := [21] |}]> ∅).

(** X30. [calculateClassesRetainedSize] ends without an error and adds to the
    [maxRet] of every class the retained sizes of the nodes of that class that
    pass the filter, have a self size and stand below no counted node of their
    own class in the dominator tree ([countedNodes], from the root); the
    classes without aggregate stay without.  This holds when the dominated
    nodes form a tree of nodes of the node array below the root, and every
    node that can be counted has an aggregate for its class. *)
Theorem calculateClassesRetainedSize_counts_the_topmost_of_a_class
    (L : Layout) (nodes : list Z)
    (dominatedNodes firstDominatedNodeIndex retainedSizes : list Z)
    (filter : option (Z -> bool)) (rank : Z -> nat)
    (aggregates : gmap Z AggregatedInfo) :
  is_node L (rootNodeIndexInternal L) ->
  (forall v k,
     is_node L v ->
     In k (dominatedBy L dominatedNodes firstDominatedNodeIndex v) ->
     is_node L k /\ (rank k < rank v)%nat) ->
  (forall v,
     is_node L v -> countsForClass L nodes filter v = true ->
     is_Some (aggregates !! classIndex L nodes v)) ->
  exists (fuel : nat) (result : gmap Z AggregatedInfo),
    (forall more : nat,
       calculateClassesRetainedSize L nodes dominatedNodes
         firstDominatedNodeIndex retainedSizes filter (fuel + more) aggregates
       = WalkOk result)
    /\ forall c,
         result !! c
         = match aggregates !! c with
           | Some a =>
               Some (addMaxRet a
                       (sumZ
                          (map (fun v => aget retainedSizes (v / nodeFieldCount L))
                             (List.filter (fun v => classIndex L nodes v =? c)
                                (countedNodes L nodes dominatedNodes
                                   firstDominatedNodeIndex filter
                                   (S (rank (rootNodeIndexInternal L))) []
                                   (rootNodeIndexInternal L))))))
           | None => None
           end.
Proof.
  intros Hroot Hrank Hagg.
  destruct (calculateClassesRetainedSize_walk L nodes dominatedNodes
              firstDominatedNodeIndex retainedSizes filter rank Hrank
              (rootNodeIndexInternal L) aggregates Hroot Hagg) as [fuel Hrun].
  exists fuel. eexists. split.
  - intros more. unfold calculateClassesRetainedSize. apply Hrun.
  - intros c.
    apply (fold_addRetained_class L nodes dominatedNodes firstDominatedNodeIndex
             retainedSizes filter rank Hrank).
Qed.

Lemma calculateClassesRetainedSize_counts_the_topmost_of_a_class_witness :
  let L := layout_of class_under_class in
  exists (fuel : nat) (result : gmap Z AggregatedInfo),
    (forall more : nat,
       calculateClassesRetainedSize L class_under_class_nodes [7; 28; 14; 21]
         [0; 2; 3; 4; 4; 4] [60; 56; 48; 32; 4] None (fuel + more)
         class_under_class_aggregates
       = WalkOk result)
    /\ (agg_maxRet <$> result !! 1) = Some 60
    /\ (agg_maxRet <$> result !! 2) = Some 32
    /\ result !! 8 = None.
Proof.
  intros L.
  destruct (calculateClassesRetainedSize_counts_the_topmost_of_a_class L
              class_under_class_nodes [7; 28; 14; 21] [0; 2; 3; 4; 4; 4]
              [60; 56; 48; 32; 4] None
              (fun v => match v / 7 with
                        | 0 => 3%nat | 1 => 2%nat | 2 => 1%nat | _ => 0%nat
                        end)
              class_under_class_aggregates)
    as (fuel & result & Hrun & Hclass).
  - vm_compute. split; [discriminate|split; reflexivity].
  - intros v k (Hv & Hmod & Hcount) Hk.
    change (nodeFieldCount L) with 7 in *. change (nodeCount L) with 5 in *.
    assert (Hcases : v = 0 \/ v = 7 \/ v = 14 \/ v = 21 \/ v = 28).
    { pose proof (Z.div_mod v 7 ltac:(lia)). lia. }
    destruct Hcases as [->|[->|[->|[->| ->]]]]; vm_compute in Hk;
      repeat (destruct Hk as [<-|Hk]); try contradiction;
      (split; [vm_compute; split; [discriminate|split; reflexivity]
              |vm_compute; lia]).
  - intros v (Hv & Hmod & Hcount) Hcounts.
    change (nodeFieldCount L) with 7 in *. change (nodeCount L) with 5 in *.
    assert (Hcases : v = 0 \/ v = 7 \/ v = 14 \/ v = 21 \/ v = 28).
    { pose proof (Z.div_mod v 7 ltac:(lia)). lia. }
    destruct Hcases as [->|[->|[->|[->| ->]]]];
      try (vm_compute in Hcounts; discriminate Hcounts);
      vm_compute; by eexists.
  - exists fuel, result. split; [exact Hrun|].
    rewrite !Hclass. vm_compute. repeat split; reflexivity.
Defined.
